(** * A shallow embedding of the dsp library (dac1976/dsp)

    The library is header-only C++ (namespace [dsp]).  The first part of
    this file embeds the headers, keeping the names of the source:

    - dsp_errors.hpp            -> [outcome]
    - dsp_pi.hpp, dsp_roots.hpp -> [Pi], [TwoPi], [HalfPi], [SqrtTwo], ...
    - dsp_math.hpp              -> [Convolve], [Bessel], [Sinc], [Sine],
                                   [Gcd], [IsPowerOf2]
    - dsp_signals.hpp           -> [Tone], [MultiTone]
    - dsp_window_functions.hpp  -> [WindowGenerator], [Generator],
                                   [WindowFunction]
    - dsp_fft.hpp               -> [CooleyTukeyFFT], [Forward], [Inverse],
                                   [ToMagnitude], [ToPower], [ToPsd],
                                   [To3BinSum], [ThreeBinSumFft],
                                   [MagnitudeFft], [FftConvolve]
    - dsp_filter.hpp            -> [FirLowPassFilter], [FirHighPassFilter],
                                   [FirBandPassFilter], [FirNotchFilter],
                                   [FilterHolder]
    - dsp_resample.hpp          -> [FloatToInt], [ResampleRange],
                                   [ComputeResampleFactors], [Resample]

    The second part states and proves what the library does.

    Conventions of the embedding.

    - [size_t] is a [Z] reduced modulo [2^64], [uint32_t] a [Z] reduced
      modulo [2^32]; a [static_cast<int32_t>] is [to_int32].
    - [std::vector<T>] is a [list T]; [v[i]] is stdpp's lookup, so an
      access out of range is visible: it is undefined behaviour in the
      source and [UB] here.
    - The template parameter [FloatType] is an abstract type with the
      operations of the class [Real] (arithmetic and comparison) and
      [Transcendental] (the <cmath> functions).  No law is assumed of
      them: what is proved holds for any rounding.
    - [DSP_ASSERT_THROW(x, s)] throws [std::runtime_error(s)] when [x] is
      false: the outcome [Throw s].
    - A function that works on a vector held by reference returns how the
      call ends together with the vector after it, so that what a failed
      call leaves behind can be stated.
    - A loop whose exit depends on the data runs on a budget of passes
      ([Diverge] when it is used up); where a result is claimed the
      budget is shown to suffice. *)

From Stdlib Require Import ZArith Znumtheory QArith Qround Qabs Lia Lqa String.
From stdpp Require Import base option list.

Local Open Scope Z_scope.

(** ** Machine integers *)

Module Machine.

Definition wrap64 (z : Z) : Z := z mod 2 ^ 64.
Definition wrap32 (z : Z) : Z := z mod 2 ^ 32.

(** [static_cast<int32_t>(z)] (and [static_cast<int>(z)]) of an unsigned
    value: two's complement. *)
Definition to_int32 (z : Z) : Z := (z + 2 ^ 31) mod 2 ^ 32 - 2 ^ 31.

Definition INT_MAX : Z := 2 ^ 31 - 1.

End Machine.

(** ** dsp_errors.hpp *)

(** How a call ends: it returns a value, it throws
    [std::runtime_error(what)], it runs into undefined behaviour (an access
    outside a vector, a signed overflow), or a loop of the embedding used
    up its iteration budget without leaving. *)
Inductive outcome (A : Type) : Type :=
| Ok (a : A)
| Throw (what : string)
| UB
| Diverge.
Arguments Ok {A} a.
Arguments Throw {A} what.
Arguments UB {A}.
Arguments Diverge {A}.

(** A call that returns nothing. *)
Abbreviation status := (outcome unit).
Abbreviation Done := (Ok tt).

#[export] Instance outcome_ret : MRet outcome := fun A a => Ok a.

#[export] Instance outcome_bind : MBind outcome := fun A B f m =>
  match m with
  | Ok a => f a
  | Throw what => Throw what
  | UB => UB
  | Diverge => Diverge
  end.

(** A vector access: [None] is an access out of range. *)
Definition lift {A : Type} (o : option A) : outcome A :=
  match o with
  | Some a => Ok a
  | None => UB
  end.

(** ** The floating point type

    [FloatType] of the templates.  [of_Q] stands for a numeric literal or
    a [static_cast<FloatType>] of an integer. *)

Class Real (F : Type) : Type := {
  of_Q : Q -> F;
  fadd : F -> F -> F;
  fsub : F -> F -> F;
  fmul : F -> F -> F;
  fdiv : F -> F -> F;
  fabs : F -> F;
  fltb : F -> F -> bool;
  fleb : F -> F -> bool
}.

Class Transcendental (F : Type) : Type := {
  fsqrt : F -> F;
  fcos : F -> F;
  fsin : F -> F;
  facos : F -> F;
  fpow : F -> F -> F;
  fhypot : F -> F -> F
}.

Declare Scope float_scope.
Delimit Scope float_scope with F.
Infix "+" := fadd : float_scope.
Infix "-" := fsub : float_scope.
Infix "*" := fmul : float_scope.
Infix "/" := fdiv : float_scope.
Infix "<?" := fltb : float_scope.
Infix "<=?" := fleb : float_scope.

Definition of_Z {F : Type} `{Real F} (z : Z) : F := of_Q (inject_Z z).
Definition of_nat {F : Type} `{Real F} (n : nat) : F := of_Z (Z.of_nat n).

(** [std::complex<FloatType>] *)
Record complex (F : Type) : Type := Cplx { real : F; imag : F }.
Arguments Cplx {F} real imag.
Arguments real {F} c.
Arguments imag {F} c.

Section Complex.
Context {F : Type} `{Real F} `{Transcendental F}.

Definition czero : complex F := Cplx (of_Z 0) (of_Z 0).

(** [complex_type(one)]: the imaginary part is value-initialised. *)
Definition cone : complex F := Cplx (of_Z 1) (of_Z 0).

Definition cadd (x y : complex F) : complex F :=
  Cplx (real x + real y)%F (imag x + imag y)%F.

Definition csub (x y : complex F) : complex F :=
  Cplx (real x - real y)%F (imag x - imag y)%F.

Definition cmul (x y : complex F) : complex F :=
  Cplx (real x * real y - imag x * imag y)%F
       (real x * imag y + imag x * real y)%F.

(** [z *= s] and [z /= s] for a real [s]. *)
Definition cscale (z : complex F) (s : F) : complex F :=
  Cplx (real z * s)%F (imag z * s)%F.

Definition cdiv_real (z : complex F) (s : F) : complex F :=
  Cplx (real z / s)%F (imag z / s)%F.

(** [std::abs(z)] and [std::norm(z)] *)
Definition cabs (z : complex F) : F := fhypot (real z) (imag z).

Definition cnorm (z : complex F) : F :=
  (real z * real z + imag z * imag z)%F.

End Complex.

(** ** Loops and vector accesses *)

(** [for (i = lo; i < lo + n; ++i) body], the state threaded through; the
    loop is left at the first step that does not return. *)
Fixpoint for_range {S : Type} (n : nat) (i : nat)
  (body : nat -> S -> outcome S) (s : S) : outcome S :=
  match n with
  | O => Ok s
  | Datatypes.S n' => s' ← body i s; for_range n' (Datatypes.S i) body s'
  end.

(** [v[i] = x]; outside the vector the behaviour is undefined. *)
Definition store {A : Type} (i : nat) (x : A) (v : list A) : option (list A) :=
  if decide (i < length v)%nat then Some (<[i := x]> v) else None.

(** [std::copy(src.begin(), src.end(), next(dst.begin(), pos))], and
    [std::transform] into [dst] likewise: [dst] must have the room. *)
Definition write_at {A : Type} (pos : nat) (src dst : list A) : option (list A) :=
  if decide (pos + length src <= length dst)%nat
  then Some (take pos dst ++ src ++ drop (pos + length src) dst)
  else None.

(** [std::fill(next(v.begin(), pos), v.end(), x)] *)
Definition fill_from {A : Type} (pos : nat) (x : A) (v : list A) : option (list A) :=
  if decide (pos <= length v)%nat
  then Some (take pos v ++ replicate (length v - pos) x)
  else None.

(** [std::next(v.begin(), i)] for a signed [i]: an index of [v], or past
    either end. *)
Definition iter_at {A : Type} (v : list A) (i : Z) : option nat :=
  if (0 <=? i) && (i <=? Z.of_nat (length v)) then Some (Z.to_nat i) else None.

(** ** dsp_math.hpp *)

Section Convolve.
Context {V : Type} (zero : V) (add mul : V -> V -> V).

(** One pass of the inner loop: the product of [first1[kSub]] and
    [first2[k - kSub]] is added to the output slot. *)
Definition Convolve_step (x h : list V) (k kSub : nat) (result : list V)
  : outcome (list V) :=
  a ← lift (x !! kSub);
  b ← lift (h !! (k - kSub)%nat);
  r ← lift (result !! k);
  lift (store k (add r (mul a b)) result).

(** The body of the loop over [k]. *)
Definition Convolve_body (x h : list V) (k : nat) (result : list V)
  : outcome (list V) :=
  let M := length x in
  let N := length h in
  result ← lift (store k zero result);
  let kMin := if (N - 1 <=? k)%nat then (k - (N - 1))%nat else 0%nat in
  let kMax := if (k <? M - 1)%nat then k else (M - 1)%nat in
  for_range (Datatypes.S kMax - kMin) kMin (Convolve_step x h k) result.

(** [Convolve(first1, last1, first2, last2, result)]: how the call ends and
    the output range after it.  The counter [k] is an [int]: more than
    [INT_MAX] outputs overflow it. *)
Definition Convolve (x h result : list V) : status * list V :=
  let M := length x in
  let N := length h in
  if negb (0 <? M)%nat then (Throw "range 1 invalid", result)
  else if negb (0 <? N)%nat then (Throw "range 2 invalid", result)
  else
    let K := (M + N - 1)%nat in
    if Machine.INT_MAX <? Z.of_nat K then (UB, result)
    else match for_range K 0 (Convolve_body x h) result with
         | Ok result' => (Done, result')
         | Throw what => (Throw what, result)
         | UB => (UB, result)
         | Diverge => (Diverge, result)
         end.

End Convolve.

Section MathFloat.
Context {F : Type} `{Real F} `{Transcendental F}.

(** [Bessel(x)]: the nine terms of the series, [i = 1 .. 9]. *)
Definition Bessel_term (x : F) (i : nat) : F :=
  let xToIpower := fpow (x / of_Z 2)%F (of_nat i) in
  let factorial := Z.of_nat (fact i) in
  fpow (xToIpower / of_Z factorial)%F (of_Z 2).

Definition Bessel (x : F) : F :=
  (fold_left (fun sum i => sum + Bessel_term x i)%F (seq 1 9) (of_Z 0)
   + of_Z 1)%F.

Definition default_limitThreshold : F := of_Q (1 # 1000000000).

Definition Sinc (x limitThreshold : F) : F :=
  if (fabs x <? limitThreshold)%F then of_Z 1 else (fsin x / x)%F.

(** [Pi<FloatType>()] of dsp_pi.hpp *)
Definition Pi : F := facos (of_Z (-1)).
Definition TwoPi : F := (of_Z 2 * Pi)%F.

Definition SincNorm (x limitThreshold : F) : F :=
  if (fabs x <? limitThreshold)%F then of_Z 1
  else let X := (Pi * x)%F in (fsin X / X)%F.

End MathFloat.

(** [Gcd(a, b)], the binary algorithm on an unsigned 64-bit type.  Each
    call halves one argument at least, so 130 nested calls are never
    reached on 64-bit arguments; [None] is the exhausted budget. *)
Fixpoint Gcd_rec (fuel : nat) (a b : Z) : option Z :=
  match fuel with
  | O => None
  | Datatypes.S fuel' =>
      if a =? b then Some a
      else if 0 =? a then Some b
      else if 0 =? b then Some a
      else if Z.land (Z.lnot a) 1 =? 1 then
        if Z.land b 1 =? 1 then Gcd_rec fuel' (Z.shiftr a 1) b
        else g ← Gcd_rec fuel' (Z.shiftr a 1) (Z.shiftr b 1);
             Some (Machine.wrap64 (Z.shiftl g 1))
      else if Z.land (Z.lnot b) 1 =? 1 then Gcd_rec fuel' a (Z.shiftr b 1)
      else if b <? a then Gcd_rec fuel' (Z.shiftr (a - b) 1) b
      else Gcd_rec fuel' (Z.shiftr (b - a) 1) a
  end.

Definition Gcd (a b : Z) : option Z := Gcd_rec 130 a b.

(** [return (n > 0) && ((n & (n - 1)) == 0);] *)
Definition IsPowerOf2 (n : Z) : bool :=
  (0 <? n) && (Z.land n (n - 1) =? 0).

(** [n] is [2^k] for a natural [k]. *)
Definition is_pow2 (n : Z) : Prop := exists k : Z, 0 <= k /\ n = 2 ^ k.

(** ** [double]

    [ComputeResampleFactors], [Resample::ComputeResampledSize] and the
    constructor of [FftConvolve] compute in [double].  A [double] is
    embedded as the rational it denotes and its operations as the exact
    ones: the integers these functions convert are exact in a [double] up
    to [2^53], and between two such integers the rounded quotient has the
    floor of the exact one.  The one sum that is rounded to another
    integer, [std::floor(x) + 0.5] on an odd integer [x] from [2^52] to
    [2^53], is written out in [half_rounds_up]. *)

Module Double.

Definition floor (q : Q) : Q := inject_Z (Qfloor q).
Definition ceil (q : Q) : Q := inject_Z (Qceiling q).

(** [static_cast<size_t>(q)]: towards zero. *)
Definition to_size_t (q : Q) : Z :=
  Machine.wrap64 (if Qle_bool 0 q then Qfloor q else Qceiling q).

(** [std::floor(std::log2(n))] of a positive integer [n]. *)
Definition floor_log2 (n : Z) : Q := inject_Z (Z.log2 n).

(** [std::numeric_limits<double>::max()] *)
Definition max : Q := inject_Z (2 ^ 1024 - 2 ^ 971).

(** [a < b] and [a <= b] *)
Definition ltb (a b : Q) : bool := negb (Qle_bool b a).
Definition leb (a b : Q) : bool := Qle_bool a b.

(** [q] is an odd integer from [2^52] to [2^53].  A [double] has 53
    significant bits: from [2^52] to [2^53] the values of the type are
    the integers, [q + 0.5] lies half way between [q] and [q + 1], and
    the sum is rounded to the even one of the two, which for an odd [q]
    is [q + 1].  On every other value of the type the conversion of
    [std::floor(q) + 0.5] and of [std::ceil(q) + 0.5] to an integer is
    that of the exact sum: a value with a fractional part lies below
    [2^52], where the sum of an integer and [0.5] is a value of the type
    (and [2^52 + 0.5] is rounded to the even [2^52]); an even integer up
    to [2^53] and every value from [2^53] on is the rounded sum itself. *)
Definition half_rounds_up (q : Q) : bool :=
  Qeq_bool (inject_Z (Qfloor q)) q
  && (2 ^ 52 <=? Qfloor q) && (Qfloor q <? 2 ^ 53) && Z.odd (Qfloor q).

(** [std::floor(q) + 0.5] and [std::ceil(q) + 0.5] *)
Definition floor_plus_half (q : Q) : Q :=
  if half_rounds_up q then (floor q + 1)%Q else (floor q + 0.5)%Q.
Definition ceil_plus_half (q : Q) : Q :=
  if half_rounds_up q then (ceil q + 1)%Q else (ceil q + 0.5)%Q.

End Double.

(** ** dsp_window_functions.hpp *)

(** The window generators of the header.  [KaiserGenerator] carries its
    [double m_beta]. *)
Inductive Generator : Type :=
| FlatTop1Generator
| FlatTop2Generator
| FlatTop3Generator
| FlatTop4Generator
| FlatTop5Generator
| FlatTop6Generator
| FlatTop7Generator
| HannGenerator
| HammingGenerator
| RectangleGenerator
| BartlettGenerator
| ExactBlackmanGenerator
| BlackmanGenerator
| KaiserGenerator (m_beta : Q)
| LanczosGenerator.

(** [explicit KaiserGenerator(double beta)] *)
Definition KaiserGenerator_new (beta : Q) : outcome Generator :=
  if negb (Double.ltb 0 beta) then Throw "beta <= 0"
  else Ok (KaiserGenerator beta).

Section Windows.
Context {F : Type} `{Real F} `{Transcendental F}.

(** One pass of the loop of [WindowGenerator]; the state is the counter
    [nRev] and the vector. *)
Definition WindowGenerator_body (evalCoeff : F -> F -> outcome F)
  (sizeMinusOne : F) (n : nat) (st : Z * list F) : outcome (Z * list F) :=
  let '(nRev, windowCoeffs) := st in
  c ← evalCoeff (of_nat n) sizeMinusOne;
  windowCoeffs ← lift (store n c windowCoeffs);
  c ← lift (windowCoeffs !! n);
  windowCoeffs ← lift (store (Z.to_nat nRev) c windowCoeffs);
  Ok (Machine.wrap64 (nRev - 1), windowCoeffs).

(** [WindowGenerator(windowCoeffs, evalCoeff)]: the vector after the call. *)
Definition WindowGenerator (evalCoeff : F -> F -> outcome F)
  (windowCoeffs : list F) : outcome (list F) :=
  let size := Z.of_nat (length windowCoeffs) in
  if negb (1 <? size) then Throw "invalid window size"
  else
    let sizeMinusOne := of_Z (size - 1) in
    let halfSize := Z.shiftr size 1 in
    '(_, windowCoeffs) ←
      for_range (Z.to_nat halfSize) 0
        (WindowGenerator_body evalCoeff sizeMinusOne)
        (Machine.wrap64 (size - 1), windowCoeffs);
    if size mod 2 =? 1 then
      c ← evalCoeff (of_Z halfSize) sizeMinusOne;
      lift (store (Z.to_nat halfSize) c windowCoeffs)
    else Ok windowCoeffs.

(** One pass of the loop of [EvaluateFlatTopCoefficient]; the state is
    [(sign, i, windowCoeff)]. *)
Definition FlatTop_step (twoPiN sizeMinusOne : F) (st : F * Z * F) (a : F)
  : F * Z * F :=
  let '(sign, i, windowCoeff) := st in
  ((sign * of_Z (-1))%F,
   i + 1,
   (windowCoeff + sign * a * fcos ((of_Z i * twoPiN) / sizeMinusOne))%F).

Definition EvaluateFlatTopCoefficient (n sizeMinusOne : F) (eqCoeffs : list F)
  : outcome F :=
  if negb (1 <? Z.of_nat (length eqCoeffs))
  then Throw "invalid number of equation coefficients"
  else
    let twoPiN := (TwoPi * n)%F in
    match eqCoeffs with
    | [] => UB
    | first :: rest =>
        Ok (snd (fold_left (FlatTop_step twoPiN sizeMinusOne) rest
                   (of_Z (-1), 1, first)))
    end.

(** The tables [eqCoeffs] of the seven flat-top generators. *)
Definition FlatTop_eqCoeffs (g : Generator) : list Q :=
  match g with
  | FlatTop1Generator => [1; 1.933; 1.286; 0.388; 0.0322]
  | FlatTop2Generator => [0.2810639; 0.5208972; 0.1980399]
  | FlatTop3Generator =>
      [0.21557895; 0.41663158; 0.277263158; 0.083578947; 0.006947368]
  | FlatTop4Generator => [0.9994484; 1.911456; 1.076578; 0.183162]
  | FlatTop5Generator => [1; 1.869032; 1.195972; 0.035928; 0.030916]
  | FlatTop6Generator =>
      [1; 1.93774046310203; 1.32530734987255; 0.43206975880342;
       0.04359135851569; 0.00015175580171]
  | FlatTop7Generator => [0.1881999; 0.36923; 0.28702; 0.13077; 0.02488]
  | _ => []
  end%Q.

(** [EvaluateCoefficient(n, sizeMinusOne)] of each generator.
    [RectangleGenerator] has none in the source and [generate] does not
    use its entry. *)
Definition EvaluateCoefficient (g : Generator) (n sizeMinusOne : F)
  : outcome F :=
  match g with
  | FlatTop1Generator | FlatTop2Generator | FlatTop3Generator
  | FlatTop4Generator | FlatTop5Generator | FlatTop6Generator
  | FlatTop7Generator =>
      EvaluateFlatTopCoefficient n sizeMinusOne (of_Q <$> FlatTop_eqCoeffs g)
  | HannGenerator =>
      let twoPiN := (TwoPi * n)%F in
      Ok (of_Q 0.5 * (of_Z 1 - fcos (twoPiN / sizeMinusOne)))%F
  | HammingGenerator =>
      let a0 := of_Q 0.53836 in
      let a1 := of_Q 0.46164 in
      let twoPiN := (TwoPi * n)%F in
      Ok (a0 - (a1 * fcos (twoPiN / sizeMinusOne)))%F
  | RectangleGenerator => Ok (of_Z 1)
  | BartlettGenerator =>
      let commonTerm := (sizeMinusOne / of_Z 2)%F in
      let numerator := (n - commonTerm)%F in
      Ok (of_Z 1 - fabs (numerator / commonTerm))%F
  | ExactBlackmanGenerator =>
      let a0 := of_Q (7938 / 18608) in
      let a1 := of_Q (9240 / 18608) in
      let a2 := of_Q (1430 / 18608) in
      let FOUR_PI := (of_Z 2 * TwoPi)%F in
      let twoPiN := (TwoPi * n)%F in
      let fourPiN := (FOUR_PI * n)%F in
      Ok (a0 - (a1 * fcos (twoPiN / sizeMinusOne))
          + (a2 * fcos (fourPiN / sizeMinusOne)))%F
  | BlackmanGenerator =>
      let a0 := of_Q 0.42 in
      let a1 := of_Q 0.5 in
      let a2 := of_Q 0.08 in
      let FOUR_PI := (of_Z 2 * TwoPi)%F in
      let twoPiN := (TwoPi * n)%F in
      let fourPiN := (FOUR_PI * n)%F in
      Ok (a0 - (a1 * fcos (twoPiN / sizeMinusOne))
          + (a2 * fcos (fourPiN / sizeMinusOne)))%F
  | KaiserGenerator m_beta =>
      let term := (((of_Z 2 * n) / sizeMinusOne) - of_Z 1)%F in
      let arg := (of_Q m_beta * fsqrt (of_Z 1 - (term * term)))%F in
      Ok (Bessel arg / Bessel (of_Q m_beta))%F
  | LanczosGenerator =>
      let arg := (((of_Z 2 * n) / sizeMinusOne) - of_Z 1)%F in
      Ok (SincNorm arg default_limitThreshold)
  end.

(** [operator()(windowCoeffs)] of a generator: the vector after the call.
    [RectangleGenerator] fills the vector itself, every other generator
    goes through [WindowGenerator]. *)
Definition generate (g : Generator) (windowCoeffs : list F)
  : outcome (list F) :=
  match g with
  | RectangleGenerator =>
      let size := Z.of_nat (length windowCoeffs) in
      if negb (1 <? size) then Throw "invalid window size"
      else lift (fill_from 0 (of_Z 1) windowCoeffs)
  | _ => WindowGenerator (EvaluateCoefficient g) windowCoeffs
  end.

(** [class WindowFunction] *)
Record WindowFunction : Type := {
  m_windowCoefficients : list F;
  m_ignoreLastValue : bool;
  m_effectiveSize : Z;
  m_coherentGain : F;
  m_powerGain : F;
  m_enbw : F
}.

Definition CoherentGain (w : WindowFunction) : F := m_coherentGain w.
Definition PowerGain (w : WindowFunction) : F := m_powerGain w.
Definition CombinedGain (w : WindowFunction) : F :=
  (m_coherentGain w * m_powerGain w)%F.
Definition EffectiveNoiseBandwidth (w : WindowFunction) : F := m_enbw w.
Definition ActualSize (w : WindowFunction) : Z :=
  Z.of_nat (length (m_windowCoefficients w)).
Definition EffectiveSize (w : WindowFunction) : Z := m_effectiveSize w.

(** One pass of the loop of [ComputeGains]; the state is
    [(m_coherentGain, m_enbw)]. *)
Definition ComputeGains_body (coeffs : list F) (i : nat) (st : F * F)
  : outcome (F * F) :=
  let '(coherentGain, enbw) := st in
  c ← lift (coeffs !! i);
  Ok ((coherentGain + c)%F, (enbw + c * c)%F).

Definition ComputeGains (w : WindowFunction) : outcome WindowFunction :=
  let size := EffectiveSize w in
  '(coherentGain, enbw) ←
    for_range (Z.to_nat size) 0 (ComputeGains_body (m_windowCoefficients w))
      (m_coherentGain w, m_enbw w);
  let enbwDivisor := (coherentGain * coherentGain)%F in
  let enbw :=
    if (of_Q (1 # 1000000000) <? fabs enbwDivisor)%F
    then ((of_Z size * enbw) / enbwDivisor)%F
    else enbw in
  let coherentGain := (coherentGain / of_Z size)%F in
  Ok {| m_windowCoefficients := m_windowCoefficients w;
        m_ignoreLastValue := m_ignoreLastValue w;
        m_effectiveSize := m_effectiveSize w;
        m_coherentGain := coherentGain;
        m_powerGain := (coherentGain * coherentGain * enbw)%F;
        m_enbw := enbw |}.

(** [WindowFunction(generator, size, ignoreLastValue)].  The members are
    initialised in the order of their declaration; the initialiser of
    [m_effectiveSize] tests the parameter [ignoreLastValue]. *)
Definition WindowFunction_new (generator : list F -> outcome (list F))
  (size : Z) (ignoreLastValue : bool) : outcome WindowFunction :=
  let windowCoefficients := replicate (Z.to_nat size) (of_Z 1) in
  let actual := Z.of_nat (length windowCoefficients) in
  let ignoreLast := ignoreLastValue && (size mod 2 =? 1) in
  let effectiveSize :=
    if ignoreLastValue then Machine.wrap64 (actual - 1) else actual in
  windowCoefficients ← generator windowCoefficients;
  ComputeGains {| m_windowCoefficients := windowCoefficients;
                  m_ignoreLastValue := ignoreLast;
                  m_effectiveSize := effectiveSize;
                  m_coherentGain := of_Z 0;
                  m_powerGain := of_Z 0;
                  m_enbw := of_Z 0 |}.

(** [Coefficients()] *)
Definition Coefficients (w : WindowFunction) : outcome (list F) :=
  if Z.of_nat (length (m_windowCoefficients w)) =? m_effectiveSize w
  then Ok (m_windowCoefficients w)
  else
    i ← lift (iter_at (m_windowCoefficients w)
                (Machine.to_int32 (m_effectiveSize w)));
    Ok (take i (m_windowCoefficients w)).

(** [operator()(dataFirst, dataLast, resultFirst)] on real data: how the
    call ends and the output range after it. *)
Definition WindowFunction_apply (w : WindowFunction) (data result : list F)
  : status * list F :=
  if negb (Z.of_nat (length data) =? m_effectiveSize w)
  then (Throw "invalid data size", result)
  else if decide (length data <= length (m_windowCoefficients w))%nat
  then match write_at 0 (zip_with fmul data (m_windowCoefficients w)) result with
       | Some result' => (Done, result')
       | None => (UB, result)
       end
  else (UB, result).

End Windows.

(** ** dsp_fft.hpp *)

(** A call on a vector held by reference: how it ends, and the vector
    after it ([data] when the call did not return). *)
Definition in_place {S : Type} (s : S) (r : outcome S) : status * S :=
  match r with
  | Ok s' => (Done, s')
  | Throw what => (Throw what, s)
  | UB => (UB, s)
  | Diverge => (Diverge, s)
  end.

(** Sequencing of two calls on the same state. *)
Definition and_then {S : Type} (r : status * S) (k : S -> status * S)
  : status * S :=
  match r with
  | (Ok _, s) => k s
  | _ => r
  end.

(** The bit reversal of [CooleyTukeyFFT], in [uint32_t]; [m] is the width
    of the transform.  The last shift is by [32 - m], an unsigned
    difference: a shift by the width of the type or more is undefined,
    which is the case for [m = 0] (one sample). *)
Definition reverse_bits (m b : Z) : outcome Z :=
  let b := Z.lor (Z.shiftr (Z.land b 0xaaaaaaaa) 1)
                 (Machine.wrap32 (Z.shiftl (Z.land b 0x55555555) 1)) in
  let b := Z.lor (Z.shiftr (Z.land b 0xcccccccc) 2)
                 (Machine.wrap32 (Z.shiftl (Z.land b 0x33333333) 2)) in
  let b := Z.lor (Z.shiftr (Z.land b 0xf0f0f0f0) 4)
                 (Machine.wrap32 (Z.shiftl (Z.land b 0x0f0f0f0f) 4)) in
  let b := Z.lor (Z.shiftr (Z.land b 0xff00ff00) 8)
                 (Machine.wrap32 (Z.shiftl (Z.land b 0x00ff00ff) 8)) in
  let count := Machine.wrap32 (32 - m) in
  if count <? 32
  then Ok (Z.shiftr (Z.lor (Z.shiftr b 16) (Machine.wrap32 (Z.shiftl b 16)))
             count)
  else UB.

Section FFT.
Context {F : Type} `{Real F} `{Transcendental F}.

(** The body of the innermost loop of [CooleyTukeyFFT]. *)
Definition butterfly (k : Z) (T : complex F) (a : Z) (data : list (complex F))
  : outcome (list (complex F)) :=
  let b := Machine.wrap32 (a + k) in
  x ← lift (data !! Z.to_nat a);
  y ← lift (data !! Z.to_nat b);
  let t := csub x y in
  data ← lift (store (Z.to_nat a) (cadd x y) data);
  lift (store (Z.to_nat b) (cmul t T) data).

(** [for (uint32_t a = l; a < N; a += n)] *)
Fixpoint butterfly_loop (fuel : nat) (N n k : Z) (T : complex F) (a : Z)
  (data : list (complex F)) : outcome (list (complex F)) :=
  if a <? N then
    match fuel with
    | O => Diverge
    | Datatypes.S fuel' =>
        data ← butterfly k T a data;
        butterfly_loop fuel' N n k T (Machine.wrap32 (a + n)) data
    end
  else Ok data.

(** The body of [for (uint32_t l = 0; l < k; ++l)]; the state is the
    twiddle factor [T] and the vector. *)
Definition twiddle_body (N n k : Z) (phiT : complex F) (l : nat)
  (st : complex F * list (complex F))
  : outcome (complex F * list (complex F)) :=
  let '(T, data) := st in
  data ← butterfly_loop (Z.to_nat N) N n k T (Z.of_nat l) data;
  Ok (cmul T phiT, data).

(** [while (k > 1)] *)
Fixpoint stage_loop (fuel : nat) (N k : Z) (phiT : complex F)
  (data : list (complex F)) : outcome (list (complex F)) :=
  if 1 <? k then
    match fuel with
    | O => Diverge
    | Datatypes.S fuel' =>
        let n := k in
        let k := Z.shiftr k 1 in
        let phiT := cmul phiT phiT in
        '(_, data) ←
          for_range (Z.to_nat k) 0 (twiddle_body N n k phiT) (cone, data);
        stage_loop fuel' N k phiT data
    end
  else Ok data.

(** The body of the loop that reorders the output. *)
Definition decimate_body (m : Z) (a : nat) (data : list (complex F))
  : outcome (list (complex F)) :=
  b ← reverse_bits m (Z.of_nat a);
  if Z.of_nat a <? b then
    x ← lift (data !! a);
    y ← lift (data !! Z.to_nat b);
    data ← lift (store a y data);
    lift (store (Z.to_nat b) x data)
  else Ok data.

(** [CooleyTukeyFFT(data)].  [N] is the size in [uint32_t]: a size that
    is a multiple of [2^32] gives [0].  [m] is
    [static_cast<uint32_t>(std::log2(fN))]: for [N = 0] the logarithm is
    minus infinity and its conversion is undefined; otherwise it is taken
    exact, the function being private and both callers passing a power of
    two. *)
Definition CooleyTukeyFFT (data : list (complex F))
  : outcome (list (complex F)) :=
  let N := Machine.wrap32 (Z.of_nat (length data)) in
  let fN := of_Z N in
  let thetaT := (Pi / fN)%F in
  let phiT := Cplx (fcos thetaT) (fsin thetaT) in
  data ← stage_loop 32 N N phiT data;
  m ← (if 0 <? N then Ok (Z.log2 N) else UB);
  for_range (Z.to_nat N) 0 (decimate_body m) data.

(** [static void Forward(complex_vector& data)] *)
Definition Forward (data : list (complex F)) : status * list (complex F) :=
  if negb (IsPowerOf2 (Z.of_nat (length data)))
  then (Throw "FFT size not a power of 2", data)
  else in_place data (CooleyTukeyFFT data).

Definition Normalise (cplxFft : list (complex F)) : list (complex F) :=
  let N := of_nat (length cplxFft) in
  (fun z => cdiv_real z N) <$> cplxFft.

Definition Denormalise (cplxFft : list (complex F)) : list (complex F) :=
  let N := of_nat (length cplxFft) in
  (fun z => cscale z N) <$> cplxFft.

(** The lambda [conjugate] of [Inverse]. *)
Definition conjugate (cplxVector : list (complex F)) : list (complex F) :=
  (fun z => Cplx (real z) (imag z * of_Z (-1))%F) <$> cplxVector.

(** [static void Inverse(complex_vector& cplxFft)] *)
Definition Inverse (cplxFft : list (complex F)) : status * list (complex F) :=
  if negb (IsPowerOf2 (Z.of_nat (length cplxFft)))
  then (Throw "FFT size not a power of 2", cplxFft)
  else
    in_place cplxFft
      (data ← CooleyTukeyFFT (conjugate cplxFft);
       Ok (Normalise (conjugate data))).

(** [fullSpectrum ? cplxFft.size() : cplxFft.size() / 2] *)
Definition halfSize_of (cplxFft : list (complex F)) (fullSpectrum : bool) : Z :=
  let size := Z.of_nat (length cplxFft) in
  if fullSpectrum then size else size / 2.

(** The body of the first loop of the in-place [ToMagnitude]. *)
Definition ToMagnitude_body (i : nat) (cplxFft : list (complex F))
  : outcome (list (complex F)) :=
  z ← lift (cplxFft !! i);
  let z := if decide (i <> 0%nat) then cscale z (of_Z 2) else z in
  let magnitude := cabs z in
  lift (store i (Cplx magnitude (of_Z 0)) cplxFft).

(** [static void ToMagnitude(complex_vector& cplxFft, bool zeroUnused,
    bool fullSpectrum)] *)
Definition ToMagnitude (cplxFft : list (complex F))
  (zeroUnused fullSpectrum : bool) : outcome (list (complex F)) :=
  let halfSize := halfSize_of cplxFft fullSpectrum in
  endItr ← lift (iter_at cplxFft (Machine.to_int32 halfSize));
  cplxFft ← for_range endItr 0 ToMagnitude_body cplxFft;
  if zeroUnused then lift (fill_from endItr czero cplxFft) else Ok cplxFft.

(** The body of the first loop of the in-place [ToPower]. *)
Definition ToPower_body (i : nat) (cplxFft : list (complex F))
  : outcome (list (complex F)) :=
  z ← lift (cplxFft !! i);
  let power := cnorm z in
  lift (store i (Cplx power (of_Z 0)) cplxFft).

(** [static void ToPower(complex_vector& cplxFft, bool zeroUnused,
    bool fullSpectrum)] *)
Definition ToPower (cplxFft : list (complex F))
  (zeroUnused fullSpectrum : bool) : outcome (list (complex F)) :=
  let halfSize := halfSize_of cplxFft fullSpectrum in
  endItr ← lift (iter_at cplxFft (Machine.to_int32 halfSize));
  cplxFft ← for_range endItr 0 ToPower_body cplxFft;
  if zeroUnused then lift (fill_from endItr czero cplxFft) else Ok cplxFft.

(** The body of the loop of the [ToMagnitude] that writes a real
    vector. *)
Definition ToMagnitude_real_body (cplxFft : list (complex F)) (index : nat)
  (magFft : list F) : outcome (list F) :=
  z ← lift (cplxFft !! index);
  lift (store index
          (if decide (index <> 0%nat) then cabs (cscale z (of_Z 2))
           else cabs z)
          magFft).

(** [static void ToMagnitude(complex_vector const& cplxFft,
    real_vector& magFft, bool fullSpectrum)]: [magFft] after the call. *)
Definition ToMagnitude_real (cplxFft : list (complex F)) (magFft : list F)
  (fullSpectrum : bool) : outcome (list F) :=
  let halfSize := halfSize_of cplxFft fullSpectrum in
  endItr ← lift (iter_at cplxFft (Machine.to_int32 halfSize));
  let magFft := resize (Z.to_nat halfSize) (of_Z 0) magFft in
  for_range endItr 0 (ToMagnitude_real_body cplxFft) magFft.

(** The body of the loop of the [ToPower] that writes a real vector. *)
Definition ToPower_real_body (cplxFft : list (complex F)) (index : nat)
  (powerSpectrum : list F) : outcome (list F) :=
  z ← lift (cplxFft !! index);
  lift (store index (cnorm z) powerSpectrum).

(** [static void ToPower(complex_vector const& cplxFft,
    real_vector& powerSpectrum, bool fullSpectrum)]: [powerSpectrum] after
    the call. *)
Definition ToPower_real (cplxFft : list (complex F)) (powerSpectrum : list F)
  (fullSpectrum : bool) : outcome (list F) :=
  let halfSize := halfSize_of cplxFft fullSpectrum in
  endItr ← lift (iter_at cplxFft (Machine.to_int32 halfSize));
  let powerSpectrum := resize (Z.to_nat halfSize) (of_Z 0) powerSpectrum in
  for_range endItr 0 (ToPower_real_body cplxFft) powerSpectrum.

(** [class FftConvolve] *)
Record FftConvolve : Type := {
  m_discreteConvolutionLength : Z;
  m_workspace1 : list (complex F);
  m_workspace2 : list (complex F)
}.

(** [FftConvolve() = default] *)
Definition FftConvolve_default : FftConvolve :=
  {| m_discreteConvolutionLength := 0;
     m_workspace1 := [];
     m_workspace2 := [] |}.

(** [FftConvolve(size_t signalLength, size_t kernelLength)] *)
Definition FftConvolve_new (signalLength kernelLength : Z)
  : outcome FftConvolve :=
  if negb (0 <? signalLength) then Throw "signalLength <= 0"
  else if negb (0 <? kernelLength) then Throw "kernelLength <= 0"
  else
    let discreteConvolutionLength :=
      Machine.wrap64 (signalLength + kernelLength - 1) in
    let powerOf2 :=
      Double.to_size_t
        (Double.floor_log2 discreteConvolutionLength + 0.5)%Q in
    let workspaceLength := Machine.wrap64 (Z.shiftl 1 (powerOf2 + 1)) in
    Ok {| m_discreteConvolutionLength := discreteConvolutionLength;
          m_workspace1 := replicate (Z.to_nat workspaceLength) czero;
          m_workspace2 := replicate (Z.to_nat workspaceLength) czero |}.

(** The lambdas of [FftConvolve::operator()]. *)
Definition convertToComplex (x : F) : complex F := Cplx x (of_Z 0).

Definition crossMultiply (x y : complex F) : complex F :=
  Cplx (real x * real y - imag x * imag y)%F
       (imag x * real y + real x * imag y)%F.

(** [std::fill] of the tail of a workspace and [std::transform] of the
    input into its head. *)
Definition load_workspace (input : list F) (workspace : list (complex F))
  : outcome (list (complex F)) :=
  workspace ← lift (fill_from (length input) czero workspace);
  lift (write_at 0 (convertToComplex <$> input) workspace).

Definition set_workspace1 (fc : FftConvolve) (w : list (complex F))
  : FftConvolve :=
  {| m_discreteConvolutionLength := m_discreteConvolutionLength fc;
     m_workspace1 := w;
     m_workspace2 := m_workspace2 fc |}.

Definition set_workspace2 (fc : FftConvolve) (w : list (complex F))
  : FftConvolve :=
  {| m_discreteConvolutionLength := m_discreteConvolutionLength fc;
     m_workspace1 := m_workspace1 fc;
     m_workspace2 := w |}.

(** A step of [operator()] on one workspace; [result] is not touched. *)
Definition on_workspace1 (f : list (complex F) -> status * list (complex F))
  (st : FftConvolve * list F) : status * (FftConvolve * list F) :=
  let '(fc, result) := st in
  let '(r, w) := f (m_workspace1 fc) in
  (r, (set_workspace1 fc w, result)).

Definition on_workspace2 (f : list (complex F) -> status * list (complex F))
  (st : FftConvolve * list F) : status * (FftConvolve * list F) :=
  let '(fc, result) := st in
  let '(r, w) := f (m_workspace2 fc) in
  (r, (set_workspace2 fc w, result)).

(** The final [std::transform] of [operator()]: the real parts of the
    first [m_discreteConvolutionLength] samples go to [result]. *)
Definition copy_out (st : FftConvolve * list F)
  : status * (FftConvolve * list F) :=
  let '(fc, result) := st in
  match
    outLast ← lift (iter_at (m_workspace1 fc)
                      (Machine.to_int32 (m_discreteConvolutionLength fc)));
    lift (write_at 0 (real <$> take outLast (m_workspace1 fc)) result)
  with
  | Ok result' => (Done, (fc, result'))
  | Throw what => (Throw what, st)
  | UB => (UB, st)
  | Diverge => (Diverge, st)
  end.

(** [FftConvolve::operator()(signalFirst, signalLast, kernelFirst,
    kernelLast, result)]: how the call ends, the object and the output
    range after it. *)
Definition FftConvolve_call (fc : FftConvolve) (signal kernel result : list F)
  : status * (FftConvolve * list F) :=
  let st := (fc, result) in
  if negb (Z.of_nat (length signal) <=? Z.of_nat (length (m_workspace1 fc)))
  then (Throw "signal length is incorrect", st)
  else if negb (Z.of_nat (length kernel) <=? Z.of_nat (length (m_workspace2 fc)))
  then (Throw "kernel length is incorrect", st)
  else
    and_then (on_workspace1 (fun w => in_place w (load_workspace signal w)) st)
    (fun st =>
    and_then (on_workspace2 (fun w => in_place w (load_workspace kernel w)) st)
    (fun st =>
    and_then (on_workspace1 Forward st) (fun st =>
    and_then (on_workspace2 Forward st) (fun st =>
    and_then
      (on_workspace1
         (fun w =>
            if decide (length w <= length (m_workspace2 (fst st)))%nat
            then (Done, zip_with crossMultiply w (m_workspace2 (fst st)))
            else (UB, w)) st)
    (fun st =>
    and_then (on_workspace1 Inverse st) copy_out))))).

End FFT.

(** ** dsp_filter.hpp *)

Section Filter.
Context {F : Type} `{Real F} `{Transcendental F}.

(** [FirLowPassFilter(numTaps, cutoffFreqHz, samplingFreqHz,
    windowGenerator)] *)
Definition FirLowPassFilter (numTaps : Z) (cutoffFreqHz samplingFreqHz : F)
  (windowGenerator : list F -> outcome (list F)) : outcome (list F) :=
  if negb (2 <? numTaps) then Throw "numTaps too small"
  else if negb (of_Z 0 <? cutoffFreqHz)%F then Throw "cutoffFreqHz <= 0"
  else if negb (of_Z 0 <? samplingFreqHz)%F then Throw "samplingFreqHz  <= 0"
  else
    let availableBandwidthHz := (samplingFreqHz / of_Z 2)%F in
    if negb (cutoffFreqHz <=? availableBandwidthHz)%F
    then Throw "cutoffFreqHz too high"
    else
      let normalizedCutoffFreq := (cutoffFreqHz / availableBandwidthHz)%F in
      let numTapsMinusOneOverTwo := (of_Z (numTaps - 1) / of_Z 2)%F in
      let filterCoeffs :=
        imap (fun i _ =>
                let arg := (of_nat i - numTapsMinusOneOverTwo)%F in
                (normalizedCutoffFreq
                 * Sinc (normalizedCutoffFreq * arg * Pi) default_limitThreshold)%F)
             (replicate (Z.to_nat numTaps) (of_Z 0)) in
      window ← WindowFunction_new windowGenerator numTaps false;
      match WindowFunction_apply window filterCoeffs filterCoeffs with
      | (Ok _, filterCoeffs) => Ok filterCoeffs
      | (Throw what, _) => Throw what
      | (UB, _) => UB
      | (Diverge, _) => Diverge
      end.

(** [class FilterHolder] *)
Record FilterHolder : Type := {
  m_signalLength : Z;
  m_filterCoeffs : list F;
  m_useFastConvolution : bool;
  m_fftConvolve : FftConvolve (F := F);
  m_filteredSignal : list F
}.

(** [FilterHolder() = default] *)
Definition FilterHolder_default : FilterHolder :=
  {| m_signalLength := 0;
     m_filterCoeffs := [];
     m_useFastConvolution := true;
     m_fftConvolve := FftConvolve_default;
     m_filteredSignal := [] |}.

(** [FilterHolder(signalLength, filterCoeffs, useFastConvolution)] *)
Definition FilterHolder_new (signalLength : Z) (filterCoeffs : list F)
  (useFastConvolution : bool) : outcome FilterHolder :=
  let filteredSignal :=
    replicate
      (Z.to_nat (Machine.wrap64
                   (signalLength + Z.of_nat (length filterCoeffs) - 1)))
      (of_Z 0) in
  if negb (2 <? signalLength) then Throw "signalLength is too small"
  else if negb (0 <? Z.of_nat (length filterCoeffs))
  then Throw "filterCoeffs is empty"
  else
    fftConvolve ←
      (if useFastConvolution
       then FftConvolve_new signalLength (Z.of_nat (length filterCoeffs))
       else Ok FftConvolve_default);
    Ok {| m_signalLength := signalLength;
          m_filterCoeffs := filterCoeffs;
          m_useFastConvolution := useFastConvolution;
          m_fftConvolve := fftConvolve;
          m_filteredSignal := filteredSignal |}.

Definition set_filtered (h : FilterHolder) (fc : FftConvolve (F := F))
  (filtered : list F) : FilterHolder :=
  {| m_signalLength := m_signalLength h;
     m_filterCoeffs := m_filterCoeffs h;
     m_useFastConvolution := m_useFastConvolution h;
     m_fftConvolve := fc;
     m_filteredSignal := filtered |}.

(** The convolution of [operator()]: it writes to [m_filteredSignal]. *)
Definition FilterHolder_convolve (h : FilterHolder) (signal : list F)
  : status * FilterHolder :=
  if m_useFastConvolution h then
    let '(r, (fc, filtered)) :=
      FftConvolve_call (m_fftConvolve h) signal (m_filterCoeffs h)
        (m_filteredSignal h) in
    (r, set_filtered h fc filtered)
  else
    let '(r, filtered) :=
      Convolve (of_Z 0) fadd fmul signal (m_filterCoeffs h)
        (m_filteredSignal h) in
    (r, set_filtered h (m_fftConvolve h) filtered).

(** The block under [if (removeDelay)]: the copy to the caller's range. *)
Definition FilterHolder_copy (h : FilterHolder) (signalLen : nat)
  (result : list F) : outcome (list F) :=
  let offset :=
    Machine.wrap64
      (Z.of_nat (length (m_filteredSignal h)) - m_signalLength h) in
  let offset := Z.shiftr offset 1 in
  first ← lift (iter_at (m_filteredSignal h) (Machine.to_int32 offset));
  if decide (first + signalLen <= length (m_filteredSignal h))%nat then
    lift (write_at 0 (take signalLen (drop first (m_filteredSignal h))) result)
  else UB.

(** [FilterHolder::operator()(signalFirst, signalLast, resultFirst,
    removeDelay)]: how the call ends, the object and the caller's output
    range after it. *)
Definition FilterHolder_call (h : FilterHolder) (signal result : list F)
  (removeDelay : bool) : status * (FilterHolder * list F) :=
  if negb (Z.of_nat (length signal) =? m_signalLength h)
  then (Throw "signal sample range incorrect", (h, result))
  else
    match FilterHolder_convolve h signal with
    | (Ok _, h') =>
        if removeDelay then
          let '(r, result') :=
            in_place result (FilterHolder_copy h' (length signal) result) in
          (r, (h', result'))
        else (Done, (h', result))
    | (r, h') => (r, (h', result))
    end.

End Filter.

(** ** dsp_resample.hpp *)

(** The state of the loop of [ComputeResampleFactors]. *)
Record mediant_state : Type := {
  n_a : Z; d_a : Z;
  n_b : Z; d_b : Z;
  error : Q;
  factors : Z * Z
}.

(** The value of [Gcd] on [size_t]. *)
Definition Gcd64 (a b : Z) : Z := default 0 (Gcd a b).

(** One pass of [while (true)]: the next state, or the pair returned
    after [break]. *)
Definition mediant_step (requiredResampleFactor : Q)
  (maxNumerator maxDenominator : Z) (s : mediant_state)
  : mediant_state + Z * Z :=
  let n_m := Machine.wrap64 (n_a s + n_b s) in
  let d_m := Machine.wrap64 (d_a s + d_b s) in
  let g := Gcd64 n_m d_m in
  let n_m := if 1 <? g then n_m / g else n_m in
  let d_m := if 1 <? g then d_m / g else d_m in
  if (maxNumerator <? n_m) || (maxDenominator <? d_m) then inr (factors s)
  else
    let m := (inject_Z n_m / inject_Z d_m)%Q in
    let absDiff := Qabs (m - requiredResampleFactor)%Q in
    let improved := Double.ltb absDiff (error s) in
    let error' := if improved then absDiff else error s in
    let factors' := if improved then (n_m, d_m) else factors s in
    if Double.leb m requiredResampleFactor then
      inl {| n_a := n_m; d_a := d_m; n_b := n_b s; d_b := d_b s;
             error := error'; factors := factors' |}
    else
      inl {| n_a := n_a s; d_a := d_a s; n_b := n_m; d_b := d_m;
             error := error'; factors := factors' |}.

(** [while (true)] run for at most [fuel] passes: [None] when the loop
    has not been left by then. *)
Fixpoint mediant_loop (fuel : nat) (requiredResampleFactor : Q)
  (maxNumerator maxDenominator : Z) (s : mediant_state) : option (Z * Z) :=
  match fuel with
  | O => None
  | Datatypes.S fuel' =>
      match mediant_step requiredResampleFactor maxNumerator maxDenominator s with
      | inr result => Some result
      | inl s' =>
          mediant_loop fuel' requiredResampleFactor maxNumerator
            maxDenominator s'
      end
  end.

(** The state on entry to the loop: [n_a] and [n_b] are the conversions
    of [std::floor(requiredResampleFactor) + 0.5] and of
    [std::ceil(requiredResampleFactor) + 0.5], sums that a [double]
    rounds when the factor is an odd integer from [2^52] to [2^53]. *)
Definition mediant_init (requiredResampleFactor : Q) : mediant_state :=
  {| n_a := Double.to_size_t (Double.floor_plus_half requiredResampleFactor);
     d_a := 1;
     n_b := Double.to_size_t (Double.ceil_plus_half requiredResampleFactor);
     d_b := 1;
     error := Double.max;
     factors := (0, 0) |}.

(** [ComputeResampleFactors(requiredResampleFactor, maxNumerator,
    maxDenominator)] within [fuel] passes of the loop. *)
Definition ComputeResampleFactors (fuel : nat) (requiredResampleFactor : Q)
  (maxNumerator maxDenominator : Z) : outcome (Z * Z) :=
  if negb (Double.ltb 0 requiredResampleFactor)
  then Throw "requiredResampleFactor <= 0"
  else
    match mediant_loop fuel requiredResampleFactor maxNumerator
            maxDenominator (mediant_init requiredResampleFactor) with
    | Some result => Ok result
    | None => Diverge
    end.

Section Resample.
Context {F : Type} `{Real F} `{Transcendental F}.

(** [class Resample]; [r_signalLength] is its member [m_signalLength]. *)
Record Resample : Type := {
  r_signalLength : Z;
  m_upsampleFactor : Z;
  m_downsampleFactor : Z;
  m_resampledLength : Z;
  m_filterHolder : FilterHolder (F := F);
  m_workspaceBuffer : list F
}.

(** [void ComputeResampledSize()]: the value stored in
    [m_resampledLength]. *)
Definition ComputeResampledSize (signalLength upsampleFactor downsampleFactor : Z)
  : Z :=
  let upsampleLength := Machine.wrap64 (upsampleFactor * signalLength) in
  Double.to_size_t
    (Double.floor (inject_Z upsampleLength / inject_Z downsampleFactor)
     + 0.5)%Q.

(** [void ResizeWorkspace()]: the size of [m_workspaceBuffer]. *)
Definition ResizeWorkspace (signalLength upsampleFactor : Z) : Z :=
  if 1 <? upsampleFactor
  then Machine.wrap64 (upsampleFactor * signalLength)
  else signalLength.

(** [std::min] and [std::max] *)
Definition fmin (a b : F) : F := if (b <? a)%F then b else a.
Definition fmax (a b : F) : F := if (a <? b)%F then b else a.

(** [Resample(signalLength, upsampleFactor, downsampleFactor,
    samplingFreqHz, maxCutoffFreqHz, numFilterTaps, kaiserWindowBeta,
    useFastConvolution)] *)
Definition Resample_new (signalLength upsampleFactor downsampleFactor : Z)
  (samplingFreqHz maxCutoffFreqHz : F) (numFilterTaps : Z)
  (kaiserWindowBeta : Q) (useFastConvolution : bool) : outcome Resample :=
  if negb (0 <? signalLength) then Throw "too few signal samples"
  else if negb (0 <? upsampleFactor) then Throw "invalid upsample factor"
  else if negb (0 <? downsampleFactor) then Throw "invalid downsample factor"
  else
    let resampledLength :=
      ComputeResampledSize signalLength upsampleFactor downsampleFactor in
    let workspaceBuffer :=
      replicate (Z.to_nat (ResizeWorkspace signalLength upsampleFactor))
        (of_Z 0) in
    let upsampleLength := Machine.wrap64 (upsampleFactor * signalLength) in
    let upsampledFreqHz := (samplingFreqHz * of_Z upsampleFactor)%F in
    let resampledFreqHz :=
      (samplingFreqHz * of_Z upsampleFactor / of_Z downsampleFactor)%F in
    let cutoffFreqHz := (fmin samplingFreqHz resampledFreqHz / of_Z 2)%F in
    let maxCutoffFreqHz :=
      if downsampleFactor <? upsampleFactor
      then fmin cutoffFreqHz maxCutoffFreqHz
      else fmax cutoffFreqHz maxCutoffFreqHz in
    kaiser ← KaiserGenerator_new kaiserWindowBeta;
    filterCoeffs ←
      FirLowPassFilter numFilterTaps maxCutoffFreqHz upsampledFreqHz
        (generate kaiser);
    filterHolder ←
      FilterHolder_new upsampleLength filterCoeffs useFastConvolution;
    Ok {| r_signalLength := signalLength;
          m_upsampleFactor := upsampleFactor;
          m_downsampleFactor := downsampleFactor;
          m_resampledLength := resampledLength;
          m_filterHolder := filterHolder;
          m_workspaceBuffer := workspaceBuffer |}.

Definition DataSize (r : Resample) : Z := r_signalLength r.
Definition ResampledSize (r : Resample) : Z := m_resampledLength r.

End Resample.

(** ** dsp_pi.hpp and dsp_roots.hpp *)

Section Constants.
Context {F : Type} `{Real F} `{Transcendental F}.

Definition HalfPi : F := (Pi / of_Z 2)%F.
Definition QuarterPi : F := (HalfPi / of_Z 2)%F.
Definition OneOverPi : F := (of_Z 1 / Pi)%F.
Definition TwoOverPi : F := (of_Z 2 * OneOverPi)%F.
Definition ThreeOverTwoPi : F := (of_Q (3 / 2) * Pi)%F.
Definition TwoOverSqrtPi : F := (of_Z 2 / fsqrt Pi)%F.

Definition SqrtTwo : F := fsqrt (of_Z 2).
Definition TwoSqrtTwo : F := (of_Z 2 * SqrtTwo)%F.
Definition OneOverSqrtTwo : F := (of_Z 1 / SqrtTwo)%F.
Definition OneOverTwoSqrtTwo : F := (of_Z 1 / TwoSqrtTwo)%F.

End Constants.

(** ** dsp_math.hpp and dsp_signals.hpp: sinusoids

    [Tone] and [MultiTone] are taken at [FloatType = double], where the
    casts of the parameters are identities. *)

Section Signals.
Context {F : Type} `{Real F} `{Transcendental F}.

(** [Sine(amplitude, time, frequency, phase, offset)] *)
Definition Sine (amplitude time frequency phase offset : F) : F :=
  ((amplitude * fsin ((TwoPi * frequency * time) + phase)) + offset)%F.

(** [struct ToneParams] *)
Record ToneParams : Type := {
  amplitude : F;
  frequency : F;
  phase : F;
  offset : F
}.

(** The loop of [Tone] over the [count] samples that are left; [time] is
    the running sum of the intervals. *)
Fixpoint Tone_loop (params : ToneParams) (timeInterval : F) (count : nat)
  (time : F) : list F :=
  match count with
  | O => []
  | Datatypes.S count' =>
      Sine (amplitude params) time (frequency params) (phase params)
        (offset params)
      :: Tone_loop params timeInterval count' (time + timeInterval)%F
  end.

(** [Tone(params, sampleRate, count)] *)
Definition Tone (params : ToneParams) (sampleRate : F) (count : Z) : list F :=
  let timeInterval := (of_Z 1 / sampleRate)%F in
  Tone_loop params timeInterval (Z.to_nat count) (of_Z 0).

(** The inner loop of [MultiTone]: every tone is added to the sample,
    which starts at zero. *)
Definition MultiTone_sample (allParams : list ToneParams) (time : F) : F :=
  fold_left
    (fun sample params =>
       (sample
        + Sine (amplitude params) time (frequency params) (phase params)
            (offset params))%F)
    allParams (of_Z 0).

Fixpoint MultiTone_loop (allParams : list ToneParams) (timeInterval : F)
  (count : nat) (time : F) : list F :=
  match count with
  | O => []
  | Datatypes.S count' =>
      MultiTone_sample allParams time
      :: MultiTone_loop allParams timeInterval count' (time + timeInterval)%F
  end.

(** [MultiTone(allParams, sampleRate, count)] *)
Definition MultiTone (allParams : list ToneParams) (sampleRate : F)
  (count : Z) : list F :=
  let timeInterval := (of_Z 1 / sampleRate)%F in
  MultiTone_loop allParams timeInterval (Z.to_nat count) (of_Z 0).

End Signals.

(** ** dsp_fft.hpp: power spectral density and three-bin sums *)

(** [std::next(it, n)] for an iterator [it] at the index [pos] of [v]. *)
Definition iter_next {A : Type} (v : list A) (pos : nat) (n : Z) : option nat :=
  iter_at v (Z.of_nat pos + n).

Section Spectra.
Context {F : Type} `{Real F} `{Transcendental F}.

(** The body of the first loop of the in-place [ToPsd] on a complex
    vector: only the real part is written. *)
Definition ToPsd_body (binWidthHz : F) (i : nat)
  (powerSpectrum : list (complex F)) : outcome (list (complex F)) :=
  z ← lift (powerSpectrum !! i);
  let psd := (real z / binWidthHz)%F in
  lift (store i (Cplx psd (imag z)) powerSpectrum).

(** [static void ToPsd(complex_vector& powerSpectrum, FloatType binWidthHz,
    bool zeroUnused, bool fullSpectrum)] *)
Definition ToPsd (powerSpectrum : list (complex F)) (binWidthHz : F)
  (zeroUnused fullSpectrum : bool) : outcome (list (complex F)) :=
  let halfSize := halfSize_of powerSpectrum fullSpectrum in
  endItr ← lift (iter_at powerSpectrum (Machine.to_int32 halfSize));
  powerSpectrum ← for_range endItr 0 (ToPsd_body binWidthHz) powerSpectrum;
  if zeroUnused then lift (fill_from endItr czero powerSpectrum)
  else Ok powerSpectrum.

(** [static void ToPsd(real_vector& powerSpectrum, FloatType binWidthHz)] *)
Definition ToPsd_real_in_place (powerSpectrum : list F) (binWidthHz : F)
  : list F :=
  (fun v => v / binWidthHz)%F <$> powerSpectrum.

(** [static void ToPsd(complex_vector const& powerSpectrum,
    FloatType binWidthHz, real_vector& psd, bool fullSpectrum)]: [psd]
    after the call. *)
Definition ToPsd_real (powerSpectrum : list (complex F)) (binWidthHz : F)
  (psd : list F) (fullSpectrum : bool) : outcome (list F) :=
  let halfSize := halfSize_of powerSpectrum fullSpectrum in
  endItr ← lift (iter_at powerSpectrum (Machine.to_int32 halfSize));
  let psd := resize (Z.to_nat halfSize) (of_Z 0) psd in
  for_range endItr 0
    (fun index psd =>
       z ← lift (powerSpectrum !! index);
       lift (store index (real z / binWidthHz)%F psd))
    psd.

(** [static void ToPsd(const real_vector& powerSpectrum,
    FloatType binWidthHz, real_vector& psd)]: [psd] after the call. *)
Definition ToPsd_real_real (powerSpectrum : list F) (binWidthHz : F)
  (psd : list F) : outcome (list F) :=
  let psd := resize (length powerSpectrum) (of_Z 0) psd in
  for_range (length powerSpectrum) 0
    (fun index psd =>
       v ← lift (powerSpectrum !! index);
       lift (store index (v / binWidthHz)%F psd))
    psd.

(** [WindowFunction::ApplyGainCorrection(dataFirst, dataLast, resultFirst,
    gain)] on values that [div] divides by a [FloatType]: the output range
    after the call. *)
Definition ApplyGainCorrection {V : Type} (div : V -> F -> V)
  (data result : list V) (gain : F) : outcome (list V) :=
  lift (write_at 0 ((fun x => div x gain) <$> data) result).

(** The lambda [transformer] of [To3BinSum]: from RMS power to peak
    magnitude. *)
Definition transformer (x : F) : F := (fsqrt x * SqrtTwo)%F.

(** The vectors [convVec] of [To3BinSum]. *)
Definition convVec_complex : list (complex F) := [cone; cone; cone].
Definition convVec_real : list F := [of_Z 1; of_Z 1; of_Z 1].

(** The body of the loop [while (resItr != resEnd)] of the in-place
    [To3BinSum] on a complex vector: only the real part is written. *)
Definition To3BinSum_body (convRes : list (complex F)) (i : nat)
  (powerSpectrum : list (complex F)) : outcome (list (complex F)) :=
  r ← lift (convRes !! Datatypes.S i);
  z ← lift (powerSpectrum !! i);
  lift (store i (Cplx (transformer (real r)) (imag z)) powerSpectrum).

(** [static void To3BinSum(complex_vector& powerSpectrum, bool zeroUnused,
    bool fullSpectrum)]: how the call ends and the vector after it. *)
Definition To3BinSum (powerSpectrum : list (complex F))
  (zeroUnused fullSpectrum : bool) : status * list (complex F) :=
  let halfSize := halfSize_of powerSpectrum fullSpectrum in
  match iter_at powerSpectrum (Machine.to_int32 halfSize) with
  | None => (UB, powerSpectrum)
  | Some endItr =>
      let convRes :=
        replicate (Z.to_nat (Machine.wrap64 (halfSize + 3 - 1))) czero in
      match Convolve czero cadd cmul (take endItr powerSpectrum)
              convVec_complex convRes with
      | (Ok _, convRes) =>
          in_place powerSpectrum
            (resItr ← lift (iter_next convRes 0 1);
             resEnd ← lift (iter_next convRes resItr
                              (Machine.to_int32 halfSize));
             if decide (resEnd < resItr)%nat then UB
             else
               powerSpectrum ←
                 for_range (resEnd - resItr) 0 (To3BinSum_body convRes)
                   powerSpectrum;
               if zeroUnused
               then lift (fill_from endItr czero powerSpectrum)
               else Ok powerSpectrum)
      | (r, _) => (r, powerSpectrum)
      end
  end.

(** [static void To3BinSum(real_vector& powerSpectrum)]: how the call
    ends and the vector after it. *)
Definition To3BinSum_real_in_place (powerSpectrum : list F)
  : status * list F :=
  let size := Z.of_nat (length powerSpectrum) in
  let convRes := replicate (Z.to_nat (Machine.wrap64 (size + 3 - 1))) (of_Z 0) in
  match Convolve (of_Z 0) fadd fmul powerSpectrum convVec_real convRes with
  | (Ok _, convRes) =>
      in_place powerSpectrum
        (resBegin ← lift (iter_next convRes 0 1);
         resEnd ← lift (iter_next convRes resBegin (Machine.to_int32 size));
         if decide (resEnd < resBegin)%nat then UB
         else
           lift (write_at 0
                   (transformer
                    <$> take (resEnd - resBegin) (drop resBegin convRes))
                   powerSpectrum))
  | (r, _) => (r, powerSpectrum)
  end.

(** [static void To3BinSum(complex_vector const& powerSpectrum,
    real_vector& magFft, bool fullSpectrum)]: how the call ends and
    [magFft] after it.  [magFft] is resized before the convolution. *)
Definition To3BinSum_real (powerSpectrum : list (complex F)) (magFft : list F)
  (fullSpectrum : bool) : status * list F :=
  let halfSize := halfSize_of powerSpectrum fullSpectrum in
  match iter_at powerSpectrum (Machine.to_int32 halfSize) with
  | None => (UB, magFft)
  | Some endItr =>
      let convRes :=
        replicate (Z.to_nat (Machine.wrap64 (halfSize + 3 - 1))) czero in
      let magFft := resize (Z.to_nat halfSize) (of_Z 0) magFft in
      match Convolve czero cadd cmul (take endItr powerSpectrum)
              convVec_complex convRes with
      | (Ok _, convRes) =>
          in_place magFft
            (resBegin ← lift (iter_next convRes 0 1);
             resEnd ← lift (iter_next convRes resBegin halfSize);
             if decide (resEnd < resBegin)%nat then UB
             else
               lift (write_at 0
                       ((fun z => transformer (real z))
                        <$> take (resEnd - resBegin) (drop resBegin convRes))
                       magFft))
      | (r, _) => (r, magFft)
      end
  end.

(** [std::rotate(v.begin(), std::next(v.begin()), v.end())] *)
Definition rotate_left_1 {A : Type} (v : list A) : option (list A) :=
  match v with
  | [] => None
  | x :: rest => Some (rest ++ [x])
  end.

(** [static void To3BinSum(real_vector const& powerSpectrum,
    real_vector& magFft)]: how the call ends and [magFft] after it. *)
Definition To3BinSum_real_real (powerSpectrum magFft : list F)
  : status * list F :=
  let size := Z.of_nat (length powerSpectrum) in
  let magFft := resize (Z.to_nat (Machine.wrap64 (size + 3 - 1))) (of_Z 0) magFft in
  match Convolve (of_Z 0) fadd fmul powerSpectrum convVec_real magFft with
  | (Ok _, magFft) =>
      in_place magFft
        (magFft ← lift (rotate_left_1 magFft);
         let magFft := resize (Z.to_nat size) (of_Z 0) magFft in
         Ok (transformer <$> magFft))
  | (r, magFft) => (r, magFft)
  end.

End Spectra.

(** ** dsp_fft.hpp: [MagnitudeFft] and [ThreeBinSumFft] *)

(** A step of a member function: the value of [r], or how the call ends
    with the state [s] left behind. *)
Definition step {S A : Type} (r : outcome A) (s : S) (k : A -> status * S)
  : status * S :=
  match r with
  | Ok a => k a
  | Throw what => (Throw what, s)
  | UB => (UB, s)
  | Diverge => (Diverge, s)
  end.

Section FftFunctors.
Context {F : Type} `{Real F} `{Transcendental F}.

(** [std::arg] *)
Variable arg : complex F -> F.

(** [WindowFunction::operator()] on complex data: each sample is scaled
    by its real coefficient. *)
Definition WindowFunction_apply_complex (w : WindowFunction)
  (data result : list (complex F)) : status * list (complex F) :=
  if negb (Z.of_nat (length data) =? m_effectiveSize w)
  then (Throw "invalid data size", result)
  else if decide (length data <= length (m_windowCoefficients w))%nat
  then match write_at 0 (zip_with cscale data (m_windowCoefficients w)) result with
       | Some result' => (Done, result')
       | None => (UB, result)
       end
  else (UB, result).

(** The loop under [if (nullptr != phases)]; [None] is the null
    pointer. *)
Definition compute_phases (workspace : list (complex F)) (realSpectra : list F)
  (phases : option (list F)) : outcome (option (list F)) :=
  match phases with
  | None => Ok None
  | Some phases =>
      let phases := resize (length realSpectra) (of_Z 0) phases in
      phases ←
        for_range (length phases) 0
          (fun i phases =>
             z ← lift (workspace !! i);
             lift (store i (arg z) phases))
          phases;
      Ok (Some phases)
  end.

(** [class MagnitudeFft]; the fields are its members [m_windowFunction]
    and [m_workspace]. *)
Record MagnitudeFft : Type := {
  mag_windowFunction : WindowFunction (F := F);
  mag_workspace : list (complex F)
}.

(** [MagnitudeFft(generator, fftSize)]: the members are built before the
    body tests [fftSize]. *)
Definition MagnitudeFft_new (generator : list F -> outcome (list F))
  (fftSize : Z) : outcome MagnitudeFft :=
  windowFunction ←
    WindowFunction_new generator (Machine.wrap64 (fftSize + 1)) true;
  let workspace := replicate (Z.to_nat fftSize) czero in
  if negb (IsPowerOf2 fftSize) then Throw "FFT size not a power of 2"
  else Ok {| mag_windowFunction := windowFunction;
             mag_workspace := workspace |}.

Definition set_mag_workspace (m : MagnitudeFft) (workspace : list (complex F))
  : MagnitudeFft :=
  {| mag_windowFunction := mag_windowFunction m;
     mag_workspace := workspace |}.

(** What both overloads of [MagnitudeFft::operator()] do once the
    windowed signal is in the workspace. *)
Definition MagnitudeFft_spectrum (m : MagnitudeFft)
  (workspace : list (complex F)) (realSpectra : list F) (fullSpectrum : bool)
  (phases : option (list F))
  : status * (MagnitudeFft * list F * option (list F)) :=
  match Forward workspace with
  | (Ok _, workspace) =>
      let m := set_mag_workspace m workspace in
      step (ToMagnitude_real workspace realSpectra fullSpectrum)
        (m, realSpectra, phases) (fun realSpectra =>
      step (compute_phases workspace realSpectra phases)
        (m, realSpectra, phases) (fun phases =>
      let normScalar := of_nat (length workspace) in
      step (ApplyGainCorrection fdiv realSpectra realSpectra
              (CoherentGain (mag_windowFunction m) * normScalar)%F)
        (m, realSpectra, phases) (fun realSpectra =>
      (Done, (m, realSpectra, phases)))))
  | (r, workspace) => (r, (set_mag_workspace m workspace, realSpectra, phases))
  end.

(** [MagnitudeFft::operator()(signalFirst, signalLast, realSpectra,
    fullSpectrum, phases)]: how the call ends, the object and the two
    output vectors after it. *)
Definition MagnitudeFft_call (m : MagnitudeFft) (signal realSpectra : list F)
  (fullSpectrum : bool) (phases : option (list F))
  : status * (MagnitudeFft * list F * option (list F)) :=
  if negb (Z.of_nat (length signal) =? Z.of_nat (length (mag_workspace m)))
  then (Throw "signal length is incorrect", (m, realSpectra, phases))
  else
    match WindowFunction_apply (mag_windowFunction m) signal realSpectra with
    | (Ok _, realSpectra) =>
        step (lift (write_at 0 (convertToComplex <$> realSpectra)
                      (mag_workspace m)))
          (m, realSpectra, phases) (fun workspace =>
        MagnitudeFft_spectrum m workspace realSpectra fullSpectrum phases)
    | (r, realSpectra) => (r, (m, realSpectra, phases))
    end.

(** [MagnitudeFft::operator()(signal, realSpectra, fullSpectrum, phases)]
    on a complex signal. *)
Definition MagnitudeFft_call_complex (m : MagnitudeFft)
  (signal : list (complex F)) (realSpectra : list F) (fullSpectrum : bool)
  (phases : option (list F))
  : status * (MagnitudeFft * list F * option (list F)) :=
  if negb (Z.of_nat (length signal) =? Z.of_nat (length (mag_workspace m)))
  then (Throw "signal length is incorrect", (m, realSpectra, phases))
  else
    match WindowFunction_apply_complex (mag_windowFunction m) signal
            (mag_workspace m) with
    | (Ok _, workspace) =>
        MagnitudeFft_spectrum m workspace realSpectra fullSpectrum phases
    | (r, workspace) => (r, (set_mag_workspace m workspace, realSpectra, phases))
    end.

(** [class ThreeBinSumFft]; the fields are its members [m_windowFunction]
    and [m_workspace]. *)
Record ThreeBinSumFft : Type := {
  tbs_windowFunction : WindowFunction (F := F);
  tbs_workspace : list (complex F)
}.

(** [ThreeBinSumFft(generator, fftSize)] *)
Definition ThreeBinSumFft_new (generator : list F -> outcome (list F))
  (fftSize : Z) : outcome ThreeBinSumFft :=
  windowFunction ←
    WindowFunction_new generator (Machine.wrap64 (fftSize + 1)) true;
  let workspace := replicate (Z.to_nat fftSize) czero in
  if negb (IsPowerOf2 fftSize) then Throw "FFT size not a power of 2"
  else Ok {| tbs_windowFunction := windowFunction;
             tbs_workspace := workspace |}.

Definition set_tbs_workspace (t : ThreeBinSumFft)
  (workspace : list (complex F)) : ThreeBinSumFft :=
  {| tbs_windowFunction := tbs_windowFunction t;
     tbs_workspace := workspace |}.

(** What both overloads of [ThreeBinSumFft::operator()] do once the
    windowed signal is in the workspace. *)
Definition ThreeBinSumFft_spectrum (t : ThreeBinSumFft)
  (workspace : list (complex F)) (realSpectra : list F) (fullSpectrum : bool)
  (phases : option (list F))
  : status * (ThreeBinSumFft * list F * option (list F)) :=
  match Forward workspace with
  | (Ok _, workspace) =>
      let t := set_tbs_workspace t workspace in
      step (ToPower_real workspace realSpectra fullSpectrum)
        (t, realSpectra, phases) (fun realSpectra =>
      step (compute_phases workspace realSpectra phases)
        (t, realSpectra, phases) (fun phases =>
      let size := Z.of_nat (length workspace) in
      let normScalar := of_Z (Machine.wrap64 (size * size)) in
      step (ApplyGainCorrection fdiv realSpectra realSpectra
              (CombinedGain (tbs_windowFunction t) * normScalar)%F)
        (t, realSpectra, phases) (fun realSpectra =>
      let '(r, realSpectra) := To3BinSum_real_in_place realSpectra in
      (r, (t, realSpectra, phases)))))
  | (r, workspace) => (r, (set_tbs_workspace t workspace, realSpectra, phases))
  end.

(** [ThreeBinSumFft::operator()(signalFirst, signalLast, realSpectra,
    fullSpectrum, phases)] *)
Definition ThreeBinSumFft_call (t : ThreeBinSumFft)
  (signal realSpectra : list F) (fullSpectrum : bool)
  (phases : option (list F))
  : status * (ThreeBinSumFft * list F * option (list F)) :=
  if negb (Z.of_nat (length signal) =? Z.of_nat (length (tbs_workspace t)))
  then (Throw "signal length is incorrect", (t, realSpectra, phases))
  else
    match WindowFunction_apply (tbs_windowFunction t) signal realSpectra with
    | (Ok _, realSpectra) =>
        step (lift (write_at 0 (convertToComplex <$> realSpectra)
                      (tbs_workspace t)))
          (t, realSpectra, phases) (fun workspace =>
        ThreeBinSumFft_spectrum t workspace realSpectra fullSpectrum phases)
    | (r, realSpectra) => (r, (t, realSpectra, phases))
    end.

(** [ThreeBinSumFft::operator()(signal, realSpectra, fullSpectrum,
    phases)] on a complex signal. *)
Definition ThreeBinSumFft_call_complex (t : ThreeBinSumFft)
  (signal : list (complex F)) (realSpectra : list F) (fullSpectrum : bool)
  (phases : option (list F))
  : status * (ThreeBinSumFft * list F * option (list F)) :=
  if negb (Z.of_nat (length signal) =? Z.of_nat (length (tbs_workspace t)))
  then (Throw "signal length is incorrect", (t, realSpectra, phases))
  else
    match WindowFunction_apply_complex (tbs_windowFunction t) signal
            (tbs_workspace t) with
    | (Ok _, workspace) =>
        ThreeBinSumFft_spectrum t workspace realSpectra fullSpectrum phases
    | (r, workspace) => (r, (set_tbs_workspace t workspace, realSpectra, phases))
    end.

End FftFunctors.

(** ** dsp_filter.hpp: the other FIR designs *)

Section FirFilters.
Context {F : Type} `{Real F} `{Transcendental F}.

(** The end of every design: a window of [numTaps] coefficients is
    built and applied to the filter coefficients in place. *)
Definition apply_window (numTaps : Z)
  (windowGenerator : list F -> outcome (list F)) (filterCoeffs : list F)
  : outcome (list F) :=
  window ← WindowFunction_new windowGenerator numTaps false;
  match WindowFunction_apply window filterCoeffs filterCoeffs with
  | (Ok _, filterCoeffs) => Ok filterCoeffs
  | (Throw what, _) => Throw what
  | (UB, _) => UB
  | (Diverge, _) => Diverge
  end.

(** [FirHighPassFilter(numTaps, cutoffFreqHz, samplingFreqHz,
    windowGenerator)] *)
Definition FirHighPassFilter (numTaps : Z) (cutoffFreqHz samplingFreqHz : F)
  (windowGenerator : list F -> outcome (list F)) : outcome (list F) :=
  if negb (2 <? numTaps) then Throw "numTaps too small"
  else if negb (of_Z 0 <? cutoffFreqHz)%F then Throw "cutoffFreqHz <= 0"
  else if negb (of_Z 0 <? samplingFreqHz)%F then Throw "samplingFreqHz  <= 0"
  else
    let availableBandwidthHz := (samplingFreqHz / of_Z 2)%F in
    if negb (cutoffFreqHz <=? availableBandwidthHz)%F
    then Throw "cutoffFreqHz too high"
    else
      let isOdd := numTaps mod 2 =? 1 in
      if negb isOdd
      then Throw "numTaps should be an odd number for high pass filter"
      else
        let normalizedCutoffFreq := (cutoffFreqHz / availableBandwidthHz)%F in
        let numTapsMinusOneOverTwo := (of_Z (numTaps - 1) / of_Z 2)%F in
        let filterCoeffs :=
          imap (fun i _ =>
                  let arg := (of_nat i - numTapsMinusOneOverTwo)%F in
                  (Sinc (arg * Pi) default_limitThreshold
                   - (normalizedCutoffFreq
                      * Sinc (normalizedCutoffFreq * arg * Pi)
                          default_limitThreshold))%F)
               (replicate (Z.to_nat numTaps) (of_Z 0)) in
        apply_window numTaps windowGenerator filterCoeffs.

(** [FirBandPassFilter(numTaps, centreFreqHz, bandwidthHz, samplingFreqHz,
    windowGenerator)] *)
Definition FirBandPassFilter (numTaps : Z)
  (centreFreqHz bandwidthHz samplingFreqHz : F)
  (windowGenerator : list F -> outcome (list F)) : outcome (list F) :=
  if negb (2 <? numTaps) then Throw "numTaps too small"
  else if negb (of_Z 0 <? centreFreqHz)%F then Throw "cutoffFreqHz <= 0"
  else if negb (of_Z 0 <? samplingFreqHz)%F then Throw "samplingFreqHz  <= 0"
  else
    let availableBandwidthHz := (samplingFreqHz / of_Z 2)%F in
    if negb (centreFreqHz <=? availableBandwidthHz)%F
    then Throw "cutoffFreqHz too high"
    else if negb (of_Z 0 <? bandwidthHz)%F then Throw "bandwidthHz  <= 0"
    else if negb (bandwidthHz <=? availableBandwidthHz)%F
    then Throw "bandwidthHz too high"
    else
      let normalizedCentreFreq := (centreFreqHz / availableBandwidthHz)%F in
      let normalizedBandwidth := (bandwidthHz / availableBandwidthHz)%F in
      let normalizedLowCutoffFreq :=
        (normalizedCentreFreq - (normalizedBandwidth / of_Z 2))%F in
      let normalizeHighCutoffFreq :=
        (normalizedCentreFreq + (normalizedBandwidth / of_Z 2))%F in
      let numTapsMinusOneOverTwo := (of_Z (numTaps - 1) / of_Z 2)%F in
      let filterCoeffs :=
        imap (fun i _ =>
                let arg := (of_nat i - numTapsMinusOneOverTwo)%F in
                if (fabs arg <? of_Q (1 # 1000))%F then of_Z 0
                else ((fcos (normalizedLowCutoffFreq * arg * Pi)
                       - fcos (normalizeHighCutoffFreq * arg * Pi))
                      / Pi / arg)%F)
             (replicate (Z.to_nat numTaps) (of_Z 0)) in
      apply_window numTaps windowGenerator filterCoeffs.

(** [FirNotchFilter(numTaps, centreFreqHz, bandwidthHz, samplingFreqHz,
    windowGenerator)] *)
Definition FirNotchFilter (numTaps : Z)
  (centreFreqHz bandwidthHz samplingFreqHz : F)
  (windowGenerator : list F -> outcome (list F)) : outcome (list F) :=
  if negb (2 <? numTaps) then Throw "numTaps too small"
  else if negb (of_Z 0 <? centreFreqHz)%F then Throw "cutoffFreqHz <= 0"
  else if negb (of_Z 0 <? samplingFreqHz)%F then Throw "samplingFreqHz  <= 0"
  else
    let availableBandwidthHz := (samplingFreqHz / of_Z 2)%F in
    if negb (centreFreqHz <=? availableBandwidthHz)%F
    then Throw "cutoffFreqHz too high"
    else if negb (of_Z 0 <? bandwidthHz)%F then Throw "bandwidthHz  <= 0"
    else if negb (bandwidthHz <=? availableBandwidthHz)%F
    then Throw "bandwidthHz too high"
    else
      let normalizedCentreFreq := (centreFreqHz / availableBandwidthHz)%F in
      let normalizedBandwidth := (bandwidthHz / availableBandwidthHz)%F in
      let normalizedLowCutoffFreq :=
        (normalizedCentreFreq - (normalizedBandwidth / of_Z 2))%F in
      let normalizeHighCutoffFreq :=
        (normalizedCentreFreq + (normalizedBandwidth / of_Z 2))%F in
      let numTapsMinusOneOverTwo := (of_Z (numTaps - 1) / of_Z 2)%F in
      let filterCoeffs :=
        imap (fun i _ =>
                let arg := (of_nat i - numTapsMinusOneOverTwo)%F in
                (Sinc (arg * Pi) default_limitThreshold
                 - (normalizeHighCutoffFreq
                    * Sinc (normalizeHighCutoffFreq * arg * Pi)
                        default_limitThreshold)
                 - (normalizedLowCutoffFreq
                    * Sinc (normalizedLowCutoffFreq * arg * Pi)
                        default_limitThreshold))%F)
             (replicate (Z.to_nat numTaps) (of_Z 0)) in
      apply_window numTaps windowGenerator filterCoeffs.

End FirFilters.

(** ** dsp_resample.hpp: [FloatToInt] *)

(** [IntegerT(q)] of a [double] for an integer type with the values
    [lo .. hi]: the value is truncated towards zero, and the conversion is
    undefined when the truncated value is not one of the type. *)
Definition to_integer (lo hi : Z) (q : Q) : option Z :=
  let t := if Qle_bool 0 q then Qfloor q else Qceiling q in
  if (lo <=? t) && (t <=? hi) then Some t else None.

(** [FloatToInt<double, IntegerT>(value)] *)
Definition FloatToInt (lo hi : Z) (value : Q) : outcome Z :=
  if Double.ltb value 0
  then lift (to_integer lo hi (Double.ceil value - 0.5)%Q)
  else lift (to_integer lo hi (Double.floor value + 0.5)%Q).

(** ** dsp_resample.hpp: [ResampleRange] *)

(** The conversion of a [size_t] to the difference type of an iterator:
    two's complement on 64 bits. *)
Definition to_ptrdiff (z : Z) : Z := (z + 2 ^ 63) mod 2 ^ 64 - 2 ^ 63.

Section ResampleRangeModel.
Context {F : Type} `{Real F}.

(** One pass of the loop of [ResampleRange] for samples of the type
    [FloatType = double]; the state is [exactSamplePos], [sampleBefore],
    the index of [itrBefore] in the source and the target range.  The
    positions are [double]s, held in lowest terms where they meet the
    samples. *)
Definition ResampleRange_body (source : list F) (targetSize : Z)
  (sampleStride : Q) (pos : nat) (st : Q * Z * nat * list F)
  : outcome (Q * Z * nat * list F) :=
  let '(exactSamplePos, sampleBefore, itrBefore, target) := st in
  '(interpolatedSample, sampleBefore, itrBefore) ←
    (if Z.of_nat pos =? 0 then
       x ← lift (source !! 0%nat);
       Ok (x, sampleBefore, itrBefore)
     else if Z.of_nat pos =? targetSize - 1 then
       x ← lift (source !! (length source - 1)%nat);
       Ok (x, sampleBefore, itrBefore)
     else
       let prevSample := sampleBefore in
       sampleBefore ← FloatToInt 0 (2 ^ 64 - 1) exactSamplePos;
       let ratio := Qred (exactSamplePos - inject_Z sampleBefore) in
       itrBefore ←
         lift (iter_next source itrBefore
                 (to_ptrdiff (sampleBefore - prevSample)));
       itrAfter ← lift (iter_next source itrBefore 1);
       after ← lift (source !! itrAfter);
       before ← lift (source !! itrBefore);
       let correction := ((after - before) * of_Q ratio)%F in
       Ok ((before + correction)%F, sampleBefore, itrBefore));
  target ← lift (store pos interpolatedSample target);
  Ok ((exactSamplePos + sampleStride)%Q, sampleBefore, itrBefore, target).

(** [ResampleRange(first, last, targetFirst, targetLast)]: how the call
    ends and the target range after it.  The stride is the exact
    quotient, and [0] for a target of one sample, whose only pass does
    not read it. *)
Definition ResampleRange (source target : list F) : status * list F :=
  let sourceSize := Z.of_nat (length source) in
  let targetSize := Z.of_nat (length target) in
  if negb (0 <? sourceSize)
  then (Throw "std::distance(first, last) <= 0", target)
  else if negb (0 <? targetSize)
  then (Throw "std::distance(targetFirst, targetLast) <= 0", target)
  else if sourceSize =? targetSize
  then in_place target (lift (write_at 0 source target))
  else
    let sampleStride :=
      (inject_Z (sourceSize - 1) / inject_Z (targetSize - 1))%Q in
    in_place target
      ('(_, _, _, target) ←
         for_range (length target) 0
           (ResampleRange_body source targetSize sampleStride)
           (0%Q, 0, 0%nat, target);
       Ok target).

End ResampleRangeModel.

(** ** dsp_resample.hpp: [Resample::operator()] *)

Section ResampleCall.
Context {F : Type} `{Real F} `{Transcendental F}.

(** The loop that spreads the signal over the zeroed workspace: one pass
    for every sample, as long as [upIter] is before the end. *)
Fixpoint upsample_loop (upsampleFactor : Z) (signal : list F) (upIter : nat)
  (workspaceBuffer : list F) : outcome (list F) :=
  match signal with
  | [] => Ok workspaceBuffer
  | x :: signal' =>
      if decide (upIter < length workspaceBuffer)%nat then
        workspaceBuffer ←
          lift (store upIter (x * of_Z upsampleFactor)%F workspaceBuffer);
        upIter ←
          lift (iter_next workspaceBuffer upIter
                  (Machine.to_int32 upsampleFactor));
        upsample_loop upsampleFactor signal' upIter workspaceBuffer
      else Ok workspaceBuffer
  end.

(** The loops that drop samples: at most [count] passes (what is left of
    [m_resampledLength]), as long as [upIter] is before the end.  The
    loop after an upsampling counts in an [int] ([int_counter]), the
    other one in a [size_t]. *)
Fixpoint downsample_loop (int_counter : bool) (downsampleFactor : Z)
  (workspaceBuffer : list F) (count : nat) (i : Z) (upIter resultIter : nat)
  (result : list F) : outcome (list F) :=
  match count with
  | O => Ok result
  | Datatypes.S count' =>
      if decide (upIter < length workspaceBuffer)%nat then
        x ← lift (workspaceBuffer !! upIter);
        result ← lift (store resultIter x result);
        if int_counter && (Machine.INT_MAX <=? i) then UB
        else
          upIter ←
            lift (iter_next workspaceBuffer upIter
                    (Machine.to_int32 downsampleFactor));
          downsample_loop int_counter downsampleFactor workspaceBuffer count'
            (i + 1) upIter (Datatypes.S resultIter) result
      else Ok result
  end.

Definition set_resample (r : Resample (F := F)) (filterHolder : FilterHolder (F := F))
  (workspaceBuffer : list F) : Resample (F := F) :=
  {| r_signalLength := r_signalLength r;
     m_upsampleFactor := m_upsampleFactor r;
     m_downsampleFactor := m_downsampleFactor r;
     m_resampledLength := m_resampledLength r;
     m_filterHolder := filterHolder;
     m_workspaceBuffer := workspaceBuffer |}.

(** [Resample::operator()(signalFirst, signalLast, resultFirst)]: how the
    call ends, the object and the caller's output range after it.  The
    filter is called with the workspace as its input and its output. *)
Definition Resample_call (r : Resample (F := F)) (signal result : list F)
  : status * (Resample (F := F) * list F) :=
  if negb (Z.of_nat (length signal) =? r_signalLength r)
  then (Throw "sample length is incorrect", (r, result))
  else if 1 <? m_upsampleFactor r then
    let zeroed := replicate (length (m_workspaceBuffer r)) (of_Z 0) in
    step (upsample_loop (m_upsampleFactor r) signal 0 zeroed)
      (set_resample r (m_filterHolder r) zeroed, result)
      (fun workspaceBuffer =>
    match FilterHolder_call (m_filterHolder r) workspaceBuffer
            workspaceBuffer true with
    | (Ok _, (filterHolder, workspaceBuffer)) =>
        let r := set_resample r filterHolder workspaceBuffer in
        if 1 <? m_downsampleFactor r then
          step (downsample_loop true (m_downsampleFactor r) workspaceBuffer
                  (Z.to_nat (m_resampledLength r)) 0 0 0 result)
            (r, result) (fun result => (Done, (r, result)))
        else
          step (lift (write_at 0 workspaceBuffer result))
            (r, result) (fun result => (Done, (r, result)))
    | (s, (filterHolder, workspaceBuffer)) =>
        (s, (set_resample r filterHolder workspaceBuffer, result))
    end)
  else
    match FilterHolder_call (m_filterHolder r) signal (m_workspaceBuffer r)
            true with
    | (Ok _, (filterHolder, workspaceBuffer)) =>
        let r := set_resample r filterHolder workspaceBuffer in
        step (downsample_loop false (m_downsampleFactor r) workspaceBuffer
                (Z.to_nat (m_resampledLength r)) 0 0 0 result)
          (r, result) (fun result => (Done, (r, result)))
    | (s, (filterHolder, workspaceBuffer)) =>
        (s, (set_resample r filterHolder workspaceBuffer, result))
    end.

End ResampleCall.

(** ** A concrete [FloatType]

    Rationals in lowest terms, with exact arithmetic; the elementary
    functions are short series.  The instance runs the embedding on
    concrete inputs; no statement below depends on how well it
    approximates. *)

Module QFloat.

Definition add (a b : Q) : Q := Qred (a + b).
Definition sub (a b : Q) : Q := Qred (a - b).
Definition mul (a b : Q) : Q := Qred (a * b).
Definition div (a b : Q) : Q := Qred (a / b).
Definition abs (a : Q) : Q := Qred (Qabs a).

(** Six steps of Heron's iteration. *)
Definition sqrt (a : Q) : Q :=
  if Qle_bool a 0 then 0%Q
  else fold_left (fun x _ => Qred ((x + a / x) / 2)) (seq 0 6) (Qred ((a + 1) / 2)).

Definition cos (x : Q) : Q :=
  let x2 := (x * x)%Q in
  Qred (1 - x2 / 2 + x2 * x2 / 24 - x2 * x2 * x2 / 720).

Definition sin (x : Q) : Q :=
  let x2 := (x * x)%Q in
  Qred (x - x * x2 / 6 + x * x2 * x2 / 120 - x * x2 * x2 * x2 / 5040).

(** Exact at [-1], [0] and [1] for [355/113] in place of pi. *)
Definition acos (x : Q) : Q := Qred (355 / 226 * (1 - x)).

(** Integral exponents only, which is all the library passes. *)
Definition pow (x y : Q) : Q :=
  let y := Qred y in
  if (Qden y =? 1)%positive then Qred (Qpower x (Qnum y)) else 1%Q.

Definition hypot (x y : Q) : Q := sqrt (x * x + y * y).

End QFloat.

#[export] Instance Q_Real : Real Q := {|
  of_Q := Qred;
  fadd := QFloat.add;
  fsub := QFloat.sub;
  fmul := QFloat.mul;
  fdiv := QFloat.div;
  fabs := QFloat.abs;
  fltb := Double.ltb;
  fleb := Double.leb
|}.

#[export] Instance Q_Transcendental : Transcendental Q := {|
  fsqrt := QFloat.sqrt;
  fcos := QFloat.cos;
  fsin := QFloat.sin;
  facos := QFloat.acos;
  fpow := QFloat.pow;
  fhypot := QFloat.hypot
|}.

(** ** The formulas of the specification

    Each definition below follows the words of the specification; the
    properties compare it with what the embedded code computes. *)


(** "the smallest power of two that is >= L" *)
Definition smallest_pow2_geq (L W : Z) : Prop :=
  is_pow2 W /\ L <= W /\ forall W', is_pow2 W' -> L <= W' -> W <= W'.

(** The smallest power of two above [L]. *)
Definition smallest_pow2_above (L W : Z) : Prop :=
  is_pow2 W /\ L < W /\ forall W', is_pow2 W' -> L < W' -> W <= W'.

(** The state of [ComputeResampleFactors] after the first pass for the
    ratio 2: both ends of the bracket are 2/1 and the error is 0. *)
Definition mediant_state_two : mediant_state :=
  {| n_a := 2; d_a := 1; n_b := 2; d_b := 1;
     error := Qabs (inject_Z 2 / inject_Z 1 - 2);
     factors := (2, 1) |}.

Section ConvolveSum.
Context {V : Type} (zero : V) (add mul : V -> V -> V).

(** "the valid overlap range max(0, k-N+1) <= j <= min(k, M-1)" *)
Definition overlap_lo (N k : nat) : nat := (k + 1 - N)%nat.
Definition overlap_hi (M k : nat) : nat := Nat.min k (M - 1).

(** "the sum of x[j]*h[k-j] over the valid overlap range", added up from
    the first index to the last. *)
Definition overlap_sum (x h : list V) (k : nat) : V :=
  fold_left (fun acc j => add acc (mul (nth j x zero) (nth (k - j) h zero)))
    (seq (overlap_lo (length h) k)
         (Datatypes.S (overlap_hi (length x) k) - overlap_lo (length h) k))
    zero.

End ConvolveSum.

Section SpectrumBins.
Context {F : Type} `{Real F} `{Transcendental F}.

(** "every bin except DC (index 0) is doubled before magnitude
    extraction; result stored in the real component, imaginary zeroed" *)
Definition magnitude_bin (i : nat) (z : complex F) : complex F :=
  Cplx (cabs (if decide (i <> 0%nat) then cscale z (of_Z 2) else z)) (of_Z 0).

(** The same for the power, as the specification has it. *)
Definition doubled_power_bin (i : nat) (z : complex F) : complex F :=
  Cplx (cnorm (if decide (i <> 0%nat) then cscale z (of_Z 2) else z)) (of_Z 0).

(** The power of the bin as it is. *)
Definition power_bin (z : complex F) : complex F := Cplx (cnorm z) (of_Z 0).

(** The vector after a conversion that maps the first [used] bins by
    [bin]: the other bins are zeroed on request and kept otherwise. *)
Definition converted (bin : nat -> complex F -> complex F) (used : nat)
  (zeroUnused : bool) (cplxFft : list (complex F)) : list (complex F) :=
  imap bin (take used cplxFft)
  ++ (if zeroUnused then replicate (length cplxFft - used) czero
      else drop used cplxFft).

End SpectrumBins.

(** A bracket of the Stern-Brocot search: two fractions [n_a/d_a] and
    [n_b/d_b] with [size_t] terms well below the wrap-around and
    [n_b*d_a - n_a*d_b = 1]. *)
Definition bracket_ok (s : mediant_state) : Prop :=
  0 <= n_a s < 2 ^ 62 /\ 0 <= n_b s < 2 ^ 62
  /\ 1 <= d_a s < 2 ^ 62 /\ 1 <= d_b s < 2 ^ 62
  /\ n_b s * d_a s - n_a s * d_b s = 1.

(** A pair of factors within the limits, in lowest terms, that stands
    for a fraction strictly between [lo] and [hi]. *)
Definition good_factors (lo hi maxNumerator maxDenominator : Z) (f : Z * Z)
  : Prop :=
  1 <= fst f <= maxNumerator /\ 1 <= snd f <= maxDenominator
  /\ Z.gcd (fst f) (snd f) = 1
  /\ lo * snd f < fst f < hi * snd f.

(** A bracket between [lo] and [hi] whose kept factors are good. *)
Definition search_ok (lo hi maxNumerator maxDenominator : Z)
  (s : mediant_state) : Prop :=
  bracket_ok s
  /\ lo * d_a s <= n_a s /\ n_b s <= hi * d_b s
  /\ good_factors lo hi maxNumerator maxDenominator (factors s).

(** ** Closed forms

    Values that the further properties of the second part are stated
    with. *)

Section ClosedForms.
Context {F : Type} `{Real F} `{Transcendental F}.

(** The three-bin sum behind bin [i] of a complex power spectrum of which
    the first [used] bins are in use: the real part of what the
    convolution with three ones leaves behind that bin, as a peak
    magnitude. *)
Definition bin_sum (powerSpectrum : list (complex F)) (used i : nat) : F :=
  transformer
    (real (overlap_sum czero cadd cmul (take used powerSpectrum)
             convVec_complex (Datatypes.S i))).

(** A signal as the upsampling of [Resample::operator()] spreads it:
    every sample multiplied by [U], with [U - 1] zeros behind it. *)
Definition stuffed (U : Z) (signal : list F) : list F :=
  flat_map
    (fun x => (x * of_Z U)%F :: replicate (Z.to_nat U - 1) (of_Z 0))
    signal.

(** What [FftConvolve::operator()] leaves in its first workspace of [W]
    samples: both inputs are padded with zeros, transformed and multiplied
    bin by bin, and the product is inverted.  The convolution is the real
    parts of the first [L] samples. *)
Definition padded (W : nat) (input : list F) : list (complex F) :=
  (convertToComplex <$> input) ++ replicate (W - length input) czero.

Definition fft_product (W : nat) (signal kernel : list F)
  : list (complex F) :=
  snd (Inverse
         (zip_with crossMultiply (snd (Forward (padded W signal)))
            (snd (Forward (padded W kernel))))).

Definition fft_convolution (W L : nat) (signal kernel : list F) : list F :=
  real <$> take L (fft_product W signal kernel).

(** The direct convolution of [Convolve]: the overlap sums. *)
Definition direct_convolution (signal kernel : list F) : list F :=
  overlap_sum (of_Z 0) fadd fmul signal kernel
  <$> seq 0 (length signal + length kernel - 1).

End ClosedForms.

(** ** The states of an object

    A call overwrites the workspaces of its object and nothing else.  An
    object that has been called is told from the one its constructor
    returned by the contents of the workspaces alone: the relations below
    hold between the constructed object and every later state of it. *)

Section States.
Context {F : Type} `{Real F} `{Transcendental F}.

(** [fc] has the sizes of [fc0]. *)
Definition FftConvolve_agrees (fc0 fc : FftConvolve (F := F)) : Prop :=
  m_discreteConvolutionLength fc = m_discreteConvolutionLength fc0
  /\ length (m_workspace1 fc) = length (m_workspace1 fc0)
  /\ length (m_workspace2 fc) = length (m_workspace2 fc0).

(** [h] has the settings and the sizes of [h0]. *)
Definition FilterHolder_agrees (h0 h : FilterHolder (F := F)) : Prop :=
  m_signalLength h = m_signalLength h0
  /\ m_filterCoeffs h = m_filterCoeffs h0
  /\ m_useFastConvolution h = m_useFastConvolution h0
  /\ FftConvolve_agrees (m_fftConvolve h0) (m_fftConvolve h)
  /\ length (m_filteredSignal h) = length (m_filteredSignal h0).

(** [r] has the settings and the sizes of [r0]. *)
Definition Resample_agrees (r0 r : Resample (F := F)) : Prop :=
  r_signalLength r = r_signalLength r0
  /\ m_upsampleFactor r = m_upsampleFactor r0
  /\ m_downsampleFactor r = m_downsampleFactor r0
  /\ m_resampledLength r = m_resampledLength r0
  /\ FilterHolder_agrees (m_filterHolder r0) (m_filterHolder r)
  /\ length (m_workspaceBuffer r) = length (m_workspaceBuffer r0).

(** [m] has the window and the workspace size of [m0]. *)
Definition MagnitudeFft_agrees (m0 m : MagnitudeFft (F := F)) : Prop :=
  mag_windowFunction m = mag_windowFunction m0
  /\ length (mag_workspace m) = length (mag_workspace m0).

(** [t] has the window and the workspace size of [t0]. *)
Definition ThreeBinSumFft_agrees (t0 t : ThreeBinSumFft (F := F)) : Prop :=
  tbs_windowFunction t = tbs_windowFunction t0
  /\ length (tbs_workspace t) = length (tbs_workspace t0).

End States.

(* ================================================================== *)
(** * Properties *)

(** ** Machine integers *)

Lemma wrap64_small z : 0 <= z < 2 ^ 64 -> Machine.wrap64 z = z.
Proof. intros Hz. unfold Machine.wrap64. apply Z.mod_small. exact Hz. Qed.

Lemma wrap32_small z : 0 <= z < 2 ^ 32 -> Machine.wrap32 z = z.
Proof. intros Hz. unfold Machine.wrap32. apply Z.mod_small. exact Hz. Qed.

Lemma wrap32_range z : 0 <= Machine.wrap32 z < 2 ^ 32.
Proof. unfold Machine.wrap32. apply Z.mod_pos_bound. reflexivity. Qed.

Lemma to_int32_small z : 0 <= z < 2 ^ 31 -> Machine.to_int32 z = z.
Proof. intros Hz. unfold Machine.to_int32. rewrite Z.mod_small; lia. Qed.

(** ** IsPowerOf2 *)

Lemma land_pow2_pred k : 0 <= k -> Z.land (2 ^ k) (2 ^ k - 1) = 0.
Proof.
  intros Hk. apply Z.bits_inj'. intros i Hi.
  rewrite Z.land_spec, Z.bits_0.
  destruct (Z.eq_dec i k) as [->|Hne].
  - replace (2 ^ k - 1) with (Z.ones k) by (rewrite Z.ones_equiv; lia).
    rewrite Z.ones_spec_high by lia. apply andb_false_r.
  - rewrite Z.pow2_bits_false by lia. reflexivity.
Qed.

Lemma land_pred_nonzero n :
  0 < n -> n <> 2 ^ Z.log2 n -> Z.land n (n - 1) <> 0.
Proof.
  intros Hn Hne Hland.
  pose proof (Z.log2_spec n Hn) as [Hlo Hhi].
  assert (Hk : 0 <= Z.log2 n) by apply Z.log2_nonneg.
  assert (Hlog : Z.log2 (n - 1) = Z.log2 n).
  { apply Z.log2_unique; [exact Hk | lia]. }
  assert (Hb1 : Z.testbit n (Z.log2 n) = true) by (apply Z.bit_log2; lia).
  assert (Hb2 : Z.testbit (n - 1) (Z.log2 n) = true).
  { rewrite <- Hlog. apply Z.bit_log2.
    assert (0 < 2 ^ Z.log2 n) by (apply Z.pow_pos_nonneg; lia). lia. }
  assert (Hb : Z.testbit (Z.land n (n - 1)) (Z.log2 n) = true).
  { rewrite Z.land_spec, Hb1, Hb2. reflexivity. }
  rewrite Hland, Z.bits_0 in Hb. discriminate.
Qed.

Lemma IsPowerOf2_spec n : IsPowerOf2 n = true <-> is_pow2 n.
Proof.
  unfold IsPowerOf2, is_pow2. rewrite andb_true_iff, Z.ltb_lt, Z.eqb_eq.
  split.
  - intros [Hn Hland]. exists (Z.log2 n). split; [apply Z.log2_nonneg|].
    destruct (Z.eq_dec n (2 ^ Z.log2 n)) as [Heq|Hne]; [exact Heq|].
    exfalso. exact (land_pred_nonzero n Hn Hne Hland).
  - intros (k & Hk & ->). split.
    + apply Z.pow_pos_nonneg; lia.
    + apply land_pow2_pred. exact Hk.
Qed.

Lemma IsPowerOf2_false n : IsPowerOf2 n = false <-> ~ is_pow2 n.
Proof.
  rewrite <- IsPowerOf2_spec. destruct (IsPowerOf2 n); split; congruence.
Qed.

(** ** The outcome monad and the loops *)

Lemma bind_Ok {A B : Type} (m : outcome A) (f : A -> outcome B) (b : B) :
  m ≫= f = Ok b <-> exists a, m = Ok a /\ f a = Ok b.
Proof.
  split.
  - destruct m as [a| | |]; simpl; try discriminate. intros Hf. eauto.
  - intros (a & -> & Hf). exact Hf.
Qed.

Lemma lift_Ok {A : Type} (o : option A) (a : A) : lift o = Ok a <-> o = Some a.
Proof. destruct o; simpl; split; congruence. Qed.

Lemma store_Some {A : Type} (i : nat) (x : A) (v : list A) :
  (i < length v)%nat -> store i x v = Some (<[i := x]> v).
Proof. intros Hi. unfold store. destruct (decide _); [reflexivity | lia]. Qed.

Lemma store_inv {A : Type} (i : nat) (x : A) (v v' : list A) :
  store i x v = Some v' -> (i < length v)%nat /\ v' = <[i := x]> v.
Proof. unfold store. destruct (decide _); intros Hs; inversion Hs; auto. Qed.

Lemma iter_at_Some {A : Type} (v : list A) (i : Z) :
  0 <= i <= Z.of_nat (length v) -> iter_at v i = Some (Z.to_nat i).
Proof.
  intros Hi. unfold iter_at.
  destruct (Z.leb_spec 0 i); [| lia].
  destruct (Z.leb_spec i (Z.of_nat (length v))); [reflexivity | lia].
Qed.

(** A loop that keeps an invariant and never leaves early returns, with
    the invariant at the final index. *)
Lemma for_range_invariant {S : Type} (P : nat -> S -> Prop)
  (body : nat -> S -> outcome S) (n i : nat) (s : S) :
  P i s ->
  (forall j t, (i <= j < i + n)%nat -> P j t ->
     exists t', body j t = Ok t' /\ P (Datatypes.S j) t') ->
  exists s', for_range n i body s = Ok s' /\ P (i + n)%nat s'.
Proof.
  revert i s. induction n as [|n IH]; intros i s Hs Hstep.
  - exists s. rewrite Nat.add_0_r. split; [reflexivity | exact Hs].
  - destruct (Hstep i s ltac:(lia) Hs) as (t & Hb & Ht).
    destruct (IH (Datatypes.S i) t Ht) as (s' & Hr & Hs').
    { intros j u Hj Hu. apply Hstep; [lia | exact Hu]. }
    exists s'. split.
    + simpl. rewrite Hb. exact Hr.
    + replace (i + Datatypes.S n)%nat with (Datatypes.S i + n)%nat by lia.
      exact Hs'.
Qed.

(** ** dsp_fft.hpp: the transform returns on a power of two *)


Lemma lt_pow2_log2 (n x : Z) : 0 <= n -> 0 <= x -> (x < 2 ^ n <-> x = 0 \/ Z.log2 x < n).
Proof.
  intros Hn Hx. destruct (Z.eq_dec x 0) as [->|Hne].
  - split; [auto|]. intros _. apply Z.pow_pos_nonneg; lia.
  - rewrite <- Z.log2_lt_pow2 by lia. split; [auto | intros [?|?]; [lia | assumption]].
Qed.

Lemma lor_range (n x y : Z) :
  0 <= n -> 0 <= x < 2 ^ n -> 0 <= y < 2 ^ n -> 0 <= Z.lor x y < 2 ^ n.
Proof.
  intros Hn [Hx0 Hx] [Hy0 Hy].
  assert (Hnn : 0 <= Z.lor x y) by (apply Z.lor_nonneg; lia).
  split; [exact Hnn|].
  apply lt_pow2_log2 in Hx, Hy; try lia.
  apply lt_pow2_log2; try lia.
  destruct (Z.eq_dec (Z.lor x y) 0); [left; assumption | right].
  rewrite Z.log2_lor by lia.
  destruct Hx as [->|Hx], Hy as [->|Hy]; simpl in *; try lia.
  - exfalso. auto.
  - rewrite Z.max_r; [lia | apply Z.log2_nonneg].
  - rewrite Z.max_l; [lia | apply Z.log2_nonneg].
Qed.

Lemma land_range (n x y : Z) :
  0 <= n -> 0 <= x < 2 ^ n -> 0 <= y -> 0 <= Z.land x y < 2 ^ n.
Proof.
  intros Hn [Hx0 Hx] Hy0.
  assert (Hnn : 0 <= Z.land x y) by (apply Z.land_nonneg; lia).
  split; [exact Hnn|].
  apply lt_pow2_log2 in Hx; try lia.
  apply lt_pow2_log2; try lia.
  destruct Hx as [->|Hx]; [left; apply Z.land_0_l | right].
  pose proof (Z.log2_land x y Hx0 Hy0) as Hl. lia.
Qed.

Lemma shiftr_range (n x s : Z) :
  0 <= s -> 0 <= x < 2 ^ n -> 0 <= Z.shiftr x s < 2 ^ n.
Proof.
  intros Hs [Hx0 Hx]. rewrite Z.shiftr_div_pow2 by lia.
  assert (0 < 2 ^ s) by (apply Z.pow_pos_nonneg; lia).
  split; [apply Z.div_pos; lia|].
  apply Z.le_lt_trans with x; [| exact Hx].
  apply Z.div_le_upper_bound; nia.
Qed.

Lemma reverse_bits_range (m b : Z) :
  1 <= m <= 32 -> 0 <= b < 2 ^ 32 ->
  exists r, reverse_bits m b = Ok r /\ 0 <= r < 2 ^ m.
Proof.
  intros Hm Hb. unfold reverse_bits.
  rewrite (wrap32_small (32 - m)) by lia.
  destruct (Z.ltb_spec (32 - m) 32) as [_|]; [| lia].
  eexists. split; [reflexivity|].
  assert (Hstage : forall x mask1 mask2 s, 0 <= s -> 0 <= x < 2 ^ 32 -> 0 <= mask1 -> 
     0 <= Z.lor (Z.shiftr (Z.land x mask1) s) (Machine.wrap32 (Z.shiftl (Z.land x mask2) s)) < 2 ^ 32).
  { intros x mask1 mask2 s Hs Hx Hm1. apply lor_range; [lia | |].
    - apply shiftr_range; [lia|]. apply land_range; lia.
    - apply Z.mod_pos_bound. reflexivity. }
  pose proof (Hstage b 0xaaaaaaaa 0x55555555 1 ltac:(lia) Hb ltac:(lia)) as H1.
  set (b1 := Z.lor (Z.shiftr (Z.land b 0xaaaaaaaa) 1) _) in *.
  pose proof (Hstage b1 0xcccccccc 0x33333333 2 ltac:(lia) H1 ltac:(lia)) as H2.
  set (b2 := Z.lor (Z.shiftr (Z.land b1 0xcccccccc) 2) _) in *.
  pose proof (Hstage b2 0xf0f0f0f0 0x0f0f0f0f 4 ltac:(lia) H2 ltac:(lia)) as H3.
  set (b3 := Z.lor (Z.shiftr (Z.land b2 0xf0f0f0f0) 4) _) in *.
  pose proof (Hstage b3 0xff00ff00 0x00ff00ff 8 ltac:(lia) H3 ltac:(lia)) as H4.
  set (b4 := Z.lor (Z.shiftr (Z.land b3 0xff00ff00) 8) _) in *.
  assert (H5 : 0 <= Z.lor (Z.shiftr b4 16) (Machine.wrap32 (Z.shiftl b4 16)) < 2 ^ 32).
  { apply lor_range; [lia | |].
    - apply shiftr_range; lia.
    - apply Z.mod_pos_bound. reflexivity. }
  set (b5 := Z.lor (Z.shiftr b4 16) _) in *.
  rewrite Z.shiftr_div_pow2 by lia.
  assert (Hp : 0 < 2 ^ (32 - m)) by (apply Z.pow_pos_nonneg; lia).
  split; [apply Z.div_pos; lia|].
  apply Z.div_lt_upper_bound; [exact Hp|].
  rewrite <- Z.pow_add_r by lia. replace (32 - m + m) with 32 by lia. lia.
Qed.

Section FFTFacts.
Context {F : Type} `{Real F} `{Transcendental F}.

Lemma butterfly_Ok (k : Z) (T : complex F) (a : Z) (data : list (complex F)) :
  0 <= a -> 0 < k -> a + k < Z.of_nat (length data) -> a + k < 2 ^ 32 ->
  exists data', butterfly k T a data = Ok data' /\ length data' = length data.
Proof.
  intros Ha Hk Hb H32. unfold butterfly.
  rewrite wrap32_small by lia.
  destruct (lookup_lt_is_Some_2 data (Z.to_nat a) ltac:(lia)) as [x Hx].
  destruct (lookup_lt_is_Some_2 data (Z.to_nat (a + k)) ltac:(lia)) as [y Hy].
  rewrite Hx, Hy. simpl.
  rewrite store_Some by lia. simpl.
  rewrite store_Some by (rewrite length_insert; lia). simpl.
  eexists. split; [reflexivity|]. rewrite !length_insert. reflexivity.
Qed.

Lemma butterfly_loop_Ok (fuel : nat) (N n k : Z) (T : complex F) (a : Z)
  (data : list (complex F)) :
  N = Z.of_nat (length data) -> N <= 2 ^ 31 ->
  0 < k -> n = 2 * k -> (n | N) ->
  0 <= a -> a mod n < k -> N - a <= Z.of_nat fuel ->
  exists data', butterfly_loop fuel N n k T a data = Ok data'
                /\ length data' = length data.
Proof.
  revert a data. induction fuel as [|fuel IH]; intros a data HN H31 Hk Hn Hdiv Ha Hmod Hfuel.
  - simpl. destruct (Z.ltb_spec a N); [lia|]. eauto.
  - simpl. destruct (Z.ltb_spec a N) as [Hlt|Hge]; [| eauto].
    assert (Hak : a + k < N).
    { destruct Hdiv as [c Hc].
      pose proof (Z.div_mod a n ltac:(lia)) as Hdm.
      pose proof (Z.mod_pos_bound a n ltac:(lia)) as Hmb.
      assert (a / n < c) by nia. nia. }
    destruct (butterfly_Ok k T a data Ha Hk ltac:(lia) ltac:(lia)) as (d1 & Hb & Hl1).
    rewrite Hb. simpl.
    assert (Hn_le : n <= N).
    { destruct Hdiv as [c Hc]. assert (0 < c) by nia. nia. }
    rewrite wrap32_small by lia.
    destruct (IH (a + n) d1) as (d2 & Hr & Hl2); try lia.
    + destruct Hdiv as [c Hc]. exists c. lia.
    + replace (a + n) with (a + 1 * n) by lia. rewrite Z.mod_add by lia. exact Hmod.
    + exists d2. split; [exact Hr | congruence].
Qed.

Lemma twiddle_loop_Ok (N n k : Z) (phiT T0 : complex F) (data : list (complex F)) :
  N = Z.of_nat (length data) -> N <= 2 ^ 31 ->
  0 < k -> n = 2 * k -> (n | N) ->
  exists T data', for_range (Z.to_nat k) 0 (twiddle_body N n k phiT) (T0, data) = Ok (T, data')
                /\ length data' = length data.
Proof.
  intros HN H31 Hk Hn Hdiv.
  destruct (for_range_invariant
              (fun _ st => length (snd st) = length data)
              (twiddle_body N n k phiT) (Z.to_nat k) 0 (T0, data) eq_refl)
    as ([T d] & Hr & Hl).
  - intros j [T d] Hj Hl. simpl in Hl. unfold twiddle_body.
    destruct (butterfly_loop_Ok (Z.to_nat N) N n k T (Z.of_nat j) d) as (d' & Hb & Hl');
      try lia.
    + destruct Hdiv as [c Hc]. exists c. lia.
    + rewrite Z.mod_small by lia. lia.
    + rewrite Hb. simpl. eexists. split; [reflexivity|]. simpl. congruence.
  - exists T, d. split; [exact Hr | exact Hl].
Qed.

Lemma stage_loop_Ok (fuel : nat) (m j : Z) (phiT : complex F) (data : list (complex F)) :
  Z.of_nat (length data) = 2 ^ m -> 0 <= j <= m -> m <= 31 -> j <= Z.of_nat fuel ->
  exists data', stage_loop fuel (2 ^ m) (2 ^ j) phiT data = Ok data'
                /\ length data' = length data.
Proof.
  revert j phiT data. induction fuel as [|fuel IH]; intros j phiT data HN Hj Hm Hfuel.
  - assert (j = 0) as -> by lia. simpl. eauto.
  - simpl. destruct (Z.ltb_spec 1 (2 ^ j)) as [Hlt|Hge]; [| eauto].
    assert (Hj1 : 1 <= j).
    { destruct (Z.eq_dec j 0) as [->|?]; [simpl in Hlt; lia | lia]. }
    assert (Hk : Z.shiftr (2 ^ j) 1 = 2 ^ (j - 1)).
    { rewrite Z.shiftr_div_pow2 by lia. rewrite <- Z.pow_sub_r by lia. reflexivity. }
    rewrite Hk.
    assert (Hpos : 0 < 2 ^ (j - 1)) by (apply Z.pow_pos_nonneg; lia).
    assert (Hn : 2 ^ j = 2 * 2 ^ (j - 1)).
    { rewrite <- Z.pow_succ_r by lia. f_equal. lia. }
    assert (Hdiv : (2 ^ j | 2 ^ m)).
    { exists (2 ^ (m - j)). rewrite <- Z.pow_add_r by lia. f_equal. lia. }
    assert (H31 : 2 ^ m <= 2 ^ 31) by (apply Z.pow_le_mono_r; lia).
    destruct (twiddle_loop_Ok (2 ^ m) (2 ^ j) (2 ^ (j - 1)) (cmul phiT phiT) cone data)
      as (T & d1 & Hr & Hl1); try lia; try assumption.
    rewrite Hr. simpl.
    destruct (IH (j - 1) (cmul phiT phiT) d1) as (d2 & Hr2 & Hl2); try lia.
    exists d2. split; [exact Hr2 | congruence].
Qed.

Lemma decimate_loop_Ok (m : Z) (data : list (complex F)) :
  Z.of_nat (length data) = 2 ^ m -> 1 <= m <= 31 ->
  exists data', for_range (length data) 0 (decimate_body m) data = Ok data'
                /\ length data' = length data.
Proof.
  intros HN Hm.
  assert (H32 : 2 ^ m < 2 ^ 32) by (apply Z.pow_lt_mono_r; lia).
  destruct (for_range_invariant
              (fun _ d => length d = length data)
              (decimate_body m) (length data) 0 data eq_refl) as (d & Hr & Hl).
  - intros j d Hj Hl. unfold decimate_body.
    destruct (reverse_bits_range m (Z.of_nat j) ltac:(lia) ltac:(lia))
      as (b & Hrev & Hb).
    rewrite Hrev. cbn [mbind outcome_bind].
    destruct (Z.ltb_spec (Z.of_nat j) b); [| eauto].
    destruct (lookup_lt_is_Some_2 d j ltac:(lia)) as [x Hx].
    destruct (lookup_lt_is_Some_2 d (Z.to_nat b) ltac:(lia)) as [y Hy].
    rewrite Hx, Hy. simpl.
    rewrite store_Some by lia. simpl.
    rewrite store_Some by (rewrite length_insert; lia). simpl.
    eexists. split; [reflexivity|]. rewrite !length_insert. exact Hl.
  - exists d. split; [exact Hr | exact Hl].
Qed.

(** The transform returns on every power-of-two length from [2] to
    [2^31]. *)
Lemma CooleyTukeyFFT_Ok (data : list (complex F)) :
  is_pow2 (Z.of_nat (length data)) ->
  2 <= Z.of_nat (length data) < 2 ^ 32 ->
  exists data', CooleyTukeyFFT data = Ok data' /\ length data' = length data.
Proof.
  intros (e & He & Hlen) Hrange. unfold CooleyTukeyFFT.
  assert (He1 : 1 <= e).
  { destruct (Z.eq_dec e 0) as [->|]; [| lia]. change (2 ^ 0) with 1 in Hlen.
    lia. }
  assert (Hlt : e < 32).
  { rewrite Hlen in Hrange. apply (Z.pow_lt_mono_r_iff 2); lia. }
  assert (Hpos : 0 < 2 ^ e) by (apply Z.pow_pos_nonneg; lia).
  rewrite Hlen, wrap32_small by lia.
  destruct (stage_loop_Ok 32 e e
              (Cplx (fcos (Pi / of_Z (2 ^ e))%F) (fsin (Pi / of_Z (2 ^ e))%F)) data)
    as (d1 & Hr1 & Hl1); try lia.
  rewrite Hr1. cbn [mbind outcome_bind].
  destruct (Z.ltb_spec 0 (2 ^ e)) as [_|]; [| lia].
  cbn [mbind outcome_bind].
  rewrite Z.log2_pow2 by lia.
  destruct (decimate_loop_Ok e d1) as (d2 & Hr2 & Hl2); try lia.
  replace (Z.to_nat (2 ^ e)) with (length d1) by lia.
  exists d2. split; [exact Hr2 | congruence].
Qed.

(** On one sample the reordering shifts by the width of the type. *)
Lemma CooleyTukeyFFT_one_sample (z : complex F) : CooleyTukeyFFT [z] = UB.
Proof. reflexivity. Qed.

(** A size that [uint32_t] does not hold: the size is read as [0]. *)
Lemma CooleyTukeyFFT_size_wraps (data : list (complex F)) :
  is_pow2 (Z.of_nat (length data)) ->
  2 ^ 32 <= Z.of_nat (length data) ->
  CooleyTukeyFFT data = UB.
Proof.
  intros (e & He & Hlen) Hbig. unfold CooleyTukeyFFT.
  assert (Hge : 32 <= e).
  { rewrite Hlen in Hbig. apply (Z.pow_le_mono_r_iff 2); lia. }
  assert (Hw : Machine.wrap32 (Z.of_nat (length data)) = 0).
  { rewrite Hlen. unfold Machine.wrap32.
    replace e with (32 + (e - 32)) by lia. rewrite Z.pow_add_r by lia.
    rewrite Z.mul_comm. apply Z.mod_mul. lia. }
  rewrite Hw. reflexivity.
Qed.

Lemma Forward_pow2 (data : list (complex F)) :
  is_pow2 (Z.of_nat (length data)) ->
  2 <= Z.of_nat (length data) < 2 ^ 32 ->
  exists data', Forward data = (Done, data') /\ length data' = length data.
Proof.
  intros Hp Hrange. unfold Forward.
  rewrite (proj2 (IsPowerOf2_spec _) Hp). simpl.
  destruct (CooleyTukeyFFT_Ok data Hp Hrange) as (d & Hr & Hl).
  rewrite Hr. simpl. eauto.
Qed.

Lemma Forward_not_pow2 (data : list (complex F)) :
  ~ is_pow2 (Z.of_nat (length data)) ->
  Forward data = (Throw "FFT size not a power of 2", data).
Proof.
  intros Hp. unfold Forward.
  rewrite (proj2 (IsPowerOf2_false _) Hp). reflexivity.
Qed.

Lemma not_pow2_0 : ~ is_pow2 0.
Proof.
  intros (k & Hk & Hz).
  assert (0 < 2 ^ k) by (apply Z.pow_pos_nonneg; lia). lia.
Qed.

(** A power-of-two length passes the test of [Forward]: the call returns
    or is undefined, it does not throw. *)
Lemma Forward_pow2_cases (data : list (complex F)) :
  is_pow2 (Z.of_nat (length data)) ->
  (2 <= Z.of_nat (length data) < 2 ^ 32 /\
   exists data', Forward data = (Done, data') /\ length data' = length data)
  \/ ((Z.of_nat (length data) = 1 \/ 2 ^ 32 <= Z.of_nat (length data))
      /\ Forward data = (UB, data)).
Proof.
  intros Hp.
  pose proof Hp as (e & He & Hlen).
  assert (Hpos : 0 < 2 ^ e) by (apply Z.pow_pos_nonneg; lia).
  destruct (Z.lt_ge_cases (Z.of_nat (length data)) 2) as [Hone|Htwo].
  - right. split; [lia|].
    destruct data as [|z [|z' data]]; cbn [length] in *; try lia.
    reflexivity.
  - destruct (Z.lt_ge_cases (Z.of_nat (length data)) (2 ^ 32)) as [Hfit|Hbig].
    + left. split; [lia|]. apply Forward_pow2; [exact Hp | lia].
    + right. split; [lia|]. unfold Forward.
      rewrite (proj2 (IsPowerOf2_spec _) Hp). cbn [negb].
      rewrite (CooleyTukeyFFT_size_wraps data Hp Hbig). reflexivity.
Qed.

(** C8.  A vector of one sample passes the test of [Forward], one being a
    power of two, and the transform is then undefined: its reordering
    loop shifts a [uint32_t] by [32 - m] with [m = 0].  The call does not
    complete without error on every power-of-two length. *)
Theorem C8_Forward_on_one_sample_is_undefined (z : complex F) :
  is_pow2 (Z.of_nat (length [z]))
  /\ IsPowerOf2 (Z.of_nat (length [z])) = true
  /\ reverse_bits 0 0 = UB
  /\ Forward [z] = (UB, [z]).
Proof.
  split; [exists 0; split; [lia | reflexivity]|].
  split; [reflexivity|]. split; reflexivity.
Qed.

End FFTFacts.

(** ** [double] *)

Lemma Qfloor_unique (x : Q) (z : Z) :
  (inject_Z z <= x)%Q -> (x < inject_Z (z + 1))%Q -> Qfloor x = z.
Proof.
  intros Hlo Hhi.
  assert (H1 : z <= Qfloor x).
  { rewrite <- (Qfloor_Z z). apply Qfloor_resp_le. exact Hlo. }
  assert (H2 : Qfloor x < z + 1).
  { rewrite Zlt_Qlt. eapply Qle_lt_trans; [apply Qfloor_le | exact Hhi]. }
  lia.
Qed.

Lemma Qfloor_div (a b : Z) :
  0 < b -> Qfloor (inject_Z a / inject_Z b) = a / b.
Proof.
  intros Hb. destruct b as [|p|p]; try lia.
  unfold Qdiv, Qinv, inject_Z, Qmult, Qfloor. simpl.
  rewrite Z.mul_1_r. reflexivity.
Qed.

(** The cast of [z + 0.5] gives [z] back. *)
Lemma to_size_t_plus_half (z : Z) :
  0 <= z < 2 ^ 64 -> Double.to_size_t (inject_Z z + 0.5) = z.
Proof.
  intros Hz. unfold Double.to_size_t.
  assert (Hle : Qle_bool 0 (inject_Z z + 0.5) = true).
  { apply Qle_bool_iff. unfold Qle, inject_Z. simpl. lia. }
  rewrite Hle.
  assert (Hfl : Qfloor (inject_Z z + 0.5) = z).
  { apply Qfloor_unique.
    - unfold Qle, inject_Z. simpl. lia.
    - unfold Qlt, inject_Z. simpl. lia. }
  rewrite Hfl. apply wrap64_small. exact Hz.
Qed.

(** The cast of [z + 1]. *)
Lemma to_size_t_plus_one (z : Z) :
  0 <= z < 2 ^ 63 -> Double.to_size_t (inject_Z z + 1) = z + 1.
Proof.
  intros Hz. unfold Double.to_size_t.
  assert (Hle : Qle_bool 0 (inject_Z z + 1) = true).
  { apply Qle_bool_iff. unfold Qle, inject_Z. simpl. lia. }
  rewrite Hle.
  assert (Hfl : Qfloor (inject_Z z + 1) = z + 1).
  { apply Qfloor_unique.
    - unfold Qle, inject_Z. simpl. lia.
    - unfold Qlt, inject_Z. simpl. lia. }
  rewrite Hfl. apply wrap64_small. lia.
Qed.

(** No sum is rounded for a ratio with a fractional part, nor for one
    below [2^52]. *)
Lemma half_rounds_up_fraction (r : Q) :
  Qfloor r < Qceiling r -> Double.half_rounds_up r = false.
Proof.
  intros Hfrac. unfold Double.half_rounds_up.
  destruct (Qeq_bool (inject_Z (Qfloor r)) r) eqn:Heq; [| reflexivity].
  exfalso. apply Qeq_bool_iff in Heq.
  assert (Hc : Qceiling r = Qfloor r).
  { rewrite <- Heq at 1. apply Qceiling_Z. }
  lia.
Qed.

Lemma half_rounds_up_small (r : Q) :
  Qfloor r < 2 ^ 52 -> Double.half_rounds_up r = false.
Proof.
  intros Hsmall. unfold Double.half_rounds_up.
  destruct (Z.leb_spec (2 ^ 52) (Qfloor r)) as [|_]; [lia|].
  rewrite andb_false_r. reflexivity.
Qed.

(** ** Resample: the resampled size *)

Lemma ComputeResampledSize_floor (N U D : Z) :
  0 < N -> 0 < U -> 0 < D -> U * N < 2 ^ 64 ->
  ComputeResampledSize N U D = (N * U) / D.
Proof.
  intros HN HU HD Hfit. unfold ComputeResampledSize, Double.floor.
  rewrite wrap64_small by nia.
  rewrite Qfloor_div by exact HD.
  assert (Hq : 0 <= U * N / D < 2 ^ 64).
  { split; [apply Z.div_pos; nia|].
    apply Z.div_lt_upper_bound; nia. }
  rewrite to_size_t_plus_half by exact Hq.
  f_equal. lia.
Qed.

Section ResampleFacts.
Context {F : Type} `{Real F} `{Transcendental F}.



End ResampleFacts.



(** ** FftConvolve: the size of the workspaces *)

Lemma pow2_above_log2 (L : Z) :
  0 < L -> smallest_pow2_above L (2 ^ (Z.log2 L + 1)).
Proof.
  intros HL. pose proof (Z.log2_spec L HL) as [Hlo Hhi].
  pose proof (Z.log2_nonneg L) as Hnn.
  replace (Z.succ (Z.log2 L)) with (Z.log2 L + 1) in Hhi by lia.
  split; [| split].
  - exists (Z.log2 L + 1). split; [lia | reflexivity].
  - exact Hhi.
  - intros W' (k & Hk & ->) HW.
    apply Z.pow_le_mono_r; [lia|].
    assert (Z.log2 L < k); [| lia].
    apply Z.pow_lt_mono_r_iff with 2; lia.
Qed.

Section FftConvolveFacts.
Context {F : Type} `{Real F} `{Transcendental F}.

Lemma FftConvolve_new_inv (M N : Z) (fc : FftConvolve (F := F)) :
  FftConvolve_new M N = Ok fc ->
  M + N - 1 < 2 ^ 48 ->
  0 < M /\ 0 < N
  /\ m_discreteConvolutionLength fc = M + N - 1
  /\ m_workspace1 fc = replicate (Z.to_nat (2 ^ (Z.log2 (M + N - 1) + 1))) czero
  /\ m_workspace2 fc = replicate (Z.to_nat (2 ^ (Z.log2 (M + N - 1) + 1))) czero.
Proof.
  unfold FftConvolve_new.
  destruct (Z.ltb_spec 0 M) as [HM|]; [| discriminate].
  destruct (Z.ltb_spec 0 N) as [HN|]; [| discriminate].
  cbn [negb]. intros Hfc Hfit. inversion Hfc; subst fc; clear Hfc.
  cbn [m_discreteConvolutionLength m_workspace1 m_workspace2].
  rewrite (wrap64_small (M + N - 1)) by lia.
  assert (Hlog : 0 <= Z.log2 (M + N - 1) < 48).
  { split; [apply Z.log2_nonneg|]. apply Z.log2_lt_pow2; lia. }
  unfold Double.floor_log2.
  rewrite to_size_t_plus_half by lia.
  rewrite Z.shiftl_1_l.
  assert (Hp : 0 < 2 ^ (Z.log2 (M + N - 1) + 1) <= 2 ^ 48).
  { split; [apply Z.pow_pos_nonneg; lia | apply Z.pow_le_mono_r; lia]. }
  rewrite wrap64_small by lia.
  split; [exact HM|]. split; [exact HN|].
  split; [reflexivity|]. split; reflexivity.
Qed.

(** C6 (as amended).  An [FftConvolve] built for a signal of [M] and a
    kernel of [N] samples (the constructor accepts them only when both are
    positive) holds two workspaces of the same size, the smallest power of
    two above [M+N-1]: a power of two and more than [M+N-1], also when
    [M+N-1] is a power of two itself.  The lengths are below [2^48], where
    [std::log2] of a [double] cannot round up to the next integer. *)
Theorem C6_workspace_is_power_of_two_above (M N : Z) (fc : FftConvolve (F := F)) :
  FftConvolve_new M N = Ok fc ->
  M + N - 1 < 2 ^ 48 ->
  0 < M /\ 0 < N
  /\ length (m_workspace2 fc) = length (m_workspace1 fc)
  /\ smallest_pow2_above (M + N - 1) (Z.of_nat (length (m_workspace1 fc))).
Proof.
  intros Hfc Hfit.
  destruct (FftConvolve_new_inv M N fc Hfc Hfit) as (HM & HN & _ & H1 & H2).
  split; [exact HM|]. split; [exact HN|].
  rewrite H1, H2, !length_replicate. split; [reflexivity|].
  assert (Hp : 0 < 2 ^ (Z.log2 (M + N - 1) + 1)).
  { apply Z.pow_pos_nonneg; [lia|]. pose proof (Z.log2_nonneg (M + N - 1)). lia. }
  rewrite Z2Nat.id by lia.
  apply pow2_above_log2. lia.
Qed.

End FftConvolveFacts.

Lemma C6_workspace_is_power_of_two_above_witness :
  exists fc : FftConvolve (F := Q),
    FftConvolve_new 6 6 = Ok fc
    /\ 6 + 6 - 1 < 2 ^ 48
    /\ (0 < 6 /\ 0 < 6
        /\ length (m_workspace2 fc) = length (m_workspace1 fc)
        /\ smallest_pow2_above (6 + 6 - 1) (Z.of_nat (length (m_workspace1 fc)))).
Proof.
  eexists. split.
  - vm_compute. reflexivity.
  - split; [reflexivity|].
    apply (C6_workspace_is_power_of_two_above 6 6);
      [vm_compute; reflexivity | reflexivity].
Defined.

(** C6 as stated fails when [M+N-1] is a power of two: for [M = 2] and
    [N = 3] the workspaces hold 8 bins, and the smallest power of two
    [>= 4] is 4. *)
Lemma C6_workspace_not_smallest_geq :
  exists fc : FftConvolve (F := Q),
    FftConvolve_new 2 3 = Ok fc
    /\ Z.of_nat (length (m_workspace1 fc)) = 8
    /\ Z.of_nat (length (m_workspace2 fc)) = 8
    /\ ~ smallest_pow2_geq (2 + 3 - 1) (Z.of_nat (length (m_workspace1 fc))).
Proof.
  eexists. split; [vm_compute; reflexivity|].
  split; [reflexivity|]. split; [reflexivity|].
  intros (_ & _ & Hmin).
  assert (Hfour : is_pow2 4) by (exists 2; split; [lia | reflexivity]).
  specialize (Hmin 4 Hfour ltac:(lia)). simpl in Hmin. lia.
Qed.

(** ** Gcd *)

Lemma land_1_odd (a : Z) : Z.land a 1 = a mod 2.
Proof. change 1 with (Z.ones 1). rewrite Z.land_ones by lia. reflexivity. Qed.

Lemma lnot_land_1_even (a : Z) : (Z.land (Z.lnot a) 1 =? 1) = (a mod 2 =? 0).
Proof.
  rewrite land_1_odd. unfold Z.lnot.
  rewrite <- Z.sub_1_r.
  destruct (Z.eqb_spec (a mod 2) 0) as [He|Ho].
  - apply Z.eqb_eq. 
    pose proof (Z.div_mod a 2 ltac:(lia)) as Hdm.
    replace (- a - 1) with (1 + (- (a / 2) - 1) * 2) by lia.
    rewrite Z.mod_add by lia. reflexivity.
  - apply Z.eqb_neq.
    pose proof (Z.mod_pos_bound a 2 ltac:(lia)) as Hb.
    pose proof (Z.div_mod a 2 ltac:(lia)) as Hdm.
    replace (- a - 1) with (0 + (- (a / 2) - 1) * 2) by lia.
    rewrite Z.mod_add by lia. change (0 mod 2) with 0. lia.
Qed.

Lemma gcd_even_odd (x y : Z) : y mod 2 = 1 -> Z.gcd (2 * x) y = Z.gcd x y.
Proof.
  intros Hy.
  apply Z.divide_antisym_nonneg; try apply Z.gcd_nonneg.
  - apply Z.gcd_greatest; [| apply Z.gcd_divide_r].
    apply Z.gauss with 2; [apply Z.gcd_divide_l|].
    assert (Hd : (Z.gcd (Z.gcd (2 * x) y) 2 | 2)) by apply Z.gcd_divide_r.
    assert (Hd' : (Z.gcd (Z.gcd (2 * x) y) 2 | y)).
    { etransitivity; [apply Z.gcd_divide_l | apply Z.gcd_divide_r]. }
    pose proof (Z.gcd_nonneg (Z.gcd (2 * x) y) 2) as Hnn.
    apply Z.divide_pos_le in Hd as Hle; [| lia].
    destruct (Z.eq_dec (Z.gcd (Z.gcd (2 * x) y) 2) 0) as [H0|H0].
    { rewrite H0 in Hd. destruct Hd as [c Hc]. lia. }
    destruct (Z.eq_dec (Z.gcd (Z.gcd (2 * x) y) 2) 2) as [H2|H2]; [| lia].
    rewrite H2 in Hd'. apply Z.mod_divide in Hd'; lia.
  - apply Z.gcd_greatest; [| apply Z.gcd_divide_r].
    apply Z.divide_mul_r. apply Z.gcd_divide_l.
Qed.

Lemma log2_half (a : Z) : 2 <= a -> Z.log2 (a / 2) = Z.log2 a - 1.
Proof.
  intros Ha. change 2 with (2 ^ 1) at 1. rewrite <- Z.shiftr_div_pow2 by lia.
  rewrite Z.log2_shiftr by lia. 
  assert (1 <= Z.log2 a) by (apply Z.log2_le_pow2; simpl; lia). lia.
Qed.

Lemma Gcd_rec_correct (fuel : nat) (a b : Z) :
  0 <= a < 2 ^ 64 -> 0 <= b < 2 ^ 64 ->
  Z.log2 a + Z.log2 b < Z.of_nat fuel ->
  Gcd_rec fuel a b = Some (Z.gcd a b).
Proof.
  revert a b. induction fuel as [|fuel IH]; intros a b Ha Hb Hfuel.
  - pose proof (Z.log2_nonneg a). pose proof (Z.log2_nonneg b). lia.
  - cbn [Gcd_rec].
    destruct (Z.eqb_spec a b) as [->|Hab].
    { rewrite Z.gcd_diag, Z.abs_eq by lia. reflexivity. }
    destruct (Z.eqb_spec 0 a) as [<-|Ha0].
    { rewrite Z.gcd_0_l, Z.abs_eq by lia. reflexivity. }
    destruct (Z.eqb_spec 0 b) as [<-|Hb0].
    { rewrite Z.gcd_0_r, Z.abs_eq by lia. reflexivity. }
    rewrite !lnot_land_1_even, land_1_odd, !Z.shiftr_div_pow2 by lia.
    change (2 ^ 1) with 2.
    pose proof (Z.div_mod a 2 ltac:(lia)) as Hda.
    pose proof (Z.div_mod b 2 ltac:(lia)) as Hdb.
    pose proof (Z.mod_pos_bound a 2 ltac:(lia)) as Hma.
    pose proof (Z.mod_pos_bound b 2 ltac:(lia)) as Hmb.
    pose proof (Z.log2_nonneg a) as Hla. pose proof (Z.log2_nonneg b) as Hlb.
    destruct (Z.eqb_spec (a mod 2) 0) as [Hae|Hao].
    + (* a even *)
      assert (Hla2 : Z.log2 (a / 2) = Z.log2 a - 1) by (apply log2_half; lia).
      destruct (Z.eqb_spec (b mod 2) 1) as [Hbo|Hbe].
      * rewrite IH by lia.
        f_equal. rewrite <- (gcd_even_odd (a / 2) b Hbo). f_equal. lia.
      * assert (Hlb2 : Z.log2 (b / 2) = Z.log2 b - 1) by (apply log2_half; lia).
        rewrite IH by lia. cbn.
        rewrite Z.shiftl_mul_pow2 by lia. change (2 ^ 1) with 2.
        assert (Hg : Z.gcd (a / 2) (b / 2) * 2 = Z.gcd a b).
        { rewrite Z.mul_comm, <- Z.gcd_mul_mono_l_nonneg by lia. f_equal; lia. }
        rewrite Hg. f_equal. apply wrap64_small.
        split; [apply Z.gcd_nonneg|].
        assert (Z.gcd a b <= a); [| lia].
        apply Z.divide_pos_le; [lia | apply Z.gcd_divide_l].
    + (* a odd *)
      destruct (Z.eqb_spec (b mod 2) 0) as [Hbe|Hbo].
      * assert (Hlb2 : Z.log2 (b / 2) = Z.log2 b - 1) by (apply log2_half; lia).
        rewrite IH by lia. f_equal.
        rewrite (Z.gcd_comm a (b / 2)), (Z.gcd_comm a b).
        rewrite <- (gcd_even_odd (b / 2) a ltac:(lia)). f_equal. lia.
      * destruct (Z.ltb_spec b a) as [Hlt|Hge].
        -- assert (Hl : Z.log2 ((a - b) / 2) <= Z.log2 a - 1).
           { rewrite <- log2_half by lia. apply Z.log2_le_mono.
             apply Z.div_le_mono; lia. }
           rewrite IH; try lia.
           ++ f_equal. rewrite <- (gcd_even_odd ((a - b) / 2) b ltac:(lia)).
              replace (2 * ((a - b) / 2)) with (a - b).
              ** rewrite Z.gcd_comm, Z.gcd_sub_diag_r, Z.gcd_comm. reflexivity.
              ** pose proof (Z.div_mod (a - b) 2 ltac:(lia)) as Hd.
                 assert ((a - b) mod 2 = 0); [| lia].
                 rewrite Zminus_mod. replace (a mod 2) with 1 by lia.
                 replace (b mod 2) with 1 by lia. reflexivity.
           ++ split; [apply Z.div_pos; lia|].
              apply Z.div_lt_upper_bound; lia.
        -- assert (Hl : Z.log2 ((b - a) / 2) <= Z.log2 b - 1).
           { rewrite <- log2_half by lia. apply Z.log2_le_mono.
             apply Z.div_le_mono; lia. }
           rewrite IH; try lia.
           ++ f_equal. rewrite <- (gcd_even_odd ((b - a) / 2) a ltac:(lia)).
              replace (2 * ((b - a) / 2)) with (b - a).
              ** rewrite Z.gcd_comm, Z.gcd_sub_diag_r. reflexivity.
              ** pose proof (Z.div_mod (b - a) 2 ltac:(lia)) as Hd.
                 assert ((b - a) mod 2 = 0); [| lia].
                 rewrite Zminus_mod. replace (a mod 2) with 1 by lia.
                 replace (b mod 2) with 1 by lia. reflexivity.
           ++ split; [apply Z.div_pos; lia|].
              apply Z.div_lt_upper_bound; lia.
Qed.

(** On [size_t] arguments the budget of [Gcd] is never used up and the
    result is the greatest common divisor. *)
Lemma Gcd_correct (a b : Z) :
  0 <= a < 2 ^ 64 -> 0 <= b < 2 ^ 64 -> Gcd a b = Some (Z.gcd a b).
Proof.
  intros Ha Hb. unfold Gcd. apply Gcd_rec_correct; try assumption.
  assert (Hl : forall x, 0 <= x < 2 ^ 64 -> Z.log2 x <= 63).
  { intros x Hx. destruct (Z.eq_dec x 0) as [->|?]; [simpl; lia|].
    assert (Z.log2 x < 64); [| lia]. apply Z.log2_lt_pow2; lia. }
  pose proof (Hl a Ha). pose proof (Hl b Hb). lia.
Qed.

Lemma Gcd64_correct (a b : Z) :
  0 <= a < 2 ^ 64 -> 0 <= b < 2 ^ 64 -> Gcd64 a b = Z.gcd a b.
Proof. intros Ha Hb. unfold Gcd64. rewrite Gcd_correct by assumption. reflexivity. Qed.

(** ** ComputeResampleFactors on an integral ratio *)

Lemma mediant_step_two_first :
  mediant_step 2 128 128 (mediant_init 2) = inl mediant_state_two.
Proof. vm_compute. reflexivity. Qed.

Lemma mediant_step_two_fixed :
  mediant_step 2 128 128 mediant_state_two = inl mediant_state_two.
Proof. vm_compute. reflexivity. Qed.

Lemma mediant_loop_two_fixed (fuel : nat) :
  mediant_loop fuel 2 128 128 mediant_state_two = None.
Proof.
  induction fuel as [|fuel IH]; [reflexivity|].
  cbn [mediant_loop]. rewrite mediant_step_two_fixed. exact IH.
Qed.

(** C5 fails on the code.  For the ratio 2.0 and the default bounds 128
    the bracket is [2/1, 2/1]; the mediant 4/2 reduces to 2/1, is within
    the bounds and replaces the lower end by itself: no number of passes
    leaves the loop. *)
Theorem C5_integral_ratio_never_returns (fuel : nat) :
  ComputeResampleFactors fuel 2 128 128 = Diverge.
Proof.
  unfold ComputeResampleFactors.
  replace (negb (Double.ltb 0 2)) with false by reflexivity.
  destruct fuel as [|fuel]; [reflexivity|].
  cbn [mediant_loop]. rewrite mediant_step_two_first.
  rewrite mediant_loop_two_fixed. reflexivity.
Qed.

(** ** WindowFunction: the effective size *)

Section WindowFunctionFacts.
Context {F : Type} `{Real F} `{Transcendental F}.

Lemma ComputeGains_fields (w w' : WindowFunction (F := F)) :
  ComputeGains w = Ok w' ->
  m_windowCoefficients w' = m_windowCoefficients w
  /\ m_ignoreLastValue w' = m_ignoreLastValue w
  /\ m_effectiveSize w' = m_effectiveSize w.
Proof.
  unfold ComputeGains. intros Hg.
  apply bind_Ok in Hg as ([cg enbw] & _ & Hg).
  inversion Hg; subst w'; clear Hg. auto.
Qed.

(** Whatever the parity of [size], a window built with
    [ignoreLastValue = true] has the effective size [size - 1]; the flag
    [m_ignoreLastValue], which does test the parity, is read nowhere. *)
Lemma WindowFunction_new_effective_size
  (generator : list F -> outcome (list F)) (size : Z) (ignoreLastValue : bool)
  (w : WindowFunction (F := F)) :
  WindowFunction_new generator size ignoreLastValue = Ok w ->
  0 < size < 2 ^ 64 ->
  EffectiveSize w = (if ignoreLastValue then size - 1 else size)
  /\ m_ignoreLastValue w = ignoreLastValue && (size mod 2 =? 1).
Proof.
  unfold WindowFunction_new. intros Hw Hsize.
  apply bind_Ok in Hw as (coeffs & _ & Hw).
  apply ComputeGains_fields in Hw as (_ & Hi & He).
  cbn [m_ignoreLastValue m_effectiveSize] in Hi, He.
  unfold EffectiveSize. rewrite He, Hi, length_replicate, Z2Nat.id by lia.
  split; [| reflexivity].
  destruct ignoreLastValue; [| reflexivity].
  apply wrap64_small. lia.
Qed.

(** C7 fails on the code.  A rectangle window of the even size 4 built with
    [ignoreLastValue = true] has the effective size 3, not 4, and its
    gains are sums over three coefficients divided by 3, although the flag
    [m_ignoreLastValue] is [false]. *)
Theorem C7_even_size_loses_last_coefficient :
  exists w : WindowFunction (F := F),
    WindowFunction_new (generate RectangleGenerator) 4 true = Ok w
    /\ ActualSize w = 4
    /\ EffectiveSize w = 3
    /\ m_ignoreLastValue w = false
    /\ CoherentGain w
       = (((of_Z 0 + of_Z 1) + of_Z 1 + of_Z 1) / of_Z 3)%F.
Proof.
  eexists. split; [vm_compute; reflexivity|].
  vm_compute. auto.
Qed.

End WindowFunctionFacts.

(** The same on the Bartlett window in exact arithmetic: the coherent gain
    is [(0 + 2/3 + 2/3) / 3 = 4/9]; over the four coefficients it would be
    [1/3]. *)
Lemma Bartlett_even_size_gain :
  WindowFunction_new (F := Q) (generate BartlettGenerator) 4 true
  = Ok {| m_windowCoefficients := [0; 2 # 3; 2 # 3; 0]%Q;
          m_ignoreLastValue := false;
          m_effectiveSize := 3;
          m_coherentGain := (4 # 9)%Q;
          m_powerGain := (8 # 27)%Q;
          m_enbw := (3 # 2)%Q |}.
Proof. vm_compute. reflexivity. Qed.

(** ** The window generators: symmetry *)

(** A vector that mirrors its first [h] entries, [h] being at least half
    of its length rounded down, is symmetric. *)
Lemma symmetric_from_half {A : Type} (w : list A) (h : nat) :
  (length w <= 2 * h + 1)%nat ->
  (forall n, (n < h)%nat -> w !! n = w !! (length w - 1 - n)%nat) ->
  forall n, (n < length w)%nat -> w !! n = w !! (length w - 1 - n)%nat.
Proof.
  intros Hh Hhalf n Hn.
  destruct (Nat.lt_ge_cases n h) as [Hlt|Hge]; [apply Hhalf; exact Hlt|].
  destruct (Nat.lt_ge_cases (length w - 1 - n) h) as [Hlt'|Hge'].
  - rewrite (Hhalf _ Hlt'). f_equal. lia.
  - f_equal. lia.
Qed.

Section WindowGeneratorFacts.
Context {F : Type} `{Real F} `{Transcendental F}.

Lemma WindowGenerator_symmetric (evalCoeff : F -> F -> outcome F)
  (windowCoeffs : list F) :
  (forall n s, exists c, evalCoeff n s = Ok c) ->
  (2 <= length windowCoeffs)%nat ->
  Z.of_nat (length windowCoeffs) < 2 ^ 64 ->
  exists w,
    WindowGenerator evalCoeff windowCoeffs = Ok w
    /\ length w = length windowCoeffs
    /\ forall n, (n < length w)%nat -> w !! n = w !! (length w - 1 - n)%nat.
Proof.
  intros Hev Hsize Hfit. unfold WindowGenerator.
  set (L := length windowCoeffs) in *.
  destruct (Z.ltb_spec 1 (Z.of_nat L)) as [_|]; [| lia]. cbn [negb].
  rewrite Z.shiftr_div_pow2 by lia. change (2 ^ 1) with 2.
  set (h := Z.to_nat (Z.of_nat L / 2)).
  assert (Hh : (2 * h <= L /\ L <= 2 * h + 1)%nat).
  { subst h. pose proof (Z.div_mod (Z.of_nat L) 2 ltac:(lia)).
    pose proof (Z.mod_pos_bound (Z.of_nat L) 2 ltac:(lia)).
    pose proof (Z.div_pos (Z.of_nat L) 2 ltac:(lia) ltac:(lia)). lia. }
  rewrite (wrap64_small (Z.of_nat L - 1)) by lia.
  destruct (for_range_invariant
    (fun j (st : Z * list F) =>
       fst st = Z.of_nat L - 1 - Z.of_nat j
       /\ length (snd st) = L
       /\ forall n, (n < j)%nat -> snd st !! n = snd st !! (L - 1 - n)%nat)
    (WindowGenerator_body evalCoeff (of_Z (Z.of_nat L - 1))) h 0
    (Z.of_nat L - 1, windowCoeffs)) as ([nRev w] & Hloop & HnRev & Hlen & Hsym).
  - cbn [fst snd]. split; [lia|]. split; [reflexivity|]. intros n Hn. lia.
  - intros j [nRev w] Hj (HnRev & Hlen & Hsym). cbn [fst snd] in *.
    unfold WindowGenerator_body.
    destruct (Hev (of_nat j) (of_Z (Z.of_nat L - 1))) as [c Hc].
    rewrite Hc. cbn.
    rewrite store_Some by lia. cbn.
    rewrite list_lookup_insert_eq by lia. cbn.
    rewrite store_Some by (rewrite length_insert; lia). cbn.
    eexists. split; [reflexivity|]. cbn [fst snd].
    split; [rewrite wrap64_small; lia|].
    split; [rewrite !length_insert; exact Hlen|].
    subst nRev. replace (Z.to_nat (Z.of_nat L - 1 - Z.of_nat j)) with (L - 1 - j)%nat by lia.
    intros n Hn.
    destruct (Nat.eq_dec n j) as [->|Hne].
    + rewrite list_lookup_insert_eq by (rewrite length_insert; lia).
      rewrite list_lookup_insert_ne by lia.
      rewrite list_lookup_insert_eq by lia. reflexivity.
    + rewrite !list_lookup_insert_ne by lia. apply Hsym. lia.
  - rewrite Hloop. cbn.
    cbn [fst snd] in *.
    destruct (Z.eqb_spec (Z.of_nat L mod 2) 1) as [Hodd|Heven].
    + destruct (Hev (of_Z (Z.of_nat L / 2)) (of_Z (Z.of_nat L - 1))) as [c Hc].
      rewrite Hc. cbn. fold h.
      assert (HL : L = (2 * h + 1)%nat).
      { subst h. pose proof (Z.div_mod (Z.of_nat L) 2 ltac:(lia)). lia. }
      rewrite store_Some by lia. cbn.
      eexists. split; [reflexivity|].
      split; [rewrite length_insert; exact Hlen|].
      apply symmetric_from_half with h; rewrite length_insert, Hlen; [lia|].
      intros n Hn. rewrite !list_lookup_insert_ne by lia. apply Hsym. lia.
    + exists w. split; [reflexivity|]. split; [exact Hlen|].
      apply symmetric_from_half with h; rewrite Hlen; [lia|].
      intros n Hn. apply Hsym. lia.
Qed.

Lemma EvaluateCoefficient_Ok (g : Generator) (n s : F) :
  exists c, EvaluateCoefficient g n s = Ok c.
Proof. destruct g; eexists; reflexivity. Qed.

(** Every generator of the family returns on a vector of at least two
    entries, and the vector it leaves reads the same from both ends. *)
Lemma generate_symmetric (g : Generator) (windowCoeffs : list F) :
  (2 <= length windowCoeffs)%nat ->
  Z.of_nat (length windowCoeffs) < 2 ^ 64 ->
  exists w,
    generate g windowCoeffs = Ok w
    /\ length w = length windowCoeffs
    /\ forall n, (n < length w)%nat -> w !! n = w !! (length w - 1 - n)%nat.
Proof.
  intros Hsize Hfit.
  destruct g;
    try (apply WindowGenerator_symmetric;
         [intros n s; apply EvaluateCoefficient_Ok | exact Hsize | exact Hfit]).
  unfold generate.
  destruct (Z.ltb_spec 1 (Z.of_nat (length windowCoeffs))) as [_|]; [| lia].
  cbn [negb]. unfold fill_from.
  destruct (decide (0 <= length windowCoeffs)%nat) as [_|]; [| lia].
  cbn [lift]. rewrite take_0, Nat.sub_0_r, app_nil_l.
  eexists. split; [reflexivity|].
  rewrite length_replicate. split; [lia|].
  intros n Hn. rewrite !lookup_replicate_2 by lia. reflexivity.
Qed.

(** C9.  Every generator of the family, applied to a vector of [N >= 2]
    coefficients, returns, and leaves it symmetric: coefficient [n] and
    coefficient [N-1-n] are the same value for every [n <= N-1].  (The
    second half is a copy of the first; the rectangle window is filled
    with one value.) *)
Theorem C9_generated_window_is_symmetric (g : Generator)
  (windowCoeffs : list F) :
  (2 <= length windowCoeffs)%nat ->
  Z.of_nat (length windowCoeffs) < 2 ^ 64 ->
  exists w,
    generate g windowCoeffs = Ok w
    /\ length w = length windowCoeffs
    /\ forall n, (n <= length w - 1)%nat ->
         exists c, w !! n = Some c /\ w !! (length w - 1 - n)%nat = Some c.
Proof.
  intros Hsize Hfit.
  destruct (generate_symmetric g windowCoeffs Hsize Hfit)
    as (w & Hw & Hlen & Hsym).
  exists w. split; [exact Hw|]. split; [exact Hlen|].
  intros n Hn.
  destruct (lookup_lt_is_Some_2 w n ltac:(lia)) as [c Hc].
  exists c. split; [exact Hc|]. rewrite <- Hsym by lia. exact Hc.
Qed.

(** The coefficients a constructed window holds are the generated ones:
    [size] of them, symmetric, whatever [ignoreLastValue] is. *)
Lemma WindowFunction_new_symmetric (g : Generator) (size : Z)
  (ignoreLastValue : bool) (w : WindowFunction (F := F)) :
  WindowFunction_new (generate g) size ignoreLastValue = Ok w ->
  2 <= size < 2 ^ 64 ->
  ActualSize w = size
  /\ forall n, (n < length (m_windowCoefficients w))%nat ->
       m_windowCoefficients w !! n
       = m_windowCoefficients w
           !! (length (m_windowCoefficients w) - 1 - n)%nat.
Proof.
  unfold WindowFunction_new. intros Hw Hsize.
  apply bind_Ok in Hw as (coeffs & Hgen & Hw).
  apply ComputeGains_fields in Hw as (Hc & _ & _).
  cbn [m_windowCoefficients] in Hc.
  destruct (generate_symmetric g (replicate (Z.to_nat size) (of_Z 1)))
    as (c' & Hgen' & Hlen & Hsym).
  { rewrite length_replicate. lia. }
  { rewrite length_replicate. lia. }
  rewrite Hgen' in Hgen. injection Hgen as <-.
  unfold ActualSize. rewrite Hc.
  split; [rewrite Hlen, length_replicate; lia | exact Hsym].
Qed.

End WindowGeneratorFacts.

Lemma C9_generated_window_is_symmetric_witness :
  (2 <= length (replicate 5 1%Q))%nat
  /\ Z.of_nat (length (replicate 5 1%Q)) < 2 ^ 64
  /\ exists w,
       generate HannGenerator (replicate 5 1%Q) = Ok w
       /\ length w = length (replicate 5 1%Q)
       /\ forall n, (n <= length w - 1)%nat ->
            exists c, w !! n = Some c /\ w !! (length w - 1 - n)%nat = Some c.
Proof.
  split; [vm_compute; lia|]. split; [reflexivity|].
  apply (C9_generated_window_is_symmetric HannGenerator (replicate 5 1%Q));
    [vm_compute; lia | reflexivity].
Defined.

(** ** Convolve *)

Section ConvolveFacts.
Context {V : Type} (zero : V) (add mul : V -> V -> V).

Lemma Convolve_step_Ok (x h : list V) (k kSub : nat) (r : list V) (a b acc : V) :
  x !! kSub = Some a -> h !! (k - kSub)%nat = Some b -> r !! k = Some acc ->
  Convolve_step add mul x h k kSub r = Ok (<[k := add acc (mul a b)]> r).
Proof.
  intros Ha Hb Hk. unfold Convolve_step. rewrite Ha, Hb, Hk. cbn.
  rewrite store_Some by (apply lookup_lt_Some in Hk; exact Hk). reflexivity.
Qed.

Lemma Convolve_inner (x h : list V) (k cnt lo : nat) (r : list V) (acc : V) :
  r !! k = Some acc ->
  (lo + cnt <= length x)%nat ->
  (forall j, (lo <= j < lo + cnt)%nat -> (k - j < length h)%nat) ->
  for_range cnt lo (Convolve_step add mul x h k) r
  = Ok (<[k := fold_left
                 (fun acc j => add acc (mul (nth j x zero) (nth (k - j) h zero)))
                 (seq lo cnt) acc]> r).
Proof.
  revert lo r acc. induction cnt as [|cnt IH]; intros lo r acc Hk Hx Hh.
  - cbn. rewrite list_insert_id by exact Hk. reflexivity.
  - cbn [for_range seq fold_left].
    destruct (lookup_lt_is_Some_2 x lo ltac:(lia)) as [a Ha].
    destruct (lookup_lt_is_Some_2 h (k - lo)%nat ltac:(apply Hh; lia)) as [b Hb].
    rewrite (Convolve_step_Ok x h k lo r a b acc Ha Hb Hk). cbn.
    rewrite (IH (Datatypes.S lo) _ (add acc (mul a b))).
    + rewrite list_insert_insert_eq.
      rewrite (nth_lookup_Some _ _ _ _ Ha), (nth_lookup_Some _ _ _ _ Hb).
      reflexivity.
    + apply list_lookup_insert_eq. apply lookup_lt_Some in Hk. exact Hk.
    + lia.
    + intros j Hj. apply Hh. lia.
Qed.

Lemma Convolve_body_Ok (x h : list V) (k : nat) (r : list V) :
  (0 < length x)%nat -> (0 < length h)%nat ->
  (k < length x + length h - 1)%nat -> (k < length r)%nat ->
  Convolve_body zero add mul x h k r
  = Ok (<[k := overlap_sum zero add mul x h k]> r).
Proof.
  intros HM HN Hk Hr. unfold Convolve_body.
  set (kMin := if (length h - 1 <=? k)%nat then (k - (length h - 1))%nat else 0%nat).
  set (kMax := if (k <? length x - 1)%nat then k else (length x - 1)%nat).
  rewrite store_Some by exact Hr. cbn [lift mbind outcome_bind].
  assert (HkMin : kMin = overlap_lo (length h) k).
  { subst kMin. unfold overlap_lo. destruct (Nat.leb_spec (length h - 1) k); lia. }
  assert (HkMax : kMax = overlap_hi (length x) k).
  { subst kMax. unfold overlap_hi. destruct (Nat.ltb_spec k (length x - 1)); lia. }
  rewrite (Convolve_inner x h k _ kMin _ zero).
  - rewrite list_insert_insert_eq. unfold overlap_sum.
    rewrite HkMin, HkMax. reflexivity.
  - apply list_lookup_insert_eq. exact Hr.
  - rewrite HkMin, HkMax. unfold overlap_lo, overlap_hi. lia.
  - intros j Hj. rewrite HkMin, HkMax in Hj. unfold overlap_lo, overlap_hi in Hj. lia.
Qed.

Lemma insert_prefix_drop (prefix result : list V) (k : nat) (v : V) :
  length prefix = k -> (k < length result)%nat ->
  <[k := v]> (prefix ++ drop k result)
  = (prefix ++ [v]) ++ drop (Datatypes.S k) result.
Proof.
  intros Hp Hk.
  destruct (lookup_lt_is_Some_2 result k Hk) as [d Hd].
  rewrite insert_app_r_alt by lia.
  rewrite (drop_S _ _ _ Hd), Hp, Nat.sub_diag. cbn.
  rewrite <- app_assoc. reflexivity.
Qed.

(** The outputs: [K] sums, then the output range as it was. *)
Lemma Convolve_Done (x h result : list V) :
  (0 < length x)%nat -> (0 < length h)%nat ->
  Z.of_nat (length x + length h - 1) <= Machine.INT_MAX ->
  (length x + length h - 1 <= length result)%nat ->
  Convolve zero add mul x h result
  = (Done,
     (overlap_sum zero add mul x h <$> seq 0 (length x + length h - 1))
     ++ drop (length x + length h - 1) result).
Proof.
  intros HM HN Hint Hroom. unfold Convolve.
  destruct (Nat.ltb_spec 0 (length x)) as [_|]; [| lia].
  destruct (Nat.ltb_spec 0 (length h)) as [_|]; [| lia]. cbn [negb].
  destruct (Z.ltb_spec Machine.INT_MAX (Z.of_nat (length x + length h - 1)));
    [lia|].
  set (K := (length x + length h - 1)%nat) in *.
  destruct (for_range_invariant
    (fun k out =>
       out = (overlap_sum zero add mul x h <$> seq 0 k) ++ drop k result)
    (Convolve_body zero add mul x h) K 0 result) as (out & Hloop & Hout).
  - cbn. rewrite drop_0. reflexivity.
  - intros k out Hk ->.
    rewrite Convolve_body_Ok; try lia.
    + eexists. split; [reflexivity|].
      rewrite seq_S, fmap_app. cbn [fmap list_fmap].
      apply insert_prefix_drop; [rewrite length_fmap, length_seq; reflexivity | lia].
    + rewrite length_app, length_fmap, length_seq, length_drop. lia.
  - rewrite Hloop. cbn in Hout. rewrite Hout. reflexivity.
Qed.

(** Commutative laws make the sum independent of the order of the
    operands. *)
Section Laws.
Hypothesis add_comm : forall a b, add a b = add b a.
Hypothesis add_assoc : forall a b c, add (add a b) c = add a (add b c).
Hypothesis mul_comm : forall a b, mul a b = mul b a.

Lemma fold_add_shift (l : list V) (z a : V) :
  fold_left add l (add z a) = add (fold_left add l z) a.
Proof.
  revert z. induction l as [|b l IH]; intros z; [reflexivity|].
  cbn. rewrite <- IH. f_equal.
  rewrite !add_assoc. f_equal. apply add_comm.
Qed.

Lemma fold_add_rev (l : list V) (z : V) :
  fold_left add (rev l) z = fold_left add l z.
Proof.
  induction l as [|a l IH]; [reflexivity|].
  cbn. rewrite fold_left_app. cbn. rewrite IH. symmetry. apply fold_add_shift.
Qed.

Lemma fold_terms {A : Type} (f : A -> V) (l : list A) (z : V) :
  fold_left (fun acc j => add acc (f j)) l z = fold_left add (map f l) z.
Proof.
  revert z. induction l as [|a l IH]; intros z; [reflexivity|].
  cbn. apply IH.
Qed.

Lemma map_sub_rev_seq (k lo cnt : nat) :
  (lo + cnt <= Datatypes.S k)%nat ->
  map (fun j => (k - j)%nat) (rev (seq lo cnt))
  = seq (Datatypes.S k - (lo + cnt)) cnt.
Proof.
  induction cnt as [|cnt IH]; intros Hk; [reflexivity|].
  rewrite seq_S, rev_app_distr. cbn [rev app map].
  rewrite IH by lia. cbn [seq].
  replace (Datatypes.S k - (lo + Datatypes.S cnt))%nat with (k - (lo + cnt))%nat by lia.
  replace (Datatypes.S (k - (lo + cnt))) with (Datatypes.S k - (lo + cnt))%nat by lia.
  reflexivity.
Qed.

Lemma overlap_range_swap (M N k : nat) :
  (0 < M)%nat -> (0 < N)%nat ->
  seq (overlap_lo M k) (Datatypes.S (overlap_hi N k) - overlap_lo M k)
  = map (fun j => (k - j)%nat)
      (rev (seq (overlap_lo N k) (Datatypes.S (overlap_hi M k) - overlap_lo N k))).
Proof.
  intros HM HN. unfold overlap_lo, overlap_hi.
  destruct (Nat.le_gt_cases (M + N - 1) k) as [Hout|Hin].
  - rewrite !Nat.min_r by lia.
    replace (Datatypes.S (N - 1) - (k + 1 - M))%nat with 0%nat by lia.
    replace (Datatypes.S (M - 1) - (k + 1 - N))%nat with 0%nat by lia.
    reflexivity.
  - destruct (Nat.min_spec k (M - 1)) as [[HkM ->]|[HkM ->]];
      destruct (Nat.min_spec k (N - 1)) as [[HkN ->]|[HkN ->]];
      rewrite map_sub_rev_seq by lia; f_equal; lia.
Qed.

Lemma overlap_sum_comm (x h : list V) (k : nat) :
  (0 < length x)%nat -> (0 < length h)%nat ->
  overlap_sum zero add mul x h k = overlap_sum zero add mul h x k.
Proof.
  intros HM HN. unfold overlap_sum.
  rewrite (overlap_range_swap (length x) (length h) k HM HN).
  rewrite (fold_terms (fun j => mul (nth j x zero) (nth (k - j) h zero))).
  rewrite (fold_terms (fun j => mul (nth j h zero) (nth (k - j) x zero))).
  rewrite map_map, map_rev, fold_add_rev.
  f_equal. apply map_ext_in. intros j Hj. apply in_seq in Hj.
  rewrite mul_comm. f_equal. f_equal.
  unfold overlap_lo, overlap_hi in Hj. lia.
Qed.

Lemma Convolve_comm (x h result : list V) :
  (0 < length x)%nat -> (0 < length h)%nat ->
  Z.of_nat (length x + length h - 1) <= Machine.INT_MAX ->
  (length x + length h - 1 <= length result)%nat ->
  Convolve zero add mul h x result = Convolve zero add mul x h result.
Proof.
  intros HM HN Hint Hroom.
  rewrite (Convolve_Done x h) by assumption.
  rewrite (Convolve_Done h x) by (try assumption; lia).
  replace (length h + length x - 1)%nat with (length x + length h - 1)%nat by lia.
  f_equal. f_equal. apply list_fmap_ext. intros i k _.
  symmetry. apply overlap_sum_comm; assumption.
Qed.

End Laws.
End ConvolveFacts.

(** C3.  For a non-empty [x] of [M] and a non-empty [h] of [N] values
    (and an output range with room for [M+N-1] values, a number an [int]
    can count), [Convolve] returns after writing exactly [M+N-1] values:
    output [k] is the sum of [x[j]*h[k-j]] over
    [max(0,k-N+1) <= j <= min(k,M-1)], added up in the order of [j], and
    the rest of the output range is as it was.  Where addition and
    multiplication are commutative and associative (integers, exact
    values) the operands can be swapped.  [1..10] with [1,1,1] gives
    [1,3,6,9,12,15,18,21,24,27,19,10] in either order. *)
Theorem C3_Convolve_overlap_sums {V : Type} (zero : V) (add mul : V -> V -> V)
  (x h result : list V) :
  (0 < length x)%nat -> (0 < length h)%nat ->
  Z.of_nat (length x + length h - 1) <= Machine.INT_MAX ->
  (length x + length h - 1 <= length result)%nat ->
  (exists y,
     Convolve zero add mul x h result
     = (Done, y ++ drop (length x + length h - 1) result)
     /\ length y = (length x + length h - 1)%nat
     /\ forall k, (k < length x + length h - 1)%nat ->
          y !! k = Some (overlap_sum zero add mul x h k))
  /\ ((forall a b, add a b = add b a) ->
      (forall a b c, add (add a b) c = add a (add b c)) ->
      (forall a b, mul a b = mul b a) ->
      Convolve zero add mul h x result = Convolve zero add mul x h result)
  /\ Convolve 0 Z.add Z.mul [1; 2; 3; 4; 5; 6; 7; 8; 9; 10] [1; 1; 1]
       (replicate 12 0)
     = (Done, [1; 3; 6; 9; 12; 15; 18; 21; 24; 27; 19; 10])
  /\ Convolve 0 Z.add Z.mul [1; 1; 1] [1; 2; 3; 4; 5; 6; 7; 8; 9; 10]
       (replicate 12 0)
     = (Done, [1; 3; 6; 9; 12; 15; 18; 21; 24; 27; 19; 10]).
Proof.
  intros HM HN Hint Hroom. split; [| split; [| split]].
  - eexists. split; [apply Convolve_Done; assumption|].
    split; [rewrite length_fmap, length_seq; reflexivity|].
    intros k Hk. rewrite list_lookup_fmap, lookup_seq_lt by exact Hk.
    reflexivity.
  - intros Hac Haa Hmc. apply Convolve_comm; assumption.
  - vm_compute. reflexivity.
  - vm_compute. reflexivity.
Qed.

Lemma C3_Convolve_overlap_sums_witness :
  let x := [1; 2; 3; 4; 5; 6; 7; 8; 9; 10] in
  let h := [1; 1; 1] in
  let result := replicate 12 0 in
  (0 < length x)%nat /\ (0 < length h)%nat
  /\ Z.of_nat (length x + length h - 1) <= Machine.INT_MAX
  /\ (length x + length h - 1 <= length result)%nat
  /\ (exists y,
        Convolve 0 Z.add Z.mul x h result
        = (Done, y ++ drop (length x + length h - 1) result)
        /\ length y = (length x + length h - 1)%nat
        /\ forall k, (k < length x + length h - 1)%nat ->
             y !! k = Some (overlap_sum 0 Z.add Z.mul x h k))
  /\ Convolve 0 Z.add Z.mul h x result = Convolve 0 Z.add Z.mul x h result.
Proof.
  intros x h result.
  assert (HM : (0 < length x)%nat) by (vm_compute; lia).
  assert (HN : (0 < length h)%nat) by (vm_compute; lia).
  assert (Hint : Z.of_nat (length x + length h - 1) <= Machine.INT_MAX)
    by (vm_compute; discriminate).
  assert (Hroom : (length x + length h - 1 <= length result)%nat)
    by (vm_compute; lia).
  split; [exact HM|]. split; [exact HN|]. split; [exact Hint|].
  split; [exact Hroom|].
  destruct (C3_Convolve_overlap_sums 0 Z.add Z.mul x h result HM HN Hint Hroom)
    as (Hsum & Hcomm & _).
  split; [exact Hsum|].
  apply Hcomm; [apply Z.add_comm | intros; symmetry; apply Z.add_assoc | apply Z.mul_comm].
Defined.

(** ** ToMagnitude and ToPower *)

(** A loop that rewrites entry [i] by [f i] maps the first [e] entries. *)
Lemma for_range_map_prefix {A : Type} (f : nat -> A -> A)
  (body : nat -> list A -> outcome (list A)) (data : list A) (e : nat) :
  (forall i d z, d !! i = Some z -> body i d = Ok (<[i := f i z]> d)) ->
  (e <= length data)%nat ->
  for_range e 0 body data = Ok (imap f (take e data) ++ drop e data).
Proof.
  intros Hbody He.
  destruct (for_range_invariant
    (fun j d => d = imap f (take j data) ++ drop j data)
    body e 0 data) as (out & Hloop & Hout).
  - rewrite take_0, drop_0. reflexivity.
  - intros j d Hj ->.
    destruct (lookup_lt_is_Some_2 data j ltac:(lia)) as [z Hz].
    assert (Hlen : length (imap f (take j data)) = j).
    { rewrite length_imap, length_take. lia. }
    rewrite (Hbody j _ z).
    + eexists. split; [reflexivity|].
      rewrite (take_S_r _ _ _ Hz), imap_app. cbn [imap].
      rewrite length_take, Nat.min_l, Nat.add_0_r by lia.
      apply insert_prefix_drop; [exact Hlen | lia].
    + rewrite lookup_app_r by lia. rewrite Hlen, Nat.sub_diag, lookup_drop, Nat.add_0_r.
      exact Hz.
  - rewrite Hloop, Hout. reflexivity.
Qed.

Section SpectrumFacts.
Context {F : Type} `{Real F} `{Transcendental F}.

Lemma halfSize_of_range (cplxFft : list (complex F)) (fullSpectrum : bool) :
  0 <= halfSize_of cplxFft fullSpectrum <= Z.of_nat (length cplxFft).
Proof.
  unfold halfSize_of. destruct fullSpectrum; [lia|].
  pose proof (Z.div_pos (Z.of_nat (length cplxFft)) 2 ltac:(lia) ltac:(lia)).
  assert (Z.of_nat (length cplxFft) / 2 <= Z.of_nat (length cplxFft)); [| lia].
  apply Z.div_le_upper_bound; lia.
Qed.

Lemma conversion_loop (bin : nat -> complex F -> complex F)
  (body : nat -> list (complex F) -> outcome (list (complex F)))
  (cplxFft : list (complex F)) (zeroUnused fullSpectrum : bool) :
  (forall i d z, d !! i = Some z -> body i d = Ok (<[i := bin i z]> d)) ->
  Z.of_nat (length cplxFft) < 2 ^ 31 ->
  (endItr ← lift (iter_at cplxFft
                     (Machine.to_int32 (halfSize_of cplxFft fullSpectrum)));
   cplxFft' ← for_range endItr 0 body cplxFft;
   if zeroUnused then lift (fill_from endItr czero cplxFft') else Ok cplxFft')
  = Ok (converted bin (Z.to_nat (halfSize_of cplxFft fullSpectrum))
          zeroUnused cplxFft).
Proof.
  intros Hbody Hfit.
  pose proof (halfSize_of_range cplxFft fullSpectrum) as Hh.
  set (e := halfSize_of cplxFft fullSpectrum) in *.
  rewrite to_int32_small by lia.
  rewrite iter_at_Some by lia. cbn [lift mbind outcome_bind].
  rewrite (for_range_map_prefix bin) by (try exact Hbody; lia).
  cbn [mbind outcome_bind]. unfold converted.
  destruct zeroUnused; [| reflexivity].
  unfold fill_from.
  rewrite length_app, length_imap, length_take, length_drop.
  destruct (decide _) as [_|Hn]; [| lia]. cbn [lift].
  rewrite take_app_length' by (rewrite length_imap, length_take; lia).
  do 3 f_equal. lia.
Qed.

Lemma ToMagnitude_converted (cplxFft : list (complex F))
  (zeroUnused fullSpectrum : bool) :
  Z.of_nat (length cplxFft) < 2 ^ 31 ->
  ToMagnitude cplxFft zeroUnused fullSpectrum
  = Ok (converted magnitude_bin (Z.to_nat (halfSize_of cplxFft fullSpectrum))
          zeroUnused cplxFft).
Proof.
  intros Hfit. unfold ToMagnitude. apply conversion_loop; [| exact Hfit].
  intros i d z Hz. unfold ToMagnitude_body. rewrite Hz. cbn [lift mbind outcome_bind].
  rewrite store_Some by (apply lookup_lt_Some in Hz; exact Hz). reflexivity.
Qed.

Lemma ToPower_converted (cplxFft : list (complex F))
  (zeroUnused fullSpectrum : bool) :
  Z.of_nat (length cplxFft) < 2 ^ 31 ->
  ToPower cplxFft zeroUnused fullSpectrum
  = Ok (converted (fun _ => power_bin)
          (Z.to_nat (halfSize_of cplxFft fullSpectrum)) zeroUnused cplxFft).
Proof.
  intros Hfit. unfold ToPower. apply conversion_loop; [| exact Hfit].
  intros i d z Hz. unfold ToPower_body. rewrite Hz. cbn [lift mbind outcome_bind].
  rewrite store_Some by (apply lookup_lt_Some in Hz; exact Hz). reflexivity.
Qed.

(** C2 (as amended).  On a vector of [N] bins ([N] below [2^31], the
    range of the cast that places the end iterator) [ToMagnitude] and
    [ToPower] convert the first [fullSpectrum ? N : N/2] bins and return;
    each converted bin holds its value in the real part and zero in the
    imaginary part; the other bins are zeroed when [zeroUnused] is set
    and kept otherwise.  [ToMagnitude] doubles every bin but bin 0 before
    it takes the magnitude; [ToPower] takes the power [re^2 + im^2] of
    the bin as it is, bin 0 or not. *)
Theorem C2_ToMagnitude_doubles_ToPower_does_not (cplxFft : list (complex F))
  (zeroUnused fullSpectrum : bool) :
  Z.of_nat (length cplxFft) < 2 ^ 31 ->
  let used :=
    if fullSpectrum then length cplxFft else (length cplxFft / 2)%nat in
  ToMagnitude cplxFft zeroUnused fullSpectrum
  = Ok (imap magnitude_bin (take used cplxFft)
        ++ (if zeroUnused then replicate (length cplxFft - used) czero
            else drop used cplxFft))
  /\ ToPower cplxFft zeroUnused fullSpectrum
     = Ok (imap (fun _ => power_bin) (take used cplxFft)
           ++ (if zeroUnused then replicate (length cplxFft - used) czero
               else drop used cplxFft)).
Proof.
  intros Hfit used.
  assert (Hused : Z.to_nat (halfSize_of cplxFft fullSpectrum) = used).
  { subst used. unfold halfSize_of. destruct fullSpectrum; [lia|].
    rewrite <- (Nat2Z.id (length cplxFft / 2)). f_equal.
    rewrite Nat2Z.inj_div. reflexivity. }
  rewrite ToMagnitude_converted, ToPower_converted by exact Hfit.
  rewrite Hused. split; reflexivity.
Qed.

End SpectrumFacts.

Lemma C2_ToMagnitude_doubles_ToPower_does_not_witness :
  let cplxFft : list (complex Q) :=
    [Cplx 1 0; Cplx 3 4; Cplx 0 2; Cplx 3 (-4)]%Q in
  Z.of_nat (length cplxFft) < 2 ^ 31
  /\ ToMagnitude cplxFft true false
     = Ok (imap magnitude_bin (take 2 cplxFft) ++ replicate 2 czero)
  /\ ToPower cplxFft true false
     = Ok (imap (fun _ => power_bin) (take 2 cplxFft) ++ replicate 2 czero).
Proof.
  intros cplxFft.
  assert (Hfit : Z.of_nat (length cplxFft) < 2 ^ 31) by reflexivity.
  split; [exact Hfit|].
  exact (C2_ToMagnitude_doubles_ToPower_does_not cplxFft true false Hfit).
Defined.

(** C2 as stated fails for [ToPower]: the power of bin 1 of
    [(1, 3+4i)] is [3^2 + 4^2 = 25], not the power [100] of the doubled
    bin. *)
Lemma C2_ToPower_does_not_double :
  let cplxFft : list (complex Q) := [Cplx 1 0; Cplx 3 4]%Q in
  exists out,
    ToPower cplxFft false true = Ok out
    /\ out !! 1%nat = Some (Cplx 25 0)%Q
    /\ doubled_power_bin 1 (Cplx 3 4)%Q = (Cplx 100 0)%Q
    /\ out !! 1%nat <> Some (doubled_power_bin 1 (Cplx 3 4)%Q).
Proof.
  eexists. split; [vm_compute; reflexivity|].
  split; [reflexivity|]. split; [reflexivity|]. discriminate.
Qed.

(** ** FftConvolve and FilterHolder: the calls *)

Lemma write_at_0 {A : Type} (src dst : list A) :
  (length src <= length dst)%nat ->
  write_at 0 src dst = Some (src ++ drop (length src) dst).
Proof.
  intros Hlen. unfold write_at.
  destruct (decide _) as [_|Hn]; [| cbn in Hn; lia].
  rewrite take_0. reflexivity.
Qed.

Section CallFacts.
Context {F : Type} `{Real F} `{Transcendental F}.

Lemma Inverse_pow2 (cplxFft : list (complex F)) :
  is_pow2 (Z.of_nat (length cplxFft)) ->
  2 <= Z.of_nat (length cplxFft) < 2 ^ 32 ->
  exists data', Inverse cplxFft = (Done, data') /\ length data' = length cplxFft.
Proof.
  intros Hp Hrange. unfold Inverse.
  rewrite (proj2 (IsPowerOf2_spec _) Hp). cbn [negb].
  destruct (CooleyTukeyFFT_Ok (conjugate cplxFft)) as (d & Hr & Hl).
  { unfold conjugate. rewrite length_fmap. exact Hp. }
  { unfold conjugate. rewrite length_fmap. exact Hrange. }
  rewrite Hr. cbn [mbind outcome_bind in_place].
  eexists. split; [reflexivity|].
  unfold Normalise, conjugate in *. rewrite !length_fmap in *. exact Hl.
Qed.

(** A workspace is loaded with the input, made complex, and zeros up to
    its size; what it held before does not matter. *)
Lemma load_workspace_padded (input : list F) (workspace : list (complex F)) :
  (length input <= length workspace)%nat ->
  load_workspace input workspace = Ok (padded (length workspace) input).
Proof.
  intros Hlen. unfold load_workspace, fill_from, padded.
  destruct (decide _) as [_|]; [| lia]. cbn [lift mbind outcome_bind].
  rewrite write_at_0
    by (rewrite length_fmap, length_app, length_take, length_replicate; lia).
  cbn [lift]. rewrite length_fmap.
  rewrite drop_app_length'; [reflexivity|].
  rewrite length_take. lia.
Qed.

Lemma length_padded (W : nat) (input : list F) :
  (length input <= W)%nat -> length (padded W input) = W.
Proof.
  intros Hlen. unfold padded.
  rewrite length_app, length_fmap, length_replicate. lia.
Qed.

(** [FftConvolve::operator()] on an object in any state whose workspaces
    have a power-of-two size [W] that holds the inputs and the [L]
    outputs: what the workspaces held does not enter the result. *)
Lemma FftConvolve_call_spec (fc : FftConvolve (F := F))
  (signal kernel result : list F) :
  let W := length (m_workspace1 fc) in
  let L := Z.to_nat (m_discreteConvolutionLength fc) in
  is_pow2 (Z.of_nat W) ->
  2 <= Z.of_nat W < 2 ^ 32 ->
  length (m_workspace2 fc) = W ->
  0 <= m_discreteConvolutionLength fc < 2 ^ 31 ->
  (L <= W)%nat ->
  (length signal <= W)%nat ->
  (length kernel <= W)%nat ->
  exists s k p : list (complex F),
    Forward (padded W signal) = (Done, s)
    /\ Forward (padded W kernel) = (Done, k)
    /\ Inverse (zip_with crossMultiply s k) = (Done, p)
    /\ fft_product W signal kernel = p
    /\ length k = W /\ length p = W
    /\ ((L <= length result)%nat ->
        FftConvolve_call fc signal kernel result
        = (Done,
           ({| m_discreteConvolutionLength := m_discreteConvolutionLength fc;
               m_workspace1 := p;
               m_workspace2 := k |},
            (real <$> take L p) ++ drop L result)))
    /\ ((length result < L)%nat ->
        fst (FftConvolve_call fc signal kernel result) = UB).
Proof.
  intros W L Hp Hrange H12 HL HLW Hs Hk.
  pose proof (length_padded W signal Hs) as Hps.
  pose proof (length_padded W kernel Hk) as Hpk.
  destruct (Forward_pow2 (padded W signal)) as (s & Hfs & Hls);
    [rewrite Hps; exact Hp | rewrite Hps; exact Hrange |].
  destruct (Forward_pow2 (padded W kernel)) as (k & Hfk & Hlk);
    [rewrite Hpk; exact Hp | rewrite Hpk; exact Hrange |].
  assert (Hzl : length (zip_with crossMultiply s k) = W)
    by (rewrite length_zip_with, Hls, Hlk, Hps, Hpk, Nat.min_id; reflexivity).
  destruct (Inverse_pow2 (zip_with crossMultiply s k)) as (p & Hinv & Hlp);
    [rewrite Hzl; exact Hp | rewrite Hzl; exact Hrange |].
  rewrite Hzl in Hlp.
  exists s, k, p.
  split; [exact Hfs|]. split; [exact Hfk|]. split; [exact Hinv|].
  split; [unfold fft_product; rewrite Hfs, Hfk; cbn [snd]; rewrite Hinv;
          reflexivity|].
  split; [lia|]. split; [exact Hlp|].
  assert (Hcall : FftConvolve_call fc signal kernel result
                  = copy_out
                      ({| m_discreteConvolutionLength :=
                            m_discreteConvolutionLength fc;
                          m_workspace1 := p;
                          m_workspace2 := k |}, result)).
  { unfold FftConvolve_call. fold W. rewrite H12.
    destruct (Z.leb_spec (Z.of_nat (length signal)) (Z.of_nat W)) as [_|];
      [| lia].
    destruct (Z.leb_spec (Z.of_nat (length kernel)) (Z.of_nat W)) as [_|];
      [| lia].
    cbn [negb].
    unfold on_workspace1 at 1.
    rewrite (load_workspace_padded signal (m_workspace1 fc)) by exact Hs.
    cbn [in_place and_then].
    unfold on_workspace2 at 1. cbn [set_workspace1 m_workspace2].
    rewrite (load_workspace_padded kernel (m_workspace2 fc))
      by (rewrite H12; exact Hk).
    cbn [in_place and_then]. rewrite H12. fold W.
    unfold on_workspace1 at 1.
    cbn [set_workspace1 set_workspace2 m_workspace1 m_workspace2
         m_discreteConvolutionLength].
    rewrite Hfs. cbn [and_then].
    unfold on_workspace2 at 1.
    cbn [set_workspace1 set_workspace2 m_workspace1 m_workspace2
         m_discreteConvolutionLength].
    rewrite Hfk. cbn [and_then].
    unfold on_workspace1 at 1.
    cbn [set_workspace1 set_workspace2 m_workspace1 m_workspace2
         m_discreteConvolutionLength fst].
    destruct (decide (length s <= length k)%nat) as [_|]; [| lia].
    cbn [and_then].
    unfold on_workspace1 at 1.
    cbn [set_workspace1 set_workspace2 m_workspace1 m_workspace2
         m_discreteConvolutionLength].
    rewrite Hinv. cbn [and_then].
    cbn [set_workspace1 set_workspace2 m_workspace1 m_workspace2
         m_discreteConvolutionLength].
    reflexivity. }
  rewrite Hcall. unfold copy_out.
  cbn [m_workspace1 m_discreteConvolutionLength].
  rewrite to_int32_small by lia.
  rewrite iter_at_Some by lia. cbn [lift mbind outcome_bind]. fold L.
  assert (Hy : length (real <$> take L p) = L)
    by (rewrite length_fmap, length_take; lia).
  split.
  - intros Hroom. rewrite write_at_0 by lia. cbn [lift]. rewrite Hy.
    reflexivity.
  - intros Hshort. unfold write_at.
    destruct (decide _) as [Hle|_]; [cbn [Nat.add] in Hle; lia|].
    reflexivity.
Qed.

End CallFacts.

Section FilterHolderFacts.
Context {F : Type} `{Real F} `{Transcendental F}.

(** The caller's output range is a parameter of the copy alone. *)
Lemma FilterHolder_call_keeps_result (h : FilterHolder (F := F))
  (signal result : list F) :
  snd (snd (FilterHolder_call h signal result false)) = result.
Proof.
  unfold FilterHolder_call.
  destruct (negb _); [reflexivity|].
  destruct (FilterHolder_convolve h signal) as [[[]| | |] h']; reflexivity.
Qed.

Lemma FilterHolder_new_inv (signalLength : Z) (filterCoeffs : list F)
  (useFastConvolution : bool) (h : FilterHolder (F := F)) :
  FilterHolder_new signalLength filterCoeffs useFastConvolution = Ok h ->
  signalLength + Z.of_nat (length filterCoeffs) - 1 < 2 ^ 48 ->
  2 < signalLength /\ (0 < length filterCoeffs)%nat
  /\ m_signalLength h = signalLength
  /\ m_filterCoeffs h = filterCoeffs
  /\ m_useFastConvolution h = useFastConvolution
  /\ m_filteredSignal h
     = replicate (Z.to_nat (signalLength + Z.of_nat (length filterCoeffs) - 1))
         (of_Z 0)
  /\ (useFastConvolution = true ->
      FftConvolve_new signalLength (Z.of_nat (length filterCoeffs))
      = Ok (m_fftConvolve h)).
Proof.
  unfold FilterHolder_new. intros Hh Hfit.
  destruct (Z.ltb_spec 2 signalLength) as [Hs|]; [| discriminate].
  destruct (Z.ltb_spec 0 (Z.of_nat (length filterCoeffs))) as [Hc|]; [| discriminate].
  cbn [negb] in Hh.
  apply bind_Ok in Hh as (fc & Hfc & Hh).
  inversion Hh; subst h; clear Hh.
  cbn [m_signalLength m_filterCoeffs m_useFastConvolution m_filteredSignal
       m_fftConvolve].
  rewrite wrap64_small by lia.
  split; [exact Hs|]. split; [lia|].
  split; [reflexivity|]. split; [reflexivity|]. split; [reflexivity|].
  split; [reflexivity|].
  intros ->. exact Hfc.
Qed.

Lemma FilterHolder_agrees_refl (h : FilterHolder (F := F)) :
  FilterHolder_agrees h h.
Proof. repeat split. Qed.

(** The convolution of the call on a holder in any state that a
    constructed holder passes through: it returns, the holder stays one
    of them, and the workspace holds the [M+N-1] values of the
    convolution, the overlap sums on the direct path and what
    [FftConvolve] computes on the fast one. *)
Lemma FilterHolder_convolve_spec (signalLength : Z) (filterCoeffs : list F)
  (useFastConvolution : bool) (h0 h : FilterHolder (F := F))
  (signal : list F) :
  FilterHolder_new signalLength filterCoeffs useFastConvolution = Ok h0 ->
  FilterHolder_agrees h0 h ->
  Z.of_nat (length signal) = signalLength ->
  signalLength + Z.of_nat (length filterCoeffs) - 1 <= Machine.INT_MAX ->
  exists h',
    FilterHolder_convolve h signal = (Done, h')
    /\ FilterHolder_agrees h0 h'
    /\ length (m_filteredSignal h')
       = (length signal + length filterCoeffs - 1)%nat
    /\ m_filteredSignal h'
       = if useFastConvolution
         then fft_convolution (length (m_workspace1 (m_fftConvolve h0)))
                (length signal + length filterCoeffs - 1) signal filterCoeffs
         else direct_convolution signal filterCoeffs.
Proof.
  intros Hnew Hagree Hsig Hint. unfold Machine.INT_MAX in Hint.
  destruct (FilterHolder_new_inv _ _ _ _ Hnew ltac:(lia))
    as (Hs & Hc & HsL & Hco & Hfast & Hfilt & Hfc).
  destruct Hagree as (As & Ac & Af & (AL & A1 & A2) & Alen).
  set (K := (length signal + length filterCoeffs - 1)%nat).
  assert (HK : Z.to_nat (signalLength + Z.of_nat (length filterCoeffs) - 1) = K)
    by (subst K; lia).
  assert (Hflen : length (m_filteredSignal h) = K).
  { rewrite Alen, Hfilt, length_replicate. exact HK. }
  unfold FilterHolder_convolve. rewrite Af, Hfast, Ac, Hco.
  destruct useFastConvolution.
  - specialize (Hfc eq_refl).
    destruct (FftConvolve_new_inv _ _ _ Hfc ltac:(lia)) as (_ & _ & HL & H1 & H2).
    pose proof (pow2_above_log2 (signalLength + Z.of_nat (length filterCoeffs) - 1)
                  ltac:(lia)) as (Hpow & Habove & _).
    pose proof (Z.log2_nonneg (signalLength + Z.of_nat (length filterCoeffs) - 1))
      as Hlog0.
    assert (Hlog : Z.log2 (signalLength + Z.of_nat (length filterCoeffs) - 1) < 31)
      by (apply Z.log2_lt_pow2; lia).
    assert (Hle : 2 ^ (Z.log2 (signalLength + Z.of_nat (length filterCoeffs) - 1) + 1)
                  <= 2 ^ 31) by (apply Z.pow_le_mono_r; lia).
    set (W := 2 ^ (Z.log2 (signalLength + Z.of_nat (length filterCoeffs) - 1) + 1)) in *.
    assert (Hlen1 : Z.of_nat (length (m_workspace1 (m_fftConvolve h0))) = W).
    { rewrite H1, length_replicate. lia. }
    assert (Hlen2 : length (m_workspace2 (m_fftConvolve h0))
                    = length (m_workspace1 (m_fftConvolve h0))).
    { rewrite H1, H2, !length_replicate. reflexivity. }
    destruct (FftConvolve_call_spec (m_fftConvolve h) signal filterCoeffs
                (m_filteredSignal h))
      as (s & k & p & _ & _ & _ & Hprod & Hlk & Hlp & Hcall & _);
      try rewrite A1; try rewrite A2; try rewrite AL; try rewrite HL;
      try rewrite Hlen1; try assumption; try lia.
    rewrite Hcall by (rewrite AL, HL, Hflen; lia).
    rewrite A1 in Hprod, Hlk, Hlp. rewrite AL, HL, HK.
    rewrite drop_ge, app_nil_r by lia.
    eexists. split; [reflexivity|].
    cbn [set_filtered m_filteredSignal].
    split.
    { unfold FilterHolder_agrees, FftConvolve_agrees.
      cbn [set_filtered m_signalLength m_filterCoeffs m_useFastConvolution
           m_fftConvolve m_filteredSignal m_discreteConvolutionLength
           m_workspace1 m_workspace2].
      rewrite length_fmap, length_take, Hlp, Hlk, Hfilt, length_replicate.
      repeat split; try assumption; try lia. }
    split; [rewrite length_fmap, length_take; lia|].
    unfold fft_convolution. rewrite Hprod. reflexivity.
  - rewrite Convolve_Done; try lia.
    + fold K. rewrite drop_ge, app_nil_r by lia.
      eexists. split; [reflexivity|].
      cbn [set_filtered m_filteredSignal].
      split.
      { unfold FilterHolder_agrees, FftConvolve_agrees.
        cbn [set_filtered m_signalLength m_filterCoeffs m_useFastConvolution
             m_fftConvolve m_filteredSignal].
        rewrite length_fmap, length_seq, Hfilt, length_replicate.
        repeat split; try assumption; try lia. }
      split; [rewrite length_fmap, length_seq; reflexivity|].
      reflexivity.
    + unfold Machine.INT_MAX. lia.
Qed.

Lemma FilterHolder_copy_Ok (h : FilterHolder (F := F)) (signalLen : nat)
  (taps : nat) (result : list F) :
  m_signalLength h = Z.of_nat signalLen ->
  length (m_filteredSignal h) = (signalLen + taps - 1)%nat ->
  (0 < taps)%nat ->
  Z.of_nat (signalLen + taps - 1) <= Machine.INT_MAX ->
  (signalLen <= length result)%nat ->
  FilterHolder_copy h signalLen result
  = Ok (take signalLen (drop ((taps - 1) / 2) (m_filteredSignal h))
        ++ drop signalLen result).
Proof.
  intros HsL Hlen Htaps Hint Hroom. unfold Machine.INT_MAX in Hint.
  unfold FilterHolder_copy. rewrite HsL, Hlen.
  rewrite wrap64_small by lia.
  rewrite Z.shiftr_div_pow2 by lia. change (2 ^ 1) with 2.
  replace (Z.of_nat (signalLen + taps - 1) - Z.of_nat signalLen)
    with (Z.of_nat (taps - 1)) by lia.
  assert (Hoff : Z.of_nat (taps - 1) / 2 = Z.of_nat ((taps - 1) / 2)).
  { rewrite Nat2Z.inj_div. reflexivity. }
  rewrite Hoff.
  assert (Hle : ((taps - 1) / 2 <= taps - 1)%nat).
  { apply Nat.Div0.div_le_upper_bound. lia. }
  rewrite to_int32_small by lia.
  rewrite iter_at_Some by lia. cbn [lift mbind outcome_bind].
  rewrite Nat2Z.id.
  destruct (decide _) as [_|Hn]; [| lia].
  assert (Hsrc : length (take signalLen (drop ((taps - 1) / 2) (m_filteredSignal h)))
                 = signalLen).
  { rewrite length_take, length_drop. lia. }
  rewrite write_at_0 by (rewrite Hsrc; exact Hroom).
  rewrite Hsrc. reflexivity.
Qed.

(** Both ways of calling a holder in any state that a constructed holder
    passes through. *)
Lemma FilterHolder_call_spec (signalLength : Z) (filterCoeffs : list F)
  (useFastConvolution : bool) (h0 h : FilterHolder (F := F))
  (signal result : list F) :
  FilterHolder_new signalLength filterCoeffs useFastConvolution = Ok h0 ->
  FilterHolder_agrees h0 h ->
  Z.of_nat (length signal) = signalLength ->
  signalLength + Z.of_nat (length filterCoeffs) - 1 <= Machine.INT_MAX ->
  let convolution :=
    if useFastConvolution
    then fft_convolution (length (m_workspace1 (m_fftConvolve h0)))
           (length signal + length filterCoeffs - 1) signal filterCoeffs
    else direct_convolution signal filterCoeffs in
  exists h',
    FilterHolder_agrees h0 h'
    /\ m_filteredSignal h' = convolution
    /\ length convolution = (length signal + length filterCoeffs - 1)%nat
    /\ FilterHolder_call h signal result false = (Done, (h', result))
    /\ ((length signal <= length result)%nat ->
        FilterHolder_call h signal result true
        = (Done,
           (h',
            take (length signal)
              (drop ((length filterCoeffs - 1) / 2) convolution)
            ++ drop (length signal) result))).
Proof.
  intros Hnew Hagree Hsig Hint convolution.
  destruct (FilterHolder_convolve_spec _ _ _ _ h signal Hnew Hagree Hsig Hint)
    as (h' & Hconv & Hagree' & Hlen & Hcontent).
  fold convolution in Hcontent.
  destruct (FilterHolder_new_inv _ _ _ _ Hnew
              ltac:(unfold Machine.INT_MAX in Hint; lia))
    as (_ & Htaps & HsL0 & _).
  pose proof Hagree as (As & _).
  pose proof Hagree' as (As' & _).
  exists h'. split; [exact Hagree'|]. split; [exact Hcontent|].
  split; [rewrite <- Hcontent; exact Hlen|].
  unfold FilterHolder_call. rewrite As, HsL0.
  destruct (Z.eqb_spec (Z.of_nat (length signal)) signalLength) as [_|]; [| lia].
  cbn [negb]. rewrite Hconv.
  split; [reflexivity|].
  intros Hroom.
  rewrite (FilterHolder_copy_Ok h' (length signal) (length filterCoeffs));
    [rewrite Hcontent; reflexivity | lia | exact Hlen | exact Htaps | lia
    | exact Hroom].
Qed.

(** C10.  With [removeDelay == false] the call leaves the caller's
    output range as it was, however it ends.  A holder is called in the
    state its constructor leaves or in any later one, which differs from
    it in the contents of the workspaces only.  Called with a signal of
    its length (and sizes an [int] can hold), it returns either way, stays
    such a holder, and the convolution of [M+N-1] values is in the
    workspace [m_filteredSignal]: the overlap sums of the signal and the
    coefficients on the direct path, what [FftConvolve] computes of them
    on the fast path.  With [removeDelay == true] the caller's range
    receives the [M] values of it from offset [floor((N-1)/2)] on, and
    with [removeDelay == false] nothing. *)
Theorem C10_result_written_only_when_removeDelay
  (signalLength : Z) (filterCoeffs : list F) (useFastConvolution : bool)
  (h0 h : FilterHolder (F := F)) (signal result : list F) :
  FilterHolder_new signalLength filterCoeffs useFastConvolution = Ok h0 ->
  FilterHolder_agrees h0 h ->
  Z.of_nat (length signal) = signalLength ->
  signalLength + Z.of_nat (length filterCoeffs) - 1 <= Machine.INT_MAX ->
  (length signal <= length result)%nat ->
  let convolution :=
    if useFastConvolution
    then fft_convolution (length (m_workspace1 (m_fftConvolve h0)))
           (length signal + length filterCoeffs - 1) signal filterCoeffs
    else direct_convolution signal filterCoeffs in
  (forall (h1 : FilterHolder (F := F)) (signal0 result0 : list F),
     snd (snd (FilterHolder_call h1 signal0 result0 false)) = result0)
  /\ FilterHolder_agrees h0 h0
  /\ exists h',
       FilterHolder_agrees h0 h'
       /\ m_filteredSignal h' = convolution
       /\ length convolution = (length signal + length filterCoeffs - 1)%nat
       /\ FilterHolder_call h signal result false = (Done, (h', result))
       /\ FilterHolder_call h signal result true
          = (Done,
             (h',
              take (length signal)
                (drop ((length filterCoeffs - 1) / 2) convolution)
              ++ drop (length signal) result)).
Proof.
  intros Hnew Hagree Hsig Hint Hroom convolution.
  split; [apply FilterHolder_call_keeps_result|].
  split; [apply FilterHolder_agrees_refl|].
  destruct (FilterHolder_call_spec _ _ _ _ h signal result Hnew Hagree Hsig
              Hint)
    as (h' & Hagree' & Hcontent & Hlen & Hfalse & Htrue).
  exists h'. split; [exact Hagree'|]. split; [exact Hcontent|].
  split; [exact Hlen|]. split; [exact Hfalse|]. exact (Htrue Hroom).
Qed.

End FilterHolderFacts.

Lemma C10_result_written_only_when_removeDelay_witness :
  let filterCoeffs : list Q := [1; 2; 3; 4]%Q in
  let signal : list Q := [1; 1; 1]%Q in
  let result : list Q := [9; 9; 9; 9; 9]%Q in
  (exists h0 h1 : FilterHolder (F := Q),
     FilterHolder_new 3 filterCoeffs false = Ok h0
     /\ FilterHolder_agrees h0 h0
     /\ Z.of_nat (length signal) = 3
     /\ 3 + Z.of_nat (length filterCoeffs) - 1 <= Machine.INT_MAX
     /\ (length signal <= length result)%nat
     /\ m_filteredSignal h1 = [1; 3; 6; 9; 7; 4]%Q
     /\ FilterHolder_call h0 signal result false = (Done, (h1, result))
     /\ FilterHolder_call h0 signal result true
        = (Done, (h1, [3; 6; 9; 9; 9]%Q))
     /\ FilterHolder_call h1 signal result true
        = (Done, (h1, [3; 6; 9; 9; 9]%Q)))
  /\ (exists f0 f1 : FilterHolder (F := Q),
        FilterHolder_new 3 filterCoeffs true = Ok f0
        /\ FilterHolder_agrees f0 f1
        /\ m_filteredSignal f1
           = fft_convolution 8 6 signal filterCoeffs
        /\ FilterHolder_call f0 signal result false = (Done, (f1, result))
        /\ fst (FilterHolder_call f1 signal result true) = Done).
Proof.
  intros filterCoeffs signal result.
  assert (Hint : 3 + Z.of_nat (length filterCoeffs) - 1 <= Machine.INT_MAX)
    by (vm_compute; discriminate).
  assert (Hroom : (length signal <= length result)%nat) by (vm_compute; lia).
  split; cycle 1.
  { destruct (FilterHolder_new (F := Q) 3 filterCoeffs true)
      as [f0| | |] eqn:Hnew;
      try (vm_compute in Hnew; discriminate Hnew).
    destruct (C10_result_written_only_when_removeDelay 3 filterCoeffs true
                f0 f0 signal result Hnew (FilterHolder_agrees_refl f0)
                eq_refl Hint Hroom)
      as (_ & _ & f1 & Hagree & Hcontent & _ & Hfalse & _).
    destruct (C10_result_written_only_when_removeDelay 3 filterCoeffs true
                f0 f1 signal result Hnew Hagree eq_refl Hint Hroom)
      as (_ & _ & f2 & _ & _ & _ & _ & Htrue2).
    exists f0, f1. split; [reflexivity|]. split; [exact Hagree|].
    split.
    - rewrite Hcontent. vm_compute in Hnew. injection Hnew as <-.
      reflexivity.
    - split; [exact Hfalse|]. rewrite Htrue2. reflexivity. }
  destruct (FilterHolder_new (F := Q) 3 filterCoeffs false) as [h0| | |] eqn:Hnew;
    try (vm_compute in Hnew; discriminate Hnew).
  destruct (C10_result_written_only_when_removeDelay 3 filterCoeffs false
              h0 h0 signal result Hnew (FilterHolder_agrees_refl h0)
              eq_refl Hint Hroom)
    as (_ & Hrefl & h1 & Hagree & Hcontent & _ & Hfalse & Htrue).
  destruct (C10_result_written_only_when_removeDelay 3 filterCoeffs false
              h0 h1 signal result Hnew Hagree eq_refl Hint Hroom)
    as (_ & _ & h2 & _ & Hcontent2 & _ & _ & Htrue2).
  assert (H21 : h2 = h1).
  { assert (Hs2 : fst (snd (FilterHolder_call h1 signal result true)) = h2)
      by (rewrite Htrue2; reflexivity).
    assert (Hs1 : fst (snd (FilterHolder_call h0 signal result true)) = h1)
      by (rewrite Htrue; reflexivity).
    rewrite <- Hs2, <- Hs1. vm_compute in Hnew. injection Hnew as <-.
    vm_compute. reflexivity. }
  exists h0, h1. split; [reflexivity|]. split; [exact Hrefl|].
  split; [reflexivity|]. split; [exact Hint|]. split; [exact Hroom|].
  split; [rewrite Hcontent; vm_compute; reflexivity|].
  split; [exact Hfalse|].
  split; [rewrite Htrue; vm_compute; reflexivity|].
  rewrite Htrue2, H21. vm_compute. reflexivity.
Defined.

(** ** ComputeResampleFactors: where it returns and where it does not *)

Lemma Qdiv_1_le (k : Z) : Qle_bool (inject_Z k / inject_Z 1) (inject_Z k) = true.
Proof.
  apply Qle_bool_iff. unfold Qdiv, Qinv, Qmult, Qle, inject_Z. simpl. lia.
Qed.

Lemma Qabs_div_1_zero (k : Z) :
  (Qabs (inject_Z k / inject_Z 1 - inject_Z k) == 0)%Q.
Proof.
  assert (Hz : (inject_Z k / inject_Z 1 - inject_Z k == 0)%Q).
  { unfold Qdiv, Qinv, Qmult, Qminus, Qplus, Qopp, Qeq, inject_Z. simpl. lia. }
  rewrite Hz. reflexivity.
Qed.

Lemma mediant_init_integral (k : Z) :
  0 <= k < 2 ^ 52 ->
  mediant_init (inject_Z k)
  = {| n_a := k; d_a := 1; n_b := k; d_b := 1;
       error := Double.max; factors := (0, 0) |}.
Proof.
  intros Hk.
  unfold mediant_init, Double.floor_plus_half, Double.ceil_plus_half,
    Double.floor, Double.ceil.
  rewrite half_rounds_up_small by (rewrite Qfloor_Z; lia).
  rewrite Qfloor_Z, Qceiling_Z, to_size_t_plus_half by lia. reflexivity.
Qed.

(** One pass on the bracket [k/1, k/1]: the same bracket, error 0. *)
Lemma mediant_step_integral (k maxNumerator maxDenominator : Z)
  (e : Q) (f : Z * Z) :
  1 <= k < 2 ^ 62 -> k <= maxNumerator -> 1 <= maxDenominator ->
  mediant_step (inject_Z k) maxNumerator maxDenominator
    {| n_a := k; d_a := 1; n_b := k; d_b := 1; error := e; factors := f |}
  = inl {| n_a := k; d_a := 1; n_b := k; d_b := 1;
           error := if Double.ltb (Qabs (inject_Z k / inject_Z 1 - inject_Z k)) e
                    then Qabs (inject_Z k / inject_Z 1 - inject_Z k) else e;
           factors := if Double.ltb (Qabs (inject_Z k / inject_Z 1 - inject_Z k)) e
                      then (k, 1) else f |}.
Proof.
  intros Hk HmaxN HmaxD. unfold mediant_step.
  cbn [n_a d_a n_b d_b error factors].
  rewrite (wrap64_small (k + k)) by lia.
  rewrite (wrap64_small (1 + 1)) by lia.
  rewrite Gcd64_correct by lia.
  assert (Hg : Z.gcd (k + k) (1 + 1) = 2).
  { replace (k + k) with (2 * k) by lia. change (1 + 1) with 2.
    rewrite Z.gcd_comm. apply Z.gcd_mul_diag_l. lia. }
  rewrite Hg. cbn [Z.ltb Z.compare Pos.compare Pos.compare_cont].
  replace ((k + k) / 2) with k by (apply Z.div_unique_exact; lia).
  change ((1 + 1) / 2) with 1.
  destruct (Z.ltb_spec maxNumerator k); [lia|].
  destruct (Z.ltb_spec maxDenominator 1); [lia|]. cbn [orb].
  unfold Double.leb. rewrite Qdiv_1_le. reflexivity.
Qed.

Lemma ltb_irrefl (q : Q) : Double.ltb q q = false.
Proof.
  unfold Double.ltb. rewrite (proj2 (Qle_bool_iff q q)) by apply Qle_refl.
  reflexivity.
Qed.

Lemma zero_ltb_max (q : Q) : (q == 0)%Q -> Double.ltb q Double.max = true.
Proof.
  intros Hq. unfold Double.ltb.
  destruct (Qle_bool Double.max q) eqn:Hle; [| reflexivity].
  apply Qle_bool_iff in Hle. rewrite Hq in Hle.
  exfalso. revert Hle. unfold Qle, Double.max, inject_Z. simpl. lia.
Qed.

Lemma mediant_loop_integral_fixed (fuel : nat) (k maxNumerator maxDenominator : Z) :
  1 <= k < 2 ^ 62 -> k <= maxNumerator -> 1 <= maxDenominator ->
  mediant_loop fuel (inject_Z k) maxNumerator maxDenominator
    {| n_a := k; d_a := 1; n_b := k; d_b := 1;
       error := Qabs (inject_Z k / inject_Z 1 - inject_Z k);
       factors := (k, 1) |}
  = None.
Proof.
  intros Hk HmaxN HmaxD. induction fuel as [|fuel IH]; [reflexivity|].
  cbn [mediant_loop].
  rewrite mediant_step_integral by assumption.
  rewrite ltb_irrefl. exact IH.
Qed.

(** The same on every integral ratio below [2^52] that the bound on the
    numerator admits: no number of passes leaves the loop. *)
Lemma ComputeResampleFactors_integral_diverges
  (fuel : nat) (k maxNumerator maxDenominator : Z) :
  1 <= k < 2 ^ 52 -> k <= maxNumerator -> 1 <= maxDenominator ->
  ComputeResampleFactors fuel (inject_Z k) maxNumerator maxDenominator = Diverge.
Proof.
  intros Hk HmaxN HmaxD. unfold ComputeResampleFactors.
  assert (Hpos : Double.ltb 0 (inject_Z k) = true).
  { unfold Double.ltb.
    destruct (Qle_bool (inject_Z k) 0) eqn:Hle; [| reflexivity].
    apply Qle_bool_iff in Hle. unfold Qle, inject_Z in Hle. simpl in Hle. lia. }
  rewrite Hpos. cbn [negb].
  destruct fuel as [|fuel]; [reflexivity|].
  cbn [mediant_loop]. rewrite mediant_init_integral by lia.
  rewrite mediant_step_integral by (try assumption; lia).
  rewrite zero_ltb_max by apply Qabs_div_1_zero.
  rewrite mediant_loop_integral_fixed by (try assumption; lia). reflexivity.
Qed.

Lemma gcd_of_unimodular (n d n' d' : Z) :
  n' * d - n * d' = 1 -> Z.gcd n d = 1.
Proof.
  intros Hdet.
  apply Z.divide_1_r_nonneg; [apply Z.gcd_nonneg|].
  rewrite <- Hdet.
  apply Z.divide_sub_r.
  - apply Z.divide_mul_r. apply Z.gcd_divide_r.
  - apply Z.divide_mul_l. apply Z.gcd_divide_l.
Qed.

(** A pass on a bracket leaves the loop or gives a bracket again, with a
    larger sum of denominators that the bound admitted. *)
Lemma mediant_step_bracket (r : Q) (maxNumerator maxDenominator : Z)
  (s : mediant_state) :
  bracket_ok s -> maxNumerator < 2 ^ 62 -> maxDenominator < 2 ^ 62 ->
  match mediant_step r maxNumerator maxDenominator s with
  | inr _ => True
  | inl s' =>
      bracket_ok s'
      /\ d_a s + d_b s <= maxDenominator
      /\ d_a s + d_b s < d_a s' + d_b s'
  end.
Proof.
  intros (Hna & Hnb & Hda & Hdb & Hdet) HmaxN HmaxD. unfold mediant_step.
  rewrite (wrap64_small (n_a s + n_b s)) by lia.
  rewrite (wrap64_small (d_a s + d_b s)) by lia.
  rewrite Gcd64_correct by lia.
  rewrite (gcd_of_unimodular (n_a s + n_b s) (d_a s + d_b s) (n_b s) (d_b s))
    by lia.
  change (1 <? 1) with false. cbv iota.
  destruct (Z.ltb_spec maxNumerator (n_a s + n_b s)) as [|HN]; [exact I|].
  destruct (Z.ltb_spec maxDenominator (d_a s + d_b s)) as [|HD]; [exact I|].
  cbn [orb].
  destruct (Double.leb _ r);
    unfold bracket_ok; cbn [n_a d_a n_b d_b error factors];
    (split; [split; lia|]); lia.
Qed.

Lemma mediant_loop_returns (fuel : nat) (r : Q)
  (maxNumerator maxDenominator : Z) (s : mediant_state) :
  bracket_ok s -> maxNumerator < 2 ^ 62 -> maxDenominator < 2 ^ 62 ->
  Z.max 0 (maxDenominator + 1 - (d_a s + d_b s)) < Z.of_nat fuel ->
  exists result, mediant_loop fuel r maxNumerator maxDenominator s = Some result.
Proof.
  revert s. induction fuel as [|fuel IH]; intros s Hs HmaxN HmaxD Hfuel; [lia|].
  cbn [mediant_loop].
  pose proof (mediant_step_bracket r maxNumerator maxDenominator s Hs HmaxN HmaxD)
    as Hstep.
  destruct (mediant_step r maxNumerator maxDenominator s) as [s'|result];
    [| eauto].
  destruct Hstep as (Hs' & Hle & Hlt).
  apply IH; try assumption. lia.
Qed.

Lemma Qceiling_le_floor_succ (r : Q) : Qceiling r <= Qfloor r + 1.
Proof.
  rewrite <- (Qceiling_Z (Qfloor r + 1)).
  apply Qceiling_resp_le. apply Qlt_le_weak. apply Qlt_floor.
Qed.

(** On a positive ratio that is not an integer (and sizes well below the
    wrap-around of [size_t]) the loop is left within [maxDenominator + 1]
    passes. *)
Lemma ComputeResampleFactors_fraction_returns
  (r : Q) (maxNumerator maxDenominator : Z) :
  (0 < r)%Q -> Qfloor r < Qceiling r -> Qceiling r < 2 ^ 62 ->
  0 <= maxNumerator < 2 ^ 62 -> 0 <= maxDenominator < 2 ^ 62 ->
  exists result,
    ComputeResampleFactors (Z.to_nat maxDenominator + 1) r
      maxNumerator maxDenominator = Ok result.
Proof.
  intros Hr Hfrac Hceil HmaxN HmaxD. unfold ComputeResampleFactors.
  assert (Hpos : Double.ltb 0 r = true).
  { unfold Double.ltb. destruct (Qle_bool r 0) eqn:Hle; [| reflexivity].
    apply Qle_bool_iff in Hle. exfalso. apply (Qlt_not_le _ _ Hr Hle). }
  rewrite Hpos. cbn [negb].
  assert (Hfloor : 0 <= Qfloor r).
  { rewrite <- (Qfloor_Z 0). apply Qfloor_resp_le. apply Qlt_le_weak. exact Hr. }
  pose proof (Qceiling_le_floor_succ r) as Hsucc.
  destruct (mediant_loop_returns (Z.to_nat maxDenominator + 1) r maxNumerator
              maxDenominator (mediant_init r)) as [result Hres]; try lia.
  - unfold bracket_ok, mediant_init, Double.floor_plus_half,
      Double.ceil_plus_half, Double.floor, Double.ceil.
    rewrite (half_rounds_up_fraction r Hfrac).
    cbn [n_a d_a n_b d_b].
    rewrite !to_size_t_plus_half by lia. lia.
  - unfold mediant_init. cbn [d_a d_b]. lia.
  - rewrite Hres. eauto.
Qed.

(** ** The examples of the test program *)

Example Gcd_48_36 : Gcd 48 36 = Some 12.
Proof. reflexivity. Qed.

Example Gcd_2680_496 : Gcd 2680 496 = Some 8.
Proof. reflexivity. Qed.

Example Convolve_ones :
  Convolve 0 Z.add Z.mul [1; 1; 1; 1; 1; 1] [1; 1; 1; 1; 1; 1] (replicate 11 0)
  = (Done, [1; 2; 3; 4; 5; 6; 5; 4; 3; 2; 1]).
Proof. vm_compute. reflexivity. Qed.

(** 27.65421 is approximated by 83/3 and 0.8659 by 71/82, both within
    the 5e-2 of the test. *)
Example ComputeResampleFactors_27_65421 :
  ComputeResampleFactors 129 27.65421 128 128 = Ok (83, 3).
Proof. vm_compute. reflexivity. Qed.

Example ComputeResampleFactors_0_8659 :
  ComputeResampleFactors 129 0.8659 128 128 = Ok (71, 82).
Proof. vm_compute. reflexivity. Qed.

(** A rectangle window of 1025 coefficients, the last one ignored, has
    the coherent gain 1 and the power gain 1. *)
Example Rectangle_gains :
  exists w : WindowFunction (F := Q),
    WindowFunction_new (generate RectangleGenerator) 1025 true = Ok w
    /\ EffectiveSize w = 1024
    /\ CoherentGain w = 1%Q /\ PowerGain w = 1%Q.
Proof.
  eexists. split; [vm_compute; reflexivity|].
  split; [reflexivity|]. split; reflexivity.
Qed.

Example Forward_three_samples :
  Forward [Cplx 1 0; Cplx 2 0; Cplx 3 0]%Q
  = (Throw "FFT size not a power of 2", [Cplx 1 0; Cplx 2 0; Cplx 3 0]%Q).
Proof. reflexivity. Qed.

Example Forward_impulse :
  Forward [Cplx 1 0; Cplx 0 0; Cplx 0 0; Cplx 0 0]%Q
  = (Done, [Cplx 1 0; Cplx 1 0; Cplx 1 0; Cplx 1 0]%Q).
Proof. vm_compute. reflexivity. Qed.

(** ** Inverse reuses the forward transform *)

Section InverseFacts.
Context {F : Type} `{Real F} `{Transcendental F}.

(** On a power-of-two length from [2] to [2^31] [Inverse] is the forward
    transform of the conjugated bins, conjugated again and normalised; on
    a length that is no power of two it throws and leaves the vector as
    it was; on one sample it is undefined, as [Forward] is. *)
Lemma Inverse_by_Forward (cplxFft : list (complex F)) :
  (is_pow2 (Z.of_nat (length cplxFft)) ->
   2 <= Z.of_nat (length cplxFft) < 2 ^ 32 ->
   exists y,
     Forward (conjugate cplxFft) = (Done, y)
     /\ Inverse cplxFft = (Done, Normalise (conjugate y)))
  /\ (~ is_pow2 (Z.of_nat (length cplxFft)) ->
      Inverse cplxFft = (Throw "FFT size not a power of 2", cplxFft))
  /\ (length cplxFft = 1%nat -> Inverse cplxFft = (UB, cplxFft)).
Proof.
  split; [| split].
  - intros Hp Hrange.
    assert (Hc : is_pow2 (Z.of_nat (length (conjugate cplxFft)))).
    { unfold conjugate. rewrite length_fmap. exact Hp. }
    assert (Hcr : 2 <= Z.of_nat (length (conjugate cplxFft)) < 2 ^ 32).
    { unfold conjugate. rewrite length_fmap. exact Hrange. }
    destruct (CooleyTukeyFFT_Ok (conjugate cplxFft) Hc Hcr) as (y & Hy & _).
    exists y. unfold Forward, Inverse.
    rewrite (proj2 (IsPowerOf2_spec _) Hp), (proj2 (IsPowerOf2_spec _) Hc).
    cbn [negb]. rewrite Hy. split; reflexivity.
  - intros Hp. unfold Inverse. rewrite (proj2 (IsPowerOf2_false _) Hp).
    reflexivity.
  - intros Hone. destruct cplxFft as [|z [|z' rest]]; try discriminate Hone.
    reflexivity.
Qed.

End InverseFacts.

(** ** The conversions that write a real vector *)

(** A loop that writes [g i (data[i])] to entry [i] of a vector of [e]
    entries leaves the images of the first [e] entries of [data]. *)
Lemma for_range_fill {A B : Type} (g : nat -> A -> B)
  (body : nat -> list B -> outcome (list B)) (data : list A) (out : list B) :
  (forall i d z, data !! i = Some z -> (i < length d)%nat ->
     body i d = Ok (<[i := g i z]> d)) ->
  (length out <= length data)%nat ->
  for_range (length out) 0 body out = Ok (imap g (take (length out) data)).
Proof.
  intros Hbody He.
  destruct (for_range_invariant
    (fun j d => d = imap g (take j data) ++ drop j out)
    body (length out) 0 out) as (res & Hloop & Hres).
  - rewrite take_0, drop_0. reflexivity.
  - intros j d Hj ->.
    destruct (lookup_lt_is_Some_2 data j ltac:(lia)) as [z Hz].
    assert (Hlen : length (imap g (take j data)) = j).
    { rewrite length_imap, length_take. lia. }
    rewrite (Hbody j _ z Hz)
      by (rewrite length_app, Hlen, length_drop; lia).
    eexists. split; [reflexivity|].
    rewrite (take_S_r _ _ _ Hz), imap_app. cbn [imap].
    rewrite length_take, Nat.min_l, Nat.add_0_r by lia.
    apply insert_prefix_drop; [exact Hlen | lia].
  - rewrite Hloop, Hres. cbn [Nat.add].
    rewrite drop_all, app_nil_r. reflexivity.
Qed.

Section RealSpectrumFacts.
Context {F : Type} `{Real F} `{Transcendental F}.

(** The overloads that write a real vector give the real parts of what
    the in-place conversions leave in the used bins: doubled magnitudes
    by [ToMagnitude], plain powers by [ToPower]. *)
Lemma ToMagnitude_real_spec (cplxFft : list (complex F)) (magFft : list F)
  (fullSpectrum : bool) :
  Z.of_nat (length cplxFft) < 2 ^ 31 ->
  ToMagnitude_real cplxFft magFft fullSpectrum
  = Ok (imap (fun i z => real (magnitude_bin i z))
          (take (Z.to_nat (halfSize_of cplxFft fullSpectrum)) cplxFft)).
Proof.
  intros Hfit. unfold ToMagnitude_real.
  pose proof (halfSize_of_range cplxFft fullSpectrum) as Hh.
  set (e := halfSize_of cplxFft fullSpectrum) in *.
  rewrite to_int32_small by lia.
  rewrite iter_at_Some by lia. cbn [lift mbind outcome_bind].
  set (out := resize (Z.to_nat e) (of_Z 0) magFft).
  assert (Hout : length out = Z.to_nat e) by (subst out; apply length_resize).
  rewrite <- Hout.
  apply (for_range_fill (fun i z => real (magnitude_bin i z))); [| lia].
  intros i d z Hz Hi. unfold ToMagnitude_real_body, magnitude_bin.
  rewrite Hz. cbn [lift mbind outcome_bind].
  rewrite store_Some by exact Hi. cbn [lift real].
  destruct (decide (i <> 0%nat)); reflexivity.
Qed.

Lemma ToPower_real_spec (cplxFft : list (complex F)) (powerSpectrum : list F)
  (fullSpectrum : bool) :
  Z.of_nat (length cplxFft) < 2 ^ 31 ->
  ToPower_real cplxFft powerSpectrum fullSpectrum
  = Ok (imap (fun _ z => real (power_bin z))
          (take (Z.to_nat (halfSize_of cplxFft fullSpectrum)) cplxFft)).
Proof.
  intros Hfit. unfold ToPower_real.
  pose proof (halfSize_of_range cplxFft fullSpectrum) as Hh.
  set (e := halfSize_of cplxFft fullSpectrum) in *.
  rewrite to_int32_small by lia.
  rewrite iter_at_Some by lia. cbn [lift mbind outcome_bind].
  set (out := resize (Z.to_nat e) (of_Z 0) powerSpectrum).
  assert (Hout : length out = Z.to_nat e) by (subst out; apply length_resize).
  rewrite <- Hout.
  apply (for_range_fill (fun _ z => real (power_bin z))); [| lia].
  intros i d z Hz Hi. unfold ToPower_real_body, power_bin.
  rewrite Hz. cbn [lift mbind outcome_bind].
  rewrite store_Some by exact Hi. reflexivity.
Qed.

End RealSpectrumFacts.

(* ================================================================== *)
(** * Further properties of the library *)

(** ** dsp_math.hpp *)

(** X1.  [Gcd] returns, within its nested calls, the greatest common
    divisor of any two 64-bit values, whatever their order; a zero
    argument gives the other one back. *)
Theorem X1_Gcd_is_greatest_common_divisor (a b : Z) :
  0 <= a < 2 ^ 64 -> 0 <= b < 2 ^ 64 ->
  Gcd a b = Some (Z.gcd a b)
  /\ Gcd b a = Gcd a b
  /\ Gcd a 0 = Some a
  /\ Gcd 0 a = Some a.
Proof.
  intros Ha Hb.
  pose proof (Gcd_correct a b Ha Hb) as Hab.
  pose proof (Gcd_correct b a Hb Ha) as Hba.
  pose proof (Gcd_correct a 0 Ha ltac:(lia)) as Ha0.
  pose proof (Gcd_correct 0 a ltac:(lia) Ha) as H0a.
  rewrite Z.gcd_0_r, Z.abs_eq in Ha0 by lia.
  rewrite Z.gcd_0_l, Z.abs_eq in H0a by lia.
  split; [exact Hab|].
  split; [rewrite Hab, Hba; f_equal; apply Z.gcd_comm|].
  split; [exact Ha0 | exact H0a].
Qed.

Lemma X1_Gcd_is_greatest_common_divisor_witness :
  0 <= 2680 < 2 ^ 64 /\ 0 <= 496 < 2 ^ 64
  /\ Gcd 2680 496 = Some (Z.gcd 2680 496)
  /\ Gcd 496 2680 = Gcd 2680 496
  /\ Gcd 2680 0 = Some 2680
  /\ Gcd 0 2680 = Some 2680.
Proof.
  split; [lia|]. split; [lia|].
  apply (X1_Gcd_is_greatest_common_divisor 2680 496); lia.
Defined.

(** X2.  [IsPowerOf2] holds of the powers of two [1, 2, 4, ...] and of
    nothing else; zero and the negative integers are rejected. *)
Theorem X2_IsPowerOf2_exactly_the_powers_of_two (n : Z) :
  (IsPowerOf2 n = true <-> exists k : Z, 0 <= k /\ n = 2 ^ k)
  /\ (IsPowerOf2 n = false <-> forall k : Z, 0 <= k -> n <> 2 ^ k)
  /\ (n <= 0 -> IsPowerOf2 n = false).
Proof.
  split; [apply IsPowerOf2_spec|]. split.
  - rewrite IsPowerOf2_false. unfold is_pow2. split.
    + intros Hn k Hk ->. apply Hn. exists k. split; [exact Hk | reflexivity].
    + intros Hn (k & Hk & ->). apply (Hn k Hk). reflexivity.
  - intros Hn. unfold IsPowerOf2.
    destruct (Z.ltb_spec 0 n) as [Hlt|_]; [lia | reflexivity].
Qed.

(** ** Three-bin sums *)

Lemma iter_next_Some {A : Type} (v : list A) (pos : nat) (n : Z) :
  0 <= Z.of_nat pos + n <= Z.of_nat (length v) ->
  iter_next v pos n = Some (Z.to_nat (Z.of_nat pos + n)).
Proof. intros Hn. unfold iter_next. apply iter_at_Some. exact Hn. Qed.

(** The window of [n] sums that follows the first one. *)
Lemma take_drop_fmap_seq {B : Type} (g : nat -> B) (n : nat) :
  take n (drop 1 (g <$> seq 0 (n + 2))) = (fun k => g (Datatypes.S k)) <$> seq 0 n.
Proof.
  rewrite <- fmap_drop, <- fmap_take.
  replace (n + 2)%nat with (1 + (n + 1))%nat by lia.
  rewrite seq_app, drop_app_length' by (rewrite length_seq; reflexivity).
  rewrite seq_app, take_app_length' by (rewrite length_seq; reflexivity).
  cbn [Nat.add]. rewrite <- fmap_S_seq, <- list_fmap_compose. reflexivity.
Qed.

Section ThreeBinFacts.
Context {F : Type} `{Real F} `{Transcendental F}.

(** The convolution with three ones on a buffer of the right size. *)
Lemma Convolve_three {V : Type} (zero one : V) (add mul : V -> V -> V)
  (x res : list V) :
  (0 < length x)%nat ->
  Z.of_nat (length x) + 2 <= Machine.INT_MAX ->
  length res = (length x + 2)%nat ->
  Convolve zero add mul x [one; one; one] res
  = (Done, overlap_sum zero add mul x [one; one; one] <$> seq 0 (length x + 2)).
Proof.
  intros Hx Hfit Hres.
  rewrite Convolve_Done;
    cbn [length]; [| exact Hx | lia | lia | lia].
  replace (length x + 3 - 1)%nat with (length x + 2)%nat by lia.
  rewrite drop_ge, app_nil_r by lia. reflexivity.
Qed.

Lemma To3BinSum_real_in_place_Done (powerSpectrum : list F) :
  (0 < length powerSpectrum)%nat ->
  Z.of_nat (length powerSpectrum) + 2 <= Machine.INT_MAX ->
  To3BinSum_real_in_place powerSpectrum
  = (Done,
     (fun k => transformer
                 (overlap_sum (of_Z 0) fadd fmul powerSpectrum convVec_real
                    (Datatypes.S k)))
     <$> seq 0 (length powerSpectrum)).
Proof.
  intros Hn Hfit. unfold To3BinSum_real_in_place.
  unfold Machine.INT_MAX in Hfit.
  set (n := length powerSpectrum) in *.
  rewrite wrap64_small by lia.
  unfold convVec_real.
  rewrite Convolve_three;
    [| exact Hn | exact Hfit | rewrite length_replicate; lia].
  fold n.
  set (g := overlap_sum (of_Z 0) fadd fmul powerSpectrum
              [of_Z 1; of_Z 1; of_Z 1]).
  assert (Hlen : length (g <$> seq 0 (n + 2)) = (n + 2)%nat)
    by (rewrite length_fmap, length_seq; reflexivity).
  rewrite iter_next_Some by (rewrite Hlen; lia).
  cbn [lift mbind outcome_bind].
  rewrite to_int32_small by lia.
  rewrite iter_next_Some by (rewrite Hlen; lia).
  cbn [lift mbind outcome_bind].
  replace (Z.to_nat (Z.of_nat 0 + 1)) with 1%nat by lia.
  replace (Z.to_nat (Z.of_nat 1 + Z.of_nat n)) with (1 + n)%nat by lia.
  destruct (decide (1 + n < 1)%nat) as [|_]; [lia|].
  replace (1 + n - 1)%nat with n by lia.
  rewrite take_drop_fmap_seq, <- list_fmap_compose.
  rewrite write_at_0 by (rewrite length_fmap, length_seq; lia).
  rewrite length_fmap, length_seq, drop_ge, app_nil_r by lia.
  reflexivity.
Qed.

Lemma To3BinSum_real_real_Done (powerSpectrum magFft : list F) :
  (0 < length powerSpectrum)%nat ->
  Z.of_nat (length powerSpectrum) + 2 <= Machine.INT_MAX ->
  To3BinSum_real_real powerSpectrum magFft
  = (Done,
     (fun k => transformer
                 (overlap_sum (of_Z 0) fadd fmul powerSpectrum convVec_real
                    (Datatypes.S k)))
     <$> seq 0 (length powerSpectrum)).
Proof.
  intros Hn Hfit. unfold To3BinSum_real_real.
  unfold Machine.INT_MAX in Hfit.
  set (n := length powerSpectrum) in *.
  rewrite wrap64_small by lia.
  unfold convVec_real.
  rewrite Convolve_three;
    [| exact Hn | exact Hfit | rewrite length_resize; lia].
  fold n.
  set (g := overlap_sum (of_Z 0) fadd fmul powerSpectrum
              [of_Z 1; of_Z 1; of_Z 1]).
  replace (n + 2)%nat with (1 + (n + 1))%nat by lia.
  rewrite seq_app. cbn [seq fmap list_fmap app rotate_left_1 Nat.add].
  cbn [in_place lift mbind outcome_bind].
  replace (n + 1)%nat with (n + 1)%nat by lia.
  rewrite seq_app, fmap_app, <- app_assoc, Nat2Z.id.
  rewrite resize_app by (rewrite length_fmap, length_seq; reflexivity).
  rewrite <- fmap_S_seq, <- !list_fmap_compose. reflexivity.
Qed.

Lemma To3BinSum_real_empty (magFft : list F) :
  To3BinSum_real_in_place (F := F) [] = (Throw "range 1 invalid", [])
  /\ To3BinSum_real_real [] magFft
     = (Throw "range 1 invalid", resize 2 (of_Z 0) magFft).
Proof. split; reflexivity. Qed.

(** The sum behind an inner bin: the bin and its two neighbours, each
    multiplied by one and added from the left to zero. *)
Lemma overlap_sum_three_inner {V : Type} (zero one : V) (add mul : V -> V -> V)
  (x : list V) (k : nat) :
  (1 <= k)%nat -> (k + 1 < length x)%nat ->
  overlap_sum zero add mul x [one; one; one] (Datatypes.S k)
  = add (add (add zero (mul (nth (k - 1) x zero) one))
           (mul (nth k x zero) one))
      (mul (nth (k + 1) x zero) one).
Proof.
  intros Hk Hk'. unfold overlap_sum, overlap_lo, overlap_hi.
  cbn [length].
  replace (Datatypes.S k + 1 - 3)%nat with (k - 1)%nat by lia.
  replace (Datatypes.S (Nat.min (Datatypes.S k) (length x - 1)) - (k - 1))%nat
    with 3%nat by lia.
  cbn [seq fold_left].
  replace (Datatypes.S k - (k - 1))%nat with 2%nat by lia.
  replace (Datatypes.S k - Datatypes.S (k - 1))%nat with 1%nat by lia.
  replace (Datatypes.S k - Datatypes.S (Datatypes.S (k - 1)))%nat with 0%nat by lia.
  replace (Datatypes.S (k - 1)) with k by lia.
  replace (Datatypes.S k) with (k + 1)%nat by lia.
  reflexivity.
Qed.

End ThreeBinFacts.

(** A loop that rewrites entry [i] by [f i] for the first [e] entries,
    the body being known on those entries only. *)
Lemma for_range_map_first {A : Type} (f : nat -> A -> A)
  (body : nat -> list A -> outcome (list A)) (data : list A) (e : nat) :
  (forall i d z, (i < e)%nat -> d !! i = Some z ->
     body i d = Ok (<[i := f i z]> d)) ->
  (e <= length data)%nat ->
  for_range e 0 body data = Ok (imap f (take e data) ++ drop e data).
Proof.
  intros Hbody He.
  destruct (for_range_invariant
    (fun j d => d = imap f (take j data) ++ drop j data)
    body e 0 data) as (out & Hloop & Hout).
  - rewrite take_0, drop_0. reflexivity.
  - intros j d Hj ->.
    destruct (lookup_lt_is_Some_2 data j ltac:(lia)) as [z Hz].
    assert (Hlen : length (imap f (take j data)) = j).
    { rewrite length_imap, length_take. lia. }
    rewrite (Hbody j _ z); [| lia |].
    + eexists. split; [reflexivity|].
      rewrite (take_S_r _ _ _ Hz), imap_app. cbn [imap].
      rewrite length_take, Nat.min_l, Nat.add_0_r by lia.
      apply insert_prefix_drop; [exact Hlen | lia].
    + rewrite lookup_app_r by lia.
      rewrite Hlen, Nat.sub_diag, lookup_drop, Nat.add_0_r. exact Hz.
  - rewrite Hloop, Hout. reflexivity.
Qed.

Lemma fill_from_converted {A : Type} (prefix rest : list A) (x : A) :
  fill_from (length prefix) x (prefix ++ rest)
  = Some (prefix ++ replicate (length rest) x).
Proof.
  unfold fill_from. rewrite length_app.
  destruct (decide _) as [_|Hn]; [| lia].
  rewrite take_app_length. f_equal. f_equal. f_equal. lia.
Qed.

Section ThreeBinComplexFacts.
Context {F : Type} `{Real F} `{Transcendental F}.

Lemma To3BinSum_Done (powerSpectrum : list (complex F))
  (zeroUnused fullSpectrum : bool) :
  let used := Z.to_nat (halfSize_of powerSpectrum fullSpectrum) in
  (0 < used)%nat ->
  Z.of_nat (length powerSpectrum) + 2 <= Machine.INT_MAX ->
  To3BinSum powerSpectrum zeroUnused fullSpectrum
  = (Done,
     imap (fun i z => Cplx (bin_sum powerSpectrum used i) (imag z))
       (take used powerSpectrum)
     ++ (if zeroUnused then replicate (length powerSpectrum - used) czero
         else drop used powerSpectrum)).
Proof.
  intros used Hused Hfit. unfold To3BinSum.
  unfold Machine.INT_MAX in Hfit.
  pose proof (halfSize_of_range powerSpectrum fullSpectrum) as Hh.
  set (e := halfSize_of powerSpectrum fullSpectrum) in *.
  rewrite to_int32_small by lia.
  rewrite iter_at_Some by lia. fold used.
  rewrite wrap64_small by lia.
  assert (Htake : length (take used powerSpectrum) = used)
    by (rewrite length_take; lia).
  unfold convVec_complex.
  rewrite Convolve_three;
    [| rewrite Htake; lia | rewrite Htake; unfold Machine.INT_MAX; lia
     | rewrite length_replicate, Htake; lia].
  rewrite Htake.
  set (g := overlap_sum czero cadd cmul (take used powerSpectrum)
              [cone; cone; cone]).
  assert (Hlen : length (g <$> seq 0 (used + 2)) = (used + 2)%nat)
    by (rewrite length_fmap, length_seq; reflexivity).
  unfold in_place.
  rewrite iter_next_Some by (rewrite Hlen; lia).
  cbn [lift mbind outcome_bind].
  rewrite iter_next_Some by (rewrite Hlen; lia).
  cbn [lift mbind outcome_bind].
  replace (Z.to_nat (Z.of_nat 0 + 1)) with 1%nat by lia.
  replace (Z.to_nat (Z.of_nat 1 + e)) with (1 + used)%nat by lia.
  destruct (decide (1 + used < 1)%nat) as [|_]; [lia|].
  replace (1 + used - 1)%nat with used by lia.
  rewrite (for_range_map_first
             (fun i z => Cplx (bin_sum powerSpectrum used i) (imag z)));
    [| | lia].
  - cbn [mbind outcome_bind].
    destruct zeroUnused; [| reflexivity].
    assert (Hpre : length (imap (fun i z => Cplx (bin_sum powerSpectrum used i) (imag z))
                             (take used powerSpectrum)) = used)
      by (rewrite length_imap; exact Htake).
    rewrite <- Hpre at 1.
    rewrite fill_from_converted, length_drop. reflexivity.
  - intros i d z Hi Hz. unfold To3BinSum_body.
    rewrite list_lookup_fmap, lookup_seq_lt by lia.
    cbn [fmap option_fmap option_map lift mbind outcome_bind Nat.add].
    rewrite Hz. cbn [lift mbind outcome_bind].
    rewrite store_Some by (eapply lookup_lt_Some; exact Hz).
    reflexivity.
Qed.

Lemma To3BinSum_real_Done (powerSpectrum : list (complex F)) (magFft : list F)
  (fullSpectrum : bool) :
  let used := Z.to_nat (halfSize_of powerSpectrum fullSpectrum) in
  (0 < used)%nat ->
  Z.of_nat (length powerSpectrum) + 2 <= Machine.INT_MAX ->
  To3BinSum_real powerSpectrum magFft fullSpectrum
  = (Done, bin_sum powerSpectrum used <$> seq 0 used).
Proof.
  intros used Hused Hfit. unfold To3BinSum_real.
  unfold Machine.INT_MAX in Hfit.
  pose proof (halfSize_of_range powerSpectrum fullSpectrum) as Hh.
  set (e := halfSize_of powerSpectrum fullSpectrum) in *.
  rewrite to_int32_small by lia.
  rewrite iter_at_Some by lia. fold used.
  rewrite wrap64_small by lia.
  assert (Htake : length (take used powerSpectrum) = used)
    by (rewrite length_take; lia).
  unfold convVec_complex.
  rewrite Convolve_three;
    [| rewrite Htake; lia | rewrite Htake; unfold Machine.INT_MAX; lia
     | rewrite length_replicate, Htake; lia].
  rewrite Htake.
  set (g := overlap_sum czero cadd cmul (take used powerSpectrum)
              [cone; cone; cone]).
  assert (Hlen : length (g <$> seq 0 (used + 2)) = (used + 2)%nat)
    by (rewrite length_fmap, length_seq; reflexivity).
  unfold in_place.
  rewrite iter_next_Some by (rewrite Hlen; lia).
  cbn [lift mbind outcome_bind].
  rewrite iter_next_Some by (rewrite Hlen; lia).
  cbn [lift mbind outcome_bind].
  replace (Z.to_nat (Z.of_nat 0 + 1)) with 1%nat by lia.
  replace (Z.to_nat (Z.of_nat 1 + e)) with (1 + used)%nat by lia.
  destruct (decide (1 + used < 1)%nat) as [|_]; [lia|].
  replace (1 + used - 1)%nat with used by lia.
  rewrite take_drop_fmap_seq, <- list_fmap_compose.
  rewrite write_at_0 by (rewrite length_fmap, length_seq, length_resize; lia).
  rewrite length_fmap, length_seq.
  rewrite drop_ge, app_nil_r by (rewrite length_resize; lia).
  reflexivity.
Qed.

Lemma To3BinSum_no_used_bin (powerSpectrum : list (complex F)) (magFft : list F)
  (zeroUnused fullSpectrum : bool) :
  halfSize_of powerSpectrum fullSpectrum = 0 ->
  To3BinSum powerSpectrum zeroUnused fullSpectrum
  = (Throw "range 1 invalid", powerSpectrum)
  /\ To3BinSum_real powerSpectrum magFft fullSpectrum
     = (Throw "range 1 invalid", []).
Proof.
  intros Hh. unfold To3BinSum, To3BinSum_real. rewrite Hh.
  change (Machine.to_int32 0) with 0.
  rewrite iter_at_Some by lia.
  change (Z.to_nat 0) with 0%nat. rewrite resize_0, take_0.
  split; reflexivity.
Qed.

End ThreeBinComplexFacts.

(** ** Power spectral density *)

Section PsdFacts.
Context {F : Type} `{Real F} `{Transcendental F}.

Lemma ToPsd_converted (powerSpectrum : list (complex F)) (binWidthHz : F)
  (zeroUnused fullSpectrum : bool) :
  Z.of_nat (length powerSpectrum) < 2 ^ 31 ->
  ToPsd powerSpectrum binWidthHz zeroUnused fullSpectrum
  = Ok (converted (fun _ z => Cplx (real z / binWidthHz)%F (imag z))
          (Z.to_nat (halfSize_of powerSpectrum fullSpectrum)) zeroUnused
          powerSpectrum).
Proof.
  intros Hfit. unfold ToPsd.
  apply (conversion_loop (fun _ z => Cplx (real z / binWidthHz)%F (imag z)));
    [| exact Hfit].
  intros i d z Hz. unfold ToPsd_body. rewrite Hz.
  cbn [lift mbind outcome_bind].
  rewrite store_Some by (eapply lookup_lt_Some; exact Hz). reflexivity.
Qed.

Lemma ToPsd_real_spec (powerSpectrum : list (complex F)) (binWidthHz : F)
  (psd : list F) (fullSpectrum : bool) :
  Z.of_nat (length powerSpectrum) < 2 ^ 31 ->
  ToPsd_real powerSpectrum binWidthHz psd fullSpectrum
  = Ok ((fun z => real z / binWidthHz)%F
        <$> take (Z.to_nat (halfSize_of powerSpectrum fullSpectrum))
              powerSpectrum).
Proof.
  intros Hfit. unfold ToPsd_real.
  pose proof (halfSize_of_range powerSpectrum fullSpectrum) as Hh.
  set (e := halfSize_of powerSpectrum fullSpectrum) in *.
  rewrite to_int32_small by lia.
  rewrite iter_at_Some by lia. cbn [lift mbind outcome_bind].
  set (out := resize (Z.to_nat e) (of_Z 0) psd).
  assert (Hout : length out = Z.to_nat e) by (subst out; apply length_resize).
  rewrite <- Hout.
  rewrite (for_range_fill (fun _ z => real z / binWidthHz)%F _ powerSpectrum);
    [| | lia].
  - rewrite Hout. f_equal.
    apply (imap_const (fun z => real z / binWidthHz)%F).
  - intros i d z Hz Hi. rewrite Hz. cbn [lift mbind outcome_bind].
    rewrite store_Some by exact Hi. reflexivity.
Qed.

Lemma ToPsd_real_real_spec (powerSpectrum : list F) (binWidthHz : F)
  (psd : list F) :
  ToPsd_real_real powerSpectrum binWidthHz psd
  = Ok (ToPsd_real_in_place powerSpectrum binWidthHz).
Proof.
  unfold ToPsd_real_real, ToPsd_real_in_place.
  set (out := resize (length powerSpectrum) (of_Z 0) psd).
  assert (Hout : length out = length powerSpectrum)
    by (subst out; apply length_resize).
  rewrite <- Hout.
  rewrite (for_range_fill (fun _ v => v / binWidthHz)%F _ powerSpectrum);
    [| | lia].
  - rewrite Hout, firstn_all. f_equal.
    apply (imap_const (fun v => v / binWidthHz)%F).
  - intros i d z Hz Hi. rewrite Hz. cbn [lift mbind outcome_bind].
    rewrite store_Some by exact Hi. reflexivity.
Qed.

End PsdFacts.

Section SpectraProperties.
Context {F : Type} `{Real F} `{Transcendental F}.

Lemma used_bins (cplxFft : list (complex F)) (fullSpectrum : bool) :
  Z.to_nat (halfSize_of cplxFft fullSpectrum)
  = if fullSpectrum then length cplxFft else (length cplxFft / 2)%nat.
Proof.
  unfold halfSize_of. destruct fullSpectrum; [lia|].
  rewrite <- (Nat2Z.id (length cplxFft / 2)). f_equal.
  rewrite Nat2Z.inj_div. reflexivity.
Qed.

(** X3.  The overloads of [ToMagnitude] and [ToPower] that write a real
    vector return on every spectrum of fewer than [2^31] bins; whatever
    the output vector held, it then has one entry for each of the first
    [fullSpectrum ? N : N/2] bins: the magnitude of the bin, doubled
    except for bin 0, and the power of the bin as it is.  These are the
    real parts that the in-place overloads leave in those bins. *)
Theorem X3_real_vector_overloads_of_ToMagnitude_and_ToPower
  (cplxFft : list (complex F)) (out : list F) (fullSpectrum : bool) :
  Z.of_nat (length cplxFft) < 2 ^ 31 ->
  let used :=
    if fullSpectrum then length cplxFft else (length cplxFft / 2)%nat in
  ToMagnitude_real cplxFft out fullSpectrum
  = Ok (imap (fun i z => if decide (i <> 0%nat) then cabs (cscale z (of_Z 2))
                         else cabs z)
          (take used cplxFft))
  /\ ToPower_real cplxFft out fullSpectrum = Ok (cnorm <$> take used cplxFft)
  /\ (exists magnitudes powers,
        ToMagnitude cplxFft false fullSpectrum = Ok magnitudes
        /\ ToPower cplxFft false fullSpectrum = Ok powers
        /\ ToMagnitude_real cplxFft out fullSpectrum
           = Ok (real <$> take used magnitudes)
        /\ ToPower_real cplxFft out fullSpectrum
           = Ok (real <$> take used powers)).
Proof.
  intros Hfit used.
  pose proof (used_bins cplxFft fullSpectrum) as Hused. fold used in Hused.
  assert (Hle : (used <= length cplxFft)%nat).
  { subst used. destruct fullSpectrum; [lia|].
    apply Nat.Div0.div_le_upper_bound. lia. }
  rewrite ToMagnitude_real_spec, ToPower_real_spec by exact Hfit.
  rewrite ToMagnitude_converted, ToPower_converted by exact Hfit.
  rewrite Hused. unfold converted.
  assert (Hmag : imap (fun i z => real (magnitude_bin i z)) (take used cplxFft)
                 = imap (fun i z => if decide (i <> 0%nat)
                                    then cabs (cscale z (of_Z 2)) else cabs z)
                     (take used cplxFft)).
  { apply imap_ext. intros i z _. unfold magnitude_bin. cbn [real].
    destruct (decide (i <> 0%nat)); reflexivity. }
  assert (Hpow : imap (fun _ z => real (power_bin z)) (take used cplxFft)
                 = cnorm <$> take used cplxFft).
  { rewrite <- (imap_const cnorm). apply imap_ext. intros i z _. reflexivity. }
  split; [rewrite Hmag; reflexivity|].
  split; [rewrite Hpow; reflexivity|].
  eexists _, _. split; [reflexivity|]. split; [reflexivity|].
  rewrite !take_app_length' by (rewrite length_imap, length_take; lia).
  rewrite !fmap_imap. split; reflexivity.
Qed.

(** X4.  [ToPsd] divides by the bin width.  In place on a complex vector
    it divides the real part of each of the first [fullSpectrum ? N : N/2]
    bins and keeps their imaginary parts; the other bins are zeroed when
    [zeroUnused] is set and kept otherwise.  The overload that writes a
    real vector gives the same quotients, and the two overloads on a real
    power spectrum give the same vector. *)
Theorem X4_ToPsd_divides_real_parts_by_bin_width
  (powerSpectrum : list (complex F)) (binWidthHz : F)
  (zeroUnused fullSpectrum : bool) (psd reals : list F) :
  Z.of_nat (length powerSpectrum) < 2 ^ 31 ->
  let used :=
    if fullSpectrum then length powerSpectrum
    else (length powerSpectrum / 2)%nat in
  ToPsd powerSpectrum binWidthHz zeroUnused fullSpectrum
  = Ok (((fun z => Cplx (real z / binWidthHz)%F (imag z))
         <$> take used powerSpectrum)
        ++ (if zeroUnused then replicate (length powerSpectrum - used) czero
            else drop used powerSpectrum))
  /\ ToPsd_real powerSpectrum binWidthHz psd fullSpectrum
     = Ok ((fun z => real z / binWidthHz)%F <$> take used powerSpectrum)
  /\ ToPsd_real_real reals binWidthHz psd
     = Ok (ToPsd_real_in_place reals binWidthHz)
  /\ length (ToPsd_real_in_place reals binWidthHz) = length reals.
Proof.
  intros Hfit used.
  pose proof (used_bins powerSpectrum fullSpectrum) as Hused.
  fold used in Hused.
  rewrite ToPsd_converted, ToPsd_real_spec by exact Hfit.
  rewrite ToPsd_real_real_spec, Hused. unfold converted.
  split.
  { do 2 f_equal.
    apply (imap_const (fun z => Cplx (real z / binWidthHz)%F (imag z))). }
  split; [reflexivity|]. split; [reflexivity|].
  unfold ToPsd_real_in_place. apply length_fmap.
Qed.

End SpectraProperties.

Lemma X3_real_vector_overloads_of_ToMagnitude_and_ToPower_witness :
  let cplxFft : list (complex Q) :=
    [Cplx 1 0; Cplx 3 4; Cplx 0 2; Cplx 3 (-4)]%Q in
  Z.of_nat (length cplxFft) < 2 ^ 31
  /\ ToPower_real cplxFft [7; 7; 7; 7; 7]%Q false
     = Ok (cnorm <$> take 2 cplxFft).
Proof.
  intros cplxFft.
  assert (Hfit : Z.of_nat (length cplxFft) < 2 ^ 31) by reflexivity.
  split; [exact Hfit|].
  exact (proj1 (proj2
    (X3_real_vector_overloads_of_ToMagnitude_and_ToPower cplxFft
       [7; 7; 7; 7; 7]%Q false Hfit))).
Defined.

Lemma X4_ToPsd_divides_real_parts_by_bin_width_witness :
  let powerSpectrum : list (complex Q) :=
    [Cplx 1 5; Cplx 4 6; Cplx 9 7; Cplx 16 8]%Q in
  Z.of_nat (length powerSpectrum) < 2 ^ 31
  /\ ToPsd powerSpectrum 2%Q true false
     = Ok ([Cplx (fdiv 1 2) 5; Cplx (fdiv 4 2) 6]%Q ++ replicate 2 czero).
Proof.
  intros powerSpectrum.
  assert (Hfit : Z.of_nat (length powerSpectrum) < 2 ^ 31) by reflexivity.
  split; [exact Hfit|].
  exact (proj1
    (X4_ToPsd_divides_real_parts_by_bin_width powerSpectrum 2%Q true false
       [] [] Hfit)).
Defined.

(** The sums behind the first and the last bin have two terms, the sum
    behind a single bin has one. *)
Lemma overlap_sum_three_first {V : Type} (zero one : V) (add mul : V -> V -> V)
  (x : list V) :
  (2 <= length x)%nat ->
  overlap_sum zero add mul x [one; one; one] 1
  = add (add zero (mul (nth 0 x zero) one)) (mul (nth 1 x zero) one).
Proof.
  intros Hx. unfold overlap_sum, overlap_lo, overlap_hi. cbn [length].
  replace (Datatypes.S (Nat.min 1 (length x - 1)) - (1 + 1 - 3))%nat
    with 2%nat by lia.
  reflexivity.
Qed.

Lemma overlap_sum_three_last {V : Type} (zero one : V) (add mul : V -> V -> V)
  (x : list V) :
  (2 <= length x)%nat ->
  overlap_sum zero add mul x [one; one; one] (length x)
  = add (add zero (mul (nth (length x - 2) x zero) one))
      (mul (nth (length x - 1) x zero) one).
Proof.
  intros Hx. unfold overlap_sum, overlap_lo, overlap_hi. cbn [length].
  replace (length x + 1 - 3)%nat with (length x - 2)%nat by lia.
  replace (Datatypes.S (Nat.min (length x) (length x - 1)) - (length x - 2))%nat
    with 2%nat by lia.
  cbn [seq fold_left].
  replace (length x - (length x - 2))%nat with 2%nat by lia.
  replace (length x - Datatypes.S (length x - 2))%nat with 1%nat by lia.
  replace (Datatypes.S (length x - 2)) with (length x - 1)%nat by lia.
  reflexivity.
Qed.

Section ThreeBinProperties.
Context {F : Type} `{Real F} `{Transcendental F}.

(** X5.  On a real power spectrum of [n >= 1] bins the two real
    overloads of [To3BinSum] return the same [n] values: bin [k] becomes
    [sqrt(s) * sqrt(2)], where [s] adds to zero, from the left, the bins
    [k-1], [k] and [k+1] that exist, each multiplied by one.  An empty
    spectrum makes the convolution throw. *)
Theorem X5_To3BinSum_sums_each_bin_with_its_neighbours
  (powerSpectrum magFft : list F) :
  (0 < length powerSpectrum)%nat ->
  Z.of_nat (length powerSpectrum) + 2 <= Machine.INT_MAX ->
  let n := length powerSpectrum in
  let p := fun j => nth j powerSpectrum (of_Z 0) in
  let one : F := of_Z 1 in
  exists y,
    To3BinSum_real_in_place powerSpectrum = (Done, y)
    /\ To3BinSum_real_real powerSpectrum magFft = (Done, y)
    /\ length y = n
    /\ (forall k, (1 <= k)%nat -> (k + 1 < n)%nat ->
          y !! k
          = Some (fsqrt (of_Z 0 + p (k - 1)%nat * one + p k * one
                         + p (k + 1)%nat * one)
                  * SqrtTwo)%F)
    /\ ((2 <= n)%nat ->
        y !! 0%nat
        = Some (fsqrt (of_Z 0 + p 0%nat * one + p 1%nat * one) * SqrtTwo)%F
        /\ y !! (n - 1)%nat
           = Some (fsqrt (of_Z 0 + p (n - 2)%nat * one + p (n - 1)%nat * one)
                   * SqrtTwo)%F)
    /\ (n = 1%nat ->
        y !! 0%nat = Some (fsqrt (of_Z 0 + p 0%nat * one) * SqrtTwo)%F)
    /\ To3BinSum_real_in_place (F := F) [] = (Throw "range 1 invalid", [])
    /\ fst (To3BinSum_real_real [] magFft) = Throw "range 1 invalid".
Proof.
  intros Hn Hfit n p one.
  eexists. split; [apply To3BinSum_real_in_place_Done; assumption|].
  split; [apply To3BinSum_real_real_Done; assumption|].
  split; [rewrite length_fmap, length_seq; reflexivity|].
  fold n. unfold convVec_real. fold one.
  split.
  { intros k Hk Hk'.
    rewrite list_lookup_fmap, lookup_seq_lt by lia.
    cbn [fmap option_fmap option_map Nat.add].
    rewrite overlap_sum_three_inner by (try exact Hk; exact Hk').
    reflexivity. }
  split.
  { intros Hn2. split.
    - rewrite list_lookup_fmap, lookup_seq_lt by lia.
      cbn [fmap option_fmap option_map Nat.add].
      rewrite overlap_sum_three_first by exact Hn2. reflexivity.
    - rewrite list_lookup_fmap, lookup_seq_lt by lia.
      cbn [fmap option_fmap option_map Nat.add].
      replace (Datatypes.S (n - 1)) with (length powerSpectrum) by lia.
      rewrite overlap_sum_three_last by exact Hn2. reflexivity. }
  split.
  { intros Hn1.
    rewrite list_lookup_fmap, lookup_seq_lt by lia.
    cbn [fmap option_fmap option_map Nat.add].
    unfold overlap_sum, overlap_lo, overlap_hi. cbn [length].
    fold n. rewrite Hn1. reflexivity. }
  split; reflexivity.
Qed.

(** X6.  In place on a complex power spectrum [To3BinSum] writes the
    real parts of the first [fullSpectrum ? N : N/2] bins only: their
    imaginary parts stay, and the other bins are zeroed when [zeroUnused]
    is set and kept otherwise.  The overload that writes a real vector
    gives the same sums.  With no bin in use (a spectrum of one bin, or
    none, halved) both throw; the in-place call leaves the spectrum as it
    was, the other one has emptied its output by then. *)
Theorem X6_To3BinSum_keeps_imaginary_parts
  (powerSpectrum : list (complex F)) (magFft : list F)
  (zeroUnused fullSpectrum : bool) :
  Z.of_nat (length powerSpectrum) + 2 <= Machine.INT_MAX ->
  let used :=
    if fullSpectrum then length powerSpectrum
    else (length powerSpectrum / 2)%nat in
  ((0 < used)%nat ->
   To3BinSum powerSpectrum zeroUnused fullSpectrum
   = (Done,
      imap (fun i z => Cplx (bin_sum powerSpectrum used i) (imag z))
        (take used powerSpectrum)
      ++ (if zeroUnused then replicate (length powerSpectrum - used) czero
          else drop used powerSpectrum))
   /\ To3BinSum_real powerSpectrum magFft fullSpectrum
      = (Done, bin_sum powerSpectrum used <$> seq 0 used))
  /\ (used = 0%nat ->
      To3BinSum powerSpectrum zeroUnused fullSpectrum
      = (Throw "range 1 invalid", powerSpectrum)
      /\ To3BinSum_real powerSpectrum magFft fullSpectrum
         = (Throw "range 1 invalid", [])).
Proof.
  intros Hfit used.
  pose proof (used_bins powerSpectrum fullSpectrum) as Hused.
  fold used in Hused.
  pose proof (halfSize_of_range powerSpectrum fullSpectrum) as Hh.
  split.
  - intros Hpos. rewrite <- Hused in *.
    split; [apply To3BinSum_Done | apply To3BinSum_real_Done];
      assumption.
  - intros Hnone. apply To3BinSum_no_used_bin. lia.
Qed.

End ThreeBinProperties.

Lemma X5_To3BinSum_sums_each_bin_with_its_neighbours_witness :
  let powerSpectrum : list Q := [1; 4; 9; 16]%Q in
  (0 < length powerSpectrum)%nat
  /\ Z.of_nat (length powerSpectrum) + 2 <= Machine.INT_MAX
  /\ exists y,
       To3BinSum_real_in_place powerSpectrum = (Done, y)
       /\ To3BinSum_real_real powerSpectrum [] = (Done, y)
       /\ length y = 4%nat.
Proof.
  intros powerSpectrum.
  assert (Hn : (0 < length powerSpectrum)%nat) by (cbn; lia).
  assert (Hfit : Z.of_nat (length powerSpectrum) + 2 <= Machine.INT_MAX)
    by (vm_compute; discriminate).
  split; [exact Hn|]. split; [exact Hfit|].
  destruct (X5_To3BinSum_sums_each_bin_with_its_neighbours
              powerSpectrum [] Hn Hfit) as (y & Hin & Hout & Hlen & _).
  exists y. split; [exact Hin|]. split; [exact Hout | exact Hlen].
Defined.

Lemma X6_To3BinSum_keeps_imaginary_parts_witness :
  let powerSpectrum : list (complex Q) :=
    [Cplx 1 5; Cplx 4 6; Cplx 9 7; Cplx 16 8]%Q in
  Z.of_nat (length powerSpectrum) + 2 <= Machine.INT_MAX
  /\ To3BinSum_real powerSpectrum [] false
     = (Done, bin_sum powerSpectrum 2 <$> seq 0 2).
Proof.
  intros powerSpectrum.
  assert (Hfit : Z.of_nat (length powerSpectrum) + 2 <= Machine.INT_MAX)
    by (vm_compute; discriminate).
  split; [exact Hfit|].
  refine (proj2 (proj1
    (X6_To3BinSum_keeps_imaginary_parts powerSpectrum [] false false Hfit)
    _)).
  cbn. lia.
Defined.

(** ** ComputeResampleFactors: what is returned *)

Lemma mediant_loop_more_fuel (fuel extra : nat) (r : Q)
  (maxNumerator maxDenominator : Z) (s : mediant_state) (result : Z * Z) :
  mediant_loop fuel r maxNumerator maxDenominator s = Some result ->
  mediant_loop (fuel + extra) r maxNumerator maxDenominator s = Some result.
Proof.
  revert s. induction fuel as [|fuel IH]; intros s; [discriminate|].
  cbn [mediant_loop Nat.add].
  destruct (mediant_step r maxNumerator maxDenominator s) as [s'|res];
    [apply IH | trivial].
Qed.

Lemma mediant_bounds (lo hi : Z) (s : mediant_state) :
  bracket_ok s -> lo * d_a s <= n_a s -> n_b s <= hi * d_b s ->
  lo * (d_a s + d_b s) < n_a s + n_b s < hi * (d_a s + d_b s).
Proof.
  intros (Hna & Hnb & Hda & Hdb & Hdet) Hlo Hhi. split.
  - assert (lo * d_b s < n_b s); [| lia].
    assert (lo * d_b s * d_a s < n_b s * d_a s); [nia|].
    apply Z.mul_lt_mono_pos_r with (d_a s); lia.
  - assert (n_a s < hi * d_a s); [| lia].
    assert (n_a s * d_b s < hi * d_a s * d_b s); [nia|].
    apply Z.mul_lt_mono_pos_r with (d_b s); lia.
Qed.

Lemma mediant_step_search (r : Q) (lo hi maxNumerator maxDenominator : Z)
  (s : mediant_state) :
  search_ok lo hi maxNumerator maxDenominator s ->
  maxNumerator < 2 ^ 62 -> maxDenominator < 2 ^ 62 ->
  match mediant_step r maxNumerator maxDenominator s with
  | inr result => good_factors lo hi maxNumerator maxDenominator result
  | inl s' => search_ok lo hi maxNumerator maxDenominator s'
  end.
Proof.
  intros (Hs & Hlo & Hhi & Hf) HmaxN HmaxD.
  pose proof (mediant_bounds lo hi s Hs Hlo Hhi) as Hm.
  pose proof (mediant_step_bracket r maxNumerator maxDenominator s Hs HmaxN HmaxD)
    as Hstep.
  destruct Hs as (Hna & Hnb & Hda & Hdb & Hdet).
  unfold mediant_step in *.
  rewrite (wrap64_small (n_a s + n_b s)) in * by lia.
  rewrite (wrap64_small (d_a s + d_b s)) in * by lia.
  rewrite Gcd64_correct in * by lia.
  pose proof (gcd_of_unimodular (n_a s + n_b s) (d_a s + d_b s) (n_b s) (d_b s)
                ltac:(lia)) as Hg.
  rewrite Hg in *.
  change (1 <? 1) with false in *. cbv iota in *.
  destruct (Z.ltb_spec maxNumerator (n_a s + n_b s)) as [|HN]; [exact Hf|].
  destruct (Z.ltb_spec maxDenominator (d_a s + d_b s)) as [|HD]; [exact Hf|].
  cbn [orb] in *.
  assert (Hnew : good_factors lo hi maxNumerator maxDenominator
                   (n_a s + n_b s, d_a s + d_b s)).
  { unfold good_factors. cbn [fst snd].
    assert (1 <= n_b s) by nia.
    split; [lia|]. split; [lia|]. split; [exact Hg | lia]. }
  destruct (Double.leb _ r); destruct Hstep as (Hs' & _ & _);
    (split; [exact Hs'|]);
    cbn [n_a d_a n_b d_b error factors];
    (split; [lia|]); (split; [lia|]);
    destruct (Double.ltb _ (error s)); assumption.
Qed.

Lemma mediant_loop_search (fuel : nat) (r : Q)
  (lo hi maxNumerator maxDenominator : Z) (s : mediant_state)
  (result : Z * Z) :
  search_ok lo hi maxNumerator maxDenominator s ->
  maxNumerator < 2 ^ 62 -> maxDenominator < 2 ^ 62 ->
  mediant_loop fuel r maxNumerator maxDenominator s = Some result ->
  good_factors lo hi maxNumerator maxDenominator result.
Proof.
  revert s. induction fuel as [|fuel IH]; intros s Hs HmaxN HmaxD; [discriminate|].
  cbn [mediant_loop].
  pose proof (mediant_step_search r lo hi maxNumerator maxDenominator s
                Hs HmaxN HmaxD) as Hstep.
  destruct (mediant_step r maxNumerator maxDenominator s) as [s'|res].
  - apply IH; assumption.
  - intros [= <-]. exact Hstep.
Qed.

(** The midpoint of two consecutive integers around [r] is within one of
    [r], far below the largest [double]. *)
Lemma first_mediant_improves (r : Q) :
  Qfloor r < Qceiling r ->
  Double.ltb
    (Qabs (inject_Z (Qfloor r + Qceiling r) / inject_Z (1 + 1) - r))
    Double.max = true.
Proof.
  intros Hfrac.
  pose proof (Qceiling_le_floor_succ r) as Hsucc.
  assert (Hc : Qceiling r = Qfloor r + 1) by lia.
  pose proof (Qfloor_le r) as Hlo. pose proof (Qle_ceiling r) as Hhi.
  rewrite Hc in *. clear Hc Hsucc Hfrac.
  set (k := Qfloor r) in *.
  unfold Double.ltb. apply negb_true_iff.
  destruct (Qle_bool Double.max _) eqn:Hle; [| reflexivity].
  apply Qle_bool_iff in Hle. exfalso.
  assert (Habs : (Qabs (inject_Z (k + (k + 1)) / inject_Z (1 + 1) - r) <= 1)%Q).
  { apply Qabs_Qle_condition.
    rewrite !inject_Z_plus in *. change (inject_Z 1) with 1%Q in *.
    clear Hle. set (q := inject_Z k) in *. clearbody q.
    change (1 + 1)%Q with 2%Q. unfold Qdiv. change (/ 2)%Q with (1 # 2)%Q.
    split; lra. }
  assert (Hmax : (1 < Double.max)%Q) by reflexivity.
  apply (Qlt_irrefl 1).
  apply Qlt_le_trans with Double.max; [exact Hmax|].
  apply Qle_trans with (2 := Habs). exact Hle.
Qed.

Lemma ltb_0_pos (r : Q) : (0 < r)%Q -> Double.ltb 0 r = true.
Proof.
  intros Hr. unfold Double.ltb. destruct (Qle_bool r 0) eqn:Hle; [| reflexivity].
  apply Qle_bool_iff in Hle. exfalso. apply (Qlt_not_le _ _ Hr Hle).
Qed.

Lemma Qfloor_pos_nonneg (r : Q) : (0 < r)%Q -> 0 <= Qfloor r.
Proof.
  intros Hr. rewrite <- (Qfloor_Z 0). apply Qfloor_resp_le.
  apply Qlt_le_weak. exact Hr.
Qed.

Lemma mediant_init_eq (r : Q) :
  (0 < r)%Q -> Qceiling r < 2 ^ 62 ->
  mediant_init r
  = if Double.half_rounds_up r
    then {| n_a := Qfloor r + 1; d_a := 1; n_b := Qceiling r + 1; d_b := 1;
            error := Double.max; factors := (0, 0) |}
    else {| n_a := Qfloor r; d_a := 1; n_b := Qceiling r; d_b := 1;
            error := Double.max; factors := (0, 0) |}.
Proof.
  intros Hr Hceil.
  pose proof (Qfloor_pos_nonneg r Hr) as Hfloor.
  assert (Qfloor r <= Qceiling r).
  { rewrite <- (Qceiling_Z (Qfloor r)). apply Qceiling_resp_le, Qfloor_le. }
  unfold mediant_init, Double.floor_plus_half, Double.ceil_plus_half,
    Double.floor, Double.ceil.
  destruct (Double.half_rounds_up r).
  - rewrite !to_size_t_plus_one by lia. reflexivity.
  - rewrite !to_size_t_plus_half by lia. reflexivity.
Qed.

(** The first pass on a ratio that is not an integer: the midpoint of
    the two integers around it is kept, unless a limit excludes it. *)
Lemma mediant_step_first (r : Q) (maxNumerator maxDenominator : Z) :
  (0 < r)%Q -> Qfloor r < Qceiling r -> Qceiling r < 2 ^ 62 ->
  0 <= maxNumerator < 2 ^ 62 -> 0 <= maxDenominator < 2 ^ 62 ->
  match mediant_step r maxNumerator maxDenominator (mediant_init r) with
  | inr result =>
      result = (0, 0)
      /\ (maxNumerator < Qfloor r + Qceiling r \/ maxDenominator < 2)
  | inl s =>
      search_ok (Qfloor r) (Qceiling r) maxNumerator maxDenominator s
      /\ Qfloor r + Qceiling r <= maxNumerator /\ 2 <= maxDenominator
  end.
Proof.
  intros Hr Hfrac Hceil HmaxN HmaxD.
  pose proof (Qfloor_pos_nonneg r Hr) as Hfloor.
  pose proof (Qceiling_le_floor_succ r) as Hsucc.
  rewrite mediant_init_eq by assumption.
  rewrite (half_rounds_up_fraction r Hfrac).
  set (s0 := {| n_a := Qfloor r; d_a := 1; n_b := Qceiling r; d_b := 1;
                error := Double.max; factors := (0, 0) |}).
  assert (Hs0 : bracket_ok s0).
  { unfold bracket_ok, s0. cbn [n_a d_a n_b d_b]. lia. }
  pose proof (mediant_step_bracket r maxNumerator maxDenominator s0 Hs0
                ltac:(lia) ltac:(lia)) as Hstep.
  pose proof (mediant_bounds (Qfloor r) (Qceiling r) s0 Hs0) as Hm.
  unfold mediant_step in *. subst s0.
  cbn [n_a d_a n_b d_b error factors] in *.
  rewrite (wrap64_small (Qfloor r + Qceiling r)) in * by lia.
  change (Machine.wrap64 (1 + 1)) with (1 + 1) in *.
  rewrite Gcd64_correct in * by lia.
  pose proof (gcd_of_unimodular (Qfloor r + Qceiling r) (1 + 1) (Qceiling r) 1
                ltac:(lia)) as Hg.
  rewrite Hg in *.
  change (1 <? 1) with false in *. cbv iota in *.
  destruct (Z.ltb_spec maxNumerator (Qfloor r + Qceiling r)) as [|HN];
    [split; [reflexivity | lia]|].
  destruct (Z.ltb_spec maxDenominator (1 + 1)) as [|HD];
    [split; [reflexivity | lia]|].
  cbn [orb] in *.
  rewrite first_mediant_improves in * by exact Hfrac.
  specialize (Hm ltac:(lia) ltac:(lia)).
  assert (Hnew : good_factors (Qfloor r) (Qceiling r) maxNumerator
                   maxDenominator (Qfloor r + Qceiling r, 1 + 1)).
  { unfold good_factors. cbn [fst snd].
    split; [lia|]. split; [lia|]. split; [exact Hg | lia]. }
  destruct (Double.leb _ r); destruct Hstep as (Hs' & _ & _);
    (split; [| lia]); (split; [exact Hs'|]);
    cbn [n_a d_a n_b d_b error factors];
    (split; [lia|]); (split; [lia|]); exact Hnew.
Qed.

(** X7.  For a positive ratio that is not an integer
    [ComputeResampleFactors] leaves its loop within [maxDenominator + 1]
    passes.  When the first mediant [(floor + ceil) / 2] is within the
    limits, the pair [(n, d)] it returns is within them too, is in lowest
    terms, and [n/d] lies strictly between the floor and the ceiling of
    the ratio; otherwise the pair is [(0, 0)]. *)
Theorem X7_ComputeResampleFactors_returns_reduced_fraction_in_limits
  (r : Q) (maxNumerator maxDenominator : Z) :
  (0 < r)%Q -> Qfloor r < Qceiling r -> Qceiling r < 2 ^ 62 ->
  0 <= maxNumerator < 2 ^ 62 -> 0 <= maxDenominator < 2 ^ 62 ->
  exists n d : Z,
    (forall fuel, (Z.to_nat maxDenominator + 1 <= fuel)%nat ->
       ComputeResampleFactors fuel r maxNumerator maxDenominator = Ok (n, d))
    /\ (Qfloor r + Qceiling r <= maxNumerator -> 2 <= maxDenominator ->
        1 <= n <= maxNumerator /\ 1 <= d <= maxDenominator
        /\ Z.gcd n d = 1
        /\ Qfloor r * d < n < Qceiling r * d)
    /\ (maxNumerator < Qfloor r + Qceiling r \/ maxDenominator < 2 ->
        (n, d) = (0, 0)).
Proof.
  intros Hr Hfrac Hceil HmaxN HmaxD.
  destruct (ComputeResampleFactors_fraction_returns r maxNumerator
              maxDenominator Hr Hfrac Hceil HmaxN HmaxD) as [[n d] Hres].
  exists n, d.
  unfold ComputeResampleFactors in *.
  rewrite (ltb_0_pos r Hr) in *. cbn [negb] in *.
  destruct (mediant_loop (Z.to_nat maxDenominator + 1) r maxNumerator
              maxDenominator (mediant_init r)) as [res|] eqn:Hloop;
    [| discriminate].
  injection Hres as ->.
  split.
  { intros fuel Hfuel.
    replace fuel with (Z.to_nat maxDenominator + 1
                       + (fuel - (Z.to_nat maxDenominator + 1)))%nat by lia.
    rewrite (mediant_loop_more_fuel _ _ _ _ _ _ _ Hloop). reflexivity. }
  pose proof (mediant_step_first r maxNumerator maxDenominator
                Hr Hfrac Hceil HmaxN HmaxD) as Hfirst.
  rewrite Nat.add_1_r in Hloop. cbn [mediant_loop] in Hloop.
  destruct (mediant_step r maxNumerator maxDenominator (mediant_init r))
    as [s|res].
  - destruct Hfirst as (Hs & HN & HD).
    split; [| lia].
    intros _ _.
    apply (mediant_loop_search _ r (Qfloor r) (Qceiling r) maxNumerator
             maxDenominator s (n, d) Hs ltac:(lia) ltac:(lia)) in Hloop.
    exact Hloop.
  - destruct Hfirst as (-> & Hout). injection Hloop as <- <-.
    split; [lia | reflexivity].
Qed.

Lemma X7_ComputeResampleFactors_returns_reduced_fraction_in_limits_witness :
  (0 < 27.65421)%Q /\ Qfloor 27.65421 < Qceiling 27.65421
  /\ Qceiling 27.65421 < 2 ^ 62
  /\ 0 <= 128 < 2 ^ 62 /\ 0 <= 128 < 2 ^ 62
  /\ exists n d : Z,
       (forall fuel, (Z.to_nat 128 + 1 <= fuel)%nat ->
          ComputeResampleFactors fuel 27.65421 128 128 = Ok (n, d))
       /\ (Qfloor 27.65421 + Qceiling 27.65421 <= 128 -> 2 <= 128 ->
           1 <= n <= 128 /\ 1 <= d <= 128
           /\ Z.gcd n d = 1
           /\ Qfloor 27.65421 * d < n < Qceiling 27.65421 * d)
       /\ (128 < Qfloor 27.65421 + Qceiling 27.65421 \/ 128 < 2 ->
           (n, d) = (0, 0)).
Proof.
  split; [reflexivity|]. split; [reflexivity|]. split; [reflexivity|].
  split; [lia|]. split; [lia|].
  apply (X7_ComputeResampleFactors_returns_reduced_fraction_in_limits
           27.65421 128 128);
    [reflexivity | reflexivity | reflexivity | lia | lia].
Defined.

(** ** ComputeResampleFactors on an integral ratio *)

(** A pass on a bracket [k/1, k/1]: the mediant [2k/2] is reduced to
    [k/1], and whichever end it replaces, the bracket is the same. *)
Lemma mediant_step_collapsed (r : Q) (k maxNumerator maxDenominator : Z)
  (e : Q) (f : Z * Z) :
  1 <= k < 2 ^ 62 ->
  mediant_step r maxNumerator maxDenominator
    {| n_a := k; d_a := 1; n_b := k; d_b := 1; error := e; factors := f |}
  = if (maxNumerator <? k) || (maxDenominator <? 1) then inr f
    else inl {| n_a := k; d_a := 1; n_b := k; d_b := 1;
                error :=
                  if Double.ltb (Qabs (inject_Z k / inject_Z 1 - r)) e
                  then Qabs (inject_Z k / inject_Z 1 - r) else e;
                factors :=
                  if Double.ltb (Qabs (inject_Z k / inject_Z 1 - r)) e
                  then (k, 1) else f |}.
Proof.
  intros Hk. unfold mediant_step.
  cbn [n_a d_a n_b d_b error factors].
  rewrite (wrap64_small (k + k)) by lia.
  change (Machine.wrap64 (1 + 1)) with 2.
  rewrite Gcd64_correct by lia.
  assert (Hg : Z.gcd (k + k) 2 = 2).
  { replace (k + k) with (2 * k) by lia.
    rewrite Z.gcd_comm, Z.gcd_mul_diag_l; lia. }
  rewrite Hg. change (1 <? 2) with true. cbv iota.
  replace ((k + k) / 2) with k by (apply Z.div_unique_exact; lia).
  change (2 / 2) with 1.
  destruct ((maxNumerator <? k) || (maxDenominator <? 1)); [reflexivity|].
  destruct (Double.leb (inject_Z k / inject_Z 1) r); reflexivity.
Qed.

Lemma mediant_loop_collapsed (fuel : nat) (r : Q)
  (k maxNumerator maxDenominator : Z) (e : Q) (f : Z * Z) :
  1 <= k < 2 ^ 62 -> k <= maxNumerator -> 1 <= maxDenominator ->
  mediant_loop fuel r maxNumerator maxDenominator
    {| n_a := k; d_a := 1; n_b := k; d_b := 1; error := e; factors := f |}
  = None.
Proof.
  intros Hk HN HD. revert e f.
  induction fuel as [|fuel IH]; intros e f; [reflexivity|].
  cbn [mediant_loop].
  rewrite mediant_step_collapsed by assumption.
  destruct (Z.ltb_spec maxNumerator k) as [|_]; [lia|].
  destruct (Z.ltb_spec maxDenominator 1) as [|_]; [lia|].
  cbn [orb]. apply IH.
Qed.

(** X8.  For a ratio that is a positive integer the search starts from
    a bracket [k/1, k/1], whose mediant is [k/1] again: [k] is the ratio
    itself, except for an odd ratio from [2^52] to [2^53], where the
    rounded sum [ratio + 0.5] makes it the ratio plus one.  When [k] is
    within [maxNumerator] (and [maxDenominator] is at least 1) no number
    of passes leaves the loop; otherwise the first pass leaves it and the
    pair [(0, 0)] is returned. *)
Theorem X8_ComputeResampleFactors_on_an_integral_ratio
  (r : Q) (maxNumerator maxDenominator : Z) :
  (0 < r)%Q -> Qfloor r = Qceiling r -> Qceiling r < 2 ^ 62 ->
  let k := if Double.half_rounds_up r then Qfloor r + 1 else Qfloor r in
  (k <= maxNumerator -> 1 <= maxDenominator ->
   forall fuel,
     ComputeResampleFactors fuel r maxNumerator maxDenominator = Diverge)
  /\ (maxNumerator < k \/ maxDenominator < 1 ->
      forall fuel,
        ComputeResampleFactors (Datatypes.S fuel) r maxNumerator
          maxDenominator = Ok (0, 0)).
Proof.
  intros Hr Hint Hceil k.
  pose proof (Qfloor_pos_nonneg r Hr) as Hfloor.
  assert (Hone : 1 <= Qfloor r).
  { destruct (Z.eq_dec (Qfloor r) 0) as [H0|]; [| lia]. exfalso.
    pose proof (Qle_ceiling r) as Hc. rewrite <- Hint, H0 in Hc.
    apply (Qlt_not_le _ _ Hr Hc). }
  assert (Hk : 1 <= k < 2 ^ 62).
  { subst k. unfold Double.half_rounds_up.
    destruct (Qeq_bool (inject_Z (Qfloor r)) r); cbn [andb]; [| lia].
    destruct (Z.leb_spec (2 ^ 52) (Qfloor r)); cbn [andb]; [| lia].
    destruct (Z.ltb_spec (Qfloor r) (2 ^ 53)); cbn [andb]; [| lia].
    destruct (Z.odd (Qfloor r)); lia. }
  assert (Hinit : mediant_init r
                  = {| n_a := k; d_a := 1; n_b := k; d_b := 1;
                       error := Double.max; factors := (0, 0) |}).
  { rewrite mediant_init_eq by assumption. rewrite <- Hint. subst k.
    destruct (Double.half_rounds_up r); reflexivity. }
  unfold ComputeResampleFactors.
  rewrite (ltb_0_pos r Hr). cbn [negb].
  rewrite Hinit.
  split.
  - intros HN HD fuel.
    rewrite mediant_loop_collapsed by assumption.
    reflexivity.
  - intros Hout fuel. cbn [mediant_loop].
    rewrite mediant_step_collapsed by assumption.
    destruct (Z.ltb_spec maxNumerator k) as [|HN]; [reflexivity|].
    destruct (Z.ltb_spec maxDenominator 1) as [|HD]; [reflexivity|].
    lia.
Qed.

Lemma X8_ComputeResampleFactors_on_an_integral_ratio_witness :
  (0 < 3)%Q /\ Qfloor 3 = Qceiling 3 /\ Qceiling 3 < 2 ^ 62
  /\ (forall fuel, ComputeResampleFactors fuel 3 128 128 = Diverge)
  /\ (forall fuel, ComputeResampleFactors (Datatypes.S fuel) 3 2 128 = Ok (0, 0))
  /\ (forall fuel,
        ComputeResampleFactors (Datatypes.S fuel) (inject_Z (2 ^ 52 + 1))
          (2 ^ 52 + 1) 128
        = Ok (0, 0))
  /\ (forall fuel,
        ComputeResampleFactors fuel (inject_Z (2 ^ 52 + 1)) (2 ^ 52 + 2) 128
        = Diverge).
Proof.
  split; [reflexivity|]. split; [reflexivity|]. split; [reflexivity|].
  split; [| split; [| split]].
  - apply (proj1 (X8_ComputeResampleFactors_on_an_integral_ratio 3 128 128
                    ltac:(reflexivity) ltac:(reflexivity) ltac:(reflexivity)));
      vm_compute; discriminate.
  - apply (proj2 (X8_ComputeResampleFactors_on_an_integral_ratio 3 2 128
                    ltac:(reflexivity) ltac:(reflexivity) ltac:(reflexivity))).
    left. reflexivity.
  - apply (proj2 (X8_ComputeResampleFactors_on_an_integral_ratio
                    (inject_Z (2 ^ 52 + 1)) (2 ^ 52 + 1) 128
                    ltac:(reflexivity) ltac:(reflexivity) ltac:(reflexivity))).
    left. reflexivity.
  - apply (proj1 (X8_ComputeResampleFactors_on_an_integral_ratio
                    (inject_Z (2 ^ 52 + 1)) (2 ^ 52 + 2) 128
                    ltac:(reflexivity) ltac:(reflexivity) ltac:(reflexivity)));
      vm_compute; discriminate.
Defined.

(** ** Windows: construction and access *)

Section WindowConstruction.
Context {F : Type} `{Real F} `{Transcendental F}.

Lemma ComputeGains_Ok (w : WindowFunction (F := F)) :
  0 <= m_effectiveSize w <= Z.of_nat (length (m_windowCoefficients w)) ->
  exists w', ComputeGains w = Ok w'.
Proof.
  intros Hsize. unfold ComputeGains, EffectiveSize.
  destruct (for_range_invariant (fun _ (_ : F * F) => True)
              (ComputeGains_body (m_windowCoefficients w))
              (Z.to_nat (m_effectiveSize w)) 0
              (m_coherentGain w, m_enbw w)) as ([cg enbw] & Hloop & _).
  - exact I.
  - intros j [cg enbw] Hj _. unfold ComputeGains_body.
    destruct (lookup_lt_is_Some_2 (m_windowCoefficients w) j ltac:(lia))
      as [c Hc].
    rewrite Hc. cbn [lift mbind outcome_bind]. eauto.
  - rewrite Hloop. cbn [mbind outcome_bind]. eauto.
Qed.

(** Every generator builds a window of any size from 2 on. *)
Lemma WindowFunction_new_Ok (g : Generator) (size : Z)
  (ignoreLastValue : bool) :
  2 <= size < 2 ^ 64 ->
  exists (w : WindowFunction (F := F)) (coeffs : list F),
    generate g (replicate (Z.to_nat size) (of_Z 1)) = Ok coeffs
    /\ WindowFunction_new (generate g) size ignoreLastValue = Ok w
    /\ m_windowCoefficients w = coeffs
    /\ Z.of_nat (length coeffs) = size
    /\ m_effectiveSize w = (if ignoreLastValue then size - 1 else size).
Proof.
  intros Hsize.
  destruct (generate_symmetric g (replicate (Z.to_nat size) (of_Z 1)))
    as (coeffs & Hgen & Hlen & _).
  { rewrite length_replicate. lia. }
  { rewrite length_replicate. lia. }
  rewrite length_replicate in Hlen.
  unfold WindowFunction_new. rewrite Hgen. cbn [mbind outcome_bind].
  rewrite length_replicate, Z2Nat.id by lia.
  assert (Heff : (if ignoreLastValue then Machine.wrap64 (size - 1) else size)
                 = (if ignoreLastValue then size - 1 else size)).
  { destruct ignoreLastValue; [apply wrap64_small; lia | reflexivity]. }
  rewrite Heff.
  set (w0 := {| m_windowCoefficients := coeffs |}).
  destruct (ComputeGains_Ok w0) as [w Hw].
  { subst w0. cbn [m_effectiveSize m_windowCoefficients].
    destruct ignoreLastValue; lia. }
  exists w, coeffs. split; [reflexivity|]. split; [exact Hw|].
  apply ComputeGains_fields in Hw as (Hc & _ & He).
  subst w0. cbn [m_effectiveSize m_windowCoefficients] in *.
  split; [exact Hc|]. split; [lia | exact He].
Qed.

(** No generator accepts fewer than two coefficients. *)
Lemma generate_too_small (g : Generator) (windowCoeffs : list F) :
  (length windowCoeffs < 2)%nat ->
  generate g windowCoeffs = Throw "invalid window size".
Proof.
  intros Hsize. unfold generate, WindowGenerator.
  destruct (Z.ltb_spec 1 (Z.of_nat (length windowCoeffs))) as [|_]; [lia|].
  destruct g; reflexivity.
Qed.

(** X9.  Every generator builds a [WindowFunction] of any size from 2
    on: it holds [size] coefficients, of which [size] count as effective,
    or [size - 1] when [ignoreLastValue] is set, and [Coefficients()]
    returns that many, from the first one on.  A size below 2 makes every
    generator throw, so no such window can be built. *)
Theorem X9_WindowFunction_is_built_from_size_two_on (g : Generator)
  (size : Z) (ignoreLastValue : bool) :
  0 <= size < 2 ^ 31 ->
  (2 <= size ->
   exists (w : WindowFunction (F := F)) (coeffs : list F),
     generate g (replicate (Z.to_nat size) (of_Z 1)) = Ok coeffs
     /\ WindowFunction_new (generate g) size ignoreLastValue = Ok w
     /\ ActualSize w = size
     /\ EffectiveSize w = (if ignoreLastValue then size - 1 else size)
     /\ Coefficients w = Ok (take (Z.to_nat (EffectiveSize w)) coeffs)
     /\ Z.of_nat (length (take (Z.to_nat (EffectiveSize w)) coeffs))
        = EffectiveSize w)
  /\ (size < 2 ->
      WindowFunction_new (F := F) (generate g) size ignoreLastValue
      = Throw "invalid window size").
Proof.
  intros Hsize. split.
  - intros Hmin.
    destruct (WindowFunction_new_Ok g size ignoreLastValue ltac:(lia))
      as (w & coeffs & Hgen & Hw & Hc & Hlen & He).
    exists w, coeffs. split; [exact Hgen|]. split; [exact Hw|].
    unfold ActualSize, EffectiveSize, Coefficients. rewrite Hc, He.
    split; [exact Hlen|]. split; [reflexivity|].
    split.
    + destruct ignoreLastValue.
      * destruct (Z.eqb_spec (Z.of_nat (length coeffs)) (size - 1)) as [|_];
          [lia|].
        rewrite to_int32_small by lia.
        rewrite iter_at_Some by lia. reflexivity.
      * rewrite Hlen, Z.eqb_refl. rewrite firstn_all2 by lia. reflexivity.
    + rewrite length_take. destruct ignoreLastValue; lia.
  - intros Hsmall. unfold WindowFunction_new.
    rewrite generate_too_small by (rewrite length_replicate; lia).
    reflexivity.
Qed.

End WindowConstruction.

Lemma X9_WindowFunction_is_built_from_size_two_on_witness :
  0 <= 5 < 2 ^ 31
  /\ (exists w : WindowFunction (F := Q),
        WindowFunction_new (generate HannGenerator) 5 true = Ok w
        /\ ActualSize w = 5 /\ EffectiveSize w = 4)
  /\ WindowFunction_new (F := Q) (generate HannGenerator) 1 true
     = Throw "invalid window size".
Proof.
  assert (Hsize : 0 <= 5 < 2 ^ 31) by lia.
  assert (Hsize1 : 0 <= 1 < 2 ^ 31) by lia.
  split; [exact Hsize|]. split.
  - destruct (proj1 (X9_WindowFunction_is_built_from_size_two_on
                       (F := Q) HannGenerator 5 true Hsize) ltac:(lia))
      as (w & coeffs & _ & Hw & Ha & He & _).
    exists w. split; [exact Hw|]. split; [exact Ha | exact He].
  - apply (proj2 (X9_WindowFunction_is_built_from_size_two_on
                    (F := Q) HannGenerator 1 true Hsize1)). lia.
Defined.

(** ** FIR designs *)

Section FirFacts.
Context {F : Type} `{Real F} `{Transcendental F}.

(** The window built by a design has as many coefficients as the filter
    and multiplies each of them. *)
Lemma apply_window_Ok (g : Generator) (numTaps : Z) (filterCoeffs : list F) :
  2 <= numTaps < 2 ^ 64 ->
  Z.of_nat (length filterCoeffs) = numTaps ->
  exists coeffs,
    generate g (replicate (Z.to_nat numTaps) (of_Z 1)) = Ok coeffs
    /\ Z.of_nat (length coeffs) = numTaps
    /\ apply_window numTaps (generate g) filterCoeffs
       = Ok (zip_with fmul filterCoeffs coeffs).
Proof.
  intros Htaps Hlen.
  destruct (WindowFunction_new_Ok (F := F) g numTaps false Htaps)
    as (w & coeffs & Hgen & Hw & Hc & Hclen & He).
  exists coeffs. split; [exact Hgen|]. split; [exact Hclen|].
  unfold apply_window. rewrite Hw. cbn [mbind outcome_bind].
  unfold WindowFunction_apply. rewrite He, Hc, Hlen, Z.eqb_refl. cbn [negb].
  destruct (decide (length filterCoeffs <= length coeffs)%nat) as [_|]; [| lia].
  assert (Hzip : length (zip_with fmul filterCoeffs coeffs)
                 = length filterCoeffs).
  { rewrite length_zip_with. lia. }
  rewrite write_at_0 by lia.
  rewrite Hzip, drop_all, app_nil_r. reflexivity.
Qed.

(** The coefficients of a design before the window: [numTaps] values,
    the one at [i] given by the formula of the design. *)
Lemma design_coeffs (formula : nat -> F) (numTaps : Z) :
  0 <= numTaps ->
  let filterCoeffs :=
    imap (fun i _ => formula i) (replicate (Z.to_nat numTaps) (of_Z 0 : F)) in
  Z.of_nat (length filterCoeffs) = numTaps
  /\ forall i, (i < Z.to_nat numTaps)%nat ->
       filterCoeffs !! i = Some (formula i).
Proof.
  intros Htaps filterCoeffs. subst filterCoeffs.
  rewrite length_imap, length_replicate. split; [lia|].
  intros i Hi. rewrite list_lookup_imap, lookup_replicate_2 by exact Hi.
  reflexivity.
Qed.

(** What a design returns: the products of its coefficients and the
    coefficients of the window. *)
Lemma windowed_design (g : Generator) (formula : nat -> F) (numTaps : Z) :
  2 <= numTaps < 2 ^ 64 ->
  exists coeffs out,
    generate g (replicate (Z.to_nat numTaps) (of_Z 1)) = Ok coeffs
    /\ apply_window numTaps (generate g)
         (imap (fun i _ => formula i)
            (replicate (Z.to_nat numTaps) (of_Z 0 : F)))
       = Ok out
    /\ Z.of_nat (length out) = numTaps
    /\ forall i, (i < Z.to_nat numTaps)%nat ->
         exists c, coeffs !! i = Some c
                   /\ out !! i = Some (formula i * c)%F.
Proof.
  intros Htaps.
  destruct (design_coeffs formula numTaps ltac:(lia)) as (Hlen & Hat).
  destruct (apply_window_Ok g numTaps _ Htaps Hlen)
    as (coeffs & Hgen & Hclen & Happly).
  exists coeffs, (zip_with fmul
                    (imap (fun i _ => formula i)
                       (replicate (Z.to_nat numTaps) (of_Z 0 : F))) coeffs).
  split; [exact Hgen|]. split; [exact Happly|].
  split; [rewrite length_zip_with; lia|].
  intros i Hi.
  destruct (lookup_lt_is_Some_2 coeffs i ltac:(lia)) as [c Hc].
  exists c. split; [exact Hc|].
  rewrite lookup_zip_with, (Hat i Hi), Hc. reflexivity.
Qed.

End FirFacts.

Section FirProperties.
Context {F : Type} `{Real F} `{Transcendental F}.

(** X10.  With parameters that pass its checks and any generator of the
    family, [FirLowPassFilter] returns [numTaps] coefficients:
    coefficient [i] is the sample [nc * sinc(nc * arg_i * pi)] of the
    ideal response, [arg_i = i - (numTaps - 1) / 2], multiplied by
    coefficient [i] of the window that the generator gives for [numTaps]
    coefficients (none is ignored).  [FirHighPassFilter] does the same
    with [sinc(arg_i * pi) - nc * sinc(nc * arg_i * pi)] when [numTaps]
    is odd, and throws when it is even. *)
Theorem X10_low_and_high_pass_designs_are_windowed_ideal_responses
  (g : Generator) (numTaps : Z) (cutoffFreqHz samplingFreqHz : F) :
  2 < numTaps < 2 ^ 64 ->
  (of_Z 0 <? cutoffFreqHz)%F = true ->
  (of_Z 0 <? samplingFreqHz)%F = true ->
  (cutoffFreqHz <=? samplingFreqHz / of_Z 2)%F = true ->
  let nc := (cutoffFreqHz / (samplingFreqHz / of_Z 2))%F in
  let arg := fun i : nat => (of_nat i - of_Z (numTaps - 1) / of_Z 2)%F in
  let sinc := fun x : F => Sinc x default_limitThreshold in
  exists coeffs low,
    generate g (replicate (Z.to_nat numTaps) (of_Z 1)) = Ok coeffs
    /\ FirLowPassFilter numTaps cutoffFreqHz samplingFreqHz (generate g)
       = Ok low
    /\ Z.of_nat (length low) = numTaps
    /\ (forall i, (i < Z.to_nat numTaps)%nat ->
          exists c, coeffs !! i = Some c
                    /\ low !! i
                       = Some (nc * sinc (nc * arg i * Pi) * c)%F)
    /\ (numTaps mod 2 = 1 ->
        exists high,
          FirHighPassFilter numTaps cutoffFreqHz samplingFreqHz (generate g)
          = Ok high
          /\ Z.of_nat (length high) = numTaps
          /\ forall i, (i < Z.to_nat numTaps)%nat ->
               exists c, coeffs !! i = Some c
                         /\ high !! i
                            = Some ((sinc (arg i * Pi)
                                     - nc * sinc (nc * arg i * Pi)) * c)%F)
    /\ (numTaps mod 2 = 0 ->
        FirHighPassFilter numTaps cutoffFreqHz samplingFreqHz (generate g)
        = Throw "numTaps should be an odd number for high pass filter").
Proof.
  intros Htaps Hcut Hfs Hband nc arg sinc.
  destruct (windowed_design g (fun i => nc * sinc (nc * arg i * Pi))%F numTaps
              ltac:(lia)) as (coeffs & low & Hgen & Hlow & Hlen & Hat).
  destruct (windowed_design g
              (fun i => sinc (arg i * Pi) - nc * sinc (nc * arg i * Pi))%F
              numTaps ltac:(lia)) as (coeffs' & high & Hgen' & Hhigh & Hlen' & Hat').
  rewrite Hgen in Hgen'. injection Hgen' as <-.
  exists coeffs, low. split; [exact Hgen|].
  unfold FirLowPassFilter, FirHighPassFilter.
  destruct (Z.ltb_spec 2 numTaps) as [_|]; [| lia].
  rewrite Hcut, Hfs, Hband. cbn [negb].
  split; [exact Hlow|]. split; [exact Hlen|]. split; [exact Hat|].
  split.
  - intros Hodd. rewrite Hodd. cbn [Z.eqb Pos.eqb negb].
    exists high. split; [exact Hhigh|]. split; [exact Hlen' | exact Hat'].
  - intros Heven. rewrite Heven. reflexivity.
Qed.

(** X11.  With parameters that pass their checks and any generator of
    the family, [FirBandPassFilter] and [FirNotchFilter] return [numTaps]
    coefficients: the samples of their ideal responses, each multiplied
    by the coefficient of the window at the same place.  The band-pass
    response is zero where [|arg_i| < 0.001] and
    [(cos(lo * arg_i * pi) - cos(hi * arg_i * pi)) / pi / arg_i]
    elsewhere; the notch response is
    [sinc(arg_i * pi) - hi * sinc(hi * arg_i * pi)
     - lo * sinc(lo * arg_i * pi)]. *)
Theorem X11_band_pass_and_notch_designs_are_windowed_ideal_responses
  (g : Generator) (numTaps : Z) (centreFreqHz bandwidthHz samplingFreqHz : F) :
  2 < numTaps < 2 ^ 64 ->
  (of_Z 0 <? centreFreqHz)%F = true ->
  (of_Z 0 <? samplingFreqHz)%F = true ->
  (centreFreqHz <=? samplingFreqHz / of_Z 2)%F = true ->
  (of_Z 0 <? bandwidthHz)%F = true ->
  (bandwidthHz <=? samplingFreqHz / of_Z 2)%F = true ->
  let available := (samplingFreqHz / of_Z 2)%F in
  let lo := (centreFreqHz / available - bandwidthHz / available / of_Z 2)%F in
  let hi := (centreFreqHz / available + bandwidthHz / available / of_Z 2)%F in
  let arg := fun i : nat => (of_nat i - of_Z (numTaps - 1) / of_Z 2)%F in
  let sinc := fun x : F => Sinc x default_limitThreshold in
  exists coeffs band notch,
    generate g (replicate (Z.to_nat numTaps) (of_Z 1)) = Ok coeffs
    /\ FirBandPassFilter numTaps centreFreqHz bandwidthHz samplingFreqHz
         (generate g) = Ok band
    /\ FirNotchFilter numTaps centreFreqHz bandwidthHz samplingFreqHz
         (generate g) = Ok notch
    /\ Z.of_nat (length band) = numTaps
    /\ Z.of_nat (length notch) = numTaps
    /\ forall i, (i < Z.to_nat numTaps)%nat ->
         exists c,
           coeffs !! i = Some c
           /\ band !! i
              = Some ((if (fabs (arg i) <? of_Q (1 # 1000))%F then of_Z 0
                       else (fcos (lo * arg i * Pi) - fcos (hi * arg i * Pi))
                            / Pi / arg i) * c)%F
           /\ notch !! i
              = Some ((sinc (arg i * Pi) - hi * sinc (hi * arg i * Pi)
                       - lo * sinc (lo * arg i * Pi)) * c)%F.
Proof.
  intros Htaps Hcentre Hfs Hhigh Hbw Hbwhigh available lo hi arg sinc.
  destruct (windowed_design g
              (fun i => if (fabs (arg i) <? of_Q (1 # 1000))%F then of_Z 0
                        else (fcos (lo * arg i * Pi) - fcos (hi * arg i * Pi))
                             / Pi / arg i)%F
              numTaps ltac:(lia)) as (coeffs & band & Hgen & Hband & Hlen & Hat).
  destruct (windowed_design g
              (fun i => sinc (arg i * Pi) - hi * sinc (hi * arg i * Pi)
                        - lo * sinc (lo * arg i * Pi))%F
              numTaps ltac:(lia))
    as (coeffs' & notch & Hgen' & Hnotch & Hlen' & Hat').
  rewrite Hgen in Hgen'. injection Hgen' as <-.
  exists coeffs, band, notch. split; [exact Hgen|].
  unfold FirBandPassFilter, FirNotchFilter.
  destruct (Z.ltb_spec 2 numTaps) as [_|]; [| lia].
  rewrite Hcentre, Hfs, Hhigh, Hbw, Hbwhigh. cbn [negb].
  split; [exact Hband|]. split; [exact Hnotch|].
  split; [exact Hlen|]. split; [exact Hlen'|].
  intros i Hi.
  destruct (Hat i Hi) as (c & Hc & Hb).
  destruct (Hat' i Hi) as (c' & Hc' & Hn).
  rewrite Hc in Hc'. injection Hc' as <-.
  exists c. split; [exact Hc|]. split; [exact Hb | exact Hn].
Qed.

End FirProperties.

Lemma X10_low_and_high_pass_designs_are_windowed_ideal_responses_witness :
  2 < 3 < 2 ^ 64
  /\ (of_Z 0 <? 10%Q)%F = true
  /\ (of_Z 0 <? 100%Q)%F = true
  /\ (10%Q <=? 100%Q / of_Z 2)%F = true
  /\ (exists low,
        FirLowPassFilter 3 10%Q 100%Q (generate RectangleGenerator) = Ok low
        /\ Z.of_nat (length low) = 3)
  /\ exists high,
       FirHighPassFilter 3 10%Q 100%Q (generate RectangleGenerator) = Ok high
       /\ Z.of_nat (length high) = 3.
Proof.
  assert (Htaps : 2 < 3 < 2 ^ 64) by lia.
  assert (Hcut : (of_Z 0 <? 10%Q)%F = true) by reflexivity.
  assert (Hfs : (of_Z 0 <? 100%Q)%F = true) by reflexivity.
  assert (Hband : (10%Q <=? 100%Q / of_Z 2)%F = true) by reflexivity.
  split; [exact Htaps|]. split; [exact Hcut|]. split; [exact Hfs|].
  split; [exact Hband|].
  destruct (X10_low_and_high_pass_designs_are_windowed_ideal_responses
              (F := Q) RectangleGenerator 3 10%Q 100%Q Htaps Hcut Hfs Hband)
    as (coeffs & low & _ & Hlow & Hlen & _ & Hodd & _).
  split.
  - exists low. split; [exact Hlow | exact Hlen].
  - destruct (Hodd ltac:(reflexivity)) as (high & Hhigh & Hlen' & _).
    exists high. split; [exact Hhigh | exact Hlen'].
Defined.

Lemma X11_band_pass_and_notch_designs_are_windowed_ideal_responses_witness :
  2 < 3 < 2 ^ 64
  /\ (of_Z 0 <? 20%Q)%F = true
  /\ (of_Z 0 <? 100%Q)%F = true
  /\ (20%Q <=? 100%Q / of_Z 2)%F = true
  /\ (of_Z 0 <? 10%Q)%F = true
  /\ (10%Q <=? 100%Q / of_Z 2)%F = true
  /\ exists band notch,
       FirBandPassFilter 3 20%Q 10%Q 100%Q (generate RectangleGenerator)
       = Ok band
       /\ FirNotchFilter 3 20%Q 10%Q 100%Q (generate RectangleGenerator)
          = Ok notch
       /\ Z.of_nat (length band) = 3
       /\ Z.of_nat (length notch) = 3.
Proof.
  assert (Htaps : 2 < 3 < 2 ^ 64) by lia.
  assert (Hcentre : (of_Z 0 <? 20%Q)%F = true) by reflexivity.
  assert (Hfs : (of_Z 0 <? 100%Q)%F = true) by reflexivity.
  assert (Hhigh : (20%Q <=? 100%Q / of_Z 2)%F = true) by reflexivity.
  assert (Hbw : (of_Z 0 <? 10%Q)%F = true) by reflexivity.
  assert (Hbwhigh : (10%Q <=? 100%Q / of_Z 2)%F = true) by reflexivity.
  split; [exact Htaps|]. split; [exact Hcentre|]. split; [exact Hfs|].
  split; [exact Hhigh|]. split; [exact Hbw|]. split; [exact Hbwhigh|].
  destruct (X11_band_pass_and_notch_designs_are_windowed_ideal_responses
              (F := Q) RectangleGenerator 3 20%Q 10%Q 100%Q
              Htaps Hcentre Hfs Hhigh Hbw Hbwhigh)
    as (coeffs & band & notch & _ & Hband & Hnotch & Hlen & Hlen' & _).
  exists band, notch.
  split; [exact Hband|]. split; [exact Hnotch|].
  split; [exact Hlen | exact Hlen'].
Defined.

(** ** The spectrum functors *)

Lemma ApplyGainCorrection_in_place {F V : Type} `{Real F} (div : V -> F -> V)
  (data : list V) (gain : F) :
  ApplyGainCorrection div data data gain = Ok ((fun x => div x gain) <$> data).
Proof.
  unfold ApplyGainCorrection.
  rewrite write_at_0 by (rewrite length_fmap; lia).
  rewrite length_fmap, drop_all, app_nil_r. reflexivity.
Qed.

Section FunctorFacts.
Context {F : Type} `{Real F} `{Transcendental F}.
Variable arg : complex F -> F.

Lemma compute_phases_spec (workspace : list (complex F))
  (realSpectra : list F) (phases : option (list F)) :
  (length realSpectra <= length workspace)%nat ->
  compute_phases arg workspace realSpectra phases
  = Ok ((fun _ => arg <$> take (length realSpectra) workspace) <$> phases).
Proof.
  intros Hlen. destruct phases as [phases|]; [| reflexivity].
  unfold compute_phases.
  set (out := resize (length realSpectra) (of_Z 0) phases).
  assert (Hout : length out = length realSpectra)
    by (subst out; apply length_resize).
  rewrite (for_range_fill (fun _ z => arg z) _ workspace); [| | lia].
  - cbn [mbind outcome_bind fmap option_fmap option_map]. rewrite Hout.
    do 2 f_equal. apply (imap_const arg).
  - intros i d z Hz Hi. rewrite Hz. cbn [lift mbind outcome_bind].
    rewrite store_Some by exact Hi. reflexivity.
Qed.

Lemma halfSize_of_length (v v' : list (complex F)) (fullSpectrum : bool) :
  length v' = length v ->
  halfSize_of v' fullSpectrum = halfSize_of v fullSpectrum.
Proof. intros Hlen. unfold halfSize_of. rewrite Hlen. reflexivity. Qed.

Lemma used_le_length (v : list (complex F)) (fullSpectrum : bool) :
  (Z.to_nat (halfSize_of v fullSpectrum) <= length v)%nat.
Proof. pose proof (halfSize_of_range v fullSpectrum). lia. Qed.

(** The magnitude spectrum of a loaded workspace: the transform, the
    magnitudes of the used bins, the phases on request, and the division
    by the gain of the window times the size. *)
Lemma MagnitudeFft_spectrum_Done (m : MagnitudeFft (F := F))
  (workspace : list (complex F)) (realSpectra : list F) (fullSpectrum : bool)
  (phases : option (list F)) :
  is_pow2 (Z.of_nat (length workspace)) ->
  2 <= Z.of_nat (length workspace) < 2 ^ 31 ->
  let used := Z.to_nat (halfSize_of workspace fullSpectrum) in
  let gain :=
    (CoherentGain (mag_windowFunction m) * of_nat (length workspace))%F in
  exists X,
    Forward workspace = (Done, X)
    /\ length X = length workspace
    /\ MagnitudeFft_spectrum arg m workspace realSpectra fullSpectrum phases
       = (Done,
          (set_mag_workspace m X,
           (fun x => x / gain)%F
           <$> imap (fun i z => real (magnitude_bin i z)) (take used X),
           (fun _ => arg <$> take used X) <$> phases)).
Proof.
  intros Hpow Hfit used gain.
  destruct (Forward_pow2 workspace Hpow ltac:(lia)) as (X & HX & Hlen).
  exists X. split; [exact HX|]. split; [exact Hlen|].
  unfold MagnitudeFft_spectrum. rewrite HX.
  rewrite ToMagnitude_real_spec by (rewrite Hlen; lia).
  rewrite (halfSize_of_length workspace X) by exact Hlen. fold used.
  cbn [step].
  assert (Hused : length (imap (fun i z => real (magnitude_bin i z))
                            (take used X)) = used).
  { rewrite length_imap, length_take.
    pose proof (used_le_length workspace fullSpectrum). fold used in H1. lia. }
  rewrite compute_phases_spec
    by (rewrite Hused, Hlen; apply used_le_length).
  cbn [step]. rewrite ApplyGainCorrection_in_place. cbn [step].
  rewrite Hused, Hlen. reflexivity.
Qed.

(** The three-bin spectrum of a loaded workspace. *)
Lemma ThreeBinSumFft_spectrum_Done (t : ThreeBinSumFft (F := F))
  (workspace : list (complex F)) (realSpectra : list F) (fullSpectrum : bool)
  (phases : option (list F)) :
  is_pow2 (Z.of_nat (length workspace)) ->
  2 <= Z.of_nat (length workspace) < 2 ^ 31 ->
  let used := Z.to_nat (halfSize_of workspace fullSpectrum) in
  let size := Z.of_nat (length workspace) in
  let gain :=
    (CombinedGain (tbs_windowFunction t) * of_Z (size * size))%F in
  exists X,
    Forward workspace = (Done, X)
    /\ length X = length workspace
    /\ let powers := (fun z => cnorm z / gain)%F <$> take used X in
       ThreeBinSumFft_spectrum arg t workspace realSpectra fullSpectrum phases
       = (fst (To3BinSum_real_in_place powers),
          (set_tbs_workspace t X,
           snd (To3BinSum_real_in_place powers),
           (fun _ => arg <$> take used X) <$> phases)).
Proof.
  intros Hpow Hfit used size gain.
  destruct (Forward_pow2 workspace Hpow ltac:(lia)) as (X & HX & Hlen).
  exists X. split; [exact HX|]. split; [exact Hlen|].
  intros powers.
  unfold ThreeBinSumFft_spectrum. rewrite HX.
  rewrite ToPower_real_spec by (rewrite Hlen; lia).
  rewrite (halfSize_of_length workspace X) by exact Hlen. fold used.
  cbn [step].
  assert (Hpows : imap (fun _ z => real (power_bin z)) (take used X)
                  = cnorm <$> take used X).
  { rewrite <- (imap_const cnorm). apply imap_ext. intros i z _. reflexivity. }
  rewrite Hpows.
  assert (Hused : length (cnorm <$> take used X) = used).
  { rewrite length_fmap, length_take.
    pose proof (used_le_length workspace fullSpectrum). fold used in H1. lia. }
  rewrite compute_phases_spec
    by (rewrite Hused, Hlen; apply used_le_length).
  cbn [step]. rewrite ApplyGainCorrection_in_place. cbn [step].
  rewrite Hused, Hlen. fold size.
  rewrite (wrap64_small (size * size)) by (subst size; nia).
  rewrite <- list_fmap_compose.
  match goal with
  | |- context [To3BinSum_real_in_place ?a] => change a with powers
  end.
  destruct (To3BinSum_real_in_place powers) as [r out]. reflexivity.
Qed.

End FunctorFacts.

Lemma is_pow2_pos (n : Z) : is_pow2 n -> 1 <= n.
Proof.
  intros (k & Hk & ->). pose proof (Z.pow_pos_nonneg 2 k ltac:(lia) Hk). lia.
Qed.

Section FunctorConstruction.
Context {F : Type} `{Real F} `{Transcendental F}.

(** A window of [fftSize + 1] coefficients whose last one is ignored. *)
Lemma fft_window (g : Generator) (fftSize : Z) (w : WindowFunction (F := F)) :
  1 <= fftSize < 2 ^ 31 ->
  WindowFunction_new (generate g) (Machine.wrap64 (fftSize + 1)) true = Ok w ->
  exists coeffs,
    generate g (replicate (Z.to_nat (fftSize + 1)) (of_Z 1)) = Ok coeffs
    /\ m_windowCoefficients w = coeffs
    /\ Z.of_nat (length coeffs) = fftSize + 1
    /\ m_effectiveSize w = fftSize.
Proof.
  intros Hsize Hw. rewrite wrap64_small in Hw by lia.
  destruct (WindowFunction_new_Ok (F := F) g (fftSize + 1) true ltac:(lia))
    as (w' & coeffs & Hgen & Hw' & Hc & Hlen & He).
  rewrite Hw in Hw'. injection Hw' as <-.
  exists coeffs. split; [exact Hgen|]. split; [exact Hc|].
  split; [exact Hlen | lia].
Qed.

Lemma MagnitudeFft_new_inv (g : Generator) (fftSize : Z)
  (m : MagnitudeFft (F := F)) :
  MagnitudeFft_new (generate g) fftSize = Ok m ->
  0 <= fftSize < 2 ^ 31 ->
  is_pow2 fftSize
  /\ mag_workspace m = replicate (Z.to_nat fftSize) czero
  /\ exists coeffs,
       generate g (replicate (Z.to_nat (fftSize + 1)) (of_Z 1)) = Ok coeffs
       /\ m_windowCoefficients (mag_windowFunction m) = coeffs
       /\ Z.of_nat (length coeffs) = fftSize + 1
       /\ m_effectiveSize (mag_windowFunction m) = fftSize.
Proof.
  unfold MagnitudeFft_new. intros Hm Hsize.
  apply bind_Ok in Hm as (w & Hw & Hm).
  destruct (IsPowerOf2 fftSize) eqn:Hpow; [| discriminate].
  cbn [negb] in Hm. injection Hm as <-.
  apply IsPowerOf2_spec in Hpow. pose proof (is_pow2_pos _ Hpow).
  split; [exact Hpow|]. split; [reflexivity|].
  cbn [mag_windowFunction]. apply (fft_window g fftSize w); [lia | exact Hw].
Qed.

Lemma ThreeBinSumFft_new_inv (g : Generator) (fftSize : Z)
  (t : ThreeBinSumFft (F := F)) :
  ThreeBinSumFft_new (generate g) fftSize = Ok t ->
  0 <= fftSize < 2 ^ 31 ->
  is_pow2 fftSize
  /\ tbs_workspace t = replicate (Z.to_nat fftSize) czero
  /\ exists coeffs,
       generate g (replicate (Z.to_nat (fftSize + 1)) (of_Z 1)) = Ok coeffs
       /\ m_windowCoefficients (tbs_windowFunction t) = coeffs
       /\ Z.of_nat (length coeffs) = fftSize + 1
       /\ m_effectiveSize (tbs_windowFunction t) = fftSize.
Proof.
  unfold ThreeBinSumFft_new. intros Ht Hsize.
  apply bind_Ok in Ht as (w & Hw & Ht).
  destruct (IsPowerOf2 fftSize) eqn:Hpow; [| discriminate].
  cbn [negb] in Ht. injection Ht as <-.
  apply IsPowerOf2_spec in Hpow. pose proof (is_pow2_pos _ Hpow).
  split; [exact Hpow|]. split; [reflexivity|].
  cbn [tbs_windowFunction]. apply (fft_window g fftSize w); [lia | exact Hw].
Qed.

(** X12.  [MagnitudeFft] and [ThreeBinSumFft] are built for the FFT
    sizes that are powers of two, and for no other: size 0 is refused by
    the window generator (a window of one coefficient is too small),
    every other size by the test in the body.  The object holds a window
    of [fftSize + 1] coefficients, of which the last is ignored, and a
    zeroed workspace of [fftSize] bins. *)
Theorem X12_spectrum_functors_are_built_for_powers_of_two
  (g : Generator) (fftSize : Z) :
  0 <= fftSize < 2 ^ 31 ->
  (is_pow2 fftSize ->
   exists (m : MagnitudeFft (F := F)) (t : ThreeBinSumFft (F := F)),
     MagnitudeFft_new (generate g) fftSize = Ok m
     /\ ThreeBinSumFft_new (generate g) fftSize = Ok t
     /\ tbs_windowFunction t = mag_windowFunction m
     /\ ActualSize (mag_windowFunction m) = fftSize + 1
     /\ EffectiveSize (mag_windowFunction m) = fftSize
     /\ mag_workspace m = replicate (Z.to_nat fftSize) czero
     /\ tbs_workspace t = replicate (Z.to_nat fftSize) czero)
  /\ (fftSize = 0 ->
      MagnitudeFft_new (F := F) (generate g) fftSize
      = Throw "invalid window size"
      /\ ThreeBinSumFft_new (F := F) (generate g) fftSize
         = Throw "invalid window size")
  /\ (0 < fftSize -> ~ is_pow2 fftSize ->
      MagnitudeFft_new (F := F) (generate g) fftSize
      = Throw "FFT size not a power of 2"
      /\ ThreeBinSumFft_new (F := F) (generate g) fftSize
         = Throw "FFT size not a power of 2").
Proof.
  intros Hsize. split; [| split].
  - intros Hpow. pose proof (is_pow2_pos _ Hpow) as Hpos.
    destruct (WindowFunction_new_Ok (F := F) g (fftSize + 1) true ltac:(lia))
      as (w & coeffs & Hgen & Hw & Hc & Hlen & He).
    apply IsPowerOf2_spec in Hpow.
    unfold MagnitudeFft_new, ThreeBinSumFft_new.
    rewrite wrap64_small by lia. rewrite Hw. cbn [mbind outcome_bind].
    rewrite Hpow. cbn [negb].
    eexists _, _. split; [reflexivity|]. split; [reflexivity|].
    cbn [mag_windowFunction tbs_windowFunction mag_workspace tbs_workspace].
    unfold ActualSize, EffectiveSize. rewrite Hc, He, Hlen.
    split; [reflexivity|]. split; [reflexivity|]. split; [lia|].
    split; reflexivity.
  - intros ->. unfold MagnitudeFft_new, ThreeBinSumFft_new.
    change (Machine.wrap64 (0 + 1)) with 1. unfold WindowFunction_new.
    rewrite generate_too_small by (rewrite length_replicate; lia).
    split; reflexivity.
  - intros Hpos Hnot.
    destruct (WindowFunction_new_Ok (F := F) g (fftSize + 1) true ltac:(lia))
      as (w & coeffs & Hgen & Hw & _).
    apply IsPowerOf2_false in Hnot.
    unfold MagnitudeFft_new, ThreeBinSumFft_new.
    rewrite wrap64_small by lia. rewrite Hw. cbn [mbind outcome_bind].
    rewrite Hnot. split; reflexivity.
Qed.

End FunctorConstruction.

Lemma X12_spectrum_functors_are_built_for_powers_of_two_witness :
  0 <= 4 < 2 ^ 31
  /\ (exists m : MagnitudeFft (F := Q),
        MagnitudeFft_new (generate HannGenerator) 4 = Ok m
        /\ EffectiveSize (mag_windowFunction m) = 4)
  /\ ThreeBinSumFft_new (F := Q) (generate HannGenerator) 3
     = Throw "FFT size not a power of 2".
Proof.
  assert (H4 : 0 <= 4 < 2 ^ 31) by lia.
  assert (H3 : 0 <= 3 < 2 ^ 31) by lia.
  split; [exact H4|]. split.
  - destruct (proj1 (X12_spectrum_functors_are_built_for_powers_of_two
                       (F := Q) HannGenerator 4 H4))
      as (m & t & Hm & _ & _ & _ & He & _).
    { exists 2. split; [lia | reflexivity]. }
    exists m. split; [exact Hm | exact He].
  - apply (proj2 (proj2 (X12_spectrum_functors_are_built_for_powers_of_two
                           (F := Q) HannGenerator 3 H3))); [lia|].
    apply IsPowerOf2_false. reflexivity.
Defined.

Section FunctorCalls.
Context {F : Type} `{Real F} `{Transcendental F}.
Variable arg : complex F -> F.

(** The window of a spectrum functor on a signal of the FFT size and an
    output range. *)
Lemma fft_window_apply (w : WindowFunction (F := F)) (coeffs signal result : list F)
  (fftSize : Z) :
  m_windowCoefficients w = coeffs ->
  Z.of_nat (length coeffs) = fftSize + 1 ->
  m_effectiveSize w = fftSize ->
  Z.of_nat (length signal) = fftSize ->
  WindowFunction_apply w signal result
  = if decide (length signal <= length result)%nat
    then (Done, zip_with fmul signal coeffs ++ drop (length signal) result)
    else (UB, result).
Proof.
  intros Hc Hlen He Hsig. unfold WindowFunction_apply.
  rewrite He, Hc, Hsig, Z.eqb_refl. cbn [negb].
  destruct (decide (length signal <= length coeffs)%nat) as [_|]; [| lia].
  assert (Hzip : length (zip_with fmul signal coeffs) = length signal)
    by (rewrite length_zip_with; lia).
  unfold write_at. rewrite Hzip. cbn [Nat.add].
  destruct (decide (length signal <= length result)%nat); [| reflexivity].
  rewrite take_0. reflexivity.
Qed.

Lemma fft_window_apply_complex (w : WindowFunction (F := F)) (coeffs : list F)
  (signal result : list (complex F)) (fftSize : Z) :
  m_windowCoefficients w = coeffs ->
  Z.of_nat (length coeffs) = fftSize + 1 ->
  m_effectiveSize w = fftSize ->
  Z.of_nat (length signal) = fftSize ->
  length result = length signal ->
  WindowFunction_apply_complex w signal result
  = (Done, zip_with cscale signal coeffs).
Proof.
  intros Hc Hlen He Hsig Hres. unfold WindowFunction_apply_complex.
  rewrite He, Hc, Hsig, Z.eqb_refl. cbn [negb].
  destruct (decide (length signal <= length coeffs)%nat) as [_|]; [| lia].
  assert (Hzip : length (zip_with cscale signal coeffs) = length signal)
    by (rewrite length_zip_with; lia).
  rewrite write_at_0 by lia.
  rewrite Hzip, drop_ge, app_nil_r by lia. reflexivity.
Qed.

(** On one sample the transform of both functors is undefined. *)
Lemma Forward_one_sample (workspace : list (complex F)) :
  length workspace = 1%nat -> Forward workspace = (UB, workspace).
Proof.
  intros Hone. destruct workspace as [|z [|z' rest]]; try discriminate Hone.
  reflexivity.
Qed.

Lemma MagnitudeFft_spectrum_one (m : MagnitudeFft (F := F))
  (workspace : list (complex F)) (realSpectra : list F) (fullSpectrum : bool)
  (phases : option (list F)) :
  length workspace = 1%nat ->
  fst (MagnitudeFft_spectrum arg m workspace realSpectra fullSpectrum phases)
  = UB.
Proof.
  intros Hone. unfold MagnitudeFft_spectrum.
  rewrite (Forward_one_sample workspace Hone). reflexivity.
Qed.

Lemma ThreeBinSumFft_spectrum_one (t : ThreeBinSumFft (F := F))
  (workspace : list (complex F)) (realSpectra : list F) (fullSpectrum : bool)
  (phases : option (list F)) :
  length workspace = 1%nat ->
  fst (ThreeBinSumFft_spectrum arg t workspace realSpectra fullSpectrum phases)
  = UB.
Proof.
  intros Hone. unfold ThreeBinSumFft_spectrum.
  rewrite (Forward_one_sample workspace Hone). reflexivity.
Qed.

(** X13.  [MagnitudeFft::operator()] on an object built for [fftSize]
    samples, in the state its constructor leaves or in any later one,
    which differs from it in the contents of the workspace only.  A
    signal of another length makes it throw and changes nothing.  For a
    real signal the vector [realSpectra] must come in with exactly
    [fftSize] entries: it is used as the buffer of the windowed signal,
    and any other size is an access out of range.  For [fftSize] from 2
    on the call then returns with the first
    [fullSpectrum ? fftSize : fftSize/2] bins of the transform [X] of the
    windowed signal: bin [i] is the magnitude of [X[i]], doubled except
    for bin 0, divided by the coherent gain of the window times
    [fftSize]; the phases, when asked for, are the arguments of the same
    bins; the object is left with [X] in its workspace.  For a complex
    signal the size of [realSpectra] on entry is of no account.  An
    object built for one sample can be called in no defined way: the
    transform of one sample is undefined. *)
Theorem X13_MagnitudeFft_call_gives_corrected_magnitudes
  (g : Generator) (fftSize : Z) (m0 m : MagnitudeFft (F := F))
  (signal realSpectra : list F) (csignal : list (complex F))
  (fullSpectrum : bool) (phases : option (list F)) :
  MagnitudeFft_new (generate g) fftSize = Ok m0 ->
  MagnitudeFft_agrees m0 m ->
  0 <= fftSize < 2 ^ 31 ->
  let used :=
    if fullSpectrum then Z.to_nat fftSize else (Z.to_nat fftSize / 2)%nat in
  let gain := (CoherentGain (mag_windowFunction m0) * of_Z fftSize)%F in
  let spectrum := fun X : list (complex F) =>
    imap (fun i z => real (magnitude_bin i z) / gain)%F (take used X) in
  let angles := fun X : list (complex F) =>
    (fun _ : list F => arg <$> take used X) <$> phases in
  let returned := fun X : list (complex F) =>
    (Done, (set_mag_workspace m X, spectrum X, angles X)) in
  exists coeffs,
    generate g (replicate (Z.to_nat (fftSize + 1)) (of_Z 1)) = Ok coeffs
    /\ MagnitudeFft_agrees m0 m0
    /\ (Z.of_nat (length signal) <> fftSize ->
        MagnitudeFft_call arg m signal realSpectra fullSpectrum phases
        = (Throw "signal length is incorrect", (m, realSpectra, phases)))
    /\ (Z.of_nat (length signal) = fftSize ->
        Z.of_nat (length realSpectra) <> fftSize ->
        fst (MagnitudeFft_call arg m signal realSpectra fullSpectrum phases)
        = UB)
    /\ (2 <= fftSize ->
        Z.of_nat (length signal) = fftSize ->
        Z.of_nat (length realSpectra) = fftSize ->
        exists X,
          Forward (convertToComplex <$> zip_with fmul signal coeffs)
          = (Done, X)
          /\ MagnitudeFft_agrees m0 (set_mag_workspace m X)
          /\ MagnitudeFft_call arg m signal realSpectra fullSpectrum phases
             = returned X)
    /\ (2 <= fftSize ->
        Z.of_nat (length csignal) = fftSize ->
        exists X,
          Forward (zip_with cscale csignal coeffs) = (Done, X)
          /\ MagnitudeFft_agrees m0 (set_mag_workspace m X)
          /\ MagnitudeFft_call_complex arg m csignal realSpectra fullSpectrum
               phases
             = returned X)
    /\ (fftSize = 1 ->
        (Z.of_nat (length signal) = 1 ->
         fst (MagnitudeFft_call arg m signal realSpectra fullSpectrum phases)
         = UB)
        /\ (Z.of_nat (length csignal) = 1 ->
            fst (MagnitudeFft_call_complex arg m csignal realSpectra
                   fullSpectrum phases) = UB)).
Proof.
  intros Hm (Awin & Alen) Hsize used gain spectrum angles returned.
  destruct (MagnitudeFft_new_inv g fftSize m0 Hm Hsize)
    as (Hpow & Hws & coeffs & Hgen & Hc & Hlen & He).
  pose proof (is_pow2_pos _ Hpow) as Hpos.
  exists coeffs. split; [exact Hgen|].
  split; [split; reflexivity|].
  assert (Hwslen : Z.of_nat (length (mag_workspace m)) = fftSize).
  { rewrite Alen, Hws, length_replicate. lia. }
  rewrite <- Awin in Hc, He.
  assert (Hfinish : 2 <= fftSize -> forall ws rs,
            Z.of_nat (length ws) = fftSize ->
            exists X, Forward ws = (Done, X)
              /\ MagnitudeFft_agrees m0 (set_mag_workspace m X)
              /\ MagnitudeFft_spectrum arg m ws rs fullSpectrum phases
                 = returned X).
  { intros Htwo ws rs Hwsl.
    destruct (MagnitudeFft_spectrum_Done arg m ws rs fullSpectrum phases)
      as (X & HX & HlenX & Hspec); [rewrite Hwsl; exact Hpow | lia |].
    exists X. split; [exact HX|].
    split.
    { split; [exact Awin|]. cbn [set_mag_workspace mag_workspace].
      rewrite HlenX, Hws, length_replicate. lia. }
    rewrite Hspec.
    assert (Hused : Z.to_nat (halfSize_of ws fullSpectrum) = used).
    { subst used. unfold halfSize_of. rewrite Hwsl.
      destruct fullSpectrum; [reflexivity|].
      rewrite <- (Nat2Z.id (Z.to_nat fftSize / 2)). f_equal.
      rewrite Nat2Z.inj_div, Z2Nat.id by lia. reflexivity. }
    rewrite Hused. unfold of_nat. rewrite Hwsl, Awin. fold gain.
    rewrite fmap_imap. reflexivity. }
  assert (Hload : Z.of_nat (length signal) = fftSize ->
            Z.of_nat (length realSpectra) = fftSize ->
            MagnitudeFft_call arg m signal realSpectra fullSpectrum phases
            = MagnitudeFft_spectrum arg m
                (convertToComplex <$> zip_with fmul signal coeffs)
                (zip_with fmul signal coeffs) fullSpectrum phases).
  { intros Hsig Hrs. unfold MagnitudeFft_call.
    rewrite Hwslen, Hsig, Z.eqb_refl. cbn [negb].
    rewrite (fft_window_apply _ coeffs signal realSpectra fftSize)
      by assumption.
    destruct (decide (length signal <= length realSpectra)%nat) as [_|];
      [| lia].
    rewrite drop_ge, app_nil_r by lia.
    assert (Hzip : length (zip_with fmul signal coeffs) = length signal)
      by (rewrite length_zip_with; lia).
    rewrite write_at_0 by (rewrite length_fmap; lia).
    rewrite length_fmap, drop_ge, app_nil_r by lia.
    reflexivity. }
  assert (Hloadc : Z.of_nat (length csignal) = fftSize ->
            MagnitudeFft_call_complex arg m csignal realSpectra fullSpectrum
              phases
            = MagnitudeFft_spectrum arg m (zip_with cscale csignal coeffs)
                realSpectra fullSpectrum phases).
  { intros Hsig. unfold MagnitudeFft_call_complex.
    rewrite Hwslen, Hsig, Z.eqb_refl. cbn [negb].
    rewrite (fft_window_apply_complex _ coeffs csignal _ fftSize)
      by (try assumption; lia).
    reflexivity. }
  split; [| split; [| split; [| split]]].
  - intros Hsig. unfold MagnitudeFft_call.
    destruct (Z.eqb_spec (Z.of_nat (length signal))
                (Z.of_nat (length (mag_workspace m)))) as [Heq|_];
      [lia | reflexivity].
  - intros Hsig Hrs. unfold MagnitudeFft_call.
    rewrite Hwslen, Hsig, Z.eqb_refl. cbn [negb].
    rewrite (fft_window_apply _ coeffs signal realSpectra fftSize)
      by assumption.
    destruct (decide (length signal <= length realSpectra)%nat) as [Hle|];
      [| reflexivity].
    unfold write_at.
    rewrite length_fmap, length_app, length_zip_with, length_drop.
    destruct (decide _) as [Hle'|]; [lia | reflexivity].
  - intros Htwo Hsig Hrs. rewrite (Hload Hsig Hrs).
    apply (Hfinish Htwo). rewrite length_fmap, length_zip_with. lia.
  - intros Htwo Hsig. rewrite (Hloadc Hsig).
    apply (Hfinish Htwo). rewrite length_zip_with. lia.
  - intros ->. split.
    + intros Hsig.
      destruct (Z.eq_dec (Z.of_nat (length realSpectra)) 1) as [Hrs|Hrs].
      * rewrite (Hload Hsig Hrs). apply MagnitudeFft_spectrum_one.
        rewrite length_fmap, length_zip_with. lia.
      * unfold MagnitudeFft_call.
        rewrite Hwslen, Hsig, Z.eqb_refl. cbn [negb].
        rewrite (fft_window_apply _ coeffs signal realSpectra 1)
          by assumption.
        destruct (decide (length signal <= length realSpectra)%nat) as [Hle|];
          [| reflexivity].
        unfold write_at.
        rewrite length_fmap, length_app, length_zip_with, length_drop.
        destruct (decide _) as [Hle'|]; [lia | reflexivity].
    + intros Hsig. rewrite (Hloadc Hsig). apply MagnitudeFft_spectrum_one.
      rewrite length_zip_with. lia.
Qed.

End FunctorCalls.

Lemma is_pow2_below (n : Z) : is_pow2 n -> n < 2 ^ 31 -> n <= 2 ^ 30.
Proof.
  intros (k & Hk & ->) Hlt.
  apply Z.pow_lt_mono_r_iff in Hlt; [| lia | lia].
  apply Z.pow_le_mono_r; lia.
Qed.

Section ThreeBinCalls.
Context {F : Type} `{Real F} `{Transcendental F}.
Variable arg : complex F -> F.

(** X14.  [ThreeBinSumFft::operator()] on an object built for [fftSize]
    samples, in the state its constructor leaves or in any later one,
    which differs from it in the contents of the workspace only.  A
    signal of another length makes it throw and changes nothing; for a
    real signal [realSpectra] must come in with exactly [fftSize]
    entries.  For [fftSize] from 2 on the call takes the powers of the
    first [fullSpectrum ? fftSize : fftSize/2] bins of the transform [X]
    of the windowed signal, divides them by the combined gain of the
    window times [fftSize^2], and returns their three-bin sums; the
    object is left with [X] in its workspace.  An object built for one
    sample can be called in no defined way: the transform of one sample
    is undefined. *)
Theorem X14_ThreeBinSumFft_call_gives_three_bin_sums_of_corrected_powers
  (g : Generator) (fftSize : Z) (t0 t : ThreeBinSumFft (F := F))
  (signal realSpectra : list F) (csignal : list (complex F))
  (fullSpectrum : bool) (phases : option (list F)) :
  ThreeBinSumFft_new (generate g) fftSize = Ok t0 ->
  ThreeBinSumFft_agrees t0 t ->
  0 <= fftSize < 2 ^ 31 ->
  let used :=
    if fullSpectrum then Z.to_nat fftSize else (Z.to_nat fftSize / 2)%nat in
  let gain :=
    (CombinedGain (tbs_windowFunction t0) * of_Z (fftSize * fftSize))%F in
  let powers := fun X : list (complex F) =>
    (fun z => cnorm z / gain)%F <$> take used X in
  let sums := fun X : list (complex F) =>
    (fun k => transformer
                (overlap_sum (of_Z 0) fadd fmul (powers X) convVec_real
                   (Datatypes.S k)))
    <$> seq 0 used in
  let angles := fun X : list (complex F) =>
    (fun _ : list F => arg <$> take used X) <$> phases in
  let returned := fun X : list (complex F) =>
    (Done, (set_tbs_workspace t X, sums X, angles X)) in
  exists coeffs,
    generate g (replicate (Z.to_nat (fftSize + 1)) (of_Z 1)) = Ok coeffs
    /\ ThreeBinSumFft_agrees t0 t0
    /\ (Z.of_nat (length signal) <> fftSize ->
        ThreeBinSumFft_call arg t signal realSpectra fullSpectrum phases
        = (Throw "signal length is incorrect", (t, realSpectra, phases)))
    /\ (Z.of_nat (length signal) = fftSize ->
        Z.of_nat (length realSpectra) <> fftSize ->
        fst (ThreeBinSumFft_call arg t signal realSpectra fullSpectrum phases)
        = UB)
    /\ (2 <= fftSize ->
        Z.of_nat (length signal) = fftSize ->
        Z.of_nat (length realSpectra) = fftSize ->
        exists X,
          Forward (convertToComplex <$> zip_with fmul signal coeffs)
          = (Done, X)
          /\ ThreeBinSumFft_agrees t0 (set_tbs_workspace t X)
          /\ ThreeBinSumFft_call arg t signal realSpectra fullSpectrum phases
             = returned X)
    /\ (2 <= fftSize ->
        Z.of_nat (length csignal) = fftSize ->
        exists X,
          Forward (zip_with cscale csignal coeffs) = (Done, X)
          /\ ThreeBinSumFft_agrees t0 (set_tbs_workspace t X)
          /\ ThreeBinSumFft_call_complex arg t csignal realSpectra
               fullSpectrum phases
             = returned X)
    /\ (fftSize = 1 ->
        (Z.of_nat (length signal) = 1 ->
         fst (ThreeBinSumFft_call arg t signal realSpectra fullSpectrum
                phases) = UB)
        /\ (Z.of_nat (length csignal) = 1 ->
            fst (ThreeBinSumFft_call_complex arg t csignal realSpectra
                   fullSpectrum phases) = UB)).
Proof.
  intros Ht (Awin & Alen) Hsize used gain powers sums angles returned.
  destruct (ThreeBinSumFft_new_inv g fftSize t0 Ht Hsize)
    as (Hpow & Hws & coeffs & Hgen & Hc & Hlen & He).
  pose proof (is_pow2_pos _ Hpow) as Hpos.
  pose proof (is_pow2_below _ Hpow ltac:(lia)) as Hbelow.
  exists coeffs. split; [exact Hgen|].
  split; [split; reflexivity|].
  assert (Hwslen : Z.of_nat (length (tbs_workspace t)) = fftSize).
  { rewrite Alen, Hws, length_replicate. lia. }
  rewrite <- Awin in Hc, He.
  assert (Hfinish : 2 <= fftSize -> forall ws rs,
            Z.of_nat (length ws) = fftSize ->
            exists X, Forward ws = (Done, X)
              /\ ThreeBinSumFft_agrees t0 (set_tbs_workspace t X)
              /\ ThreeBinSumFft_spectrum arg t ws rs fullSpectrum phases
                 = returned X).
  { intros Htwo ws rs Hwsl.
    destruct (ThreeBinSumFft_spectrum_Done arg t ws rs fullSpectrum phases)
      as (X & HX & HlenX & Hspec); [rewrite Hwsl; exact Hpow | lia |].
    exists X. split; [exact HX|].
    split.
    { split; [exact Awin|]. cbn [set_tbs_workspace tbs_workspace].
      rewrite HlenX, Hws, length_replicate. lia. }
    cbv zeta in Hspec. rewrite Hspec.
    assert (Hused : Z.to_nat (halfSize_of ws fullSpectrum) = used).
    { subst used. unfold halfSize_of. rewrite Hwsl.
      destruct fullSpectrum; [reflexivity|].
      rewrite <- (Nat2Z.id (Z.to_nat fftSize / 2)). f_equal.
      rewrite Nat2Z.inj_div, Z2Nat.id by lia. reflexivity. }
    rewrite Hused, Hwsl, Awin. fold gain. fold (powers X).
    assert (Hule : (used <= Z.to_nat fftSize)%nat).
    { pose proof (used_le_length ws fullSpectrum) as Hle.
      rewrite Hused in Hle. lia. }
    assert (Hplen : length (powers X) = used).
    { unfold powers. rewrite length_fmap, length_take. lia. }
    assert (Hpos' : (0 < used)%nat).
    { subst used. destruct fullSpectrum; [lia|].
      apply Nat.div_str_pos. lia. }
    unfold returned.
    rewrite To3BinSum_real_in_place_Done;
      [| rewrite Hplen; exact Hpos'
       | rewrite Hplen; unfold Machine.INT_MAX; lia].
    rewrite Hplen. reflexivity. }
  assert (Hload : Z.of_nat (length signal) = fftSize ->
            Z.of_nat (length realSpectra) = fftSize ->
            ThreeBinSumFft_call arg t signal realSpectra fullSpectrum phases
            = ThreeBinSumFft_spectrum arg t
                (convertToComplex <$> zip_with fmul signal coeffs)
                (zip_with fmul signal coeffs) fullSpectrum phases).
  { intros Hsig Hrs. unfold ThreeBinSumFft_call.
    rewrite Hwslen, Hsig, Z.eqb_refl. cbn [negb].
    rewrite (fft_window_apply _ coeffs signal realSpectra fftSize)
      by assumption.
    destruct (decide (length signal <= length realSpectra)%nat) as [_|];
      [| lia].
    rewrite drop_ge, app_nil_r by lia.
    assert (Hzip : length (zip_with fmul signal coeffs) = length signal)
      by (rewrite length_zip_with; lia).
    rewrite write_at_0 by (rewrite length_fmap; lia).
    rewrite length_fmap, drop_ge, app_nil_r by lia.
    reflexivity. }
  assert (Hloadc : Z.of_nat (length csignal) = fftSize ->
            ThreeBinSumFft_call_complex arg t csignal realSpectra
              fullSpectrum phases
            = ThreeBinSumFft_spectrum arg t (zip_with cscale csignal coeffs)
                realSpectra fullSpectrum phases).
  { intros Hsig. unfold ThreeBinSumFft_call_complex.
    rewrite Hwslen, Hsig, Z.eqb_refl. cbn [negb].
    rewrite (fft_window_apply_complex _ coeffs csignal _ fftSize)
      by (try assumption; lia).
    reflexivity. }
  assert (Hshort : forall size, fftSize = size ->
            Z.of_nat (length signal) = size ->
            Z.of_nat (length realSpectra) <> size ->
            fst (ThreeBinSumFft_call arg t signal realSpectra fullSpectrum
                   phases) = UB).
  { intros size <- Hsig Hrs. unfold ThreeBinSumFft_call.
    rewrite Hwslen, Hsig, Z.eqb_refl. cbn [negb].
    rewrite (fft_window_apply _ coeffs signal realSpectra fftSize)
      by assumption.
    destruct (decide (length signal <= length realSpectra)%nat) as [Hle|];
      [| reflexivity].
    unfold write_at.
    rewrite length_fmap, length_app, length_zip_with, length_drop.
    destruct (decide (_ <= length (tbs_workspace t))%nat) as [Hle'|];
      [lia | reflexivity]. }
  split; [| split; [| split; [| split]]].
  - intros Hsig. unfold ThreeBinSumFft_call.
    destruct (Z.eqb_spec (Z.of_nat (length signal))
                (Z.of_nat (length (tbs_workspace t)))) as [Heq|_];
      [lia | reflexivity].
  - intros Hsig Hrs. exact (Hshort fftSize eq_refl Hsig Hrs).
  - intros Htwo Hsig Hrs. rewrite (Hload Hsig Hrs).
    apply (Hfinish Htwo). rewrite length_fmap, length_zip_with. lia.
  - intros Htwo Hsig. rewrite (Hloadc Hsig).
    apply (Hfinish Htwo). rewrite length_zip_with. lia.
  - intros Hone. split.
    + intros Hsig.
      destruct (Z.eq_dec (Z.of_nat (length realSpectra)) 1) as [Hrs|Hrs].
      * rewrite (Hload ltac:(lia) ltac:(lia)).
        apply ThreeBinSumFft_spectrum_one.
        rewrite length_fmap, length_zip_with. lia.
      * apply (Hshort 1 Hone Hsig Hrs).
    + intros Hsig. rewrite (Hloadc ltac:(lia)).
      apply ThreeBinSumFft_spectrum_one.
      rewrite length_zip_with. lia.
Qed.

End ThreeBinCalls.

Lemma X13_MagnitudeFft_call_gives_corrected_magnitudes_witness :
  exists m0 m1 : MagnitudeFft (F := Q),
    MagnitudeFft_new (generate RectangleGenerator) 4 = Ok m0
    /\ MagnitudeFft_agrees m0 m0
    /\ 0 <= 4 < 2 ^ 31
    /\ MagnitudeFft_agrees m0 m1
    /\ fst (MagnitudeFft_call (fun _ => 0%Q) m0 [1; 0; 0; 0]%Q [9; 9; 9; 9]%Q
              false None) = Done
    /\ fst (MagnitudeFft_call (fun _ => 0%Q) m1 [1; 0; 0; 0]%Q [9; 9; 9; 9]%Q
              false None) = Done
    /\ fst (MagnitudeFft_call (fun _ => 0%Q) m1 [1; 0; 0; 0]%Q [9; 9; 9]%Q
              false None) = UB
    /\ exists m2 : MagnitudeFft (F := Q),
         MagnitudeFft_new (generate RectangleGenerator) 1 = Ok m2
         /\ fst (MagnitudeFft_call (fun _ => 0%Q) m2 [1]%Q [9]%Q true None)
            = UB.
Proof.
  destruct (MagnitudeFft_new (F := Q) (generate RectangleGenerator) 1)
    as [m2| | |] eqn:Hm2; try (vm_compute in Hm2; discriminate Hm2).
  pose proof (X13_MagnitudeFft_call_gives_corrected_magnitudes
                (F := Q) (fun _ => 0%Q) RectangleGenerator 1 m2 m2
                [1]%Q [9]%Q [] true None
                Hm2 ltac:(split; reflexivity) ltac:(lia)) as Hone.
  destruct Hone as (coeffs1 & _ & _ & _ & _ & _ & _ & Hone).
  destruct (MagnitudeFft_new (F := Q) (generate RectangleGenerator) 4)
    as [m0| | |] eqn:Hm; try (vm_compute in Hm; discriminate Hm).
  assert (Hrefl : MagnitudeFft_agrees m0 m0) by (split; reflexivity).
  pose proof (X13_MagnitudeFft_call_gives_corrected_magnitudes
                (F := Q) (fun _ => 0%Q) RectangleGenerator 4 m0 m0
                [1; 0; 0; 0]%Q [9; 9; 9; 9]%Q [] false None
                Hm Hrefl ltac:(lia)) as Hfirst.
  destruct Hfirst as (coeffs & _ & _ & _ & _ & Hcall & _).
  destruct (Hcall ltac:(lia) ltac:(reflexivity) ltac:(reflexivity))
    as (X & _ & Hagree & Hc).
  pose proof (X13_MagnitudeFft_call_gives_corrected_magnitudes
                (F := Q) (fun _ => 0%Q) RectangleGenerator 4 m0
                (set_mag_workspace m0 X)
                [1; 0; 0; 0]%Q [9; 9; 9; 9]%Q [] false None
                Hm Hagree ltac:(lia)) as Hsecond.
  pose proof (X13_MagnitudeFft_call_gives_corrected_magnitudes
                (F := Q) (fun _ => 0%Q) RectangleGenerator 4 m0
                (set_mag_workspace m0 X)
                [1; 0; 0; 0]%Q [9; 9; 9]%Q [] false None
                Hm Hagree ltac:(lia)) as Hthree.
  destruct Hsecond as (coeffs2 & _ & _ & _ & _ & Hcall2 & _).
  destruct Hthree as (coeffs3 & _ & _ & _ & Hub & _).
  exists m0, (set_mag_workspace m0 X).
  split; [reflexivity|]. split; [exact Hrefl|]. split; [lia|].
  split; [exact Hagree|].
  split.
  - rewrite Hc. reflexivity.
  - split.
    + destruct (Hcall2 ltac:(lia) ltac:(reflexivity) ltac:(reflexivity))
        as (X2 & _ & _ & Hc2).
      rewrite Hc2. reflexivity.
    + split; [apply Hub; [reflexivity | cbn; lia]|].
      exists m2. split; [reflexivity|].
      exact (proj1 (Hone eq_refl) eq_refl).
Defined.

Lemma X14_ThreeBinSumFft_call_gives_three_bin_sums_of_corrected_powers_witness :
  exists t0 t1 : ThreeBinSumFft (F := Q),
    ThreeBinSumFft_new (generate RectangleGenerator) 4 = Ok t0
    /\ ThreeBinSumFft_agrees t0 t0
    /\ 0 <= 4 < 2 ^ 31
    /\ ThreeBinSumFft_agrees t0 t1
    /\ fst (ThreeBinSumFft_call (fun _ => 0%Q) t0 [1; 0; 0; 0]%Q
              [9; 9; 9; 9]%Q false None) = Done
    /\ fst (ThreeBinSumFft_call (fun _ => 0%Q) t1 [1; 0; 0; 0]%Q
              [9; 9; 9; 9]%Q false None) = Done
    /\ exists t2 : ThreeBinSumFft (F := Q),
         ThreeBinSumFft_new (generate RectangleGenerator) 1 = Ok t2
         /\ fst (ThreeBinSumFft_call (fun _ => 0%Q) t2 [1]%Q [9]%Q true None)
            = UB.
Proof.
  destruct (ThreeBinSumFft_new (F := Q) (generate RectangleGenerator) 1)
    as [t2| | |] eqn:Ht2; try (vm_compute in Ht2; discriminate Ht2).
  pose proof
    (X14_ThreeBinSumFft_call_gives_three_bin_sums_of_corrected_powers
       (F := Q) (fun _ => 0%Q) RectangleGenerator 1 t2 t2
       [1]%Q [9]%Q [] true None
       Ht2 ltac:(split; reflexivity) ltac:(lia)) as Hone.
  destruct Hone as (coeffs1 & _ & _ & _ & _ & _ & _ & Hone).
  destruct (ThreeBinSumFft_new (F := Q) (generate RectangleGenerator) 4)
    as [t0| | |] eqn:Ht; try (vm_compute in Ht; discriminate Ht).
  assert (Hrefl : ThreeBinSumFft_agrees t0 t0) by (split; reflexivity).
  pose proof
    (X14_ThreeBinSumFft_call_gives_three_bin_sums_of_corrected_powers
       (F := Q) (fun _ => 0%Q) RectangleGenerator 4 t0 t0
       [1; 0; 0; 0]%Q [9; 9; 9; 9]%Q [] false None
       Ht Hrefl ltac:(lia)) as Hfirst.
  destruct Hfirst as (coeffs & _ & _ & _ & _ & Hcall & _).
  destruct (Hcall ltac:(lia) ltac:(reflexivity) ltac:(reflexivity))
    as (X & _ & Hagree & Hc).
  pose proof
    (X14_ThreeBinSumFft_call_gives_three_bin_sums_of_corrected_powers
       (F := Q) (fun _ => 0%Q) RectangleGenerator 4 t0
       (set_tbs_workspace t0 X)
       [1; 0; 0; 0]%Q [9; 9; 9; 9]%Q [] false None
       Ht Hagree ltac:(lia)) as Hsecond.
  destruct Hsecond as (coeffs2 & _ & _ & _ & _ & Hcall2 & _).
  destruct (Hcall2 ltac:(lia) ltac:(reflexivity) ltac:(reflexivity))
    as (X2 & _ & _ & Hc2).
  exists t0, (set_tbs_workspace t0 X).
  split; [reflexivity|]. split; [exact Hrefl|]. split; [lia|].
  split; [exact Hagree|].
  split; [rewrite Hc; reflexivity|].
  split; [rewrite Hc2; reflexivity|].
  exists t2. split; [reflexivity|].
  exact (proj1 (Hone eq_refl) eq_refl).
Defined.

(** ** Resample::operator() *)

Section ResampleLoops.
Context {F : Type} `{Real F} `{Transcendental F}.

(** The closed form [stuffed] is what the loop writes behind the
    samples already placed. *)
Lemma upsample_loop_spec (U : Z) (signal prefix : list F) :
  1 <= U < 2 ^ 31 ->
  Z.of_nat (length prefix) + U * Z.of_nat (length signal) < 2 ^ 31 ->
  upsample_loop U signal (length prefix)
    (prefix ++ replicate (Z.to_nat U * length signal) (of_Z 0))
  = Ok (prefix ++ stuffed U signal).
Proof.
  intros HU. revert prefix.
  induction signal as [|x signal IH]; intros prefix Hfit.
  - cbn [upsample_loop length stuffed flat_map]. rewrite Nat.mul_0_r.
    reflexivity.
  - cbn [upsample_loop length stuffed flat_map] in *.
    rewrite length_app, length_replicate.
    destruct (decide _) as [_|Hn]; [| lia].
    rewrite store_Some by (rewrite length_app, length_replicate; lia).
    cbn [lift mbind outcome_bind].
    replace (Z.to_nat U * Datatypes.S (length signal))%nat
      with (Datatypes.S (Z.to_nat U - 1 + Z.to_nat U * length signal)) by lia.
    rewrite insert_app_r_alt, Nat.sub_diag by lia.
    cbn [replicate insert list_insert].
    rewrite to_int32_small by lia.
    unfold iter_next.
    rewrite iter_at_Some
      by (rewrite length_app; cbn [length]; rewrite length_replicate; lia).
    cbn [lift mbind outcome_bind].
    rewrite replicate_add.
    specialize (IH (prefix ++ (x * of_Z U)%F
                            :: replicate (Z.to_nat U - 1) (of_Z 0))).
    rewrite length_app in IH. cbn [length] in IH.
    rewrite length_replicate in IH.
    replace (Z.to_nat (Z.of_nat (length prefix) + U))
      with (length prefix + Datatypes.S (Z.to_nat U - 1))%nat by lia.
    specialize (IH ltac:(lia)).
    rewrite <- (assoc_L (++)) in IH. cbn [app] in IH.
    rewrite IH. rewrite <- (assoc_L (++)). reflexivity.
Qed.

Lemma length_stuffed (U : Z) (signal : list F) :
  1 <= U ->
  length (stuffed U signal) = (Z.to_nat U * length signal)%nat.
Proof.
  intros HU. unfold stuffed.
  induction signal as [|x signal IH]; [cbn; lia|].
  cbn [flat_map length]. rewrite length_app. cbn [length].
  rewrite length_replicate, IH. lia.
Qed.

(** The loops that drop samples write [count] of them, [D] apart. *)
Lemma downsample_loop_spec (int_counter : bool) (D : Z) (buffer : list F)
  (count i : nat) (result : list F) :
  1 <= D ->
  ((i + count) * Z.to_nat D <= length buffer)%nat ->
  (i + count <= length result)%nat ->
  Z.of_nat (length buffer) < 2 ^ 31 ->
  downsample_loop int_counter D buffer count (Z.of_nat i) (i * Z.to_nat D) i
    result
  = Ok (take i result
        ++ ((fun j => nth (j * Z.to_nat D) buffer (of_Z 0)) <$> seq i count)
        ++ drop (i + count) result).
Proof.
  intros HD. revert i result.
  induction count as [|count IH]; intros i result Hbuf Hres Hfit.
  - cbn [downsample_loop seq fmap list_fmap app].
    rewrite Nat.add_0_r, take_drop. reflexivity.
  - cbn [downsample_loop].
    assert (Hpos : (i * Z.to_nat D < length buffer)%nat) by nia.
    destruct (decide _) as [_|]; [| lia].
    destruct (lookup_lt_is_Some_2 buffer (i * Z.to_nat D) Hpos) as [x Hx].
    rewrite Hx. cbn [lift mbind outcome_bind].
    rewrite store_Some by lia. cbn [lift mbind outcome_bind].
    assert (Hi : Z.of_nat i < Machine.INT_MAX).
    { unfold Machine.INT_MAX. nia. }
    destruct (Z.leb_spec Machine.INT_MAX (Z.of_nat i)) as [|_]; [lia|].
    rewrite andb_false_r.
    assert (HDle : (Z.to_nat D <= length buffer)%nat) by nia.
    assert (HDfit : D < 2 ^ 31) by lia.
    rewrite to_int32_small by lia.
    unfold iter_next. rewrite iter_at_Some by nia.
    cbn [lift mbind outcome_bind].
    replace (Z.to_nat (Z.of_nat (i * Z.to_nat D) + D))
      with (Datatypes.S i * Z.to_nat D)%nat by lia.
    replace (Z.of_nat i + 1) with (Z.of_nat (Datatypes.S i)) by lia.
    rewrite IH; [| lia | rewrite length_insert; lia | exact Hfit].
    rewrite drop_insert_lt by lia.
    rewrite (take_S_r (<[i := x]> result) i x)
      by (apply list_lookup_insert_eq; lia).
    rewrite take_insert_ge by lia.
    cbn [seq fmap list_fmap].
    rewrite (nth_lookup_Some _ _ _ _ Hx).
    rewrite <- app_assoc. cbn [app].
    replace (Datatypes.S i + count)%nat with (i + Datatypes.S count)%nat by lia.
    reflexivity.
Qed.

End ResampleLoops.

Section ResampleCallFacts.
Context {F : Type} `{Real F} `{Transcendental F}.

Lemma FirLowPassFilter_length (g : Generator) (numTaps : Z)
  (cutoffFreqHz samplingFreqHz : F) (filterCoeffs : list F) :
  FirLowPassFilter numTaps cutoffFreqHz samplingFreqHz (generate g)
  = Ok filterCoeffs ->
  numTaps < 2 ^ 64 ->
  2 < numTaps /\ Z.of_nat (length filterCoeffs) = numTaps.
Proof.
  unfold FirLowPassFilter. intros Hf Hfit.
  destruct (Z.ltb_spec 2 numTaps) as [Htaps|]; [| discriminate].
  cbn [negb] in Hf.
  destruct (of_Z 0 <? cutoffFreqHz)%F; [| discriminate].
  destruct (of_Z 0 <? samplingFreqHz)%F; [| discriminate].
  destruct (cutoffFreqHz <=? samplingFreqHz / of_Z 2)%F; [| discriminate].
  cbn [negb] in Hf.
  match type of Hf with
  | context [WindowFunction_apply _ ?ideal ?ideal] =>
      change (apply_window numTaps (generate g) ideal = Ok filterCoeffs) in Hf;
      destruct (apply_window_Ok g numTaps ideal ltac:(lia))
        as (coeffs & _ & Hclen & Happly)
  end.
  { rewrite length_imap, length_replicate. lia. }
  rewrite Happly in Hf. injection Hf as <-.
  split; [exact Htaps|].
  rewrite length_zip_with, length_imap, length_replicate. lia.
Qed.

(** What the constructor leaves in the object. *)
Lemma Resample_new_fields (N U D : Z) (samplingFreqHz maxCutoffFreqHz : F)
  (numFilterTaps : Z) (kaiserWindowBeta : Q) (useFastConvolution : bool)
  (r : Resample (F := F)) :
  Resample_new N U D samplingFreqHz maxCutoffFreqHz numFilterTaps
    kaiserWindowBeta useFastConvolution = Ok r ->
  numFilterTaps < 2 ^ 64 ->
  0 < N /\ 0 < U /\ 0 < D /\ 2 < numFilterTaps
  /\ r_signalLength r = N
  /\ m_upsampleFactor r = U
  /\ m_downsampleFactor r = D
  /\ m_resampledLength r = ComputeResampledSize N U D
  /\ m_workspaceBuffer r
     = replicate (Z.to_nat (ResizeWorkspace N U)) (of_Z 0)
  /\ Z.of_nat (length (m_filterCoeffs (m_filterHolder r))) = numFilterTaps
  /\ FilterHolder_new (Machine.wrap64 (U * N))
       (m_filterCoeffs (m_filterHolder r)) useFastConvolution
     = Ok (m_filterHolder r).
Proof.
  unfold Resample_new. intros Hr Hfit.
  destruct (Z.ltb_spec 0 N) as [HN|]; [| discriminate].
  destruct (Z.ltb_spec 0 U) as [HU|]; [| discriminate].
  destruct (Z.ltb_spec 0 D) as [HD|]; [| discriminate].
  cbn [negb] in Hr.
  apply bind_Ok in Hr as (kaiser & _ & Hr).
  apply bind_Ok in Hr as (coeffs & Hcoeffs & Hr).
  apply bind_Ok in Hr as (holder & Hholder & Hr).
  injection Hr as <-.
  cbn [r_signalLength m_upsampleFactor m_downsampleFactor m_resampledLength
       m_workspaceBuffer m_filterHolder].
  apply FirLowPassFilter_length in Hcoeffs as (Htaps & Hlen); [| exact Hfit].
  assert (Hco : m_filterCoeffs holder = coeffs).
  { unfold FilterHolder_new in Hholder.
    destruct (negb _); [discriminate|].
    destruct (negb _); [discriminate|].
    apply bind_Ok in Hholder as (fc & _ & Hholder).
    injection Hholder as <-. reflexivity. }
  rewrite Hco.
  repeat (split; [first [assumption | reflexivity]|]).
  exact Hholder.
Qed.

End ResampleCallFacts.

Section ResampleCallSpec.
Context {F : Type} `{Real F} `{Transcendental F}.

Lemma fmap_nth_seq (d : F) (l : list F) :
  (fun j => nth j l d) <$> seq 0 (length l) = l.
Proof.
  apply list_eq. intros i. rewrite list_lookup_fmap.
  destruct (decide (i < length l)%nat) as [Hi|Hi].
  - rewrite lookup_seq_lt by exact Hi. cbn [fmap option_fmap option_map Nat.add].
    destruct (lookup_lt_is_Some_2 l i Hi) as [x Hx].
    rewrite Hx. f_equal. apply nth_lookup_Some with (d := d) in Hx. exact Hx.
  - rewrite lookup_seq_ge by lia. rewrite lookup_ge_None_2 by lia. reflexivity.
Qed.

Lemma Resample_agrees_refl (r : Resample (F := F)) : Resample_agrees r r.
Proof. repeat split. Qed.

(** X15.  A call of a [Resample] object, in the state its constructor
    leaves or in any later one, which differs from it in the contents of
    the workspaces only, with [U * N] plus the filter length in the range
    of [int].  A signal of another length than [N] throws and changes
    nothing.  Otherwise the call returns and the object stays such an
    object.  The input of the filter is the signal, or for [1 < U] every
    sample times [U] followed by [U - 1] zeros.  The filter holder is
    left holding the convolution of that input with the filter
    coefficients: the overlap sums on the direct path, what [FftConvolve]
    computes of them on the fast path.  The workspace of the object is
    left holding the convolution without its delay, and the first
    [floor (N * U / D)] places of the result get every [D]-th sample of
    it, the places behind them staying as they were. *)
Theorem X15_Resample_call_keeps_every_Dth_filtered_sample (N U D : Z)
  (samplingFreqHz maxCutoffFreqHz : F) (numFilterTaps : Z)
  (kaiserWindowBeta : Q) (useFastConvolution : bool)
  (r0 r : Resample (F := F)) (signal result : list F) :
  Resample_new N U D samplingFreqHz maxCutoffFreqHz numFilterTaps
    kaiserWindowBeta useFastConvolution = Ok r0 ->
  Resample_agrees r0 r ->
  U * N + numFilterTaps - 1 <= Machine.INT_MAX ->
  let filterCoeffs := m_filterCoeffs (m_filterHolder r0) in
  let delay := ((length filterCoeffs - 1) / 2)%nat in
  let input := if 1 <? U then stuffed U signal else signal in
  let kept := Z.to_nat (N * U / D) in
  let filtered :=
    if useFastConvolution
    then fft_convolution
           (length (m_workspace1 (m_fftConvolve (m_filterHolder r0))))
           (length input + length filterCoeffs - 1) input filterCoeffs
    else direct_convolution input filterCoeffs in
  let buffer := take (length input) (drop delay filtered) in
  Resample_agrees r0 r0
  /\ (Z.of_nat (length signal) <> N ->
      Resample_call r signal result
      = (Throw "sample length is incorrect", (r, result)))
  /\ (Z.of_nat (length signal) = N ->
      (kept <= length result)%nat ->
      exists r' : Resample (F := F),
        Resample_agrees r0 r'
        /\ m_filteredSignal (m_filterHolder r') = filtered
        /\ Z.of_nat (length filtered) = U * N + numFilterTaps - 1
        /\ m_workspaceBuffer r' = buffer
        /\ Resample_call r signal result
           = (Done,
              (r',
               ((fun i => nth (i * Z.to_nat D) buffer (of_Z 0))
                <$> seq 0 kept)
               ++ drop kept result))).
Proof.
  intros Hr Hagree Hfit filterCoeffs delay input kept filtered buffer.
  unfold Machine.INT_MAX in Hfit.
  assert (Htaps64 : numFilterTaps < 2 ^ 64) by
    (destruct (Z.ltb_spec 0 N), (Z.ltb_spec 0 U);
     unfold Resample_new in Hr;
     first [ discriminate
           | destruct (Z.ltb_spec 0 N), (Z.ltb_spec 0 U); try discriminate; nia ]).
  destruct (Resample_new_fields N U D samplingFreqHz maxCutoffFreqHz
              numFilterTaps kaiserWindowBeta useFastConvolution r0 Hr Htaps64)
    as (HN & HU & HD & Htaps & HrN & HrU & HrD & HrL & Hws & Hclen & Hholder).
  destruct Hagree as (AN & AU & AD & AL & Aholder & Aws).
  rewrite <- AN in HrN. rewrite <- AU in HrU. rewrite <- AD in HrD.
  rewrite <- AL in HrL.
  assert (HUN : 0 < U * N) by nia.
  rewrite wrap64_small in Hholder by lia.
  rewrite ComputeResampledSize_floor in HrL by lia.
  fold filterCoeffs in Hclen, Hholder.
  assert (Hwslen : length (m_workspaceBuffer r)
                   = Z.to_nat (ResizeWorkspace N U))
    by (rewrite Aws, Hws, length_replicate; reflexivity).
  assert (Hdelay : (delay <= length filterCoeffs - 1)%nat)
    by (apply Nat.Div0.div_le_upper_bound; lia).
  subst delay.
  split; [apply Resample_agrees_refl|].
  split.
  - intros Hlen. unfold Resample_call. rewrite HrN.
    destruct (Z.eqb_spec (Z.of_nat (length signal)) N) as [|_]; [lia|].
    reflexivity.
  - intros Hlen Hroom.
    assert (Hkept : (kept * Z.to_nat D <= Z.to_nat (U * N))%nat).
    { unfold kept. rewrite <- Z2Nat.inj_mul by (try apply Z.div_pos; lia).
      apply Z2Nat.inj_le; [apply Z.mul_nonneg_nonneg;
                           [apply Z.div_pos|]; lia | lia |].
      rewrite (Z.mul_comm U N), Z.mul_comm.
      apply Z.mul_div_le. lia. }
    assert (Hagrees' : forall h' ws,
              FilterHolder_agrees (m_filterHolder r0) h' ->
              length ws = length (m_workspaceBuffer r) ->
              Resample_agrees r0 (set_resample r h' ws)).
    { intros h' ws Hh' Hwsl. unfold Resample_agrees.
      cbn [set_resample r_signalLength m_upsampleFactor m_downsampleFactor
           m_resampledLength m_filterHolder m_workspaceBuffer].
      repeat split; try assumption; try apply Hh'.
      rewrite Hwsl. exact Aws. }
    unfold Resample_call. rewrite HrN, HrU. clear HrN HrU.
    destruct (Z.eqb_spec (Z.of_nat (length signal)) N) as [_|]; [| lia].
    cbn [negb]. subst buffer filtered input.
    destruct (Z.ltb_spec 1 U) as [HU1|HU1].
    + (* upsampling *)
      rewrite Hwslen. unfold ResizeWorkspace in *.
      destruct (Z.ltb_spec 1 U) as [_|]; [| lia].
      rewrite wrap64_small in * by lia.
      assert (HUNnat : Z.to_nat (U * N) = (Z.to_nat U * length signal)%nat)
        by (rewrite <- Hlen, Z2Nat.inj_mul, Nat2Z.id by lia; reflexivity).
      rewrite HUNnat in *.
      pose proof (upsample_loop_spec U signal [] ltac:(nia)
                    ltac:(cbn [length]; nia)) as Hup.
      cbn [length app] in Hup. rewrite Hup. cbn [step].
      assert (Hslen : length (stuffed U signal)
                      = (Z.to_nat U * length signal)%nat)
        by (apply length_stuffed; lia).
      destruct (FilterHolder_call_spec (U * N) filterCoeffs
                  useFastConvolution (m_filterHolder r0) (m_filterHolder r)
                  (stuffed U signal) (stuffed U signal) Hholder Aholder
                  ltac:(rewrite Hslen; lia)
                  ltac:(unfold Machine.INT_MAX; lia))
        as (h' & Hagree' & Hcontent & Hflen & _ & Hcall).
      cbv zeta in Hcontent, Hflen, Hcall.
      rewrite (Hcall ltac:(lia)). rewrite drop_all, app_nil_r.
      set (filtered := if useFastConvolution then _ else _) in *.
      set (buffer := take (length (stuffed U signal)) (drop _ filtered)).
      assert (Hblen : length buffer = (Z.to_nat U * length signal)%nat).
      { unfold buffer. rewrite length_take, length_drop, Hflen, Hslen. lia. }
      cbn [m_downsampleFactor m_resampledLength set_resample].
      exists (set_resample r h' buffer).
      split; [apply Hagrees'; [exact Hagree' | rewrite Hblen, Hwslen; reflexivity]|].
      split; [exact Hcontent|].
      split; [rewrite Hflen, Hslen; lia|].
      split; [reflexivity|].
      rewrite HrD, HrL. clear HrD HrL.
      destruct (Z.ltb_spec 1 D) as [HD1|HD1].
      * pose proof (downsample_loop_spec true D buffer kept 0 result
                      ltac:(lia) ltac:(cbn [Nat.add]; lia)
                      ltac:(cbn [Nat.add]; lia) ltac:(lia)) as Hdown.
        cbn [Nat.add Nat.mul take app] in Hdown.
        change (Z.of_nat 0) with 0 in Hdown.
        fold kept. rewrite Hdown. reflexivity.
      * assert (D = 1) by lia. subst D.
        assert (Hk : kept = length buffer).
        { unfold kept. rewrite Z.div_1_r, Hblen, <- HUNnat. f_equal. lia. }
        unfold write_at. cbn [Nat.add].
        destruct (decide (length buffer <= length result)%nat) as [_|]; [| lia].
        cbn [lift step take app]. rewrite Hk.
        change (Z.to_nat 1) with 1%nat.
        replace ((fun i => nth (i * 1) buffer (of_Z 0)) <$> seq 0 (length buffer))
          with buffer; [reflexivity|].
        transitivity ((fun j => nth j buffer (of_Z 0)) <$> seq 0 (length buffer));
          [symmetry; apply fmap_nth_seq|].
        apply list_fmap_ext. intros _ j _.
        rewrite Nat.mul_1_r. reflexivity.
    + (* no upsampling *)
      assert (U = 1) by lia. subst U.
      rewrite Z.mul_1_l in *.
      unfold ResizeWorkspace in *.
      change (1 <? 1) with false in *. cbn match in *.
      destruct (FilterHolder_call_spec N filterCoeffs
                  useFastConvolution (m_filterHolder r0) (m_filterHolder r)
                  signal (m_workspaceBuffer r) Hholder Aholder Hlen
                  ltac:(unfold Machine.INT_MAX; lia))
        as (h' & Hagree' & Hcontent & Hflen & _ & Hcall).
      cbv zeta in Hcontent, Hflen, Hcall.
      rewrite (Hcall ltac:(lia)).
      rewrite (drop_ge (m_workspaceBuffer r)), app_nil_r by lia.
      set (filtered := if useFastConvolution then _ else _) in *.
      set (buffer := take (length signal) (drop _ filtered)).
      assert (Hblen : length buffer = length signal).
      { unfold buffer. rewrite length_take, length_drop, Hflen. lia. }
      cbn [m_downsampleFactor m_resampledLength set_resample].
      exists (set_resample r h' buffer).
      split; [apply Hagrees'; [exact Hagree' | lia]|].
      split; [exact Hcontent|].
      split; [rewrite Hflen; lia|].
      split; [reflexivity|].
      rewrite HrD, HrL. rewrite Z.mul_1_r.
      unfold kept in *. rewrite Z.mul_1_r in *.
      pose proof (downsample_loop_spec false D buffer (Z.to_nat (N / D)) 0
                    result ltac:(lia) ltac:(cbn [Nat.add]; lia)
                    ltac:(cbn [Nat.add]; lia) ltac:(lia)) as Hdown.
      cbn [Nat.add Nat.mul take app] in Hdown.
      change (Z.of_nat 0) with 0 in Hdown.
      rewrite Hdown. reflexivity.
Qed.

End ResampleCallSpec.

Lemma X15_Resample_call_keeps_every_Dth_filtered_sample_witness :
  (exists r0 r1 : Resample (F := Q),
     Resample_new (F := Q) 3 2 3 100%Q 50%Q 3 10%Q false = Ok r0
     /\ Resample_agrees r0 r0
     /\ 2 * 3 + 3 - 1 <= Machine.INT_MAX
     /\ Resample_agrees r0 r1
     /\ fst (snd (Resample_call r0 [1; 2; 3]%Q [9; 9; 9]%Q)) = r1
     /\ fst (Resample_call r0 [1; 2; 3]%Q [9; 9; 9]%Q) = Done
     /\ fst (Resample_call r1 [1; 2; 3]%Q [9; 9; 9]%Q) = Done
     /\ Resample_call r1 [1; 2]%Q [9; 9; 9]%Q
        = (Throw "sample length is incorrect", (r1, [9; 9; 9]%Q)))
  /\ (exists f0 f1 : Resample (F := Q),
        Resample_new (F := Q) 3 2 3 100%Q 50%Q 3 10%Q true = Ok f0
        /\ Resample_agrees f0 f1
        /\ fst (snd (Resample_call f0 [1; 2; 3]%Q [9; 9; 9]%Q)) = f1
        /\ fst (Resample_call f0 [1; 2; 3]%Q [9; 9; 9]%Q) = Done
        /\ fst (Resample_call f1 [1; 2; 3]%Q [9; 9; 9]%Q) = Done).
Proof.
  split; cycle 1.
  { destruct (Resample_new (F := Q) 3 2 3 100%Q 50%Q 3 10%Q true)
      as [f0| | |] eqn:Hr; try (vm_compute in Hr; discriminate Hr).
    assert (Hint : 2 * 3 + 3 - 1 <= Machine.INT_MAX)
      by (unfold Machine.INT_MAX; lia).
    pose proof (X15_Resample_call_keeps_every_Dth_filtered_sample
                  (F := Q) 3 2 3 100%Q 50%Q 3 10%Q true f0 f0
                  [1; 2; 3]%Q [9; 9; 9]%Q Hr (Resample_agrees_refl f0) Hint)
      as Hfirst.
    cbv zeta in Hfirst. destruct Hfirst as (_ & _ & Hcall).
    destruct (Hcall ltac:(reflexivity) ltac:(vm_compute; lia))
      as (f1 & Hagree & _ & _ & _ & Hc).
    pose proof (X15_Resample_call_keeps_every_Dth_filtered_sample
                  (F := Q) 3 2 3 100%Q 50%Q 3 10%Q true f0 f1
                  [1; 2; 3]%Q [9; 9; 9]%Q Hr Hagree Hint) as Hsecond.
    cbv zeta in Hsecond. destruct Hsecond as (_ & _ & Hcall2).
    destruct (Hcall2 ltac:(reflexivity) ltac:(vm_compute; lia))
      as (f2 & _ & _ & _ & _ & Hc2).
    exists f0, f1. split; [reflexivity|]. split; [exact Hagree|].
    split; [rewrite Hc; reflexivity|].
    split; [rewrite Hc; reflexivity|].
    rewrite Hc2. reflexivity. }
  destruct (Resample_new (F := Q) 3 2 3 100%Q 50%Q 3 10%Q false)
    as [r0| | |] eqn:Hr; try (vm_compute in Hr; discriminate Hr).
  assert (Hint : 2 * 3 + 3 - 1 <= Machine.INT_MAX)
    by (unfold Machine.INT_MAX; lia).
  pose proof (X15_Resample_call_keeps_every_Dth_filtered_sample
                (F := Q) 3 2 3 100%Q 50%Q 3 10%Q false r0 r0
                [1; 2; 3]%Q [9; 9; 9]%Q Hr (Resample_agrees_refl r0) Hint)
    as Hfirst.
  cbv zeta in Hfirst. destruct Hfirst as (Hrefl & _ & Hcall).
  destruct (Hcall ltac:(reflexivity) ltac:(vm_compute; lia))
    as (r1 & Hagree & _ & _ & _ & Hc).
  pose proof (X15_Resample_call_keeps_every_Dth_filtered_sample
                (F := Q) 3 2 3 100%Q 50%Q 3 10%Q false r0 r1
                [1; 2; 3]%Q [9; 9; 9]%Q Hr Hagree Hint) as Hsecond.
  pose proof (X15_Resample_call_keeps_every_Dth_filtered_sample
                (F := Q) 3 2 3 100%Q 50%Q 3 10%Q false r0 r1
                [1; 2]%Q [9; 9; 9]%Q Hr Hagree Hint) as Hshort.
  cbv zeta in Hsecond, Hshort.
  destruct Hsecond as (_ & _ & Hcall2). destruct Hshort as (_ & Hthrow & _).
  destruct (Hcall2 ltac:(reflexivity) ltac:(vm_compute; lia))
    as (r2 & _ & _ & _ & _ & Hc2).
  exists r0, r1. split; [reflexivity|]. split; [exact Hrefl|].
  split; [exact Hint|]. split; [exact Hagree|].
  split; [rewrite Hc; reflexivity|].
  split; [rewrite Hc; reflexivity|].
  split; [rewrite Hc2; reflexivity|].
  apply Hthrow. cbn. lia.
Defined.

(** ** FftConvolve::operator() *)

Section FftConvolveCall.
Context {F : Type} `{Real F} `{Transcendental F}.

(** X16: a call of a constructed [FftConvolve].  With [W] the size of the
    workspaces, a signal or a kernel of more than [W] samples throws and
    changes nothing; any shorter ones are accepted, whatever lengths the
    object was built for.  The call then transforms the two inputs, each
    padded with zeros to [W] samples, multiplies the spectra bin by bin,
    inverts the product and writes the real parts of its first [M+N-1]
    samples to [result], leaving the places behind them as they were; a
    [result] with less room is undefined behaviour.  The object keeps
    workspaces of [W] samples. *)
Theorem X16_FftConvolve_call_multiplies_the_spectra (M N : Z)
  (fc : FftConvolve (F := F)) (signal kernel result : list F) :
  FftConvolve_new M N = Ok fc ->
  M + N - 1 < 2 ^ 30 ->
  let W := length (m_workspace1 fc) in
  let L := Z.to_nat (M + N - 1) in
  let padded (input : list F) :=
    (convertToComplex <$> input) ++ replicate (W - length input) czero in
  ((W < length signal)%nat ->
   FftConvolve_call fc signal kernel result
   = (Throw "signal length is incorrect", (fc, result)))
  /\ ((length signal <= W)%nat -> (W < length kernel)%nat ->
      FftConvolve_call fc signal kernel result
      = (Throw "kernel length is incorrect", (fc, result)))
  /\ ((length signal <= W)%nat -> (length kernel <= W)%nat ->
      exists s k p : list (complex F),
        Forward (padded signal) = (Done, s)
        /\ Forward (padded kernel) = (Done, k)
        /\ Inverse (zip_with crossMultiply s k) = (Done, p)
        /\ length k = W /\ length p = W
        /\ ((L <= length result)%nat ->
            FftConvolve_call fc signal kernel result
            = (Done,
               ({| m_discreteConvolutionLength := M + N - 1;
                   m_workspace1 := p;
                   m_workspace2 := k |},
                (real <$> take L p) ++ drop L result)))
        /\ ((length result < L)%nat ->
            fst (FftConvolve_call fc signal kernel result) = UB)).
Proof.
  intros Hfc Hfit W L pad.
  destruct (FftConvolve_new_inv M N fc Hfc ltac:(lia))
    as (HM & HN & HL & Hw1 & Hw2).
  pose proof (Z.log2_nonneg (M + N - 1)) as Hlog0.
  assert (Hlog : Z.log2 (M + N - 1) < 30) by (apply Z.log2_lt_pow2; lia).
  pose proof (Z.log2_spec (M + N - 1) ltac:(lia)) as [_ Hhi].
  replace (Z.succ (Z.log2 (M + N - 1))) with (Z.log2 (M + N - 1) + 1) in Hhi
    by lia.
  assert (Hpow : 0 < 2 ^ (Z.log2 (M + N - 1) + 1) <= 2 ^ 30).
  { split; [apply Z.pow_pos_nonneg; lia | apply Z.pow_le_mono_r; lia]. }
  assert (HW : Z.of_nat W = 2 ^ (Z.log2 (M + N - 1) + 1)).
  { unfold W. rewrite Hw1, length_replicate. lia. }
  assert (H12 : length (m_workspace2 fc) = W).
  { unfold W. rewrite Hw1, Hw2, !length_replicate. reflexivity. }
  split; [| split].
  - intros Hlong. unfold FftConvolve_call. fold W.
    destruct (Z.leb_spec (Z.of_nat (length signal)) (Z.of_nat W)) as [|_];
      [lia | reflexivity].
  - intros Hs Hlong. unfold FftConvolve_call. fold W. rewrite H12.
    destruct (Z.leb_spec (Z.of_nat (length signal)) (Z.of_nat W)) as [_|];
      [| lia].
    destruct (Z.leb_spec (Z.of_nat (length kernel)) (Z.of_nat W)) as [|_];
      [lia | reflexivity].
  - intros Hs Hk.
    assert (Hp : is_pow2 (Z.of_nat W)).
    { rewrite HW. exists (Z.log2 (M + N - 1) + 1).
      split; [lia | reflexivity]. }
    assert (Htwo : 2 <= 2 ^ (Z.log2 (M + N - 1) + 1)).
    { change 2 with (2 ^ 1) at 1. apply Z.pow_le_mono_r; lia. }
    pose proof (FftConvolve_call_spec fc signal kernel result) as Hspec.
    cbn zeta in Hspec. fold W in Hspec. rewrite HL in Hspec. fold L in Hspec.
    destruct (Hspec Hp ltac:(lia) H12 ltac:(lia) ltac:(lia) Hs Hk)
      as (s & k & p & Hfs & Hfk & Hinv & _ & Hrest).
    exists s, k, p.
    split; [exact Hfs|]. split; [exact Hfk|]. split; [exact Hinv|].
    exact Hrest.
Qed.

End FftConvolveCall.

Lemma X16_FftConvolve_call_multiplies_the_spectra_witness :
  exists fc : FftConvolve (F := Q),
    FftConvolve_new 2 2 = Ok fc
    /\ 2 + 2 - 1 < 2 ^ 30
    /\ length (m_workspace1 fc) = 4%nat
    /\ FftConvolve_call fc [1; 2; 3; 4; 5]%Q [1; 1]%Q [9; 9; 9]%Q
       = (Throw "signal length is incorrect", (fc, [9; 9; 9]%Q))
    /\ fst (FftConvolve_call fc [1; 2]%Q [1; 1]%Q [9; 9; 9; 9]%Q) = Done
    /\ fst (FftConvolve_call fc [1; 2]%Q [1; 1]%Q [9; 9]%Q) = UB.
Proof.
  eexists. split; [vm_compute; reflexivity|].
  split; [lia|]. split; [reflexivity|].
  match goal with
  | |- context [FftConvolve_call ?fc] =>
      assert (Hfc : FftConvolve_new (F := Q) 2 2 = Ok fc)
        by (vm_compute; reflexivity);
      pose proof (X16_FftConvolve_call_multiplies_the_spectra (F := Q) 2 2 fc
                    [1; 2; 3; 4; 5]%Q [1; 1]%Q [9; 9; 9]%Q Hfc ltac:(lia))
        as Hlong;
      pose proof (X16_FftConvolve_call_multiplies_the_spectra (F := Q) 2 2 fc
                    [1; 2]%Q [1; 1]%Q [9; 9; 9; 9]%Q Hfc ltac:(lia))
        as Hroom;
      pose proof (X16_FftConvolve_call_multiplies_the_spectra (F := Q) 2 2 fc
                    [1; 2]%Q [1; 1]%Q [9; 9]%Q Hfc ltac:(lia))
        as Hshort
  end.
  cbn zeta in Hlong, Hroom, Hshort.
  destruct Hlong as (Hthrow & _).
  destruct Hroom as (_ & _ & Hroom). destruct Hshort as (_ & _ & Hshort).
  split; [apply Hthrow; cbn; lia|].
  split.
  - destruct (Hroom ltac:(cbn; lia) ltac:(cbn; lia))
      as (s & k & p & _ & _ & _ & _ & _ & Hc & _).
    rewrite (Hc ltac:(cbn; lia)). reflexivity.
  - destruct (Hshort ltac:(cbn; lia) ltac:(cbn; lia))
      as (s & k & p & _ & _ & _ & _ & _ & _ & Hub).
    apply Hub. cbn. lia.
Defined.

(** ** ComplexFFT::Inverse *)

Section InverseCall.
Context {F : Type} `{Real F} `{Transcendental F}.

(** X17.  [Inverse] accepts exactly the lengths that [Forward] accepts.
    On a power-of-two length [N] from [2] to [2^31] it returns [N] bins:
    with [y] the forward transform of the input with the imaginary parts
    negated, bin [i] holds the real part of [y[i]] over [N] and the
    negated imaginary part of [y[i]] over [N].  On a length that is no
    power of two, the empty vector included, it throws and leaves the
    vector as it was.  On one sample both [Inverse] and [Forward] are
    undefined: the test lets the length pass and the transform shifts by
    the width of its index type. *)
Theorem X17_Inverse_is_Forward_between_conjugations
  (cplxFft : list (complex F)) :
  let N := length cplxFft in
  (is_pow2 (Z.of_nat N) ->
   2 <= Z.of_nat N < 2 ^ 32 ->
   exists y : list (complex F),
     Forward ((fun z => Cplx (real z) (imag z * of_Z (-1))%F) <$> cplxFft)
     = (Done, y)
     /\ length y = N
     /\ Inverse cplxFft
        = (Done,
           (fun z => Cplx (real z / of_nat N)%F
                       (imag z * of_Z (-1) / of_nat N)%F) <$> y))
  /\ (~ is_pow2 (Z.of_nat N) ->
      Inverse cplxFft = (Throw "FFT size not a power of 2", cplxFft)
      /\ Forward cplxFft = (Throw "FFT size not a power of 2", cplxFft))
  /\ (N = 1%nat ->
      Inverse cplxFft = (UB, cplxFft) /\ Forward cplxFft = (UB, cplxFft)).
Proof.
  intros N. split; [| split].
  - intros Hp Hrange.
    destruct (proj1 (Inverse_by_Forward cplxFft) Hp Hrange)
      as (y & Hy & Hinv).
    exists y. split; [exact Hy|].
    destruct (Forward_pow2 (conjugate cplxFft)) as (y' & Hy' & Hlen).
    { unfold conjugate. rewrite length_fmap. exact Hp. }
    { unfold conjugate. rewrite length_fmap. exact Hrange. }
    rewrite Hy in Hy'. injection Hy' as <-.
    unfold conjugate in Hlen. rewrite length_fmap in Hlen.
    split; [exact Hlen|].
    rewrite Hinv. unfold Normalise, conjugate.
    rewrite length_fmap, Hlen, <- list_fmap_compose. reflexivity.
  - intros Hp.
    split; [exact (proj1 (proj2 (Inverse_by_Forward cplxFft)) Hp)|].
    apply Forward_not_pow2. exact Hp.
  - intros Hone.
    split; [exact (proj2 (proj2 (Inverse_by_Forward cplxFft)) Hone)|].
    destruct cplxFft as [|z [|z' rest]]; try discriminate Hone.
    reflexivity.
Qed.

End InverseCall.

Lemma X17_Inverse_is_Forward_between_conjugations_witness :
  is_pow2 (Z.of_nat (length [Cplx 1 2; Cplx 3 4]%Q))
  /\ 2 <= Z.of_nat (length [Cplx 1 2; Cplx 3 4]%Q) < 2 ^ 32
  /\ fst (Inverse [Cplx 1 2; Cplx 3 4]%Q) = Done
  /\ ~ is_pow2 (Z.of_nat (length [Cplx 1 2; Cplx 3 4; Cplx 5 6]%Q))
  /\ fst (Inverse [Cplx 1 2; Cplx 3 4; Cplx 5 6]%Q)
     = Throw "FFT size not a power of 2"
  /\ fst (Inverse [Cplx 1 2]%Q) = UB.
Proof.
  assert (Htwo : is_pow2 (Z.of_nat (length [Cplx 1 2; Cplx 3 4]%Q)))
    by (exists 1; split; [lia | reflexivity]).
  assert (Hrange : 2 <= Z.of_nat (length [Cplx 1 2; Cplx 3 4]%Q) < 2 ^ 32)
    by (cbn; lia).
  assert (Hthree : ~ is_pow2 (Z.of_nat (length [Cplx 1 2; Cplx 3 4; Cplx 5 6]%Q))).
  { intros Hp. apply IsPowerOf2_spec in Hp. vm_compute in Hp. discriminate. }
  split; [exact Htwo|]. split; [exact Hrange|].
  pose proof (X17_Inverse_is_Forward_between_conjugations (F := Q)
                [Cplx 1 2; Cplx 3 4]%Q) as Hpow.
  pose proof (X17_Inverse_is_Forward_between_conjugations (F := Q)
                [Cplx 1 2; Cplx 3 4; Cplx 5 6]%Q) as Hnot.
  pose proof (X17_Inverse_is_Forward_between_conjugations (F := Q)
                [Cplx 1 2]%Q) as Hone.
  cbn zeta in Hpow, Hnot, Hone.
  split.
  - destruct (proj1 Hpow Htwo Hrange) as (y & _ & _ & Hinv).
    rewrite Hinv. reflexivity.
  - split; [exact Hthree|]. split.
    + rewrite (proj1 (proj1 (proj2 Hnot) Hthree)). reflexivity.
    + rewrite (proj1 (proj2 (proj2 Hone) eq_refl)). reflexivity.
Defined.

(** ** Forward: how the call ends *)

Section ForwardCall.
Context {F : Type} `{Real F} `{Transcendental F}.

(** X26.  [Forward] throws "FFT size not a power of 2" exactly when the
    length of its vector is no power of two, the empty vector included,
    and the vector is then as it was.  On a power-of-two length from [2]
    to [2^31] it returns, with a vector of the same length.  On the two
    other kinds of power-of-two length it is undefined and nothing is
    written: one sample, where the reordering shifts a [uint32_t] by 32,
    and [2^32] or more, where the size read into a [uint32_t] is [0]. *)
Theorem X26_Forward_ends_by_the_length_of_its_vector
  (data : list (complex F)) :
  let N := Z.of_nat (length data) in
  (fst (Forward data) = Throw "FFT size not a power of 2" <-> ~ is_pow2 N)
  /\ (~ is_pow2 N ->
      Forward data = (Throw "FFT size not a power of 2", data))
  /\ (N = 0 -> Forward data = (Throw "FFT size not a power of 2", data))
  /\ (is_pow2 N -> 2 <= N < 2 ^ 32 ->
      exists data', Forward data = (Done, data') /\ length data' = length data)
  /\ (is_pow2 N -> N = 1 \/ 2 ^ 32 <= N -> Forward data = (UB, data)).
Proof.
  intros N. split; [| split; [| split; [| split]]].
  - split.
    + intros Hthrow Hp.
      destruct (Forward_pow2_cases data Hp)
        as [(_ & d & Hd & _) | (_ & Hub)];
        [rewrite Hd in Hthrow | rewrite Hub in Hthrow]; discriminate Hthrow.
    + intros Hp. rewrite (Forward_not_pow2 data Hp). reflexivity.
  - apply Forward_not_pow2.
  - intros Hzero. apply Forward_not_pow2. fold N. rewrite Hzero.
    exact not_pow2_0.
  - intros Hp Hrange. apply Forward_pow2; assumption.
  - intros Hp Hout.
    destruct (Forward_pow2_cases data Hp) as [(Hrange & _) | (_ & Hub)];
      [fold N in Hrange; lia | exact Hub].
Qed.

End ForwardCall.

Lemma X26_Forward_ends_by_the_length_of_its_vector_witness :
  ~ is_pow2 (Z.of_nat (length [Cplx 1 2; Cplx 3 4; Cplx 5 6]%Q))
  /\ Forward [Cplx 1 2; Cplx 3 4; Cplx 5 6]%Q
     = (Throw "FFT size not a power of 2", [Cplx 1 2; Cplx 3 4; Cplx 5 6]%Q)
  /\ Forward ([] : list (complex Q)) = (Throw "FFT size not a power of 2", [])
  /\ is_pow2 (Z.of_nat (length [Cplx 1 2; Cplx 3 4]%Q))
  /\ 2 <= Z.of_nat (length [Cplx 1 2; Cplx 3 4]%Q) < 2 ^ 32
  /\ (exists data', Forward [Cplx 1 2; Cplx 3 4]%Q = (Done, data')
                    /\ length data' = 2%nat)
  /\ is_pow2 (Z.of_nat (length [Cplx 1 2]%Q))
  /\ Forward [Cplx 1 2]%Q = (UB, [Cplx 1 2]%Q).
Proof.
  assert (Hthree : ~ is_pow2 (Z.of_nat (length [Cplx 1 2; Cplx 3 4; Cplx 5 6]%Q))).
  { intros Hp. apply IsPowerOf2_spec in Hp. vm_compute in Hp. discriminate. }
  assert (Htwo : is_pow2 (Z.of_nat (length [Cplx 1 2; Cplx 3 4]%Q)))
    by (exists 1; split; [lia | reflexivity]).
  assert (Hrange : 2 <= Z.of_nat (length [Cplx 1 2; Cplx 3 4]%Q) < 2 ^ 32)
    by (cbn; lia).
  assert (Hone : is_pow2 (Z.of_nat (length [Cplx 1 2]%Q)))
    by (exists 0; split; [lia | reflexivity]).
  split; [exact Hthree|].
  split.
  { exact (proj1 (proj2 (X26_Forward_ends_by_the_length_of_its_vector (F := Q)
                           [Cplx 1 2; Cplx 3 4; Cplx 5 6]%Q)) Hthree). }
  split.
  { exact (proj1 (proj2 (proj2 (X26_Forward_ends_by_the_length_of_its_vector
                                  (F := Q) []))) eq_refl). }
  split; [exact Htwo|]. split; [exact Hrange|].
  split.
  { exact (proj1 (proj2 (proj2 (proj2
             (X26_Forward_ends_by_the_length_of_its_vector (F := Q)
                [Cplx 1 2; Cplx 3 4]%Q)))) Htwo Hrange). }
  split; [exact Hone|].
  exact (proj2 (proj2 (proj2 (proj2
           (X26_Forward_ends_by_the_length_of_its_vector (F := Q)
              [Cplx 1 2]%Q)))) Hone (or_introl eq_refl)).
Defined.

(** ** FloatToInt *)

Lemma Qfloor_plus_half (z : Z) : Qfloor (inject_Z z + 0.5) = z.
Proof.
  apply Qfloor_unique.
  - unfold Qle, inject_Z. simpl. lia.
  - unfold Qlt, inject_Z. simpl. lia.
Qed.

Lemma Qceiling_minus_half (z : Z) : Qceiling (inject_Z z - 0.5) = z.
Proof.
  unfold Qceiling.
  assert (Hfl : Qfloor (- (inject_Z z - 0.5)) = - z); [| lia].
  apply Qfloor_unique.
  - unfold Qle, inject_Z. simpl. lia.
  - unfold Qlt, inject_Z. simpl. lia.
Qed.

(** X18.  [FloatToInt] drops the fraction of its argument: a value that is
    not negative gives the integer below it, a negative value gives the
    integer above it.  The conversion is undefined when that integer is
    not a value of the integer type.  The argument is below [2^52] in
    size, where adding or subtracting one half is exact. *)
Theorem X18_FloatToInt_drops_the_fraction (lo hi : Z) (value : Q) :
  (- inject_Z (2 ^ 52) < value /\ value < inject_Z (2 ^ 52))%Q ->
  let towards_zero :=
    if Qle_bool 0 value then Qfloor value else Qceiling value in
  FloatToInt lo hi value
  = (if (lo <=? towards_zero) && (towards_zero <=? hi)
     then Ok towards_zero else UB)
  /\ ((0 <= value)%Q ->
      0 <= towards_zero
      /\ (inject_Z towards_zero <= value < inject_Z (towards_zero + 1))%Q)
  /\ ((value < 0)%Q ->
      towards_zero <= 0
      /\ (inject_Z (towards_zero - 1) < value <= inject_Z towards_zero)%Q).
Proof.
  intros _ towards_zero. subst towards_zero.
  unfold FloatToInt, Double.ltb, Double.floor, Double.ceil, to_integer.
  destruct (Qle_bool 0 value) eqn:Hsign; cbn [negb].
  - apply Qle_bool_iff in Hsign.
    assert (Hfl : 0 <= Qfloor value).
    { change 0 with (Qfloor 0). apply Qfloor_resp_le. exact Hsign. }
    assert (Hle : Qle_bool 0 (inject_Z (Qfloor value) + 0.5) = true)
      by (apply Qle_bool_iff; unfold Qle, inject_Z; simpl; lia).
    rewrite Hle, Qfloor_plus_half.
    split; [destruct (_ && _); reflexivity|].
    split.
    + intros _. split; [exact Hfl|].
      split; [apply Qfloor_le | apply Qlt_floor].
    + intros Hneg. exfalso. exact (Qlt_irrefl 0 (Qle_lt_trans _ _ _ Hsign Hneg)).
  - assert (Hneg : (value < 0)%Q).
    { apply Qnot_le_lt. intros Hle. apply Qle_bool_iff in Hle. congruence. }
    assert (Hce : Qceiling value <= 0).
    { change 0 with (Qceiling 0). apply Qceiling_resp_le.
      apply Qlt_le_weak. exact Hneg. }
    assert (Hle : Qle_bool 0 (inject_Z (Qceiling value) - 0.5) = false).
    { destruct (Qle_bool 0 (inject_Z (Qceiling value) - 0.5)) eqn:Hb;
        [| reflexivity].
      apply Qle_bool_iff in Hb. unfold Qle, inject_Z in Hb. simpl in Hb. lia. }
    rewrite Hle, Qceiling_minus_half.
    split; [destruct (_ && _); reflexivity|].
    split.
    + intros Hpos. exfalso. exact (Qlt_irrefl 0 (Qle_lt_trans _ _ _ Hpos Hneg)).
    + intros _. split; [exact Hce|].
      split; [apply Qceiling_lt | apply Qle_ceiling].
Qed.

Lemma X18_FloatToInt_drops_the_fraction_witness :
  (- inject_Z (2 ^ 52) < - (3 # 2) /\ - (3 # 2) < inject_Z (2 ^ 52))%Q
  /\ FloatToInt (- 2 ^ 31) (2 ^ 31 - 1) (- (3 # 2)) = Ok (-1)
  /\ FloatToInt 0 (2 ^ 64 - 1) (- (3 # 2)) = UB.
Proof.
  assert (Hin : (- inject_Z (2 ^ 52) < - (3 # 2)
                 /\ - (3 # 2) < inject_Z (2 ^ 52))%Q)
    by (split; reflexivity).
  split; [exact Hin|].
  split.
  - exact (proj1 (X18_FloatToInt_drops_the_fraction (- 2 ^ 31) (2 ^ 31 - 1)
                    (- (3 # 2)) Hin)).
  - exact (proj1 (X18_FloatToInt_drops_the_fraction 0 (2 ^ 64 - 1)
                    (- (3 # 2)) Hin)).
Defined.

(** ** ResampleRange *)

Lemma FloatToInt_integral (x : Q) (n : Z) :
  (x == inject_Z n)%Q -> 0 <= n < 2 ^ 64 ->
  FloatToInt 0 (2 ^ 64 - 1) x = Ok n.
Proof.
  intros Hx Hn. unfold FloatToInt, Double.ltb, Double.floor, to_integer.
  assert (Hsign : Qle_bool 0 x = true).
  { apply Qle_bool_iff. rewrite Hx. unfold Qle, inject_Z. simpl. lia. }
  rewrite Hsign. cbn [negb].
  rewrite (Qfloor_comp x (inject_Z n) Hx), Qfloor_Z.
  assert (Hle : Qle_bool 0 (inject_Z n + 0.5) = true)
    by (apply Qle_bool_iff; unfold Qle, inject_Z; simpl; lia).
  rewrite Hle.
  assert (Hfl : Qfloor (inject_Z n + 0.5) = n).
  { apply Qfloor_unique.
    - unfold Qle, inject_Z. simpl. lia.
    - unfold Qlt, inject_Z. simpl. lia. }
  rewrite Hfl.
  destruct (Z.leb_spec 0 n); [| lia].
  destruct (Z.leb_spec n (2 ^ 64 - 1)); [reflexivity | lia].
Qed.

Lemma Qred_zero (x : Q) : (x == 0)%Q -> Qred x = 0%Q.
Proof. intros Hx. exact (Qred_complete x 0 Hx). Qed.

Lemma to_ptrdiff_small (z : Z) : - 2 ^ 63 <= z < 2 ^ 63 -> to_ptrdiff z = z.
Proof. intros Hz. unfold to_ptrdiff. rewrite Z.mod_small; lia. Qed.

Section ResampleRangeFacts.
Context {F : Type} `{Real F}.

(** The three kinds of passes of the loop. *)
Lemma ResampleRange_body_first (source : list F) (targetSize : Z)
  (sampleStride exactSamplePos : Q) (sampleBefore : Z) (itrBefore : nat)
  (target : list F) (first : F) :
  source !! 0%nat = Some first ->
  (0 < length target)%nat ->
  ResampleRange_body source targetSize sampleStride 0
    (exactSamplePos, sampleBefore, itrBefore, target)
  = Ok ((exactSamplePos + sampleStride)%Q, sampleBefore, itrBefore,
        <[0%nat := first]> target).
Proof.
  intros Hfirst Hlen. unfold ResampleRange_body.
  change (Z.of_nat 0 =? 0) with true. cbn iota.
  rewrite Hfirst. cbn [lift mbind outcome_bind].
  unfold store. destruct (decide _) as [_|]; [| lia]. reflexivity.
Qed.

Lemma ResampleRange_body_last (source : list F) (targetSize : Z)
  (sampleStride exactSamplePos : Q) (sampleBefore : Z) (itrBefore : nat)
  (target : list F) (pos : nat) (last : F) :
  source !! (length source - 1)%nat = Some last ->
  (0 < pos < length target)%nat ->
  Z.of_nat pos = targetSize - 1 ->
  ResampleRange_body source targetSize sampleStride pos
    (exactSamplePos, sampleBefore, itrBefore, target)
  = Ok ((exactSamplePos + sampleStride)%Q, sampleBefore, itrBefore,
        <[pos := last]> target).
Proof.
  intros Hlast Hpos Hend. unfold ResampleRange_body.
  destruct (Z.eqb_spec (Z.of_nat pos) 0) as [|_]; [lia|].
  destruct (Z.eqb_spec (Z.of_nat pos) (targetSize - 1)) as [_|]; [| lia].
  rewrite Hlast. cbn [lift mbind outcome_bind].
  unfold store. destruct (decide _) as [_|]; [| lia]. reflexivity.
Qed.

Lemma ResampleRange_body_between (source : list F) (targetSize : Z)
  (sampleStride exactSamplePos : Q) (sampleBefore : Z) (itrBefore : nat)
  (target : list F) (pos : nat) :
  (0 < pos)%nat ->
  Z.of_nat pos <> targetSize - 1 ->
  ResampleRange_body source targetSize sampleStride pos
    (exactSamplePos, sampleBefore, itrBefore, target)
  = ('(interpolatedSample, sampleBefore, itrBefore) ←
       (let prevSample := sampleBefore in
        sampleBefore ← FloatToInt 0 (2 ^ 64 - 1) exactSamplePos;
        let ratio := Qred (exactSamplePos - inject_Z sampleBefore) in
        itrBefore ←
          lift (iter_next source itrBefore
                  (to_ptrdiff (sampleBefore - prevSample)));
        itrAfter ← lift (iter_next source itrBefore 1);
        after ← lift (source !! itrAfter);
        before ← lift (source !! itrBefore);
        let correction := ((after - before) * of_Q ratio)%F in
        Ok ((before + correction)%F, sampleBefore, itrBefore));
     target ← lift (store pos interpolatedSample target);
     Ok ((exactSamplePos + sampleStride)%Q, sampleBefore, itrBefore, target)).
Proof.
  intros Hpos Hend. unfold ResampleRange_body.
  destruct (Z.eqb_spec (Z.of_nat pos) 0) as [|_]; [lia|].
  destruct (Z.eqb_spec (Z.of_nat pos) (targetSize - 1)) as [|_]; [lia|].
  reflexivity.
Qed.

(** X19.  [ResampleRange] throws on an empty source, and on an empty
    target of a source that is not empty, writing nothing.  A target of
    the size of the source gets a copy of it.  A target of two samples
    gets the first and the last sample of the source.  A source of one
    sample and a target of three or more is undefined behaviour: the
    sample behind the only one is read. *)
Theorem X19_ResampleRange_on_the_smallest_ranges (source target : list F) :
  (source = [] ->
   ResampleRange source target
   = (Throw "std::distance(first, last) <= 0", target))
  /\ (source <> [] -> target = [] ->
      ResampleRange source target
      = (Throw "std::distance(targetFirst, targetLast) <= 0", target))
  /\ (source <> [] -> length source = length target ->
      ResampleRange source target = (Done, source))
  /\ (forall first last : F,
        length target = 2%nat ->
        source !! 0%nat = Some first ->
        source !! (length source - 1)%nat = Some last ->
        ResampleRange source target = (Done, [first; last]))
  /\ (length source = 1%nat -> (3 <= length target)%nat ->
      fst (ResampleRange source target) = UB).
Proof.
  split; [| split; [| split; [| split]]].
  - intros ->. reflexivity.
  - intros Hs ->. destruct source as [|x source]; [congruence|]. reflexivity.
  - intros Hs Hlen. unfold ResampleRange.
    destruct source as [|x source]; [congruence|].
    destruct (Z.ltb_spec 0 (Z.of_nat (length (x :: source)))) as [_|Hn];
      [| cbn [length] in Hn; lia].
    rewrite <- Hlen.
    destruct (Z.ltb_spec 0 (Z.of_nat (length (x :: source)))) as [_|Hn];
      [| cbn [length] in Hn; lia].
    rewrite Z.eqb_refl. cbn [negb].
    unfold write_at. cbn [Nat.add]. rewrite <- Hlen.
    destruct (decide _) as [_|]; [| lia].
    rewrite Hlen, drop_all, app_nil_r. reflexivity.
  - intros first last Htarget Hfirst Hlast.
    destruct target as [|a [|b [|c target]]]; try discriminate Htarget.
    unfold ResampleRange.
    assert (Hs : (0 < length source)%nat)
      by (apply lookup_lt_Some in Hfirst; exact Hfirst).
    destruct (Z.ltb_spec 0 (Z.of_nat (length source))) as [_|]; [| lia].
    change (0 <? Z.of_nat (length [a; b])) with true. cbn [negb].
    destruct (Z.eqb_spec (Z.of_nat (length source))
                (Z.of_nat (length [a; b]))) as [Heq|Hne].
    + destruct source as [|x [|y [|z source]]]; try (cbn [length] in Heq; lia).
      cbn [length Nat.sub lookup list_lookup] in Hfirst, Hlast.
      injection Hfirst as ->. injection Hlast as ->.
      reflexivity.
    + cbn [for_range length].
      rewrite (ResampleRange_body_first _ _ _ _ _ _ _ first Hfirst)
        by (cbn [length]; lia).
      cbn [mbind outcome_bind].
      rewrite (ResampleRange_body_last _ _ _ _ _ _ _ _ last Hlast)
        by (rewrite ?length_insert; cbn [length]; lia).
      reflexivity.
  - intros Hs Ht.
    destruct source as [|x [|y source]]; try discriminate Hs.
    destruct target as [|a [|b [|c target]]]; try (cbn [length] in Ht; lia).
    unfold ResampleRange.
    change (0 <? Z.of_nat (length [x])) with true.
    destruct (Z.ltb_spec 0 (Z.of_nat (length (a :: b :: c :: target))))
      as [_|Hn]; [| cbn [length] in Hn; lia].
    destruct (Z.eqb_spec (Z.of_nat (length [x]))
                (Z.of_nat (length (a :: b :: c :: target)))) as [Heq|_];
      [cbn [length] in Heq; lia|].
    cbn [negb].
    change (length (a :: b :: c :: target))
      with (Datatypes.S (Datatypes.S (length (c :: target)))).
    cbn [for_range].
    rewrite (ResampleRange_body_first _ _ _ _ _ _ _ x)
      by (cbn [length]; first [reflexivity | lia]).
    cbn [mbind outcome_bind].
    rewrite ResampleRange_body_between by (cbn [length]; lia).
    rewrite (FloatToInt_integral _ 0); [| | lia].
    2:{ change (Z.of_nat (length [x]) - 1) with 0. unfold Qdiv.
        rewrite Qmult_0_l, Qplus_0_l. reflexivity. }
    reflexivity.
Qed.

End ResampleRangeFacts.

Section ResampleRangeStride.
Context {F : Type} `{Real F}.

(** X20.  When the source has [k * (t - 1) + 1] samples for a target of
    [t >= 2] samples and an integer [k >= 2], [ResampleRange] returns and
    the target holds every [k]-th sample of the source: the first and the
    last one as they are, and each one between them with a correction
    added, the difference to the next sample of the source times a ratio
    of zero.  The source has at most [2^52] samples, so that every
    position is an integer that a [double] holds. *)
Theorem X20_ResampleRange_keeps_every_kth_sample (k : Z)
  (source target : list F) :
  2 <= k ->
  (2 <= length target)%nat ->
  Z.of_nat (length source) - 1 = k * (Z.of_nat (length target) - 1) ->
  Z.of_nat (length source) <= 2 ^ 52 ->
  ResampleRange source target
  = (Done,
     (fun pos =>
        let before := nth (pos * Z.to_nat k) source (of_Z 0) in
        let after := nth (pos * Z.to_nat k + 1) source (of_Z 0) in
        if decide (pos = 0%nat \/ pos = (length target - 1)%nat)
        then before
        else (before + (after - before) * of_Q 0)%F)
     <$> seq 0 (length target)).
Proof.
  intros Hk Ht Hs Hfit.
  set (t := length target) in *.
  set (K := Z.to_nat k).
  set (g := fun pos : nat =>
              let before := nth (pos * K) source (of_Z 0) in
              let after := nth (pos * K + 1) source (of_Z 0) in
              if decide (pos = 0%nat \/ pos = (t - 1)%nat)
              then before
              else (before + (after - before) * of_Q 0)%F).
  assert (HsK : length source = ((t - 1) * K + 1)%nat) by (subst K; nia).
  assert (HK : (2 <= K)%nat) by (subst K; lia).
  unfold ResampleRange. fold t.
  destruct (Z.ltb_spec 0 (Z.of_nat (length source))) as [Hs0|]; [| lia].
  destruct (Z.ltb_spec 0 (Z.of_nat t)) as [_|]; [| lia].
  destruct (Z.eqb_spec (Z.of_nat (length source)) (Z.of_nat t)) as [|_];
    [nia|].
  cbn [negb].
  set (stride := (inject_Z (Z.of_nat (length source) - 1)
                  / inject_Z (Z.of_nat t - 1))%Q).
  assert (Hstride : (stride == inject_Z k)%Q).
  { unfold stride. rewrite Hs, inject_Z_mult.
    field. unfold Qeq, inject_Z. simpl. lia. }
  destruct (for_range_invariant
    (fun j (st : Q * Z * nat * list F) =>
       let '(x, sb, ib, tgt) := st in
       (x == inject_Z (Z.of_nat j * k))%Q
       /\ sb = Z.of_nat (Nat.min (j - 1) (t - 2)) * k
       /\ ib = (Nat.min (j - 1) (t - 2) * K)%nat
       /\ tgt = (g <$> seq 0 j) ++ drop j target)
    (ResampleRange_body source (Z.of_nat t) stride) t 0
    (0%Q, 0, 0%nat, target)) as ([[[x sb] ib] tgt] & Hloop & Hinv).
  - split; [reflexivity|]. split; [reflexivity|]. split; [reflexivity|].
    rewrite drop_0. reflexivity.
  - intros j [[[x sb] ib] tgt] Hj (Hx & Hsb & Hib & Htgt).
    assert (Hlen : length tgt = t).
    { rewrite Htgt, length_app, length_fmap, length_seq, length_drop.
      fold t. lia. }
    assert (Hnext : (x + stride == inject_Z (Z.of_nat (Datatypes.S j) * k))%Q).
    { rewrite Hx, Hstride, <- inject_Z_plus. apply inject_Z_injective. lia. }
    assert (Hwrite : forall v, v = g j ->
              <[j := v]> tgt = (g <$> seq 0 (Datatypes.S j))
                               ++ drop (Datatypes.S j) target).
    { intros v ->. rewrite Htgt.
      rewrite insert_app_r_alt by (rewrite length_fmap, length_seq; lia).
      rewrite length_fmap, length_seq, Nat.sub_diag.
      destruct (lookup_lt_is_Some_2 target j ltac:(fold t; lia)) as [y Hy].
      rewrite (drop_S target y j Hy). cbn [insert list_insert].
      rewrite seq_S, fmap_app. cbn [fmap list_fmap Nat.add].
      rewrite <- (assoc_L (++)). reflexivity. }
    destruct (decide (j = 0%nat)) as [->|Hj0].
    + destruct (lookup_lt_is_Some_2 source 0 ltac:(lia)) as [first Hfirst].
      rewrite (ResampleRange_body_first _ _ _ _ _ _ _ first Hfirst) by lia.
      eexists. split; [reflexivity|].
      split; [exact Hnext|].
      split; [rewrite Hsb; reflexivity|].
      split; [rewrite Hib; reflexivity|].
      apply Hwrite. unfold g. cbn zeta.
      destruct (decide _) as [_|Hn]; [| exfalso; apply Hn; left; reflexivity].
      cbn [Nat.mul]. symmetry. apply nth_lookup_Some with (d := of_Z 0) in Hfirst.
      exact Hfirst.
    + destruct (decide (j = (t - 1)%nat)) as [Hjt|Hjt].
      * destruct (lookup_lt_is_Some_2 source (length source - 1) ltac:(lia))
          as [last Hlast].
        rewrite (ResampleRange_body_last _ _ _ _ _ _ _ _ last Hlast) by lia.
        eexists. split; [reflexivity|].
        split; [exact Hnext|].
        split; [rewrite Hsb; f_equal; lia|].
        split; [rewrite Hib; f_equal; lia|].
        apply Hwrite. unfold g. cbn zeta.
        destruct (decide _) as [_|Hn]; [| exfalso; apply Hn; right; exact Hjt].
        symmetry. apply nth_lookup_Some with (d := of_Z 0) in Hlast.
        rewrite <- Hlast. f_equal. rewrite HsK, Hjt. lia.
      * rewrite ResampleRange_body_between by lia.
        rewrite (FloatToInt_integral x (Z.of_nat j * k) Hx) by nia.
        cbn [mbind outcome_bind]. cbn zeta.
        rewrite Qred_zero by (rewrite Hx; ring).
        rewrite Hsb.
        replace (Z.of_nat j * k - Z.of_nat (Nat.min (j - 1) (t - 2)) * k)
          with k by nia.
        rewrite to_ptrdiff_small by lia.
        unfold iter_next. rewrite Hib.
        rewrite iter_at_Some by nia.
        cbn [lift mbind outcome_bind].
        replace (Z.to_nat (Z.of_nat (Nat.min (j - 1) (t - 2) * K) + k))
          with (j * K)%nat by (subst K; nia).
        rewrite iter_at_Some by nia.
        cbn [lift mbind outcome_bind].
        replace (Z.to_nat (Z.of_nat (j * K) + 1)) with (j * K + 1)%nat by lia.
        destruct (lookup_lt_is_Some_2 source (j * K + 1) ltac:(nia))
          as [after Hafter].
        destruct (lookup_lt_is_Some_2 source (j * K) ltac:(nia))
          as [before Hbefore].
        rewrite Hafter, Hbefore. cbn [lift mbind outcome_bind].
        unfold store. destruct (decide _) as [_|]; [| lia].
        cbn [lift mbind outcome_bind].
        eexists. split; [reflexivity|].
        split; [exact Hnext|].
        split; [f_equal; lia|].
        split; [f_equal; lia|].
        apply Hwrite. unfold g. cbn zeta.
        destruct (decide _) as [[|]|_]; [lia | lia |].
        apply nth_lookup_Some with (d := of_Z 0) in Hafter, Hbefore.
        rewrite Hafter, Hbefore. reflexivity.
  - rewrite Hloop. cbn [mbind outcome_bind in_place].
    destruct Hinv as (_ & _ & _ & ->).
    cbn [Nat.add]. change (drop t target) with (drop (length target) target).
    rewrite drop_all, app_nil_r. reflexivity.
Qed.

End ResampleRangeStride.

Lemma X20_ResampleRange_keeps_every_kth_sample_witness :
  2 <= 2 /\ (2 <= length [9; 9; 9]%Q)%nat
  /\ Z.of_nat (length [1; 2; 3; 4; 5]%Q) - 1
     = 2 * (Z.of_nat (length [9; 9; 9]%Q) - 1)
  /\ ResampleRange (F := Q) [1; 2; 3; 4; 5]%Q [9; 9; 9]%Q
     = (Done, [1; 3; 5]%Q).
Proof.
  split; [lia|]. split; [cbn; lia|]. split; [reflexivity|].
  rewrite (X20_ResampleRange_keeps_every_kth_sample (F := Q) 2
             [1; 2; 3; 4; 5]%Q [9; 9; 9]%Q
             ltac:(lia) ltac:(cbn; lia) ltac:(reflexivity)
             ltac:(cbn; lia)).
  vm_compute. reflexivity.
Defined.

Lemma X19_ResampleRange_on_the_smallest_ranges_witness :
  ResampleRange (F := Q) [] [9; 9]%Q
  = (Throw "std::distance(first, last) <= 0", [9; 9]%Q)
  /\ ResampleRange (F := Q) [1; 2; 3]%Q [9; 9]%Q = (Done, [1; 3]%Q)
  /\ fst (ResampleRange (F := Q) [1]%Q [9; 9; 9]%Q) = UB.
Proof.
  pose proof (X19_ResampleRange_on_the_smallest_ranges (F := Q) []
                [9; 9]%Q) as (Hempty & _).
  pose proof (X19_ResampleRange_on_the_smallest_ranges (F := Q) [1; 2; 3]%Q
                [9; 9]%Q) as (_ & _ & _ & Htwo & _).
  pose proof (X19_ResampleRange_on_the_smallest_ranges (F := Q) [1]%Q
                [9; 9; 9]%Q) as (_ & _ & _ & _ & Hone).
  split; [exact (Hempty eq_refl)|].
  split; [exact (Htwo 1%Q 3%Q eq_refl eq_refl eq_refl)|].
  apply Hone; [reflexivity | cbn; lia].
Defined.

(** ** Convolve: the calls that do not return *)

Lemma for_range_add {S : Type} (body : nat -> S -> outcome S) (a b i : nat)
  (s : S) :
  for_range (a + b) i body s
  = (s' ← for_range a i body s; for_range b (i + a) body s').
Proof.
  revert i s. induction a as [|a IH]; intros i s.
  - cbn [Nat.add for_range mbind outcome_bind]. rewrite Nat.add_0_r.
    reflexivity.
  - cbn [Nat.add for_range]. destruct (body i s) as [s'| | |];
      cbn [mbind outcome_bind]; try reflexivity.
    rewrite IH. replace (Datatypes.S i + a)%nat with (i + Datatypes.S a)%nat
      by lia.
    reflexivity.
Qed.

Section ConvolveEdges.
Context {V : Type} (zero : V) (add mul : V -> V -> V).

Lemma Convolve_body_outside (x h : list V) (k : nat) (r : list V) :
  (length r <= k)%nat -> Convolve_body zero add mul x h k r = UB.
Proof.
  intros Hk. unfold Convolve_body, store.
  destruct (decide (k < length r)%nat) as [|_]; [lia | reflexivity].
Qed.

(** X21.  How a call of [Convolve] ends, for all ranges.  An empty first
    range throws, then an empty second range; the output range is not
    touched.  Otherwise the call is undefined when [M+N-1] is more than an
    [int] counts or more than the output range holds, and returns in
    every other case. *)
Theorem X21_Convolve_ends_by_the_sizes_of_its_ranges (x h result : list V) :
  let K := (length x + length h - 1)%nat in
  (x = [] ->
   Convolve zero add mul x h result = (Throw "range 1 invalid", result))
  /\ (x <> [] -> h = [] ->
      Convolve zero add mul x h result = (Throw "range 2 invalid", result))
  /\ (x <> [] -> h <> [] ->
      (Machine.INT_MAX < Z.of_nat K \/ (length result < K)%nat ->
       fst (Convolve zero add mul x h result) = UB)
      /\ (Z.of_nat K <= Machine.INT_MAX -> (K <= length result)%nat ->
          fst (Convolve zero add mul x h result) = Done
          /\ length (snd (Convolve zero add mul x h result))
             = length result)).
Proof.
  intros K. split; [| split].
  - intros ->. reflexivity.
  - intros Hx ->. destruct x; [congruence | reflexivity].
  - intros Hx Hh.
    assert (HM : (0 < length x)%nat) by (destruct x; [congruence | cbn; lia]).
    assert (HN : (0 < length h)%nat) by (destruct h; [congruence | cbn; lia]).
    split.
    + intros Hbad. unfold Convolve. fold K.
      destruct (Nat.ltb_spec 0 (length x)) as [_|]; [| lia].
      destruct (Nat.ltb_spec 0 (length h)) as [_|]; [| lia]. cbn [negb].
      destruct (Z.ltb_spec Machine.INT_MAX (Z.of_nat K)) as [|Hint];
        [reflexivity|].
      destruct Hbad as [|Hshort]; [lia|].
      replace K with (length result + Datatypes.S (K - length result - 1))%nat
        by lia.
      rewrite for_range_add.
      destruct (for_range_invariant
                  (fun _ out => length out = length result)
                  (Convolve_body zero add mul x h) (length result) 0 result)
        as (out & Hloop & Hout).
      * reflexivity.
      * intros k out Hk Hlen.
        rewrite (Convolve_body_Ok zero add mul x h k out HM HN) by (fold K; lia).
        eexists. split; [reflexivity|]. rewrite length_insert. exact Hlen.
      * rewrite Hloop. cbn [mbind outcome_bind]. cbn [for_range].
        rewrite Convolve_body_outside by lia. reflexivity.
    + intros Hint Hroom.
      rewrite (Convolve_Done zero add mul x h result HM HN Hint Hroom).
      split; [reflexivity|]. cbn [snd].
      rewrite length_app, length_fmap, length_seq, length_drop. fold K. lia.
Qed.

End ConvolveEdges.

Lemma X21_Convolve_ends_by_the_sizes_of_its_ranges_witness :
  Convolve 0 Z.add Z.mul [] [] [7] = (Throw "range 1 invalid", [7])
  /\ Convolve 0 Z.add Z.mul [1; 2] [] [7] = (Throw "range 2 invalid", [7])
  /\ fst (Convolve 0 Z.add Z.mul [1; 2] [3; 4] [7; 7]) = UB
  /\ fst (Convolve 0 Z.add Z.mul [1; 2] [3; 4] [7; 7; 7; 7]) = Done.
Proof.
  pose proof (X21_Convolve_ends_by_the_sizes_of_its_ranges 0 Z.add Z.mul
                [] [] [7]) as (Hone & _).
  pose proof (X21_Convolve_ends_by_the_sizes_of_its_ranges 0 Z.add Z.mul
                [1; 2] [] [7]) as (_ & Htwo & _).
  pose proof (X21_Convolve_ends_by_the_sizes_of_its_ranges 0 Z.add Z.mul
                [1; 2] [3; 4] [7; 7]) as (_ & _ & Hshort).
  pose proof (X21_Convolve_ends_by_the_sizes_of_its_ranges 0 Z.add Z.mul
                [1; 2] [3; 4] [7; 7; 7; 7]) as (_ & _ & Hroom).
  split; [exact (Hone eq_refl)|].
  split; [apply Htwo; [discriminate | reflexivity]|].
  split.
  - apply Hshort; [discriminate | discriminate |]. right. cbn. lia.
  - apply Hroom; [discriminate | discriminate | | ].
    + unfold Machine.INT_MAX. cbn. lia.
    + cbn. lia.
Defined.

(** ** dsp_signals.hpp: Tone and MultiTone *)

Section SignalFacts.
Context {F : Type} `{Real F} `{Transcendental F}.

Lemma Tone_loop_lookup (params : ToneParams (F := F)) (timeInterval : F)
  (count i : nat) (time : F) :
  (i < count)%nat ->
  Tone_loop params timeInterval count time !! i
  = Some (Sine (amplitude params)
            (Nat.iter i (fun t => (t + timeInterval)%F) time)
            (frequency params) (phase params) (offset params)).
Proof.
  revert i time. induction count as [|count IH]; intros i time Hi; [lia|].
  cbn [Tone_loop]. destruct i as [|i]; [reflexivity|].
  cbn [lookup list_lookup]. rewrite IH by lia.
  rewrite Nat.iter_succ_r. reflexivity.
Qed.

Lemma Tone_loop_length (params : ToneParams (F := F)) (timeInterval : F)
  (count : nat) (time : F) :
  length (Tone_loop params timeInterval count time) = count.
Proof.
  revert time. induction count as [|count IH]; intros time; [reflexivity|].
  cbn [Tone_loop length]. rewrite IH. reflexivity.
Qed.

Lemma MultiTone_loop_lookup (allParams : list (ToneParams (F := F)))
  (timeInterval : F) (count i : nat) (time : F) :
  (i < count)%nat ->
  MultiTone_loop allParams timeInterval count time !! i
  = Some (MultiTone_sample allParams
            (Nat.iter i (fun t => (t + timeInterval)%F) time)).
Proof.
  revert i time. induction count as [|count IH]; intros i time Hi; [lia|].
  cbn [MultiTone_loop]. destruct i as [|i]; [reflexivity|].
  cbn [lookup list_lookup]. rewrite IH by lia.
  rewrite Nat.iter_succ_r. reflexivity.
Qed.

Lemma MultiTone_loop_length (allParams : list (ToneParams (F := F)))
  (timeInterval : F) (count : nat) (time : F) :
  length (MultiTone_loop allParams timeInterval count time) = count.
Proof.
  revert time. induction count as [|count IH]; intros time; [reflexivity|].
  cbn [MultiTone_loop length]. rewrite IH. reflexivity.
Qed.

(** X22.  [Tone] and [MultiTone] return [count] samples.  Sample [i] is
    taken at the time that [i] additions of the interval [1 / sampleRate]
    to zero give, not at [i] times the interval.  Sample [i] of [Tone] is
    [Sine] of its parameters at that time; sample [i] of [MultiTone] is
    zero with sample [i] of the [Tone] of every entry added to it, in the
    order of the entries. *)
Theorem X22_MultiTone_adds_the_samples_of_its_tones
  (allParams : list (ToneParams (F := F))) (sampleRate : F) (count : Z) :
  let time (i : nat) :=
    Nat.iter i (fun t => (t + of_Z 1 / sampleRate)%F) (of_Z 0) in
  length (MultiTone allParams sampleRate count) = Z.to_nat count
  /\ (forall params,
        length (Tone params sampleRate count) = Z.to_nat count)
  /\ forall i, (i < Z.to_nat count)%nat ->
       (forall params,
          Tone params sampleRate count !! i
          = Some (Sine (amplitude params) (time i) (frequency params)
                    (phase params) (offset params)))
       /\ MultiTone allParams sampleRate count !! i
          = Some (fold_left
                    (fun sample params =>
                       (sample
                        + nth i (Tone params sampleRate count) (of_Z 0))%F)
                    allParams (of_Z 0)).
Proof.
  intros time. unfold MultiTone, Tone.
  split; [apply MultiTone_loop_length|].
  split; [intros params; apply Tone_loop_length|].
  intros i Hi. split.
  - intros params. apply Tone_loop_lookup. exact Hi.
  - rewrite MultiTone_loop_lookup by exact Hi. f_equal.
    unfold MultiTone_sample. fold (time i).
    assert (Hfold : forall sample : F,
      fold_left
        (fun sample params =>
           (sample + Sine (amplitude params) (time i) (frequency params)
                       (phase params) (offset params))%F)
        allParams sample
      = fold_left
          (fun sample params =>
             (sample
              + nth i (Tone_loop params (of_Z 1 / sampleRate)
                         (Z.to_nat count) (of_Z 0)) (of_Z 0))%F)
          allParams sample).
    { induction allParams as [|params allParams IH]; intros sample;
        [reflexivity|].
      cbn [fold_left]. rewrite IH. do 2 f_equal.
      symmetry. apply nth_lookup_Some. apply Tone_loop_lookup. exact Hi. }
    apply Hfold.
Qed.

End SignalFacts.

Lemma X22_MultiTone_adds_the_samples_of_its_tones_witness :
  (1 < Z.to_nat 3)%nat
  /\ MultiTone (F := Q)
       [ {| amplitude := 1; frequency := 0; phase := 0; offset := 2 |};
         {| amplitude := 1; frequency := 0; phase := 0; offset := 3 |} ]%Q
       10%Q 3 !! 1%nat
     = Some 5%Q.
Proof.
  split; [cbn; lia|].
  pose proof (X22_MultiTone_adds_the_samples_of_its_tones (F := Q)
                [ {| amplitude := 1; frequency := 0; phase := 0;
                     offset := 2 |};
                  {| amplitude := 1; frequency := 0; phase := 0;
                     offset := 3 |} ]%Q 10%Q 3) as Hall.
  cbn zeta in Hall. destruct Hall as (_ & _ & Hsample).
  destruct (Hsample 1%nat ltac:(cbn; lia)) as (_ & Hmulti).
  rewrite Hmulti. vm_compute. reflexivity.
Defined.

(** ** WindowFunction::operator() *)

Lemma zip_with_take_right {A B C : Type} (f : A -> B -> C) (l : list A)
  (k : list B) :
  zip_with f l (take (length l) k) = zip_with f l k.
Proof.
  revert k. induction l as [|a l IH]; intros k; [reflexivity|].
  destruct k as [|b k]; [reflexivity|].
  cbn [length take zip_with]. rewrite IH. reflexivity.
Qed.

Section WindowCall.
Context {F : Type} `{Real F} `{Transcendental F}.

(** X23.  A window that was built accepts exactly the data of as many
    samples as [Coefficients()] returns, [EffectiveSize()] of them: any
    other number throws and writes nothing.  The call writes the products
    of the samples and those coefficients, one to one, to the start of the
    output range and leaves the rest of it as it was; an output range with
    less room is undefined behaviour. *)
Theorem X23_WindowFunction_call_multiplies_by_Coefficients (g : Generator)
  (size : Z) (ignoreLastValue : bool) (w : WindowFunction (F := F))
  (data result : list F) :
  WindowFunction_new (generate g) size ignoreLastValue = Ok w ->
  0 <= size < 2 ^ 31 ->
  exists coeffs : list F,
    Coefficients w = Ok coeffs
    /\ Z.of_nat (length coeffs) = EffectiveSize w
    /\ (length data <> length coeffs ->
        WindowFunction_apply w data result
        = (Throw "invalid data size", result))
    /\ (length data = length coeffs ->
        ((length data <= length result)%nat ->
         WindowFunction_apply w data result
         = (Done, zip_with fmul data coeffs ++ drop (length data) result))
        /\ ((length result < length data)%nat ->
            WindowFunction_apply w data result = (UB, result))).
Proof.
  intros Hw Hsize.
  destruct (Z.lt_ge_cases size 2) as [Hsmall|Hmin].
  { unfold WindowFunction_new in Hw.
    rewrite generate_too_small in Hw by (rewrite length_replicate; lia).
    discriminate Hw. }
  destruct (WindowFunction_new_Ok g size ignoreLastValue ltac:(lia))
    as (w' & all & _ & Hw' & Hc & Hlen & He).
  rewrite Hw in Hw'. injection Hw' as <-.
  set (E := if ignoreLastValue then size - 1 else size) in *.
  assert (HE : 1 <= E <= size) by (subst E; destruct ignoreLastValue; lia).
  exists (take (Z.to_nat E) all).
  assert (Htake : Z.of_nat (length (take (Z.to_nat E) all)) = E)
    by (rewrite length_take; lia).
  split.
  { unfold Coefficients. rewrite Hc, He.
    destruct (Z.eqb_spec (Z.of_nat (length all)) E) as [Heq|_].
    - rewrite firstn_all2 by lia. reflexivity.
    - rewrite to_int32_small by lia. rewrite iter_at_Some by lia.
      reflexivity. }
  split; [unfold EffectiveSize; rewrite He; exact Htake|].
  split.
  - intros Hne. unfold WindowFunction_apply. rewrite He.
    destruct (Z.eqb_spec (Z.of_nat (length data)) E) as [|_]; [lia|].
    reflexivity.
  - intros Heq.
    assert (Hdata : Z.of_nat (length data) = E) by lia.
    assert (Hzip : zip_with fmul data (take (Z.to_nat E) all)
                   = zip_with fmul data all).
    { replace (Z.to_nat E) with (length data) by lia.
      apply zip_with_take_right. }
    assert (Hzlen : length (zip_with fmul data all) = length data)
      by (rewrite length_zip_with; lia).
    unfold WindowFunction_apply. rewrite He, Hc, Hzip.
    destruct (Z.eqb_spec (Z.of_nat (length data)) E) as [_|]; [| lia].
    cbn [negb].
    destruct (decide (length data <= length all)%nat) as [_|]; [| lia].
    unfold write_at. rewrite Hzlen. cbn [Nat.add].
    split; intros Hroom.
    + destruct (decide _) as [_|]; [| lia]. rewrite take_0. reflexivity.
    + destruct (decide _) as [|_]; [lia|]. reflexivity.
Qed.

End WindowCall.

Lemma X23_WindowFunction_call_multiplies_by_Coefficients_witness :
  exists w : WindowFunction (F := Q),
    WindowFunction_new (generate RectangleGenerator) 3 true = Ok w
    /\ 0 <= 3 < 2 ^ 31
    /\ WindowFunction_apply w [5; 6]%Q [9; 9; 9]%Q = (Done, [5; 6; 9]%Q)
    /\ WindowFunction_apply w [5; 6; 7]%Q [9; 9; 9]%Q
       = (Throw "invalid data size", [9; 9; 9]%Q).
Proof.
  eexists. split; [vm_compute; reflexivity|].
  split; [lia|].
  match goal with
  | |- context [WindowFunction_apply ?w] =>
      assert (Hw : WindowFunction_new (F := Q) (generate RectangleGenerator)
                     3 true = Ok w) by (vm_compute; reflexivity);
      pose proof (X23_WindowFunction_call_multiplies_by_Coefficients (F := Q)
                    RectangleGenerator 3 true w [5; 6]%Q [9; 9; 9]%Q
                    Hw ltac:(lia)) as Htwo;
      pose proof (X23_WindowFunction_call_multiplies_by_Coefficients (F := Q)
                    RectangleGenerator 3 true w [5; 6; 7]%Q [9; 9; 9]%Q
                    Hw ltac:(lia)) as Hthree
  end.
  destruct Htwo as (c2 & Hc2 & _ & _ & Hcall).
  destruct Hthree as (c3 & Hc3 & _ & Hthrow & _).
  vm_compute in Hc2. injection Hc2 as <-.
  vm_compute in Hc3. injection Hc3 as <-.
  split.
  - rewrite (proj1 (Hcall eq_refl) ltac:(cbn; lia)). vm_compute. reflexivity.
  - apply Hthrow. cbn. lia.
Defined.

(** ** Resample: when the constructor returns *)

Section ResampleConstruction.
Context {F : Type} `{Real F} `{Transcendental F}.

Lemma FirLowPassFilter_Ok (g : Generator) (numTaps : Z)
  (cutoffFreqHz samplingFreqHz : F) :
  2 < numTaps < 2 ^ 64 ->
  (of_Z 0 <? cutoffFreqHz)%F = true ->
  (of_Z 0 <? samplingFreqHz)%F = true ->
  (cutoffFreqHz <=? samplingFreqHz / of_Z 2)%F = true ->
  exists filterCoeffs : list F,
    FirLowPassFilter numTaps cutoffFreqHz samplingFreqHz (generate g)
    = Ok filterCoeffs
    /\ Z.of_nat (length filterCoeffs) = numTaps.
Proof.
  intros Htaps Hcut Hfs Hband. unfold FirLowPassFilter.
  destruct (Z.ltb_spec 2 numTaps) as [_|]; [| lia].
  rewrite Hcut, Hfs, Hband. cbn [negb].
  match goal with
  | |- context [WindowFunction_apply _ ?ideal ?ideal] =>
      change (exists filterCoeffs : list F,
                apply_window numTaps (generate g) ideal = Ok filterCoeffs
                /\ Z.of_nat (length filterCoeffs) = numTaps);
      destruct (apply_window_Ok g numTaps ideal ltac:(lia))
        as (coeffs & _ & Hclen & Happly)
  end.
  { rewrite length_imap, length_replicate. lia. }
  rewrite Happly. eexists. split; [reflexivity|].
  rewrite length_zip_with, length_imap, length_replicate. lia.
Qed.

Lemma FilterHolder_new_Ok (signalLength : Z) (filterCoeffs : list F)
  (useFastConvolution : bool) :
  2 < signalLength ->
  (0 < length filterCoeffs)%nat ->
  exists h : FilterHolder (F := F),
    FilterHolder_new signalLength filterCoeffs useFastConvolution = Ok h.
Proof.
  intros Hs Hc. unfold FilterHolder_new.
  destruct (Z.ltb_spec 2 signalLength) as [_|]; [| lia].
  destruct (Z.ltb_spec 0 (Z.of_nat (length filterCoeffs))) as [_|]; [| lia].
  cbn [negb]. destruct useFastConvolution.
  - unfold FftConvolve_new.
    destruct (Z.ltb_spec 0 signalLength) as [_|]; [| lia].
    destruct (Z.ltb_spec 0 (Z.of_nat (length filterCoeffs))) as [_|]; [| lia].
    cbn [negb mbind outcome_bind]. eexists. reflexivity.
  - cbn [mbind outcome_bind]. eexists. reflexivity.
Qed.

(** X24.  The constructor of [Resample] returns exactly when the signal
    length and both factors are positive, [beta] is positive, there are
    more than two filter taps, the cutoff frequency it derives is above
    zero and at most half of the upsampled sampling frequency, which is
    above zero too, and the upsampled signal has more than two samples.
    In every other case it throws.  A signal of one or two upsampled
    samples is refused by the filter holder, after all other tests. *)
Theorem X24_Resample_is_built_exactly_when_all_tests_pass (N U D : Z)
  (samplingFreqHz maxCutoffFreqHz : F) (numFilterTaps : Z)
  (kaiserWindowBeta : Q) (useFastConvolution : bool) :
  0 <= N -> 0 <= U -> 0 <= D -> 0 <= numFilterTaps ->
  U * N + numFilterTaps - 1 < 2 ^ 48 ->
  let upsampledFreqHz := (samplingFreqHz * of_Z U)%F in
  let cutoffFreqHz :=
    (fmin samplingFreqHz (samplingFreqHz * of_Z U / of_Z D) / of_Z 2)%F in
  let cutoff :=
    if D <? U then fmin cutoffFreqHz maxCutoffFreqHz
    else fmax cutoffFreqHz maxCutoffFreqHz in
  let filter_designed :=
    (0 <? N) && (0 <? U) && (0 <? D) && Double.ltb 0 kaiserWindowBeta
    && (2 <? numFilterTaps) && (of_Z 0 <? cutoff)%F
    && (of_Z 0 <? upsampledFreqHz)%F
    && (cutoff <=? upsampledFreqHz / of_Z 2)%F in
  let built :=
    Resample_new N U D samplingFreqHz maxCutoffFreqHz numFilterTaps
      kaiserWindowBeta useFastConvolution in
  (filter_designed = true -> 2 < U * N ->
   exists r : Resample (F := F),
     built = Ok r /\ DataSize r = N /\ ResampledSize r = N * U / D)
  /\ (filter_designed = true -> U * N <= 2 ->
      built = Throw "signalLength is too small")
  /\ (filter_designed = false -> exists what, built = Throw what).
Proof.
  intros HN HU HD Htaps Hfit upsampledFreqHz cutoffFreqHz cutoff
    filter_designed built.
  subst built filter_designed cutoff cutoffFreqHz upsampledFreqHz.
  unfold Resample_new. cbv zeta.
  set (upsampledFreqHz := (samplingFreqHz * of_Z U)%F).
  set (cutoff := if D <? U then _ else _).
  destruct (Z.ltb_spec 0 N) as [HN'|];
    [| split; [discriminate | split; [discriminate | eauto]]].
  destruct (Z.ltb_spec 0 U) as [HU'|];
    [| split; [discriminate | split; [discriminate | eauto]]].
  destruct (Z.ltb_spec 0 D) as [HD'|];
    [| split; [discriminate | split; [discriminate | eauto]]].
  cbn [negb andb]. unfold KaiserGenerator_new.
  destruct (Double.ltb 0 kaiserWindowBeta);
    [| split; [discriminate | split; [discriminate | eauto]]].
  cbn [negb andb mbind outcome_bind].
  destruct (Z.ltb_spec 2 numFilterTaps) as [Htaps'|].
  2:{ unfold FirLowPassFilter.
      destruct (Z.ltb_spec 2 numFilterTaps) as [|_]; [lia|].
      cbn [negb andb mbind outcome_bind].
      split; [discriminate | split; [discriminate | eauto]]. }
  cbn [andb].
  destruct (of_Z 0 <? cutoff)%F eqn:Hcut.
  2:{ unfold FirLowPassFilter.
      destruct (Z.ltb_spec 2 numFilterTaps) as [_|]; [| lia].
      rewrite Hcut. cbn [negb andb mbind outcome_bind].
      split; [discriminate | split; [discriminate | eauto]]. }
  cbn [andb].
  destruct (of_Z 0 <? upsampledFreqHz)%F eqn:Hfs.
  2:{ unfold FirLowPassFilter.
      destruct (Z.ltb_spec 2 numFilterTaps) as [_|]; [| lia].
      rewrite Hcut, Hfs. cbn [negb andb mbind outcome_bind].
      split; [discriminate | split; [discriminate | eauto]]. }
  cbn [andb].
  destruct (cutoff <=? upsampledFreqHz / of_Z 2)%F eqn:Hband.
  2:{ unfold FirLowPassFilter.
      destruct (Z.ltb_spec 2 numFilterTaps) as [_|]; [| lia].
      rewrite Hcut, Hfs, Hband. cbn [negb andb mbind outcome_bind].
      split; [discriminate | split; [discriminate | eauto]]. }
  destruct (FirLowPassFilter_Ok (KaiserGenerator kaiserWindowBeta)
              numFilterTaps cutoff upsampledFreqHz ltac:(nia) Hcut Hfs Hband)
    as (filterCoeffs & Hdesign & Hlen).
  rewrite Hdesign. cbn [mbind outcome_bind].
  rewrite (wrap64_small (U * N)) by nia.
  split; [| split; [| discriminate]].
  - intros _ Hlong.
    destruct (FilterHolder_new_Ok (U * N) filterCoeffs useFastConvolution
                Hlong ltac:(lia)) as (h & Hh).
    rewrite Hh. cbn [mbind outcome_bind].
    eexists. split; [reflexivity|].
    unfold DataSize, ResampledSize.
    cbn [r_signalLength m_resampledLength].
    split; [reflexivity|].
    apply ComputeResampledSize_floor; lia.
  - intros _ Hshort. unfold FilterHolder_new.
    destruct (Z.ltb_spec 2 (U * N)) as [|_]; [lia|]. reflexivity.
Qed.

End ResampleConstruction.

Lemma X24_Resample_is_built_exactly_when_all_tests_pass_witness :
  0 <= 3 /\ 0 <= 1 /\ 0 <= 2 /\ 3 * 1 + 3 - 1 < 2 ^ 48
  /\ (exists r : Resample (F := Q),
        Resample_new 3 1 2 100%Q 50%Q 3 10%Q false = Ok r
        /\ ResampledSize r = 1)
  /\ Resample_new (F := Q) 2 1 2 100%Q 50%Q 3 10%Q false
     = Throw "signalLength is too small".
Proof.
  split; [lia|]. split; [lia|]. split; [lia|]. split; [lia|].
  pose proof (X24_Resample_is_built_exactly_when_all_tests_pass (F := Q)
                3 1 2 100%Q 50%Q 3 10%Q false
                ltac:(lia) ltac:(lia) ltac:(lia) ltac:(lia) ltac:(lia))
    as Hthree.
  pose proof (X24_Resample_is_built_exactly_when_all_tests_pass (F := Q)
                2 1 2 100%Q 50%Q 3 10%Q false
                ltac:(lia) ltac:(lia) ltac:(lia) ltac:(lia) ltac:(lia))
    as Htwo.
  cbn zeta in Hthree, Htwo.
  destruct Hthree as (Hbuilt & _). destruct Htwo as (_ & Hrefused & _).
  split.
  - destruct (Hbuilt ltac:(vm_compute; reflexivity) ltac:(lia))
      as (r & Hr & _ & Hsize).
    exists r. split; [exact Hr | exact Hsize].
  - apply Hrefused; [vm_compute; reflexivity | lia].
Defined.

(** ** The window generators: the coefficients *)

Section WindowGeneratorValues.
Context {F : Type} `{Real F} `{Transcendental F}.

(** [WindowGenerator] evaluates the formula on the first half of the
    indices, the middle one included, and mirrors the values. *)
Lemma WindowGenerator_values (evalCoeff : F -> F -> outcome F)
  (windowCoeffs : list F) :
  (forall n s, exists c, evalCoeff n s = Ok c) ->
  (2 <= length windowCoeffs)%nat ->
  Z.of_nat (length windowCoeffs) < 2 ^ 64 ->
  exists w,
    WindowGenerator evalCoeff windowCoeffs = Ok w
    /\ length w = length windowCoeffs
    /\ forall n c, (n < length windowCoeffs)%nat ->
         evalCoeff (of_nat (Nat.min n (length windowCoeffs - 1 - n)))
           (of_Z (Z.of_nat (length windowCoeffs) - 1)) = Ok c ->
         w !! n = Some c.
Proof.
  intros Hev Hsize Hfit. unfold WindowGenerator.
  set (L := length windowCoeffs) in *.
  set (s := of_Z (Z.of_nat L - 1)).
  destruct (Z.ltb_spec 1 (Z.of_nat L)) as [_|]; [| lia]. cbn [negb].
  rewrite Z.shiftr_div_pow2 by lia. change (2 ^ 1) with 2.
  set (h := Z.to_nat (Z.of_nat L / 2)).
  assert (Hh : (2 * h <= L /\ L <= 2 * h + 1)%nat).
  { subst h. pose proof (Z.div_mod (Z.of_nat L) 2 ltac:(lia)).
    pose proof (Z.mod_pos_bound (Z.of_nat L) 2 ltac:(lia)).
    pose proof (Z.div_pos (Z.of_nat L) 2 ltac:(lia) ltac:(lia)). lia. }
  assert (Hhz : Z.of_nat h = Z.of_nat L / 2).
  { subst h. pose proof (Z.div_pos (Z.of_nat L) 2 ltac:(lia) ltac:(lia)).
    lia. }
  rewrite (wrap64_small (Z.of_nat L - 1)) by lia.
  destruct (for_range_invariant
    (fun j (st : Z * list F) =>
       fst st = Z.of_nat L - 1 - Z.of_nat j
       /\ length (snd st) = L
       /\ forall n c, (n < j)%nat -> evalCoeff (of_nat n) s = Ok c ->
            snd st !! n = Some c /\ snd st !! (L - 1 - n)%nat = Some c)
    (WindowGenerator_body evalCoeff s) h 0
    (Z.of_nat L - 1, windowCoeffs)) as ([nRev w] & Hloop & HnRev & Hlen & Hval).
  - cbn [fst snd]. split; [lia|]. split; [reflexivity|]. intros n c Hn. lia.
  - intros j [nRev w] Hj (HnRev & Hlen & Hval). cbn [fst snd] in *.
    unfold WindowGenerator_body.
    destruct (Hev (of_nat j) s) as [c Hc].
    rewrite Hc. cbn [mbind outcome_bind].
    rewrite store_Some by lia. cbn [lift mbind outcome_bind].
    rewrite list_lookup_insert_eq by lia. cbn [lift mbind outcome_bind].
    rewrite store_Some by (rewrite length_insert; lia).
    cbn [lift mbind outcome_bind].
    eexists. split; [reflexivity|]. cbn [fst snd].
    split; [rewrite wrap64_small; lia|].
    split; [rewrite !length_insert; exact Hlen|].
    subst nRev.
    replace (Z.to_nat (Z.of_nat L - 1 - Z.of_nat j)) with (L - 1 - j)%nat
      by lia.
    intros n c' Hn Hc'.
    destruct (Nat.eq_dec n j) as [->|Hne].
    + rewrite Hc in Hc'. injection Hc' as <-.
      split.
      * rewrite list_lookup_insert_ne by lia.
        rewrite list_lookup_insert_eq by lia. reflexivity.
      * rewrite list_lookup_insert_eq by (rewrite length_insert; lia).
        reflexivity.
    + rewrite !list_lookup_insert_ne by lia. apply Hval; [lia | exact Hc'].
  - rewrite Hloop. cbn [mbind outcome_bind]. cbn [fst snd] in *.
    destruct (Z.eqb_spec (Z.of_nat L mod 2) 1) as [Hodd|Heven].
    + destruct (Hev (of_Z (Z.of_nat L / 2)) s) as [c Hc].
      rewrite Hc. cbn [mbind outcome_bind]. fold h.
      assert (HL : L = (2 * h + 1)%nat).
      { pose proof (Z.div_mod (Z.of_nat L) 2 ltac:(lia)). lia. }
      rewrite store_Some by lia. cbn [lift].
      eexists. split; [reflexivity|].
      split; [rewrite length_insert; exact Hlen|].
      intros n c' Hn Hc'.
      destruct (Nat.eq_dec n h) as [->|Hne].
      * replace (Nat.min h (L - 1 - h)) with h in Hc' by lia.
        unfold of_nat in Hc'. rewrite Hhz, Hc in Hc'. injection Hc' as <-.
        rewrite list_lookup_insert_eq by lia. reflexivity.
      * rewrite list_lookup_insert_ne by lia.
        destruct (Nat.lt_ge_cases n h) as [Hlt|Hge].
        -- replace (Nat.min n (L - 1 - n)) with n in Hc' by lia.
           apply (Hval n c' Hlt Hc').
        -- replace (Nat.min n (L - 1 - n)) with (L - 1 - n)%nat in Hc' by lia.
           destruct (Hval (L - 1 - n)%nat c' ltac:(lia) Hc') as [_ Hmirror].
           replace (L - 1 - (L - 1 - n))%nat with n in Hmirror by lia.
           exact Hmirror.
    + assert (HL : L = (2 * h)%nat).
      { pose proof (Z.div_mod (Z.of_nat L) 2 ltac:(lia)).
        pose proof (Z.mod_pos_bound (Z.of_nat L) 2 ltac:(lia)). lia. }
      exists w. split; [reflexivity|]. split; [exact Hlen|].
      intros n c' Hn Hc'.
      destruct (Nat.lt_ge_cases n h) as [Hlt|Hge].
      * replace (Nat.min n (L - 1 - n)) with n in Hc' by lia.
        apply (Hval n c' Hlt Hc').
      * replace (Nat.min n (L - 1 - n)) with (L - 1 - n)%nat in Hc' by lia.
        destruct (Hval (L - 1 - n)%nat c' ltac:(lia) Hc') as [_ Hmirror].
        replace (L - 1 - (L - 1 - n))%nat with n in Hmirror by lia.
        exact Hmirror.
Qed.

(** X25.  What a generator leaves in a vector of [N >= 2] entries does
    not depend on what the vector held.  [RectangleGenerator] leaves [N]
    ones.  Every other generator leaves, at index [n], the value of its
    formula [EvaluateCoefficient] at the smaller one of [n] and
    [N - 1 - n], with [N - 1] as the size minus one: the formula is
    evaluated on the first half, the middle included, and mirrored. *)
Theorem X25_generated_window_holds_the_formula_mirrored (g : Generator)
  (windowCoeffs : list F) :
  let N := length windowCoeffs in
  (2 <= N)%nat ->
  Z.of_nat N < 2 ^ 64 ->
  exists w : list F,
    generate g windowCoeffs = Ok w
    /\ length w = N
    /\ (g = RectangleGenerator -> w = replicate N (of_Z 1))
    /\ (g <> RectangleGenerator ->
        forall n, (n < N)%nat ->
          exists c,
            EvaluateCoefficient g (of_nat (Nat.min n (N - 1 - n)))
              (of_Z (Z.of_nat N - 1)) = Ok c
            /\ w !! n = Some c).
Proof.
  intros N Hsize Hfit.
  assert (Hgen : g <> RectangleGenerator ->
            generate g windowCoeffs
            = WindowGenerator (EvaluateCoefficient g) windowCoeffs)
    by (destruct g; try reflexivity; congruence).
  assert (Hcase : g = RectangleGenerator \/ g <> RectangleGenerator)
    by (destruct g; first [left; reflexivity | right; discriminate]).
  destruct Hcase as [->|Hg].
  - unfold generate. fold N.
    destruct (Z.ltb_spec 1 (Z.of_nat N)) as [_|]; [| lia].
    cbn [negb]. unfold fill_from.
    destruct (decide _) as [_|]; [| lia]. cbn [lift].
    rewrite take_0, Nat.sub_0_r. cbn [app]. fold N.
    eexists. split; [reflexivity|].
    split; [apply length_replicate|].
    split; [reflexivity | congruence].
  - destruct (WindowGenerator_values (EvaluateCoefficient g) windowCoeffs
                (EvaluateCoefficient_Ok g) Hsize Hfit)
      as (w & Hw & Hlen & Hval).
    exists w. rewrite (Hgen Hg). split; [exact Hw|].
    split; [exact Hlen|]. split; [congruence|].
    intros _ n Hn.
    destruct (EvaluateCoefficient_Ok g (of_nat (Nat.min n (N - 1 - n)))
                (of_Z (Z.of_nat N - 1))) as [c Hc].
    exists c. split; [exact Hc|]. apply Hval; [exact Hn | exact Hc].
Qed.

End WindowGeneratorValues.

Lemma X25_generated_window_holds_the_formula_mirrored_witness :
  (2 <= length [9; 9; 9]%Q)%nat
  /\ Z.of_nat (length [9; 9; 9]%Q) < 2 ^ 64
  /\ generate (F := Q) BartlettGenerator [9; 9; 9]%Q = Ok [0; 1; 0]%Q.
Proof.
  split; [cbn; lia|]. split; [cbn; lia|].
  destruct (X25_generated_window_holds_the_formula_mirrored (F := Q)
              BartlettGenerator [9; 9; 9]%Q ltac:(cbn; lia) ltac:(cbn; lia))
    as (w & Hw & _ & _ & _).
  rewrite Hw. vm_compute in Hw. injection Hw as <-. reflexivity.
Defined.
